(** * Tiled sparse-times-dense multiply: a shallow embedding

    The development follows the C++ sources under [scRNA/source]:
    [spmm_baseline.cpp], [permutation.cpp], [tiler.cpp], [tile_spmm.cpp],
    [dense_spmm.cpp] and [spmm.cpp].

    Modelling conventions.
    - [int] and [size_t] values are integers of [Z]; signed overflow is
      undefined behaviour in C++ and lies outside the model.
    - [float] values are modelled by [Z]: arithmetic is exact, so sums may be
      reordered.  Statements about results are statements over exact
      arithmetic.
    - [double] densities and thresholds are exact rationals of [Q].
    - A [std::vector] is a list.  Reading or writing outside its bounds is
      undefined behaviour in C++; the model makes this outcome explicit as
      [Undef].  A [throw] is the outcome [Throw].
    - [std::sort] is not part of the repository.  Theorems take it through
      its contract (class [StdSort]): the result is a permutation of the
      input, ordered by the comparator; the order of equivalent elements is
      left open, as the C++ standard leaves it.  Two implementations meet
      the contract here: a stable insertion sort, and the [std::sort] of
      GCC's libstdc++ ([bits/stl_algo.h], [bits/stl_heap.h]), which is not
      stable on ranges of more than sixteen elements.
    - Logging, timing and the FLOP and byte counters do not influence any
      value studied here and are left out.  OpenMP loops are run
      sequentially; their iterations write disjoint cells. *)

From Stdlib Require Import String DecimalString.
From Stdlib Require Import QArith ZArith List Lia Bool Permutation Sorted.
Import ListNotations.
Open Scope Z_scope.

(** ** Outcomes of a computation *)

Inductive result (A : Type) : Type :=
| Ok (a : A)
| Throw (msg : string)
| Undef.
Arguments Ok {A} a.
Arguments Throw {A} msg.
Arguments Undef {A}.

Definition bind {A B} (e : result A) (k : A -> result B) : result B :=
  match e with
  | Ok a => k a
  | Throw m => Throw m
  | Undef => Undef
  end.

Notation "x <- e ;; k" := (bind e (fun x => k))
  (at level 61, e at next level, right associativity).
Notation "' p <- e ;; k" := (bind e (fun p => k))
  (at level 61, p pattern, e at next level, right associativity).

(** ** Vectors indexed by integers *)

Definition zlen {A} (v : list A) : Z := Z.of_nat (length v).

Definition zth {A} (d : A) (v : list A) (i : Z) : A := nth (Z.to_nat i) v d.

Definition in_range (i n : Z) : bool := (0 <=? i) && (i <? n).

(** [v[i]] *)
Definition vget {A} (v : list A) (i : Z) : result A :=
  if in_range i (zlen v)
  then match nth_error v (Z.to_nat i) with Some x => Ok x | None => Undef end
  else Undef.

Fixpoint upd {A} (v : list A) (n : nat) (x : A) : list A :=
  match v, n with
  | [], _ => []
  | _ :: t, O => x :: t
  | h :: t, S n' => h :: upd t n' x
  end.

(** [v[i] = x] *)
Definition vset {A} (v : list A) (i : Z) (x : A) : result (list A) :=
  if in_range i (zlen v) then Ok (upd v (Z.to_nat i) x) else Undef.

(** [vector<T> v(n, x)], [assign(n, x)], [resize(n)] on an empty vector.  A
    negative [int] converted to [size_t] is out of reach of the allocator. *)
Definition valloc {A} (n : Z) (x : A) : result (list A) :=
  if n <? 0 then Throw "length_error" else Ok (repeat x (Z.to_nat n)).

(** ** Loops *)

Fixpoint for_nat {S} (n : nat) (i : Z) (body : Z -> S -> result S) (s : S)
  : result S :=
  match n with
  | O => Ok s
  | Datatypes.S n' => s' <- body i s ;; for_nat n' (i + 1) body s'
  end.

(** [for (int i = a; i < b; i++) body] *)
Definition for_range {S} (a b : Z) (body : Z -> S -> result S) (s : S)
  : result S :=
  for_nat (Z.to_nat (b - a)) a body s.

(** [for (const auto& x : l) body] *)
Fixpoint for_each {A S} (l : list A) (body : A -> S -> result S) (s : S)
  : result S :=
  match l with
  | [] => Ok s
  | x :: t => s' <- body x s ;; for_each t body s'
  end.

(** [a, a+1, ..., a+n-1] *)
Fixpoint zseq (a : Z) (n : nat) : list Z :=
  match n with
  | O => []
  | Datatypes.S n' => a :: zseq (a + 1) n'
  end.

Definition zrange (a len : Z) : list Z := zseq a (Z.to_nat len).

(** ** The contract of [std::sort] *)

Record strict_weak_order {A} (lt : A -> A -> bool) : Prop := {
  swo_irrefl : forall a, lt a a = false;
  swo_trans : forall a b c, lt a b = true -> lt b c = true -> lt a c = true;
  swo_incomp : forall a b c,
      lt a b = false -> lt b a = false ->
      lt b c = false -> lt c b = false ->
      lt a c = false /\ lt c a = false
}.

Class StdSort : Type := {
  std_sort : forall {A}, (A -> A -> bool) -> list A -> list A;
  std_sort_perm : forall A (lt : A -> A -> bool) l,
      strict_weak_order lt -> Permutation l (std_sort lt l);
  std_sort_sorted : forall A (lt : A -> A -> bool) l,
      strict_weak_order lt ->
      StronglySorted (fun a b => lt b a = false) (std_sort lt l)
}.

(** ** CSR matrices ([csr.hpp]) *)

Record CSR : Type := {
  nrows : Z;
  ncols : Z;
  nnz : Z;
  indptr : list Z;
  indices : list Z;
  data : list Z
}.

(** ** Tiles ([tiler.hpp]); the field [nnz] of the source is [tile_nnz] *)

Record Tile : Type := {
  row_start : Z;
  row_end : Z;
  col_start : Z;
  col_end : Z;
  tile_nnz : Z;
  is_dense : bool
}.

Record TilingConfig : Type := {
  tile_rows : Z;
  tile_cols : Z
}.

(** [Tile::density] *)
Definition density (t : Tile) : Q :=
  let rows := row_end t - row_start t in
  let cols := col_end t - col_start t in
  if (rows =? 0) || (cols =? 0) then 0%Q
  else (inject_Z (tile_nnz t) / (inject_Z rows * inject_Z cols))%Q.

(** [hw_config::DENSE_TILE_THRESHOLD = 0.05] *)
Definition DENSE_TILE_THRESHOLD : Q := (5 # 100)%Q.

(** ** [spmm_baseline.cpp] *)

(** [std::to_string] of an [int]: decimal digits, with a sign when
    negative. *)
Definition to_string (n : Z) : string :=
  NilZero.string_of_int (Z.to_int n).

Definition spmm_baseline (X : CSR) (W : list Z) (W_rows W_cols : Z)
  : result (list Z) :=
  if negb (ncols X =? W_rows) then
    Throw ("Matrix dimension mismatch: X.ncols=" ++ to_string (ncols X)
           ++ " != W.nrows=" ++ to_string W_rows)
  else
  let Y_rows := nrows X in
  let Y_cols := W_cols in
  Y0 <- valloc (Y_rows * Y_cols) 0 ;;
  for_range 0 (nrows X) (fun i Y =>
    rstart <- vget (indptr X) i ;;
    rend <- vget (indptr X) (i + 1) ;;
    for_range rstart rend (fun idx Y =>
      k <- vget (indices X) idx ;;
      x_val <- vget (data X) idx ;;
      for_range 0 W_cols (fun j Y =>
        w <- vget W (k * W_cols + j) ;;
        y <- vget Y (i * Y_cols + j) ;;
        vset Y (i * Y_cols + j) (y + x_val * w)) Y) Y) Y0.

(** ** [permutation.cpp] *)

Definition compute_nnz_per_row (X : CSR) : result (list Z) :=
  v0 <- valloc (nrows X) 0 ;;
  for_range 0 (nrows X) (fun i v =>
    a <- vget (indptr X) (i + 1) ;;
    b <- vget (indptr X) i ;;
    vset v i (a - b)) v0.

(** [std::iota] followed by [std::sort] with a comparator on the counts.  The
    comparator only ever sees elements of the iota, which index the counts. *)
Definition create_row_new2old `{StdSort} (nnz_per_row : list Z)
  (descending : bool) : list Z :=
  let n := zlen nnz_per_row in
  let row_new2old := zrange 0 n in
  if descending
  then std_sort (fun a b => zth 0 nnz_per_row a >? zth 0 nnz_per_row b)
                row_new2old
  else std_sort (fun a b => zth 0 nnz_per_row a <? zth 0 nnz_per_row b)
                row_new2old.

Definition create_col_new2old `{StdSort} (nnz_per_col : list Z)
  (descending : bool) : list Z :=
  let n := zlen nnz_per_col in
  let col_new2old := zrange 0 n in
  if descending
  then std_sort (fun a b => zth 0 nnz_per_col a >? zth 0 nnz_per_col b)
                col_new2old
  else std_sort (fun a b => zth 0 nnz_per_col a <? zth 0 nnz_per_col b)
                col_new2old.

(** The block "sort each row by column index", which closes
    [permute_csr_rows], [unpermute_csr_rows] and [permute_csr_cols] with the
    same text.  The state is the pair of arrays [(indices, data)]. *)
Definition sort_each_row `{StdSort} (n_rows : Z) (ptr : list Z)
  (id : list Z * list Z) : result (list Z * list Z) :=
  for_range 0 n_rows (fun i '(ind, dat) =>
    rstart <- vget ptr i ;;
    rend <- vget ptr (i + 1) ;;
    (* row_data.reserve(end - start) *)
    if rend - rstart <? 0 then Throw "length_error" else
    row_data <- for_range rstart rend (fun idx (row_data : list (Z * Z)) =>
      c <- vget ind idx ;;
      v <- vget dat idx ;;
      Ok (row_data ++ [(c, v)])) [] ;;
    let row_data := std_sort (fun a b => fst a <? fst b) row_data in
    for_range 0 (zlen row_data) (fun k '(ind, dat) =>
      e <- vget row_data k ;;
      ind <- vset ind (rstart + k) (fst e) ;;
      dat <- vset dat (rstart + k) (snd e) ;;
      Ok (ind, dat)) (ind, dat)) id.

Definition permute_csr_rows `{StdSort} (X : CSR) (row_new2old : list Z)
  : result CSR :=
  if negb (zlen row_new2old =? nrows X)
  then Throw "permute_csr_rows: row_new2old size mismatch" else
  ptr0 <- valloc (nrows X + 1) 0 ;;
  ind0 <- valloc (nnz X) 0 ;;
  dat0 <- valloc (nnz X) 0 ;;
  (* first pass: count nnz per new row *)
  ptr <- for_range 0 (nrows X) (fun i_new ptr =>
    i_old <- vget row_new2old i_new ;;
    rstart <- vget (indptr X) i_old ;;
    rend <- vget (indptr X) (i_old + 1) ;;
    let row_nnz := rend - rstart in
    p <- vget ptr i_new ;;
    vset ptr (i_new + 1) (p + row_nnz)) ptr0 ;;
  (* second pass: copy rows *)
  let write_ptr := ptr in
  '(_, ind, dat) <- for_range 0 (nrows X) (fun i_new st =>
    i_old <- vget row_new2old i_new ;;
    rstart <- vget (indptr X) i_old ;;
    rend <- vget (indptr X) (i_old + 1) ;;
    for_range rstart rend (fun idx '(write_ptr, ind, dat) =>
      dest <- vget write_ptr i_new ;;
      write_ptr <- vset write_ptr i_new (dest + 1) ;;
      c <- vget (indices X) idx ;;
      ind <- vset ind dest c ;;
      v <- vget (data X) idx ;;
      dat <- vset dat dest v ;;
      Ok (write_ptr, ind, dat)) st) (write_ptr, ind0, dat0) ;;
  '(ind, dat) <- sort_each_row (nrows X) ptr (ind, dat) ;;
  Ok {| nrows := nrows X; ncols := ncols X; nnz := nnz X;
        indptr := ptr; indices := ind; data := dat |}.

Definition permute_weight_rows (W : list Z) (W_rows W_cols : Z)
  (row_new2old : list Z) : result (list Z) :=
  if negb (zlen row_new2old =? W_rows)
  then Throw "permute_weight_rows: row_new2old size mismatch" else
  if negb (zlen W =? W_rows * W_cols)
  then Throw "permute_weight_rows: W size mismatch" else
  Wp0 <- valloc (W_rows * W_cols) 0 ;;
  for_range 0 W_rows (fun i_new Wp =>
    i_old <- vget row_new2old i_new ;;
    if (i_old <? 0) || (i_old >=? W_rows)
    then Throw "permute_weight_rows: invalid row_new2old entry" else
    for_range 0 W_cols (fun j Wp =>
      w <- vget W (i_old * W_cols + j) ;;
      vset Wp (i_new * W_cols + j) w) Wp) Wp0.

Definition unpermute_csr_rows `{StdSort} (X_permuted : CSR)
  (row_new2old : list Z) : result CSR :=
  if negb (zlen row_new2old =? nrows X_permuted)
  then Throw "unpermute_csr_rows: row_new2old size mismatch" else
  let n := nrows X_permuted in
  ptr0 <- valloc (n + 1) 0 ;;
  ind0 <- valloc (nnz X_permuted) 0 ;;
  dat0 <- valloc (nnz X_permuted) 0 ;;
  (* first pass: count nnz per old row *)
  ptr <- for_range 0 n (fun i_new ptr =>
    i_old <- vget row_new2old i_new ;;
    if (i_old <? 0) || (i_old >=? n)
    then Throw "unpermute_csr_rows: invalid row_new2old entry" else
    rstart <- vget (indptr X_permuted) i_new ;;
    rend <- vget (indptr X_permuted) (i_new + 1) ;;
    let row_nnz := rend - rstart in
    p <- vget ptr (i_old + 1) ;;
    vset ptr (i_old + 1) (p + row_nnz)) ptr0 ;;
  (* build cumulative indptr *)
  ptr <- for_range 0 n (fun i ptr =>
    a <- vget ptr (i + 1) ;;
    b <- vget ptr i ;;
    vset ptr (i + 1) (a + b)) ptr ;;
  (* second pass: copy rows to original positions *)
  let write_ptr := ptr in
  '(_, ind, dat) <- for_range 0 n (fun i_new st =>
    i_old <- vget row_new2old i_new ;;
    rstart <- vget (indptr X_permuted) i_new ;;
    rend <- vget (indptr X_permuted) (i_new + 1) ;;
    for_range rstart rend (fun idx '(write_ptr, ind, dat) =>
      dest <- vget write_ptr i_old ;;
      write_ptr <- vset write_ptr i_old (dest + 1) ;;
      c <- vget (indices X_permuted) idx ;;
      ind <- vset ind dest c ;;
      v <- vget (data X_permuted) idx ;;
      dat <- vset dat dest v ;;
      Ok (write_ptr, ind, dat)) st) (write_ptr, ind0, dat0) ;;
  '(ind, dat) <- sort_each_row n ptr (ind, dat) ;;
  Ok {| nrows := n; ncols := ncols X_permuted; nnz := nnz X_permuted;
        indptr := ptr; indices := ind; data := dat |}.

Definition unpermute_rows (Y_prime : list Z) (Y_rows Y_cols : Z)
  (row_new2old : list Z) : result (list Z) :=
  if negb (zlen row_new2old =? Y_rows)
  then Throw "unpermute_rows: row_new2old size mismatch" else
  if negb (zlen Y_prime =? Y_rows * Y_cols)
  then Throw "unpermute_rows: Y_prime size mismatch" else
  Y0 <- valloc (Y_rows * Y_cols) 0 ;;
  for_range 0 Y_rows (fun i_new Y =>
    i_old <- vget row_new2old i_new ;;
    if (i_old <? 0) || (i_old >=? Y_rows)
    then Throw "unpermute_rows: invalid row_new2old entry" else
    for_range 0 Y_cols (fun j Y =>
      y <- vget Y_prime (i_new * Y_cols + j) ;;
      vset Y (i_old * Y_cols + j) y) Y) Y0.

Definition permute_csr_cols `{StdSort} (X : CSR) (col_new2old : list Z)
  : result CSR :=
  if negb (zlen col_new2old =? ncols X)
  then Throw "permute_csr_cols: col_new2old size mismatch" else
  o2n0 <- valloc (ncols X) 0 ;;
  col_old2new <- for_range 0 (ncols X) (fun new_col o2n =>
    old_col <- vget col_new2old new_col ;;
    if (old_col <? 0) || (old_col >=? ncols X)
    then Throw "permute_csr_cols: invalid col_new2old entry" else
    vset o2n old_col new_col) o2n0 ;;
  ind0 <- valloc (nnz X) 0 ;;
  ind <- for_range 0 (nnz X) (fun i ind =>
    old_col <- vget (indices X) i ;;
    if (old_col <? 0) || (old_col >=? ncols X)
    then Throw "permute_csr_cols: invalid column index in X" else
    c <- vget col_old2new old_col ;;
    vset ind i c) ind0 ;;
  '(ind, dat) <- sort_each_row (nrows X) (indptr X) (ind, data X) ;;
  Ok {| nrows := nrows X; ncols := ncols X; nnz := nnz X;
        indptr := indptr X; indices := ind; data := dat |}.

Definition compute_nnz_per_col (X : CSR) : result (list Z) :=
  v0 <- valloc (ncols X) 0 ;;
  for_range 0 (nnz X) (fun i v =>
    col <- vget (indices X) i ;;
    if (col >=? 0) && (col <? ncols X)
    then c <- vget v col ;; vset v col (c + 1)
    else Ok v) v0.

(** The inverse map [col_old2new] is built, with its range check, and then
    not used: the remap reads [col_new2old] itself. *)
Definition unpermute_csr_cols `{StdSort} (X_permuted : CSR)
  (col_new2old : list Z) : result CSR :=
  if negb (zlen col_new2old =? ncols X_permuted)
  then Throw "unpermute_csr_cols: col_new2old size mismatch" else
  o2n0 <- valloc (ncols X_permuted) 0 ;;
  _ <- for_range 0 (ncols X_permuted) (fun new_col o2n =>
    old_col <- vget col_new2old new_col ;;
    if (old_col <? 0) || (old_col >=? ncols X_permuted)
    then Throw "unpermute_csr_cols: invalid col_new2old entry" else
    vset o2n old_col new_col) o2n0 ;;
  ind0 <- valloc (nnz X_permuted) 0 ;;
  ind <- for_range 0 (nnz X_permuted) (fun i ind =>
    new_col <- vget (indices X_permuted) i ;;
    if (new_col <? 0) || (new_col >=? ncols X_permuted)
    then Throw "unpermute_csr_cols: invalid column index in X_permuted" else
    old_col <- vget col_new2old new_col ;;
    vset ind i old_col) ind0 ;;
  '(ind, dat) <- sort_each_row (nrows X_permuted) (indptr X_permuted)
                   (ind, data X_permuted) ;;
  Ok {| nrows := nrows X_permuted; ncols := ncols X_permuted;
        nnz := nnz X_permuted;
        indptr := indptr X_permuted; indices := ind; data := dat |}.

(** ** [tiler.cpp] *)

(** [static_cast<int>(ceil(static_cast<double>(n) / t))]: for [int] operands
    and [t <> 0] the quotient is computed without rounding error that could
    cross an integer, so the value is the ceiling of the exact quotient. *)
Definition ceil_div (n t : Z) : Z := - ((- n) / t).

Definition mk_tile (rs re cs ce : Z) : Tile :=
  {| row_start := rs; row_end := re; col_start := cs; col_end := ce;
     tile_nnz := 0; is_dense := false |}.

Definition incr_nnz (t : Tile) : Tile :=
  {| row_start := row_start t; row_end := row_end t;
     col_start := col_start t; col_end := col_end t;
     tile_nnz := tile_nnz t + 1; is_dense := is_dense t |}.

Definition make_2d_tiles (X_prime : CSR) (cfg : TilingConfig)
  : result (list Tile) :=
  let n_rows := nrows X_prime in
  let n_cols := ncols X_prime in
  let T_R := tile_rows cfg in
  let T_C := tile_cols cfg in
  (* a zero tile size makes the quotient infinite or NaN; its conversion to
     int is undefined *)
  if (T_R =? 0) || (T_C =? 0) then Undef else
  let num_row_tiles := ceil_div n_rows T_R in
  let num_col_tiles := ceil_div n_cols T_C in
  if num_row_tiles * num_col_tiles <? 0 then Throw "length_error" else
  tiles <- for_range 0 num_row_tiles (fun rb tiles =>
    for_range 0 num_col_tiles (fun cb tiles =>
      let rstart := rb * T_R in
      let rend := Z.min (rstart + T_R) n_rows in
      let cstart := cb * T_C in
      let cend := Z.min (cstart + T_C) n_cols in
      Ok (tiles ++ [mk_tile rstart rend cstart cend])) tiles) [] ;;
  (* scan CSR and count nnz per tile *)
  for_range 0 n_rows (fun i tiles =>
    row_start_idx <- vget (indptr X_prime) i ;;
    row_end_idx <- vget (indptr X_prime) (i + 1) ;;
    for_range row_start_idx row_end_idx (fun idx tiles =>
      j <- vget (indices X_prime) idx ;;
      let rb := Z.quot i T_R in
      let cb := Z.quot j T_C in
      if (rb >=? 0) && (rb <? num_row_tiles) && (cb >=? 0)
         && (cb <? num_col_tiles)
      then
        let tile_idx := rb * num_col_tiles + cb in
        t <- vget tiles tile_idx ;;
        vset tiles tile_idx (incr_nnz t)
      else Ok tiles) tiles) tiles.

Definition set_is_dense (t : Tile) (b : bool) : Tile :=
  {| row_start := row_start t; row_end := row_end t;
     col_start := col_start t; col_end := col_end t;
     tile_nnz := tile_nnz t; is_dense := b |}.

(** The tiles are classified in place; the model returns the classified
    tiles together with the pair of counts. *)
Definition predict_tile_density (tiles : list Tile) (threshold : Q)
  : list Tile * (Z * Z) :=
  fold_left (fun '(done, (dense_count, sparse_count)) tile =>
    let tile := set_is_dense tile (Qle_bool threshold (density tile)) in
    if is_dense tile
    then (done ++ [tile], (dense_count + 1, sparse_count))
    else (done ++ [tile], (dense_count, sparse_count + 1)))
    tiles ([], (0, 0)).

Definition tile_density (t : Tile) : Q := density t.

(** ** [tile_spmm.cpp] *)

Definition extract_tile_csr (X : CSR) (tile : Tile) : result CSR :=
  let n := row_end tile - row_start tile in
  let nc := col_end tile - col_start tile in
  ptr0 <- valloc (n + 1) 0 ;;
  (* first pass: count nnz per row in the tile *)
  '(ptr, tnnz) <- for_range (row_start tile) (row_end tile)
    (fun i '(ptr, tnnz) =>
      let tile_row := i - row_start tile in
      rstart <- vget (indptr X) i ;;
      rend <- vget (indptr X) (i + 1) ;;
      row_nnz <- for_range rstart rend (fun idx row_nnz =>
        col <- vget (indices X) idx ;;
        if (col >=? col_start tile) && (col <? col_end tile)
        then Ok (row_nnz + 1) else Ok row_nnz) 0 ;;
      p <- vget ptr tile_row ;;
      ptr <- vset ptr (tile_row + 1) (p + row_nnz) ;;
      Ok (ptr, tnnz + row_nnz)) (ptr0, 0) ;;
  (* second pass: copy data with remapped column indices *)
  ind0 <- valloc tnnz 0 ;;
  dat0 <- valloc tnnz 0 ;;
  let write_ptr := ptr in
  '(_, ind, dat) <- for_range (row_start tile) (row_end tile) (fun i st =>
    let tile_row := i - row_start tile in
    rstart <- vget (indptr X) i ;;
    rend <- vget (indptr X) (i + 1) ;;
    for_range rstart rend (fun idx '(write_ptr, ind, dat) =>
      col <- vget (indices X) idx ;;
      if (col >=? col_start tile) && (col <? col_end tile)
      then
        dest <- vget write_ptr tile_row ;;
        write_ptr <- vset write_ptr tile_row (dest + 1) ;;
        ind <- vset ind dest (col - col_start tile) ;;
        v <- vget (data X) idx ;;
        dat <- vset dat dest v ;;
        Ok (write_ptr, ind, dat)
      else Ok (write_ptr, ind, dat)) st) (write_ptr, ind0, dat0) ;;
  Ok {| nrows := n; ncols := nc; nnz := tnnz;
        indptr := ptr; indices := ind; data := dat |}.

Definition extract_tile_W (W : list Z) (W_rows W_cols : Z) (tile : Tile)
  : result (list Z) :=
  let W_tile_rows := col_end tile - col_start tile in
  Wt0 <- valloc (W_tile_rows * W_cols) 0 ;;
  for_range 0 W_tile_rows (fun i Wt =>
    let orig_row := col_start tile + i in
    if (orig_row >=? 0) && (orig_row <? W_rows)
    then for_range 0 W_cols (fun j Wt =>
           w <- vget W (orig_row * W_cols + j) ;;
           vset Wt (i * W_cols + j) w) Wt
    else Ok Wt) Wt0.

Definition materialize_csr_to_dense (X_tile : CSR) : result (list Z) :=
  let M := nrows X_tile in
  let K := ncols X_tile in
  Xd0 <- valloc (M * K) 0 ;;
  for_range 0 M (fun i Xd =>
    rstart <- vget (indptr X_tile) i ;;
    rend <- vget (indptr X_tile) (i + 1) ;;
    for_range rstart rend (fun idx Xd =>
      k <- vget (indices X_tile) idx ;;
      val <- vget (data X_tile) idx ;;
      vset Xd (i * K + k) val) Xd) Xd0.

Definition permute_dense_rows (X_dense : list Z) (M K : Z)
  (row_new2old : list Z) : result (list Z) :=
  Xp0 <- valloc (M * K) 0 ;;
  for_range 0 M (fun new_row Xp =>
    old_row <- vget row_new2old new_row ;;
    for_range 0 K (fun k Xp =>
      x <- vget X_dense (old_row * K + k) ;;
      vset Xp (new_row * K + k) x) Xp) Xp0.

Definition permute_dense_cols (X_dense : list Z) (M K : Z)
  (col_new2old : list Z) : result (list Z) :=
  Xp0 <- valloc (M * K) 0 ;;
  for_range 0 M (fun i Xp =>
    for_range 0 K (fun new_col Xp =>
      old_col <- vget col_new2old new_col ;;
      x <- vget X_dense (i * K + old_col) ;;
      vset Xp (i * K + new_col) x) Xp) Xp0.

Definition dense_spmm_cpu_tile (X_dense W_dense : list Z) (M K N : Z)
  : result (list Z) :=
  Y0 <- valloc (M * N) 0 ;;
  for_range 0 M (fun i Y =>
    for_range 0 N (fun j Y =>
      sum <- for_range 0 K (fun k sum =>
        x <- vget X_dense (i * K + k) ;;
        w <- vget W_dense (k * N + j) ;;
        Ok (sum + x * w)) 0 ;;
      vset Y (i * N + j) sum) Y) Y0.

(** The build without [USE_CUDA]: the dense product is
    [dense_spmm_cpu_tile]. *)
Definition dense_perm_spmm_tile `{StdSort} (X_tile : CSR) (W_tile : list Z)
  (W_tile_rows W_cols : Z) : result (list Z) :=
  let M_tile := nrows X_tile in
  let K_tile := ncols X_tile in
  let N := W_cols in
  X_dense <- materialize_csr_to_dense X_tile ;;
  nnz_per_row <- compute_nnz_per_row X_tile ;;
  let row_new2old := create_row_new2old nnz_per_row true in
  X_dense_row_permuted <-
    permute_dense_rows X_dense M_tile K_tile row_new2old ;;
  cnt0 <- valloc K_tile 0 ;;
  nnz_per_col <- for_range 0 M_tile (fun i cnt =>
    for_range 0 K_tile (fun k cnt =>
      x <- vget X_dense_row_permuted (i * K_tile + k) ;;
      if negb (x =? 0)
      then c <- vget cnt k ;; vset cnt k (c + 1)
      else Ok cnt) cnt) cnt0 ;;
  let col_new2old := create_col_new2old nnz_per_col true in
  if negb (zlen col_new2old =? W_tile_rows)
  then Throw "dense_perm_spmm_tile: column permutation size mismatch" else
  X_dense_row_col_permuted <-
    permute_dense_cols X_dense_row_permuted M_tile K_tile col_new2old ;;
  W_tile_row_permuted <-
    permute_weight_rows W_tile W_tile_rows W_cols col_new2old ;;
  _ <- valloc (M_tile * N) 0 ;;
  Y_tile_permuted <-
    dense_spmm_cpu_tile X_dense_row_col_permuted W_tile_row_permuted
                        M_tile K_tile N ;;
  unpermute_rows Y_tile_permuted M_tile N row_new2old.

Definition sparse_spmm_tile (X_tile : CSR) (W_tile : list Z)
  (W_tile_rows W_cols : Z) : result (list Z) :=
  spmm_baseline X_tile W_tile W_tile_rows W_cols.

(** What the driver hands back: the product, and the counters it keeps for
    the log ([total_nnz], [cpu_dense_tiles]). *)
Record DriverOut : Type := {
  Y_final : list Z;
  total_nnz : Z;
  cpu_dense_tiles : Z
}.

Definition process_tiles_with_predictor `{StdSort} (X_original : CSR)
  (W_original : list Z) (W_rows W_cols : Z) (tiles : list Tile)
  : result DriverOut :=
  let Y_rows := nrows X_original in
  let Y_cols := W_cols in
  Y0 <- valloc (Y_rows * Y_cols) 0 ;;
  for_each tiles (fun tile st =>
    X_tile <- extract_tile_csr X_original tile ;;
    W_tile <- extract_tile_W W_original W_rows W_cols tile ;;
    let W_tile_rows := col_end tile - col_start tile in
    '(Y_tile, dense) <-
      (if Qle_bool DENSE_TILE_THRESHOLD (density tile)
       then Y_tile <- dense_perm_spmm_tile X_tile W_tile W_tile_rows W_cols ;;
            Ok (Y_tile, cpu_dense_tiles st + 1)
       else Y_tile <- sparse_spmm_tile X_tile W_tile W_tile_rows W_cols ;;
            Ok (Y_tile, cpu_dense_tiles st)) ;;
    let total := total_nnz st + nnz X_tile in
    let n_tile_rows := row_end tile - row_start tile in
    Y <- for_range 0 n_tile_rows (fun i Y =>
      let global_row := row_start tile + i in
      for_range 0 Y_cols (fun j Y =>
        t <- vget Y_tile (i * Y_cols + j) ;;
        y <- vget Y (global_row * Y_cols + j) ;;
        vset Y (global_row * Y_cols + j) (y + t)) Y) (Y_final st) ;;
    Ok {| Y_final := Y; total_nnz := total; cpu_dense_tiles := dense |})
  {| Y_final := Y0; total_nnz := 0; cpu_dense_tiles := 0 |}.

(** ** [dense_spmm.cpp] *)

(** The tile is multiplied in place: [Y] is read and written. *)
Definition dense_spmm_tile (X : CSR) (W : list Z) (W_cols : Z) (tile : Tile)
  (Y : list Z) (Y_cols : Z) : result (list Z) :=
  for_range (row_start tile) (row_end tile) (fun i Y =>
    rstart <- vget (indptr X) i ;;
    rend <- vget (indptr X) (i + 1) ;;
    for_range rstart rend (fun idx Y =>
      k <- vget (indices X) idx ;;
      if (k >=? col_start tile) && (k <? col_end tile)
      then
        x_val <- vget (data X) idx ;;
        for_range 0 W_cols (fun j Y =>
          w <- vget W (k * W_cols + j) ;;
          y <- vget Y (i * Y_cols + j) ;;
          vset Y (i * Y_cols + j) (y + x_val * w)) Y
      else Ok Y) Y) Y.

(** ** [spmm.cpp] *)

(** The tiles are classified with the default threshold of
    [predict_tile_density]; the result is the pair of [Y] and the number of
    tiles. *)
Definition spmm_tiled (X : CSR) (W : list Z) (W_rows W_cols : Z)
  (cfg : TilingConfig) : result (list Z * Z) :=
  if negb (ncols X =? W_rows) then
    Throw ("Matrix dimension mismatch: X.ncols=" ++ to_string (ncols X)
           ++ " != W.nrows=" ++ to_string W_rows)
  else
  let Y_rows := nrows X in
  let Y_cols := W_cols in
  Y0 <- valloc (Y_rows * Y_cols) 0 ;;
  tiles <- make_2d_tiles X cfg ;;
  let num_tiles := zlen tiles in
  let '(tiles, _) := predict_tile_density tiles DENSE_TILE_THRESHOLD in
  Y <- for_each tiles (fun tile Y =>
    if is_dense tile
    then dense_spmm_tile X W W_cols tile Y Y_cols
    else
      for_range (row_start tile) (row_end tile) (fun i Y =>
        rstart <- vget (indptr X) i ;;
        rend <- vget (indptr X) (i + 1) ;;
        for_range rstart rend (fun idx Y =>
          k <- vget (indices X) idx ;;
          if (k >=? col_start tile) && (k <? col_end tile)
          then
            x_val <- vget (data X) idx ;;
            for_range 0 W_cols (fun j Y =>
              w <- vget W (k * W_cols + j) ;;
              y <- vget Y (i * Y_cols + j) ;;
              vset Y (i * Y_cols + j) (y + x_val * w)) Y
          else Ok Y) Y) Y) Y0 ;;
  Ok (Y, num_tiles).

(** ** A stable sort that meets the contract of [std::sort] *)

Fixpoint insert_before {A} (lt : A -> A -> bool) (x : A) (l : list A)
  : list A :=
  match l with
  | [] => [x]
  | y :: t => if lt y x then y :: insert_before lt x t else x :: y :: t
  end.

(** Insertion sort that keeps equivalent elements in their input order. *)
Definition stable_insertion_sort {A} (lt : A -> A -> bool) (l : list A)
  : list A :=
  fold_right (insert_before lt) [] l.

(** ** [std::sort] of libstdc++ ([bits/stl_algo.h], [bits/stl_heap.h])

    Introsort: quicksort with a median-of-three pivot on ranges of more than
    sixteen elements, heapsort once the depth limit is used up, and one
    final insertion pass.  Offsets and lengths are natural numbers. *)

Module libstdcxx.
Section Sort.
Context {A : Type} (comp : A -> A -> bool).

Local Open Scope nat_scope.

(** The range is the whole vector [a]; an iterator is its offset from
    [begin()]. *)

(** [__comp(i, j)] on two iterators. *)
Definition comp_iter (a : list A) (i j : nat) : bool :=
  match nth_error a i, nth_error a j with
  | Some x, Some y => comp x y
  | _, _ => false
  end.

(** [__comp(i, value)] *)
Definition comp_iter_val (a : list A) (i : nat) (value : A) : bool :=
  match nth_error a i with
  | Some x => comp x value
  | None => false
  end.

(** [__comp(value, i)] *)
Definition comp_val_iter (value : A) (a : list A) (i : nat) : bool :=
  match nth_error a i with
  | Some x => comp value x
  | None => false
  end.

(** [*i = std::move( *j )] *)
Definition move (a : list A) (i j : nat) : list A :=
  match nth_error a j with
  | Some x => upd a i x
  | None => a
  end.

(** [std::iter_swap(i, j)] *)
Definition iter_swap (a : list A) (i j : nat) : list A :=
  match nth_error a i, nth_error a j with
  | Some x, Some y => upd (upd a i y) j x
  | _, _ => a
  end.

(** [__move_median_to_first(__result, __a, __b, __c, __comp)] *)
Definition move_median_to_first (a : list A) (result ia ib ic : nat)
  : list A :=
  if comp_iter a ia ib then
    if comp_iter a ib ic then iter_swap a result ib
    else if comp_iter a ia ic then iter_swap a result ic
    else iter_swap a result ia
  else if comp_iter a ia ic then iter_swap a result ia
  else if comp_iter a ib ic then iter_swap a result ic
  else iter_swap a result ib.

(** [while (__comp(__first, __pivot)) ++__first;]  The scan is unguarded in
    the source: under a strict weak order the median of three stops it
    inside the range.  The model also stops at the end of the vector, [n]
    steps away. *)
Fixpoint scan_up (n : nat) (a : list A) (pivot first : nat) : nat :=
  match n with
  | O => first
  | S n' =>
      if comp_iter a first pivot then scan_up n' a pivot (S first) else first
  end.

(** [while (__comp(__pivot, __last)) --__last;], stopped at the start of
    the vector at the latest. *)
Fixpoint scan_down (a : list A) (pivot last : nat) : nat :=
  match last with
  | O => O
  | S last' =>
      if comp_iter a pivot last then scan_down a pivot last' else last
  end.

(** [__unguarded_partition(__first, __last, __pivot, __comp)]: the vector
    after the swaps and the cut.  Every round moves [__first] up and
    [__last] down, so [n] rounds suffice when [n] exceeds their distance. *)
Fixpoint unguarded_partition (n : nat) (a : list A) (first last pivot : nat)
  : list A * nat :=
  match n with
  | O => (a, first)
  | S n' =>
      let first := scan_up (length a - first) a pivot first in
      let last := scan_down a pivot (last - 1) in
      if negb (first <? last) then (a, first)
      else unguarded_partition n' (iter_swap a first last) (S first) last
             pivot
  end.

(** [__unguarded_partition_pivot(__first, __last, __comp)] *)
Definition unguarded_partition_pivot (a : list A) (first last : nat)
  : list A * nat :=
  let mid := first + (last - first) / 2 in
  let a := move_median_to_first a first (first + 1) mid (last - 1) in
  unguarded_partition (S (last - first)) a (first + 1) last first.

(** [__push_heap(__first, __holeIndex, __topIndex, __value, __comp)]; the
    hole moves to its parent, so [n = holeIndex] rounds suffice. *)
Fixpoint push_heap (n : nat) (a : list A) (first holeIndex topIndex : nat)
  (value : A) : list A :=
  let parent := (holeIndex - 1) / 2 in
  match n with
  | O => upd a (first + holeIndex) value
  | S n' =>
      if (topIndex <? holeIndex) && comp_iter_val a (first + parent) value
      then push_heap n' (move a (first + holeIndex) (first + parent))
             first parent topIndex value
      else upd a (first + holeIndex) value
  end.

(** The loop of [__adjust_heap]: the hole moves down to the larger child;
    [n = len] rounds suffice.  The result is the vector, [__holeIndex] and
    [__secondChild]. *)
Fixpoint adjust_heap_loop (n : nat) (a : list A)
  (first holeIndex secondChild len : nat) : list A * nat * nat :=
  match n with
  | O => (a, holeIndex, secondChild)
  | S n' =>
      if secondChild <? (len - 1) / 2 then
        let secondChild := 2 * (secondChild + 1) in
        let secondChild :=
          if comp_iter a (first + secondChild) (first + (secondChild - 1))
          then secondChild - 1 else secondChild in
        adjust_heap_loop n' (move a (first + holeIndex) (first + secondChild))
          first secondChild secondChild len
      else (a, holeIndex, secondChild)
  end.

(** [__adjust_heap(__first, __holeIndex, __len, __value, __comp)] *)
Definition adjust_heap (a : list A) (first holeIndex len : nat) (value : A)
  : list A :=
  let topIndex := holeIndex in
  let '(a, holeIndex, secondChild) :=
    adjust_heap_loop len a first holeIndex holeIndex len in
  let '(a, holeIndex) :=
    if Nat.even len && (secondChild =? (len - 2) / 2) then
      let secondChild := 2 * (secondChild + 1) in
      (move a (first + holeIndex) (first + (secondChild - 1)),
       secondChild - 1)
    else (a, holeIndex) in
  push_heap holeIndex a first holeIndex topIndex value.

(** [__pop_heap(__first, __last, __result, __comp)] *)
Definition pop_heap (a : list A) (first last result : nat) : list A :=
  match nth_error a result with
  | Some value =>
      adjust_heap (move a result first) first 0 (last - first) value
  | None => a
  end.

(** The loop of [__make_heap], from [__parent] down to 0. *)
Fixpoint make_heap_loop (parent : nat) (a : list A) (first len : nat)
  : list A :=
  match nth_error a (first + parent) with
  | Some value =>
      let a := adjust_heap a first parent len value in
      match parent with
      | O => a
      | S parent' => make_heap_loop parent' a first len
      end
  | None => a
  end.

(** [__make_heap(__first, __last, __comp)] *)
Definition make_heap (a : list A) (first last : nat) : list A :=
  if last - first <? 2 then a
  else
    let len := last - first in
    make_heap_loop ((len - 2) / 2) a first len.

(** [__sort_heap(__first, __last, __comp)] *)
Fixpoint sort_heap (a : list A) (first last : nat) : list A :=
  match last with
  | O => a
  | S last' =>
      if 1 <? last - first
      then sort_heap (pop_heap a first last' last') first last'
      else a
  end.

(** [__heap_select(__first, __middle, __last, __comp)] *)
Definition heap_select (a : list A) (first middle last : nat) : list A :=
  fold_left
    (fun a i => if comp_iter a i first then pop_heap a first middle i else a)
    (seq middle (last - middle))
    (make_heap a first middle).

(** [__partial_sort(__first, __middle, __last, __comp)] *)
Definition partial_sort (a : list A) (first middle last : nat) : list A :=
  sort_heap (heap_select a first middle last) first middle.

(** [enum { _S_threshold = 16 }] *)
Definition S_threshold : nat := 16.

(** [__introsort_loop(__first, __last, __depth_limit, __comp)]: the
    recursive call sorts [[cut, last)], the loop goes on with
    [[first, cut)]; both run with the decremented depth limit. *)
Fixpoint introsort_loop (depth_limit : nat) (a : list A) (first last : nat)
  : list A :=
  if S_threshold <? last - first then
    match depth_limit with
    | O => partial_sort a first last last
    | S depth_limit =>
        let '(a, cut) := unguarded_partition_pivot a first last in
        let a := introsort_loop depth_limit a cut last in
        introsort_loop depth_limit a first cut
    end
  else a.

(** The loop of [__unguarded_linear_insert]: [val] moves down while it
    compares less than its predecessor.  Unguarded in the source; the model
    stops at the start of the vector at the latest. *)
Fixpoint unguarded_linear_insert_loop (a : list A) (last : nat) (val : A)
  : list A :=
  match last with
  | O => upd a O val
  | S next =>
      if comp_val_iter val a next
      then unguarded_linear_insert_loop (move a last next) next val
      else upd a last val
  end.

(** [__unguarded_linear_insert(__last, __comp)] *)
Definition unguarded_linear_insert (a : list A) (last : nat) : list A :=
  match nth_error a last with
  | Some val => unguarded_linear_insert_loop a last val
  | None => a
  end.

(** [std::move_backward(__first, __i, __i + 1)] *)
Definition move_backward (a : list A) (first last : nat) : list A :=
  fold_left (fun a k => move a k (k - 1))
    (rev (seq (first + 1) (last - first))) a.

(** [__insertion_sort(__first, __last, __comp)] *)
Definition insertion_sort (a : list A) (first last : nat) : list A :=
  if first =? last then a
  else
    fold_left
      (fun a i =>
         if comp_iter a i first then
           match nth_error a i with
           | Some val => upd (move_backward a first i) first val
           | None => a
           end
         else unguarded_linear_insert a i)
      (seq (first + 1) (last - (first + 1))) a.

(** [__unguarded_insertion_sort(__first, __last, __comp)] *)
Definition unguarded_insertion_sort (a : list A) (first last : nat)
  : list A :=
  fold_left unguarded_linear_insert (seq first (last - first)) a.

(** [__final_insertion_sort(__first, __last, __comp)] *)
Definition final_insertion_sort (a : list A) (first last : nat) : list A :=
  if S_threshold <? last - first then
    unguarded_insertion_sort
      (insertion_sort a first (first + S_threshold))
      (first + S_threshold) last
  else insertion_sort a first last.

(** [std::__lg] *)
Definition lg (n : nat) : nat := Nat.log2 n.

(** [std::sort(v.begin(), v.end(), comp)] *)
Definition sort (a : list A) : list A :=
  let first := 0 in
  let last := length a in
  if first =? last then a
  else
    final_insertion_sort
      (introsort_loop (lg (last - first) * 2) a first last) first last.

End Sort.
End libstdcxx.

(** * Specification vocabulary *)

(** ** Outcomes and vectors *)

(** [returns e P]: the computation [e] ends normally with a value in [P]. *)
Definition returns {A} (e : result A) (P : A -> Prop) : Prop :=
  exists a, e = Ok a /\ P a.

(** The vector [v] after [v[i] = x]. *)
Definition zupd {A} (v : list A) (i : Z) (x : A) : list A :=
  upd v (Z.to_nat i) x.

Definition zsum (l : list Z) : Z := fold_right Z.add 0 l.

(** ** CSR matrices *)

(** Length of row [i] according to an offset array. *)
Definition rowlen (ptr : list Z) (i : Z) : Z :=
  zth 0 ptr (i + 1) - zth 0 ptr i.

(** The (column, value) pairs stored at positions [off, off + len). *)
Definition entries_at (ind dat : list Z) (off len : Z) : list (Z * Z) :=
  map (fun p => (zth 0 ind p, zth 0 dat p)) (zrange off len).

(** The stored nonzeros of row [i], in storage order. *)
Definition row_entries (X : CSR) (i : Z) : list (Z * Z) :=
  entries_at (indices X) (data X) (zth 0 (indptr X) i) (rowlen (indptr X) i).

(** Well-formed CSR: offsets start at 0, do not decrease and end at [nnz];
    every column index lies in [0, ncols); within a row the column indices
    ascend strictly (one stored value per position). *)
Record wf_csr (X : CSR) : Prop := {
  wf_nrows : 0 <= nrows X;
  wf_ncols : 0 <= ncols X;
  wf_indptr_len : zlen (indptr X) = nrows X + 1;
  wf_indptr_first : zth 0 (indptr X) 0 = 0;
  wf_indptr_mono : forall i, 0 <= i < nrows X ->
      zth 0 (indptr X) i <= zth 0 (indptr X) (i + 1);
  wf_indptr_last : zth 0 (indptr X) (nrows X) = nnz X;
  wf_indices_len : zlen (indices X) = nnz X;
  wf_data_len : zlen (data X) = nnz X;
  wf_col_range : forall p, 0 <= p < nnz X ->
      0 <= zth 0 (indices X) p < ncols X;
  wf_row_sorted : forall i, 0 <= i < nrows X ->
      StronglySorted Z.lt (map fst (row_entries X i))
}.

(** Well-formedness in the words of the specification (SparseMatrix):
    offsets of length rows+1, monotonically non-decreasing, the last one the
    total nonzero count; column indices in [0, cols), sorted ascending
    within each row's slice; values in parallel.  A column index may repeat
    within a row. *)
Record wf_csr_as_specified (X : CSR) : Prop := {
  wfs_nrows : 0 <= nrows X;
  wfs_ncols : 0 <= ncols X;
  wfs_indptr_len : zlen (indptr X) = nrows X + 1;
  wfs_indptr_first : zth 0 (indptr X) 0 = 0;
  wfs_indptr_mono : forall i, 0 <= i < nrows X ->
      zth 0 (indptr X) i <= zth 0 (indptr X) (i + 1);
  wfs_indptr_last : zth 0 (indptr X) (nrows X) = nnz X;
  wfs_indices_len : zlen (indices X) = nnz X;
  wfs_data_len : zlen (data X) = nnz X;
  wfs_col_range : forall p, 0 <= p < nnz X ->
      0 <= zth 0 (indices X) p < ncols X;
  wfs_row_sorted : forall i, 0 <= i < nrows X ->
      StronglySorted Z.le (map fst (row_entries X i))
}.

(** Number of stored entries with column index [c]. *)
Definition col_count (ind : list Z) (c : Z) : Z :=
  zlen (filter (Z.eqb c) ind).

(** The comparator of the per-row sort: [a.first < b.first]. *)
Definition by_col (a b : Z * Z) : bool := fst a <? fst b.

(** ** Permutation maps *)

(** A bijection on [0, n), given as the list of its values. *)
Definition is_perm (n : Z) (m : list Z) : Prop :=
  0 <= n /\ Permutation (zrange 0 n) m.

(** Ties broken by ascending original index. *)
Definition ties_by_index (counts order : list Z) : Prop :=
  forall i j, 0 <= i -> i < j -> j < zlen order ->
    zth 0 counts (zth 0 order i) = zth 0 counts (zth 0 order j) ->
    zth 0 order i < zth 0 order j.

(** Ordered by count, descending or ascending. *)
Definition ordered_by_count (counts order : list Z) (descending : bool)
  : Prop :=
  forall i j, 0 <= i -> i < j -> j < zlen order ->
    if descending
    then zth 0 counts (zth 0 order i) >= zth 0 counts (zth 0 order j)
    else zth 0 counts (zth 0 order i) <= zth 0 counts (zth 0 order j).

(** ** Products *)

(** Row-major dense matrix with entries [f i j]. *)
Definition dense_of (M N : Z) (f : Z -> Z -> Z) : list Z :=
  map (fun p => f (p / N) (p mod N)) (zrange 0 (M * N)).

(** Row [es] of a sparse matrix times column [j] of the dense [W]. *)
Definition dot_entries (es : list (Z * Z)) (W : list Z) (N j : Z) : Z :=
  zsum (map (fun e => snd e * zth 0 W (fst e * N + j)) es).

(** The product [X * W], entry by entry. *)
Definition spmm_spec (X : CSR) (W : list Z) (N : Z) : list Z :=
  dense_of (nrows X) N (fun i j => dot_entries (row_entries X i) W N j).

(** Entry [(i, j)] of a dense product. *)
Definition dense_dot (Xd W : list Z) (K N i j : Z) : Z :=
  zsum (map (fun k => zth 0 Xd (i * K + k) * zth 0 W (k * N + j))
            (zrange 0 K)).

(** The value left in a cell of column [c] after the entries [es] have been
    written over the initial value [y] in storage order. *)
Definition cell_from (y : Z) (es : list (Z * Z)) (c : Z) : Z :=
  fold_left (fun acc e => if fst e =? c then snd e else acc) es y.

(** ** Tiles *)

(** The tile lies inside the matrix. *)
Definition tile_in_bounds (X : CSR) (t : Tile) : Prop :=
  0 <= row_start t <= row_end t /\ row_end t <= nrows X /\
  0 <= col_start t <= col_end t /\ col_end t <= ncols X.

(** The entry's column lies in the tile's column range. *)
Definition in_cols (t : Tile) (e : Z * Z) : bool :=
  (fst e >=? col_start t) && (fst e <? col_end t).

(** The entries of a row that fall in the tile's columns, rebased. *)
Definition tile_row (t : Tile) (es : list (Z * Z)) : list (Z * Z) :=
  map (fun e => (fst e - col_start t, snd e)) (filter (in_cols t) es).

(** Position [(r, c)] lies inside the bounds of the tile. *)
Definition tile_contains (r c : Z) (t : Tile) : bool :=
  (row_start t <=? r) && (r <? row_end t)
  && (col_start t <=? c) && (c <? col_end t).

(** The tile of row block [rb] and column block [cb]. *)
Definition grid_tile (X : CSR) (cfg : TilingConfig) (rb cb : Z) : Tile :=
  mk_tile (rb * tile_rows cfg)
          (Z.min (rb * tile_rows cfg + tile_rows cfg) (nrows X))
          (cb * tile_cols cfg)
          (Z.min (cb * tile_cols cfg + tile_cols cfg) (ncols X)).

(** The grid in the order in which [make_2d_tiles] pushes it. *)
Definition grid (X : CSR) (cfg : TilingConfig) : list Tile :=
  flat_map (fun rb =>
              map (grid_tile X cfg rb)
                  (zrange 0 (ceil_div (ncols X) (tile_cols cfg))))
           (zrange 0 (ceil_div (nrows X) (tile_rows cfg))).

(** The four bounds of a tile, without its count and flag. *)
Definition bounds (t : Tile) : Z * Z * Z * Z :=
  (row_start t, row_end t, col_start t, col_end t).

Definition bounds_contain (r c : Z) (b : Z * Z * Z * Z) : bool :=
  let '(rs, re, cs, ce) := b in
  (rs <=? r) && (r <? re) && (cs <=? c) && (c <? ce).

(** The sum of the [nnz] fields. *)
Definition sum_nnz (tiles : list Tile) : Z :=
  fold_right Z.add 0 (map tile_nnz tiles).

(** What a tile adds to entry [(r, j)] of the result. *)
Definition contrib (X : CSR) (W : list Z) (N : Z) (t : Tile) (r j : Z) : Z :=
  if (row_start t <=? r) && (r <? row_end t)
  then dot_entries (filter (in_cols t) (row_entries X r)) W N j
  else 0.

(** Number of stored nonzeros [(r, c)] of [X] inside the bounds of [t]. *)
Definition tile_count (X : CSR) (t : Tile) : Z :=
  zsum (map (fun r =>
               zlen (filter (fun e => tile_contains r (fst e) t)
                            (row_entries X r)))
            (zrange 0 (nrows X))).

(** The classification of one tile against a threshold. *)
Definition classify (threshold : Q) (t : Tile) : Tile :=
  set_is_dense t (Qle_bool threshold (density t)).

(** ** Executable checks of well-formedness *)

Fixpoint strictly_ascb (l : list Z) : bool :=
  match l with
  | [] => true
  | x :: t =>
      match t with
      | [] => true
      | y :: _ => (x <? y) && strictly_ascb t
      end
  end.

Definition check_csr (X : CSR) : bool :=
  (0 <=? nrows X) && (0 <=? ncols X)
  && (zlen (indptr X) =? nrows X + 1)
  && (zth 0 (indptr X) 0 =? 0)
  && forallb (fun i => zth 0 (indptr X) i <=? zth 0 (indptr X) (i + 1))
             (zrange 0 (nrows X))
  && (zth 0 (indptr X) (nrows X) =? nnz X)
  && (zlen (indices X) =? nnz X) && (zlen (data X) =? nnz X)
  && forallb (fun p => in_range (zth 0 (indices X) p) (ncols X))
             (zrange 0 (nnz X))
  && forallb (fun i => strictly_ascb (map fst (row_entries X i)))
             (zrange 0 (nrows X)).

Fixpoint ascb (l : list Z) : bool :=
  match l with
  | [] => true
  | x :: t =>
      match t with
      | [] => true
      | y :: _ => (x <=? y) && ascb t
      end
  end.

Definition check_csr_as_specified (X : CSR) : bool :=
  (0 <=? nrows X) && (0 <=? ncols X)
  && (zlen (indptr X) =? nrows X + 1)
  && (zth 0 (indptr X) 0 =? 0)
  && forallb (fun i => zth 0 (indptr X) i <=? zth 0 (indptr X) (i + 1))
             (zrange 0 (nrows X))
  && (zth 0 (indptr X) (nrows X) =? nnz X)
  && (zlen (indices X) =? nnz X) && (zlen (data X) =? nnz X)
  && forallb (fun p => in_range (zth 0 (indices X) p) (ncols X))
             (zrange 0 (nnz X))
  && forallb (fun i => ascb (map fst (row_entries X i)))
             (zrange 0 (nrows X)).

Definition check_perm (n : Z) (m : list Z) : bool :=
  (0 <=? n) && (zlen m =? n)
  && forallb (fun k => existsb (Z.eqb k) m) (zrange 0 n).

(** ** Concrete matrices *)

(** The 4x4 scenario: nonzeros (0,0)=1, (0,2)=2, (1,1)=3, (2,0)=4, (2,2)=5,
    (3,3)=6. *)
Definition X_example : CSR :=
  {| nrows := 4; ncols := 4; nnz := 6;
     indptr := [0; 2; 3; 5; 6];
     indices := [0; 2; 1; 0; 2; 3];
     data := [1; 2; 3; 4; 5; 6] |}.

(** A dense 4x2 matrix. *)
Definition W_example : list Z := [1; 2; 3; 4; 5; 6; 7; 8].

Definition cfg_2x2 : TilingConfig := {| tile_rows := 2; tile_cols := 2 |}.

(** A 2x2 matrix with one stored nonzero, (0,0)=1, and a 2x1 dense matrix. *)
Definition X_quarter : CSR :=
  {| nrows := 2; ncols := 2; nnz := 1;
     indptr := [0; 1; 1]; indices := [0]; data := [1] |}.

Definition W_quarter : list Z := [1; 1].

(** [pim_defaults::DENSE_TILE_THRESHOLD = 0.5] *)
Definition PIM_DENSE_TILE_THRESHOLD : Q := (1 # 2)%Q.

(** A 1x1 matrix that stores two values at position (0,0). *)
Definition X_duplicate : CSR :=
  {| nrows := 1; ncols := 1; nnz := 2;
     indptr := [0; 2]; indices := [0; 0]; data := [1; 2] |}.

(** A 1x15 matrix whose row stores seventeen values: 1, 2 and 3 at
    position (0,0), then 4 to 17 at the columns 1 to 14. *)
Definition X_row17 : CSR :=
  {| nrows := 1; ncols := 15; nnz := 17;
     indptr := [0; 17];
     indices := [0; 0; 0; 1; 2; 3; 4; 5; 6; 7; 8; 9; 10; 11; 12; 13; 14];
     data := [1; 2; 3; 4; 5; 6; 7; 8; 9; 10; 11; 12; 13; 14; 15; 16; 17] |}.

(** The nonzero counts of seventeen rows with one stored value each. *)
Definition counts_17 : list Z := repeat 1 17.

(** * Reasoning principles *)

(** ** Outcomes *)

Lemma returns_ok {A} (a : A) (P : A -> Prop) : P a -> returns (Ok a) P.
Proof. intros HP. exists a. split; [reflexivity | exact HP]. Qed.

Lemma returns_bind {A B} (e : result A) (k : A -> result B) (P : B -> Prop) :
  returns e (fun a => returns (k a) P) -> returns (bind e k) P.
Proof.
  intros (a & He & b & Hk & HP). exists b. rewrite He. simpl. auto.
Qed.

Lemma returns_weaken {A} (e : result A) (P Q : A -> Prop) :
  returns e P -> (forall a, P a -> Q a) -> returns e Q.
Proof. intros (a & He & HP) HPQ. exists a. auto. Qed.

Lemma returns_eq {A} (e : result A) (a : A) :
  returns e (fun x => x = a) -> e = Ok a.
Proof. intros (x & He & ->). exact He. Qed.

Lemma returns_inv {A} (e : result A) (a : A) (P : A -> Prop) :
  e = Ok a -> returns e P -> P a.
Proof. intros He (x & He' & HP). congruence. Qed.

(** ** Vectors *)

Lemma length_upd {A} (v : list A) n x : length (upd v n x) = length v.
Proof.
  revert n. induction v as [|h t IH]; intros [|n]; simpl; auto.
Qed.

Lemma nth_upd_eq {A} (d : A) v n x :
  (n < length v)%nat -> nth n (upd v n x) d = x.
Proof.
  revert n. induction v as [|h t IH]; intros [|n] Hn; simpl in *;
    try lia; auto. apply IH. lia.
Qed.

Lemma nth_upd_neq {A} (d : A) v n m x :
  n <> m -> nth m (upd v n x) d = nth m v d.
Proof.
  revert n m. induction v as [|h t IH]; intros [|n] [|m] Hnm; simpl;
    try congruence; auto.
Qed.

Lemma zlen_nonneg {A} (v : list A) : 0 <= zlen v.
Proof. unfold zlen. lia. Qed.

Lemma zlen_zupd {A} (v : list A) i x : zlen (zupd v i x) = zlen v.
Proof. unfold zlen, zupd. now rewrite length_upd. Qed.

Lemma zth_zupd_eq {A} (d : A) v i x :
  0 <= i < zlen v -> zth d (zupd v i x) i = x.
Proof.
  unfold zth, zupd, zlen. intros Hi. apply nth_upd_eq. lia.
Qed.

Lemma zth_zupd_neq {A} (d : A) v i j x :
  0 <= i -> 0 <= j -> i <> j -> zth d (zupd v i x) j = zth d v j.
Proof.
  unfold zth, zupd. intros Hi Hj Hij. apply nth_upd_neq. lia.
Qed.

Lemma in_range_true i n : 0 <= i < n -> in_range i n = true.
Proof. unfold in_range. intros. apply andb_true_intro. split; lia. Qed.

Lemma in_range_false i n : ~ (0 <= i < n) -> in_range i n = false.
Proof.
  unfold in_range. intros.
  destruct (0 <=? i) eqn:E1; destruct (i <? n) eqn:E2; simpl; auto; lia.
Qed.

Lemma vget_ok {A} (d : A) v i : 0 <= i < zlen v -> vget v i = Ok (zth d v i).
Proof.
  intros Hi. unfold vget. rewrite in_range_true by exact Hi.
  unfold zth, zlen in *.
  destruct (nth_error v (Z.to_nat i)) eqn:E.
  - now rewrite (nth_error_nth _ _ d E).
  - apply nth_error_None in E. lia.
Qed.

Lemma vget_undef {A} (v : list A) i : ~ (0 <= i < zlen v) -> vget v i = Undef.
Proof. intros Hi. unfold vget. now rewrite in_range_false. Qed.

Lemma vset_ok {A} (v : list A) i x :
  0 <= i < zlen v -> vset v i x = Ok (zupd v i x).
Proof. intros Hi. unfold vset. now rewrite in_range_true. Qed.

Lemma valloc_ok {A} n (x : A) :
  0 <= n -> valloc n x = Ok (repeat x (Z.to_nat n)).
Proof.
  intros Hn. unfold valloc. destruct (n <? 0) eqn:E; [lia | reflexivity].
Qed.

Lemma zlen_repeat {A} (x : A) n : 0 <= n -> zlen (repeat x (Z.to_nat n)) = n.
Proof. intros. unfold zlen. rewrite repeat_length. lia. Qed.

Lemma zth_repeat {A} (x : A) n i : zth x (repeat x n) i = x.
Proof.
  unfold zth. generalize (Z.to_nat i). induction n; intros [|m]; simpl; auto.
Qed.

Lemma zth_ext {A} (d : A) (a b : list A) :
  zlen a = zlen b ->
  (forall i, 0 <= i < zlen a -> zth d a i = zth d b i) ->
  a = b.
Proof.
  unfold zlen, zth. intros Hlen H.
  apply (nth_ext a b d d); [lia |].
  intros n Hn. specialize (H (Z.of_nat n)).
  rewrite Nat2Z.id in H. apply H. lia.
Qed.

Lemma zth_map {A B} (f : A -> B) (da : A) (db : B) v i :
  0 <= i < zlen v -> zth db (map f v) i = f (zth da v i).
Proof.
  unfold zth, zlen. intros Hi.
  rewrite (nth_indep _ db (f da)) by (rewrite length_map; lia).
  apply map_nth.
Qed.

Lemma zlen_map {A B} (f : A -> B) v : zlen (map f v) = zlen v.
Proof. unfold zlen. now rewrite length_map. Qed.

Lemma zlen_app {A} (a b : list A) : zlen (a ++ b) = zlen a + zlen b.
Proof. unfold zlen. rewrite length_app. lia. Qed.

Lemma zth_app_l {A} (d : A) a b i :
  0 <= i < zlen a -> zth d (a ++ b) i = zth d a i.
Proof. unfold zth, zlen. intros. apply app_nth1. lia. Qed.

Lemma zth_app_r {A} (d : A) a b i :
  zlen a <= i -> zth d (a ++ b) i = zth d b (i - zlen a).
Proof.
  unfold zth, zlen. intros. rewrite app_nth2 by lia. f_equal. lia.
Qed.

Lemma zth_In {A} (d : A) v i : 0 <= i < zlen v -> In (zth d v i) v.
Proof. unfold zth, zlen. intros. apply nth_In. lia. Qed.

Lemma In_zth {A} (d : A) v x :
  In x v -> exists i, 0 <= i < zlen v /\ zth d v i = x.
Proof.
  intros Hin. destruct (In_nth v x d Hin) as (n & Hn & Hx).
  exists (Z.of_nat n). unfold zth, zlen. rewrite Nat2Z.id. split; [lia | auto].
Qed.

(** ** Ranges *)

Lemma length_zseq a n : length (zseq a n) = n.
Proof. revert a. induction n; intros; simpl; auto. Qed.

Lemma nth_zseq a n k d : (k < n)%nat -> nth k (zseq a n) d = a + Z.of_nat k.
Proof.
  revert a k. induction n; intros a [|k] Hk; simpl; try lia.
  rewrite IHn by lia. lia.
Qed.

Lemma in_zseq a n x : In x (zseq a n) <-> a <= x < a + Z.of_nat n.
Proof.
  revert a. induction n; intros a; simpl; [lia |].
  rewrite IHn. lia.
Qed.

Lemma zseq_app a n m : zseq a (n + m) = zseq a n ++ zseq (a + Z.of_nat n) m.
Proof.
  revert a. induction n; intros a; simpl.
  - f_equal. lia.
  - rewrite IHn. do 3 f_equal. lia.
Qed.

Lemma NoDup_zseq a n : NoDup (zseq a n).
Proof.
  revert a. induction n; intros a; simpl; constructor; auto.
  rewrite in_zseq. lia.
Qed.

Lemma zlen_zrange a n : 0 <= n -> zlen (zrange a n) = n.
Proof. intros. unfold zlen, zrange. rewrite length_zseq. lia. Qed.

Lemma zth_zrange a n i d : 0 <= i < n -> zth d (zrange a n) i = a + i.
Proof.
  intros. unfold zth, zrange. rewrite nth_zseq by lia. lia.
Qed.

Lemma in_zrange a n x : 0 <= n -> In x (zrange a n) <-> a <= x < a + n.
Proof. intros. unfold zrange. rewrite in_zseq. lia. Qed.

Lemma NoDup_zrange a n : NoDup (zrange a n).
Proof. apply NoDup_zseq. Qed.

Lemma zrange_snoc a n : 0 <= n -> zrange a (n + 1) = zrange a n ++ [a + n].
Proof.
  intros. unfold zrange.
  replace (Z.to_nat (n + 1)) with (Z.to_nat n + 1)%nat by lia.
  rewrite zseq_app. simpl. do 2 f_equal. lia.
Qed.

Lemma zrange_0 a : zrange a 0 = [].
Proof. reflexivity. Qed.

Lemma zrange_cons a n : 0 < n -> zrange a n = a :: zrange (a + 1) (n - 1).
Proof.
  intros. unfold zrange.
  replace (Z.to_nat n) with (Datatypes.S (Z.to_nat (n - 1))) by lia.
  reflexivity.
Qed.

(** ** Loops *)

Lemma for_nat_inv {S} (I : Z -> S -> Prop) body n : forall a s,
  I a s ->
  (forall i s, a <= i < a + Z.of_nat n -> I i s ->
               returns (body i s) (I (i + 1))) ->
  returns (for_nat n a body s) (I (a + Z.of_nat n)).
Proof.
  induction n as [|n IH]; intros a s Ha Hstep.
  - cbn [for_nat]. apply returns_ok.
    now replace (a + Z.of_nat 0) with a by lia.
  - simpl for_nat. apply returns_bind.
    apply returns_weaken with (P := I (a + 1)).
    + apply Hstep; [lia | exact Ha].
    + intros s' Hs'.
      replace (a + Z.of_nat (Datatypes.S n)) with (a + 1 + Z.of_nat n) by lia.
      apply IH; [exact Hs' |].
      intros i s0 Hi. apply Hstep. lia.
Qed.

Lemma for_range_inv {S} (I : Z -> S -> Prop) a b body (s : S) :
  a <= b -> I a s ->
  (forall i s, a <= i < b -> I i s -> returns (body i s) (I (i + 1))) ->
  returns (for_range a b body s) (I b).
Proof.
  intros Hab Ha Hstep. unfold for_range.
  replace b with (a + Z.of_nat (Z.to_nat (b - a))) at 2 by lia.
  apply for_nat_inv; [exact Ha |].
  intros i s0 Hi. apply Hstep. lia.
Qed.

Lemma for_range_empty {S} a b body (s : S) :
  b <= a -> for_range a b body s = Ok s.
Proof.
  intros. unfold for_range. now replace (Z.to_nat (b - a)) with O by lia.
Qed.

Lemma for_each_inv {A S} (I : list A -> S -> Prop) body : forall post pre s,
  I pre s ->
  (forall p x s, (exists q, pre ++ post = p ++ x :: q) -> I p s ->
                 returns (body x s) (I (p ++ [x]))) ->
  returns (for_each post body s) (I (pre ++ post)).
Proof.
  induction post as [|x post IH]; intros pre s Hpre Hstep.
  - simpl. apply returns_ok. now rewrite app_nil_r.
  - simpl for_each. apply returns_bind.
    apply returns_weaken with (P := I (pre ++ [x])).
    + apply Hstep; [now exists post | exact Hpre].
    + intros s' Hs'.
      replace (pre ++ x :: post) with ((pre ++ [x]) ++ post)
        by (now rewrite <- app_assoc).
      apply IH; [exact Hs' |].
      intros p y s0 (q & Hq) Hp. apply Hstep; [| exact Hp].
      exists q. rewrite <- Hq. now rewrite <- app_assoc.
Qed.

(** ** The stable insertion sort meets the contract *)

Lemma swo_asym {A} (lt : A -> A -> bool) :
  strict_weak_order lt -> forall a b, lt a b = true -> lt b a = false.
Proof.
  intros H a b Hab. destruct (lt b a) eqn:E; [| reflexivity].
  pose proof (swo_trans lt H a b a Hab E) as Haa.
  rewrite (swo_irrefl lt H) in Haa. discriminate.
Qed.

Lemma swo_neg_trans {A} (lt : A -> A -> bool) :
  strict_weak_order lt ->
  forall a b c, lt a b = false -> lt b c = false -> lt a c = false.
Proof.
  intros H a b c Hab Hbc. destruct (lt a c) eqn:Hac; [| reflexivity].
  destruct (lt b a) eqn:Hba.
  - rewrite (swo_trans lt H b a c Hba Hac) in Hbc. discriminate.
  - destruct (lt c b) eqn:Hcb.
    + rewrite (swo_trans lt H a c b Hac Hcb) in Hab. discriminate.
    + destruct (swo_incomp lt H a b c Hab Hba Hbc Hcb) as [E _].
      congruence.
Qed.

Lemma insert_before_perm {A} (lt : A -> A -> bool) x l :
  Permutation (x :: l) (insert_before lt x l).
Proof.
  induction l as [|y t IH]; simpl; [constructor; constructor |].
  destruct (lt y x); [| apply Permutation_refl].
  eapply perm_trans; [apply perm_swap |]. now constructor.
Qed.

Lemma insert_before_sorted {A} (lt : A -> A -> bool) x l :
  strict_weak_order lt ->
  StronglySorted (fun a b => lt b a = false) l ->
  StronglySorted (fun a b => lt b a = false) (insert_before lt x l).
Proof.
  intros H. induction l as [|y t IH]; intros Hs; simpl.
  - constructor; constructor.
  - inversion Hs as [|? ? Hst Hall]; subst.
    destruct (lt y x) eqn:E.
    + constructor; [now apply IH |].
      rewrite Forall_forall in *. intros z Hz.
      apply (Permutation_in z (Permutation_sym (insert_before_perm lt x t)))
        in Hz.
      destruct Hz as [<- | Hz]; [now apply swo_asym | now apply Hall].
    + constructor; [exact Hs |]. constructor; [exact E |].
      rewrite Forall_forall in *. intros z Hz.
      apply (swo_neg_trans lt H z y x); [now apply Hall | exact E].
Qed.

Lemma stable_insertion_sort_perm {A} (lt : A -> A -> bool) l :
  Permutation l (stable_insertion_sort lt l).
Proof.
  induction l as [|x t IH]; simpl; [constructor |].
  eapply perm_trans; [| apply insert_before_perm]. now constructor.
Qed.

Lemma stable_insertion_sort_sorted {A} (lt : A -> A -> bool) l :
  strict_weak_order lt ->
  StronglySorted (fun a b => lt b a = false) (stable_insertion_sort lt l).
Proof.
  intros H. induction l as [|x t IH]; simpl; [constructor |].
  now apply insert_before_sorted.
Qed.

Definition stable_std_sort : StdSort :=
  {| std_sort := @stable_insertion_sort;
     std_sort_perm := fun A lt l _ => stable_insertion_sort_perm lt l;
     std_sort_sorted := @stable_insertion_sort_sorted |}.

(** ** The [std::sort] of libstdc++ meets the contract

    The partition only swaps elements, the heap moves a hole that one
    pending value fills, and the final insertion pass sorts whatever the
    introsort loop leaves. *)

Section LibstdcxxSort.
Import libstdcxx.
Context {A : Type} (comp : A -> A -> bool).
Local Open Scope nat_scope.

(** *** Vectors and swaps *)

Lemma nth_error_upd_eq (a : list A) i v :
  i < length a -> nth_error (upd a i v) i = Some v.
Proof.
  revert i. induction a as [|h t IH]; intros [|i] Hi; simpl in *;
    try lia; auto. apply IH. lia.
Qed.

Lemma nth_error_upd_neq (a : list A) i j v :
  i <> j -> nth_error (upd a i v) j = nth_error a j.
Proof.
  revert i j. induction a as [|h t IH]; intros [|i] [|j] Hij; simpl;
    try congruence; auto.
Qed.

Lemma upd_same (a : list A) i x : nth_error a i = Some x -> upd a i x = a.
Proof.
  revert i. induction a as [|h t IH]; intros [|i] E; simpl in *;
    try discriminate.
  - now injection E as ->.
  - now rewrite IH.
Qed.

Lemma nth_error_in_range (a : list A) i :
  i < length a -> exists x, nth_error a i = Some x.
Proof.
  intros Hi. destruct (nth_error a i) eqn:E; [eauto |].
  apply nth_error_None in E. lia.
Qed.

(** Writing [v] over [x] trades [x] for [v]. *)
Lemma upd_out (a : list A) i x v :
  nth_error a i = Some x -> Permutation (x :: upd a i v) (v :: a).
Proof.
  revert i. induction a as [|h t IH]; intros [|i] E; simpl in *;
    try discriminate.
  - injection E as ->. apply perm_swap.
  - eapply perm_trans; [apply perm_swap |].
    eapply perm_trans; [apply perm_skip, IH, E |]. apply perm_swap.
Qed.

(** Moving the hole from [i] to [j]: the pending value [v] lands at [j] in
    place of the element that filled [i]. *)
Lemma hole_swap (a : list A) i j aj v :
  i < length a -> nth_error a j = Some aj ->
  Permutation (upd (upd a i aj) j v) (upd a i v).
Proof.
  intros Hi Ej. destruct (nth_error_in_range a i Hi) as [ai Ei].
  assert (Eb : nth_error (upd a i aj) j = Some aj).
  { destruct (Nat.eq_dec i j) as [<- | Hne].
    - now apply nth_error_upd_eq.
    - now rewrite nth_error_upd_neq. }
  pose proof (upd_out _ j aj v Eb) as H1.
  pose proof (upd_out a i ai aj Ei) as H2.
  pose proof (upd_out a i ai v Ei) as H3.
  apply (Permutation_cons_inv (a := ai)), (Permutation_cons_inv (a := aj)).
  eapply perm_trans; [apply perm_swap |].
  eapply perm_trans; [apply perm_skip, H1 |].
  eapply perm_trans; [apply perm_swap |].
  eapply perm_trans; [apply perm_skip, H2 |].
  eapply perm_trans; [apply perm_swap |].
  apply perm_skip, Permutation_sym, H3.
Qed.

Lemma move_length (a : list A) i j : length (move a i j) = length a.
Proof. unfold move. destruct (nth_error a j); [apply length_upd | easy]. Qed.

Lemma iter_swap_length (a : list A) i j :
  length (iter_swap a i j) = length a.
Proof.
  unfold iter_swap.
  destruct (nth_error a i), (nth_error a j); rewrite ?length_upd; easy.
Qed.

Lemma iter_swap_perm (a : list A) i j : Permutation a (iter_swap a i j).
Proof.
  unfold iter_swap.
  destruct (nth_error a i) as [x|] eqn:Ei; [| reflexivity].
  destruct (nth_error a j) as [y|] eqn:Ej; [| reflexivity].
  apply Permutation_sym.
  eapply perm_trans; [apply hole_swap |].
  - apply nth_error_Some. congruence.
  - exact Ej.
  - now rewrite (upd_same a i x).
Qed.

(** *** The partition *)

Lemma move_median_to_first_length (a : list A) r ia ib ic :
  length (move_median_to_first comp a r ia ib ic) = length a.
Proof.
  unfold move_median_to_first.
  repeat match goal with |- context [if ?c then _ else _] => destruct c end;
    apply iter_swap_length.
Qed.

Lemma move_median_to_first_perm (a : list A) r ia ib ic :
  Permutation a (move_median_to_first comp a r ia ib ic).
Proof.
  unfold move_median_to_first.
  repeat match goal with |- context [if ?c then _ else _] => destruct c end;
    apply iter_swap_perm.
Qed.

Lemma scan_up_bound n (a : list A) pivot first :
  first <= length a -> scan_up comp n a pivot first <= length a.
Proof.
  revert first. induction n as [|n IH]; intros first Hf; simpl; [exact Hf |].
  unfold comp_iter. destruct (nth_error a first) as [x|] eqn:E; [| exact Hf].
  destruct (nth_error a pivot); [| exact Hf].
  destruct (comp x _); [| exact Hf].
  apply IH. change (first < length a). apply nth_error_Some. congruence.
Qed.

Lemma scan_down_bound (a : list A) pivot last :
  scan_down comp a pivot last <= last.
Proof.
  induction last as [|l IH]; simpl; [lia |].
  destruct (comp_iter comp a pivot (S l)); lia.
Qed.

Lemma unguarded_partition_spec n (a : list A) first last pivot :
  first <= length a -> last <= length a ->
  let r := unguarded_partition comp n a first last pivot in
  Permutation a (fst r) /\ length (fst r) = length a /\ snd r <= length a.
Proof.
  revert a first last. induction n as [|n IH]; intros a first last Hf Hl;
    simpl; [auto |].
  pose proof (scan_up_bound (length a - first) a pivot first Hf) as Hu.
  pose proof (scan_down_bound a pivot (last - 1)) as Hd.
  destruct (_ <? _) eqn:E; simpl; [| auto].
  apply Nat.ltb_lt in E.
  specialize (IH (iter_swap a (scan_up comp (length a - first) a pivot first)
                    (scan_down comp a pivot (last - 1)))
                (S (scan_up comp (length a - first) a pivot first))
                (scan_down comp a pivot (last - 1))).
  rewrite iter_swap_length in IH.
  destruct IH as (Hp & Hlen & Hc); [lia | lia |].
  split; [| split; [exact Hlen | exact Hc]].
  eapply perm_trans; [apply iter_swap_perm | exact Hp].
Qed.

Lemma unguarded_partition_pivot_spec (a : list A) first last :
  first + 1 <= length a -> last <= length a ->
  let r := unguarded_partition_pivot comp a first last in
  Permutation a (fst r) /\ length (fst r) = length a /\ snd r <= length a.
Proof.
  intros Hf Hl. unfold unguarded_partition_pivot.
  pose proof (unguarded_partition_spec (S (last - first))
    (move_median_to_first comp a first (first + 1)
       (first + (last - first) / 2) (last - 1))
    (first + 1) last first) as H.
  rewrite move_median_to_first_length in H.
  destruct H as (Hp & Hlen & Hc); [lia | lia |].
  split; [| split; [exact Hlen | exact Hc]].
  eapply perm_trans; [apply move_median_to_first_perm | exact Hp].
Qed.

(** *** The heap *)

Lemma push_heap_perm n (a : list A) first holeIndex topIndex value :
  first + holeIndex < length a ->
  Permutation (push_heap comp n a first holeIndex topIndex value)
    (upd a (first + holeIndex) value).
Proof.
  revert a holeIndex.
  induction n as [|n IH]; intros a hole Hh; cbn [push_heap]; cbv zeta;
    [reflexivity |].
  destruct (topIndex <? hole) eqn:Et; cbn [andb]; [| reflexivity].
  unfold comp_iter_val, move.
  destruct (nth_error a (first + (hole - 1) / 2)) as [p|] eqn:Ep;
    [| reflexivity].
  destruct (comp p value); [| reflexivity].
  assert (Hp : (hole - 1) / 2 <= hole).
  { apply Nat.le_trans with (hole - 1); [apply Nat.Div0.div_le_upper_bound | ];
      lia. }
  eapply perm_trans; [apply IH; rewrite length_upd; lia |].
  apply hole_swap; [exact Hh | exact Ep].
Qed.

Lemma adjust_heap_loop_spec n (a : list A) first holeIndex secondChild len :
  first + len <= length a -> holeIndex < len ->
  let r := adjust_heap_loop comp n a first holeIndex secondChild len in
  length (fst (fst r)) = length a /\ snd (fst r) < len /\
  forall value,
    Permutation (upd (fst (fst r)) (first + snd (fst r)) value)
      (upd a (first + holeIndex) value).
Proof.
  revert a holeIndex secondChild.
  induction n as [|n IH]; intros a hole sc Hlen Hh; cbn [adjust_heap_loop];
    [cbn; auto |].
  destruct (sc <? (len - 1) / 2) eqn:Esc; [| cbn; auto].
  apply Nat.ltb_lt in Esc. cbv zeta.
  set (sc1 := 2 * (sc + 1)).
  set (sc2 := if comp_iter comp a (first + sc1) (first + (sc1 - 1))
              then sc1 - 1 else sc1).
  assert (Hsc2 : sc2 < len).
  { assert (sc1 < len).
    { pose proof (Nat.div_mod_eq (len - 1) 2). subst sc1. lia. }
    subst sc2. destruct (comp_iter _ _ _ _); lia. }
  destruct (nth_error_in_range a (first + sc2)) as [c Ec]; [lia |].
  unfold move. rewrite Ec.
  specialize (IH (upd a (first + hole) c) sc2 sc2).
  rewrite length_upd in IH. destruct IH as (Hl & Hb & Hp); [lia | lia |].
  split; [exact Hl |]. split; [exact Hb |].
  intros value. eapply perm_trans; [apply Hp |].
  apply hole_swap; [lia | exact Ec].
Qed.

Lemma adjust_heap_perm (a : list A) first holeIndex len value :
  first + len <= length a -> holeIndex < len ->
  Permutation (adjust_heap comp a first holeIndex len value)
    (upd a (first + holeIndex) value).
Proof.
  intros Hlen Hh. unfold adjust_heap.
  pose proof (adjust_heap_loop_spec len a first holeIndex holeIndex len
                Hlen Hh) as H.
  destruct (adjust_heap_loop comp len a first holeIndex holeIndex len)
    as [[a1 hole1] sc1].
  cbn in H. destruct H as (Hl & Hb & Hp).
  destruct (Nat.even len && (sc1 =? (len - 2) / 2)) eqn:Ee.
  - apply andb_true_iff in Ee. destruct Ee as [Ev Es].
    apply Nat.eqb_eq in Es. apply Nat.even_spec in Ev. destruct Ev as [k Ek].
    assert (Hlast : 2 * (sc1 + 1) - 1 < len).
    { pose proof (Nat.div_mod_eq (len - 2) 2). lia. }
    destruct (nth_error_in_range a1 (first + (2 * (sc1 + 1) - 1)))
      as [c Ec]; [lia |].
    unfold move. rewrite Ec.
    eapply perm_trans; [apply push_heap_perm; rewrite length_upd; lia |].
    eapply perm_trans; [| apply Hp].
    apply hole_swap; [lia | exact Ec].
  - eapply perm_trans; [apply push_heap_perm; lia |]. apply Hp.
Qed.

Lemma adjust_heap_length (a : list A) first holeIndex len value :
  first + len <= length a -> holeIndex < len ->
  length (adjust_heap comp a first holeIndex len value) = length a.
Proof.
  intros Hlen Hh.
  rewrite (Permutation_length (adjust_heap_perm a first holeIndex len value
                                 Hlen Hh)).
  apply length_upd.
Qed.

Lemma pop_heap_perm (a : list A) first last result :
  first < last -> last <= length a -> result < length a ->
  Permutation (pop_heap comp a first last result) a.
Proof.
  intros Hfl Hl Hr. unfold pop_heap.
  destruct (nth_error a result) as [value|] eqn:Er; [| reflexivity].
  destruct (nth_error_in_range a first) as [x Ex]; [lia |].
  unfold move. rewrite Ex.
  eapply perm_trans; [apply adjust_heap_perm; rewrite ?length_upd; lia |].
  rewrite Nat.add_0_r.
  eapply perm_trans; [apply hole_swap; [exact Hr | exact Ex] |].
  now rewrite (upd_same a result value).
Qed.

Lemma make_heap_loop_perm parent (a : list A) first len :
  first + len <= length a -> parent < len ->
  Permutation (make_heap_loop comp parent a first len) a.
Proof.
  revert a. induction parent as [|p IH]; intros a Hlen Hp;
    cbn [make_heap_loop];
    (destruct (nth_error a (first + _)) as [value|] eqn:Ev; [| reflexivity]).
  - eapply perm_trans; [apply adjust_heap_perm; lia |].
    now rewrite (upd_same a _ value).
  - eapply perm_trans;
      [apply IH; [rewrite adjust_heap_length; lia | lia] |].
    eapply perm_trans; [apply adjust_heap_perm; lia |].
    now rewrite (upd_same a _ value).
Qed.

Lemma make_heap_perm (a : list A) first last :
  last <= length a -> Permutation (make_heap comp a first last) a.
Proof.
  intros Hl. unfold make_heap.
  destruct (last - first <? 2) eqn:E; [reflexivity |].
  apply Nat.ltb_ge in E.
  apply make_heap_loop_perm; [lia |].
  apply Nat.Div0.div_lt_upper_bound. lia.
Qed.

Lemma sort_heap_perm (a : list A) first last :
  last <= length a -> Permutation (sort_heap comp a first last) a.
Proof.
  revert a. induction last as [|l IH]; intros a Hl; cbn [sort_heap];
    [reflexivity |].
  destruct (1 <? S l - first) eqn:E; [| reflexivity].
  apply Nat.ltb_lt in E.
  assert (Hp : Permutation (pop_heap comp a first l l) a)
    by (apply pop_heap_perm; lia).
  eapply perm_trans; [apply IH | exact Hp].
  rewrite (Permutation_length Hp). lia.
Qed.

(** The fallback of the introsort loop: [__partial_sort(first, last, last)]. *)
Lemma partial_sort_perm (a : list A) first last :
  last <= length a -> Permutation (partial_sort comp a first last last) a.
Proof.
  intros Hl. unfold partial_sort, heap_select.
  rewrite Nat.sub_diag. cbn [seq fold_left].
  pose proof (make_heap_perm a first last Hl) as Hm.
  eapply perm_trans; [apply sort_heap_perm | exact Hm].
  rewrite (Permutation_length Hm). exact Hl.
Qed.

(** *** The introsort loop *)

Lemma introsort_loop_perm depth_limit (a : list A) first last :
  last <= length a ->
  Permutation a (introsort_loop comp depth_limit a first last).
Proof.
  revert a first last.
  induction depth_limit as [|d IH]; intros a first last Hl;
    cbn [introsort_loop];
    (destruct (S_threshold <? last - first) eqn:E; [| reflexivity]).
  - apply Permutation_sym, partial_sort_perm, Hl.
  - apply Nat.ltb_lt in E. unfold S_threshold in E.
    pose proof (unguarded_partition_pivot_spec a first last) as H.
    destruct (unguarded_partition_pivot comp a first last) as [a1 cut].
    cbn in H. destruct H as (Hp & Hlen & Hc); [lia | lia |].
    pose proof (IH a1 cut last) as H1.
    eapply perm_trans; [exact Hp |].
    eapply perm_trans; [apply H1; lia |].
    apply IH. rewrite <- (Permutation_length (H1 ltac:(lia))). lia.
Qed.

(** *** The final insertion pass *)

(** The sorted prefix is kept in reverse, nearest element first, as the
    insertion loop reads it. *)
Fixpoint insert_rev (val : A) (before : list A) : list A :=
  match before with
  | [] => [val]
  | next :: rest =>
      if comp val next then next :: insert_rev val rest else val :: before
  end.

(** One round of [__insertion_sort] on the reversed prefix. *)
Definition insertion_round (before : list A) (val : A) : list A :=
  if comp val (last before val) then before ++ [val]
  else insert_rev val before.

Lemma nth_error_app_mid (pre : list A) h suf :
  nth_error (pre ++ h :: suf) (length pre) = Some h.
Proof. induction pre; simpl; auto. Qed.

Lemma upd_app_mid (pre : list A) h suf v :
  upd (pre ++ h :: suf) (length pre) v = pre ++ v :: suf.
Proof. induction pre; simpl; [reflexivity | now f_equal]. Qed.

Lemma unguarded_linear_insert_loop_spec (pre : list A) h suf val :
  unguarded_linear_insert_loop comp (pre ++ h :: suf) (length pre) val
  = rev (insert_rev val (rev pre)) ++ suf.
Proof.
  revert h suf. induction pre as [|y pre IH] using rev_ind; intros h suf.
  - reflexivity.
  - assert (El : length (pre ++ [y]) = S (length pre))
      by (rewrite length_app; simpl; lia).
    assert (Ey : nth_error ((pre ++ [y]) ++ h :: suf) (length pre) = Some y).
    { rewrite <- app_assoc. apply nth_error_app_mid. }
    assert (Eu : forall v, upd ((pre ++ [y]) ++ h :: suf) (S (length pre)) v
                           = pre ++ y :: v :: suf).
    { intros v. rewrite <- El, upd_app_mid. now rewrite <- app_assoc. }
    rewrite El. cbn [unguarded_linear_insert_loop].
    unfold comp_val_iter, move. rewrite Ey, !Eu.
    rewrite rev_app_distr. cbn [rev app insert_rev].
    destruct (comp val y).
    + rewrite IH. cbn [rev]. now rewrite <- app_assoc.
    + cbn [rev]. rewrite rev_involutive. now rewrite <- !app_assoc.
Qed.

Lemma unguarded_linear_insert_spec (before : list A) val suf :
  unguarded_linear_insert comp (rev before ++ val :: suf) (length before)
  = rev (insert_rev val before) ++ suf.
Proof.
  unfold unguarded_linear_insert. rewrite <- (length_rev before).
  rewrite nth_error_app_mid, unguarded_linear_insert_loop_spec.
  now rewrite rev_involutive.
Qed.

Lemma move_backward_spec (pre : list A) h suf :
  move_backward (pre ++ h :: suf) 0 (length pre)
  = hd h pre :: pre ++ suf.
Proof.
  unfold move_backward. rewrite Nat.sub_0_r. cbn [Nat.add].
  revert h suf. induction pre as [|y pre IH] using rev_ind; intros h suf.
  - reflexivity.
  - assert (El : length (pre ++ [y]) = S (length pre))
      by (rewrite length_app; simpl; lia).
    assert (Ey : nth_error ((pre ++ [y]) ++ h :: suf) (length pre) = Some y).
    { rewrite <- app_assoc. apply nth_error_app_mid. }
    assert (Eu : forall v, upd ((pre ++ [y]) ++ h :: suf) (S (length pre)) v
                           = pre ++ y :: v :: suf).
    { intros v. rewrite <- El, upd_app_mid. now rewrite <- app_assoc. }
    rewrite El, seq_S, rev_app_distr. cbn [rev app fold_left].
    unfold move at 2.
    replace (1 + length pre - 1) with (length pre) by lia.
    rewrite Ey. change (1 + length pre) with (S (length pre)).
    rewrite Eu, IH, <- app_assoc. destruct pre; reflexivity.
Qed.

Lemma hd_rev_last (l : list A) d : hd d (rev l) = last l d.
Proof.
  induction l as [|x l IH] using rev_ind; [reflexivity |].
  rewrite rev_app_distr, last_last. reflexivity.
Qed.

Lemma insert_rev_length val before :
  length (insert_rev val before) = S (length before).
Proof.
  induction before as [|y t IH]; simpl; [reflexivity |].
  destruct (comp val y); simpl; [now rewrite IH | reflexivity].
Qed.

Lemma insertion_round_length before val :
  length (insertion_round before val) = S (length before).
Proof.
  unfold insertion_round. destruct (comp val _).
  - rewrite length_app. simpl. lia.
  - apply insert_rev_length.
Qed.

(** One iteration of the loop of [__insertion_sort], with [first = 0]. *)
Lemma insertion_sort_round (before : list A) val suf :
  before <> [] ->
  (if comp_iter comp (rev before ++ val :: suf) (length before) 0 then
     match nth_error (rev before ++ val :: suf) (length before) with
     | Some val' =>
         upd (move_backward (rev before ++ val :: suf) 0 (length before))
           0 val'
     | None => rev before ++ val :: suf
     end
   else unguarded_linear_insert comp (rev before ++ val :: suf)
          (length before))
  = rev (insertion_round before val) ++ suf.
Proof.
  intros Hne. unfold comp_iter, insertion_round.
  assert (Ei : nth_error (rev before ++ val :: suf) (length before)
               = Some val).
  { rewrite <- length_rev. apply nth_error_app_mid. }
  assert (E0 : nth_error (rev before ++ val :: suf) 0
               = Some (last before val)).
  { rewrite <- (hd_rev_last before val).
    destruct (rev before) eqn:E; [| reflexivity].
    apply (f_equal (@rev A)) in E. rewrite rev_involutive in E.
    now destruct Hne. }
  assert (Em : move_backward (rev before ++ val :: suf) 0 (length before)
               = hd val (rev before) :: rev before ++ suf).
  { rewrite <- length_rev. apply move_backward_spec. }
  rewrite Ei, E0. destruct (comp val (last before val)).
  - rewrite Em. cbn [upd]. rewrite rev_app_distr. reflexivity.
  - apply unguarded_linear_insert_spec.
Qed.

Lemma insertion_sort_fold (mid before rest : list A) :
  before <> [] ->
  fold_left
    (fun a i =>
       if comp_iter comp a i 0 then
         match nth_error a i with
         | Some val => upd (move_backward a 0 i) 0 val
         | None => a
         end
       else unguarded_linear_insert comp a i)
    (seq (length before) (length mid)) (rev before ++ mid ++ rest)
  = rev (fold_left insertion_round mid before) ++ rest.
Proof.
  revert before. induction mid as [|x mid IH]; intros before Hne.
  - reflexivity.
  - cbn [length seq fold_left app].
    rewrite (insertion_sort_round before x (mid ++ rest) Hne).
    rewrite <- (insertion_round_length before x). apply IH.
    intros E. apply (f_equal (@length A)) in E.
    rewrite insertion_round_length in E. discriminate.
Qed.

Lemma unguarded_insertion_sort_fold (mid before rest : list A) :
  unguarded_insertion_sort comp (rev before ++ mid ++ rest)
    (length before) (length before + length mid)
  = rev (fold_left (fun b x => insert_rev x b) mid before) ++ rest.
Proof.
  unfold unguarded_insertion_sort.
  replace (length before + length mid - length before) with (length mid)
    by lia.
  revert before. induction mid as [|x mid IH]; intros before.
  - reflexivity.
  - cbn [length seq fold_left app].
    rewrite unguarded_linear_insert_spec.
    rewrite <- (insert_rev_length x before). apply IH.
Qed.

Lemma insertion_sort_spec (x : A) (mid rest : list A) :
  insertion_sort comp (x :: mid ++ rest) 0 (S (length mid))
  = rev (fold_left insertion_round mid [x]) ++ rest.
Proof.
  unfold insertion_sort. cbn [Nat.eqb Nat.add].
  replace (S (length mid) - 1) with (length mid) by lia.
  apply (insertion_sort_fold mid [x] rest). discriminate.
Qed.

(** Content and order of the reversed prefix *)

Lemma insert_rev_perm val before :
  Permutation (val :: before) (insert_rev val before).
Proof.
  induction before as [|y t IH]; simpl; [reflexivity |].
  destruct (comp val y); [| reflexivity].
  eapply perm_trans; [apply perm_swap | now apply perm_skip].
Qed.

Lemma insertion_round_perm before val :
  Permutation (val :: before) (insertion_round before val).
Proof.
  unfold insertion_round. destruct (comp val _).
  - apply Permutation_cons_append.
  - apply insert_rev_perm.
Qed.

Lemma StronglySorted_app (R : A -> A -> Prop) l1 l2 :
  StronglySorted R l1 -> StronglySorted R l2 ->
  (forall a b, In a l1 -> In b l2 -> R a b) ->
  StronglySorted R (l1 ++ l2).
Proof.
  induction l1 as [|x l1 IH]; intros H1 H2 H; simpl; [exact H2 |].
  apply StronglySorted_inv in H1. destruct H1 as [H1 Hx].
  constructor.
  - apply IH; [exact H1 | exact H2 |]. intros a b Ha Hb. apply H; simpl; auto.
  - apply Forall_app. split; [exact Hx |].
    apply Forall_forall. intros b Hb. apply H; simpl; auto.
Qed.

Lemma StronglySorted_app_inv (R : A -> A -> Prop) l1 l2 :
  StronglySorted R (l1 ++ l2) ->
  forall a b, In a l1 -> In b l2 -> R a b.
Proof.
  induction l1 as [|x l1 IH]; simpl; intros H a b Ha Hb; [easy |].
  apply StronglySorted_inv in H. destruct H as [H Hx].
  destruct Ha as [<- | Ha].
  - rewrite Forall_forall in Hx. apply Hx, in_or_app. now right.
  - now apply IH.
Qed.

Lemma StronglySorted_rev (R : A -> A -> Prop) l :
  StronglySorted R l -> StronglySorted (fun a b => R b a) (rev l).
Proof.
  induction 1 as [|x l Hs IH Hx]; simpl; [constructor |].
  apply StronglySorted_app; [exact IH | repeat constructor |].
  intros a b Ha [<- | []]. rewrite Forall_forall in Hx.
  apply Hx. now apply in_rev.
Qed.

Section Order.
Hypothesis Hswo : strict_weak_order comp.

Lemma insert_rev_sorted val before :
  StronglySorted (fun a b => comp a b = false) before ->
  StronglySorted (fun a b => comp a b = false) (insert_rev val before).
Proof.
  induction before as [|y t IH]; intros Hs; simpl.
  - repeat constructor.
  - apply StronglySorted_inv in Hs. destruct Hs as [Hs Hy].
    destruct (comp val y) eqn:E.
    + constructor; [now apply IH |].
      apply Forall_forall. intros z Hz.
      apply (Permutation_in z (Permutation_sym (insert_rev_perm val t)))
        in Hz.
      destruct Hz as [<- | Hz]; [now apply (swo_asym comp Hswo) |].
      rewrite Forall_forall in Hy. now apply Hy.
    + constructor; [now constructor |].
      constructor; [exact E |].
      apply Forall_forall. intros z Hz. rewrite Forall_forall in Hy.
      apply (swo_neg_trans comp Hswo val y z); [exact E | now apply Hy].
Qed.

Lemma insertion_round_sorted before val :
  StronglySorted (fun a b => comp a b = false) before ->
  StronglySorted (fun a b => comp a b = false) (insertion_round before val).
Proof.
  intros Hs. unfold insertion_round.
  destruct (comp val (last before val)) eqn:E;
    [| now apply insert_rev_sorted].
  destruct before as [|b0 t]; [repeat constructor |].
  apply StronglySorted_app; [exact Hs | repeat constructor |].
  intros a b Ha [<- | []].
  destruct (comp a val) eqn:Eab; [| reflexivity].
  pose proof (swo_trans comp Hswo a val _ Eab E) as Hlt.
  assert (Hd : b0 :: t <> []) by discriminate.
  rewrite (app_removelast_last val Hd) in Hs, Ha.
  apply in_app_or in Ha. destruct Ha as [Ha | [<- | []]].
  - rewrite (StronglySorted_app_inv _ _ _ Hs a (last (b0 :: t) val) Ha)
      in Hlt; [discriminate | simpl; auto].
  - rewrite (swo_irrefl comp Hswo) in Hlt. discriminate.
Qed.

Lemma fold_insertion_round_sorted mid before :
  StronglySorted (fun a b => comp a b = false) before ->
  StronglySorted (fun a b => comp a b = false)
    (fold_left insertion_round mid before).
Proof.
  revert before. induction mid as [|x mid IH]; intros before Hs; simpl;
    [exact Hs |].
  apply IH. now apply insertion_round_sorted.
Qed.

Lemma fold_insert_rev_sorted mid before :
  StronglySorted (fun a b => comp a b = false) before ->
  StronglySorted (fun a b => comp a b = false)
    (fold_left (fun b x => insert_rev x b) mid before).
Proof.
  revert before. induction mid as [|x mid IH]; intros before Hs; simpl;
    [exact Hs |].
  apply IH. now apply insert_rev_sorted.
Qed.

End Order.

Lemma rev_snoc_perm (before l : list A) x :
  Permutation (x :: before) l -> Permutation (rev before ++ [x]) (rev l).
Proof.
  intros H. eapply perm_trans; [| apply Permutation_rev].
  eapply perm_trans; [| exact H].
  eapply perm_trans; [apply Permutation_sym, Permutation_cons_append |].
  apply perm_skip, Permutation_sym, Permutation_rev.
Qed.

Lemma fold_insertion_round_perm mid before :
  Permutation (rev before ++ mid) (rev (fold_left insertion_round mid before)).
Proof.
  revert before. induction mid as [|x mid IH]; intros before; simpl.
  - now rewrite app_nil_r.
  - eapply perm_trans; [| apply IH].
    change (x :: mid) with ([x] ++ mid). rewrite app_assoc.
    apply Permutation_app_tail, rev_snoc_perm, insertion_round_perm.
Qed.

Lemma fold_insert_rev_perm mid before :
  Permutation (rev before ++ mid)
    (rev (fold_left (fun b x => insert_rev x b) mid before)).
Proof.
  revert before. induction mid as [|x mid IH]; intros before; simpl.
  - now rewrite app_nil_r.
  - eapply perm_trans; [| apply IH].
    change (x :: mid) with ([x] ++ mid). rewrite app_assoc.
    apply Permutation_app_tail, rev_snoc_perm, insert_rev_perm.
Qed.

(** The final pass on a whole vector: its result is the reverse of a list
    that holds the same elements, each followed only by elements that are
    not after it. *)
Lemma final_insertion_sort_spec (a : list A) :
  a <> [] ->
  exists before,
    final_insertion_sort comp a 0 (length a) = rev before /\
    Permutation a (rev before) /\
    (strict_weak_order comp ->
     StronglySorted (fun x y => comp x y = false) before).
Proof.
  intros Hne. destruct a as [|x t]; [now destruct Hne |].
  unfold final_insertion_sort. rewrite Nat.sub_0_r. cbn [Nat.add].
  destruct (S_threshold <? length (x :: t)) eqn:E.
  - apply Nat.ltb_lt in E. unfold S_threshold in *. cbn [length] in E.
    set (mid := firstn 15 t). set (rest := skipn 15 t).
    assert (Et : t = mid ++ rest) by (symmetry; apply firstn_skipn).
    assert (Hm : length mid = 15) by (subst mid; rewrite length_firstn; lia).
    set (b1 := fold_left insertion_round mid [x]).
    assert (Hb1 : length b1 = 16).
    { unfold b1. rewrite <- length_rev.
      rewrite <- (Permutation_length (fold_insertion_round_perm mid [x])).
      simpl. lia. }
    exists (fold_left (fun b y => insert_rev y b) rest b1).
    split; [| split].
    + rewrite Et at 1. change 16 with (S 15). rewrite <- Hm at 1.
      rewrite insertion_sort_spec. fold b1.
      rewrite <- (app_nil_r rest) at 1.
      replace (length (x :: t)) with (length b1 + length rest).
      2:{ rewrite Hb1, Et. cbn [length]. rewrite length_app. lia. }
      change (S 15) with 16. rewrite <- Hb1.
      rewrite unguarded_insertion_sort_fold. apply app_nil_r.
    + eapply perm_trans; [| apply fold_insert_rev_perm].
      rewrite Et. change (x :: mid ++ rest) with ((rev [x] ++ mid) ++ rest).
      apply Permutation_app_tail, fold_insertion_round_perm.
    + intros Hswo. apply fold_insert_rev_sorted; [exact Hswo |].
      apply fold_insertion_round_sorted; [exact Hswo |].
      repeat constructor.
  - exists (fold_left insertion_round t [x]). split; [| split].
    + cbn [length]. rewrite <- (app_nil_r t) at 1.
      rewrite insertion_sort_spec. apply app_nil_r.
    + apply (fold_insertion_round_perm t [x]).
    + intros Hswo. apply fold_insertion_round_sorted; [exact Hswo |].
      repeat constructor.
Qed.

(** *** The contract *)

Lemma sort_perm (a : list A) : Permutation a (sort comp a).
Proof.
  unfold sort. cbv zeta. rewrite Nat.sub_0_r.
  destruct (0 =? length a) eqn:E; [reflexivity |].
  apply Nat.eqb_neq in E.
  pose proof (introsort_loop_perm (lg (length a) * 2) a 0 (length a)
                (Nat.le_refl _)) as Hp.
  set (b := introsort_loop comp (lg (length a) * 2) a 0 (length a)) in *.
  rewrite (Permutation_length Hp).
  destruct (final_insertion_sort_spec b) as (before & -> & Hq & _).
  - intros Eb. rewrite Eb in Hp. apply Permutation_length in Hp.
    simpl in Hp. lia.
  - eapply perm_trans; [exact Hp | exact Hq].
Qed.

Lemma sort_sorted (a : list A) :
  strict_weak_order comp ->
  StronglySorted (fun x y => comp y x = false) (sort comp a).
Proof.
  intros Hswo. unfold sort. cbv zeta. rewrite Nat.sub_0_r.
  destruct (0 =? length a) eqn:E.
  - apply Nat.eqb_eq in E. destruct a; [constructor | discriminate].
  - apply Nat.eqb_neq in E.
    pose proof (introsort_loop_perm (lg (length a) * 2) a 0 (length a)
                  (Nat.le_refl _)) as Hp.
    set (b := introsort_loop comp (lg (length a) * 2) a 0 (length a)) in *.
    rewrite (Permutation_length Hp).
    destruct (final_insertion_sort_spec b) as (before & -> & _ & Hs).
    + intros Eb. rewrite Eb in Hp. apply Permutation_length in Hp.
      simpl in Hp. lia.
    + apply (StronglySorted_rev (fun x y => comp x y = false)), Hs, Hswo.
Qed.

End LibstdcxxSort.

Definition libstdcxx_std_sort : StdSort :=
  {| std_sort := @libstdcxx.sort;
     std_sort_perm := fun A lt l _ => sort_perm lt l;
     std_sort_sorted := @sort_sorted |}.

(** * The 4x4 scenario of the tiler *)

(** C9, as stated, fails: the four tiles of the 4x4 scenario do not carry the
    counts 2, 0, 1, 3 in any order. *)
Lemma make_2d_tiles_example_not_2013 :
  ~ (exists tiles,
        make_2d_tiles X_example cfg_2x2 = Ok tiles /\
        length tiles = 4%nat /\
        Permutation (map tile_nnz tiles) [2; 0; 1; 3] /\
        sum_nnz tiles = 6).
Proof.
  intros (tiles & Hrun & _ & Hperm & _).
  vm_compute in Hrun. injection Hrun as <-. simpl in Hperm.
  assert (Hin : In 0 [2; 1; 1; 2]).
  { apply (Permutation_in 0 (Permutation_sym Hperm)). simpl. auto. }
  simpl in Hin. intuition discriminate.
Qed.

(** C9, amended: on the 4x4 scenario tiled at 2x2, [make_2d_tiles] returns
    exactly four tiles, in grid order, with counts 2, 1, 1, 2, which sum to
    6, the number of stored nonzeros. *)
Theorem make_2d_tiles_example :
  exists tiles,
    make_2d_tiles X_example cfg_2x2 = Ok tiles /\
    length tiles = 4%nat /\
    map tile_nnz tiles = [2; 1; 1; 2] /\
    map (fun t => (row_start t, row_end t, col_start t, col_end t)) tiles
      = [(0, 2, 0, 2); (0, 2, 2, 4); (2, 4, 0, 2); (2, 4, 2, 4)] /\
    sum_nnz tiles = nnz X_example.
Proof.
  eexists. split; [vm_compute; reflexivity |].
  repeat split; reflexivity.
Qed.

(** * Routing in the driver *)

(** C5: the driver does not route by the classification flag.  The single
    tile of [X_quarter] has density 1/4; classified against the threshold
    0.5 it is sparse ([is_dense = false]), and the driver still sends it down
    the dense pipeline, because it compares the density with the constant
    0.05 again. *)
Theorem process_tiles_ignores_is_dense :
  exists tiles0 tiles out,
    make_2d_tiles X_quarter cfg_2x2 = Ok tiles0 /\
    predict_tile_density tiles0 PIM_DENSE_TILE_THRESHOLD = (tiles, (0, 1)) /\
    map is_dense tiles = [false] /\
    @process_tiles_with_predictor stable_std_sort
      X_quarter W_quarter 2 1 tiles = Ok out /\
    cpu_dense_tiles out = 1.
Proof.
  do 3 eexists.
  split; [vm_compute; reflexivity |].
  split; [vm_compute; reflexivity |].
  split; [reflexivity |].
  split; [vm_compute; reflexivity |].
  reflexivity.
Qed.

(** * [permute_csr_rows] on maps that are not permutations *)

Section PermuteRowsErrors.
Context {S : StdSort}.

(** A map of the wrong length is refused with an exception. *)
Lemma permute_csr_rows_size_mismatch (X : CSR) (row_new2old : list Z) :
  zlen row_new2old <> nrows X ->
  permute_csr_rows X row_new2old
  = Throw "permute_csr_rows: row_new2old size mismatch".
Proof.
  intros Hne. unfold permute_csr_rows.
  destruct (zlen row_new2old =? nrows X) eqn:E; [lia | reflexivity].
Qed.

(** C7: a map of the right length with an entry outside [0, nrows) is not
    refused.  On the 4x4 scenario with the map [0; 5; 1; 2] the size check
    passes and the first pass reads [X.indptr[5]] and [X.indptr[6]], past
    the end of the vector: no exception, undefined behaviour.  The sibling
    functions [unpermute_csr_rows], [permute_weight_rows], [unpermute_rows]
    and [permute_csr_cols] test every entry and throw. *)
Theorem permute_csr_rows_entry_unchecked :
  permute_csr_rows X_example [0; 5; 1; 2] = Undef /\
  unpermute_csr_rows X_example [0; 5; 1; 2]
  = Throw "unpermute_csr_rows: invalid row_new2old entry".
Proof. split; reflexivity. Qed.

End PermuteRowsErrors.

(** * The order computed by [create_row_new2old] *)

Lemma swo_key_lt {A} (key : A -> Z) :
  strict_weak_order (fun a b => key a <? key b).
Proof. constructor; intros; lia. Qed.

Lemma swo_key_gt {A} (key : A -> Z) :
  strict_weak_order (fun a b => key a >? key b).
Proof. constructor; intros; lia. Qed.

Lemma StronglySorted_zth {A} (R : A -> A -> Prop) (d : A) l :
  StronglySorted R l ->
  forall i j, 0 <= i -> i < j -> j < zlen l -> R (zth d l i) (zth d l j).
Proof.
  induction 1 as [|x t Hs IH Hall]; intros i j Hi Hij Hj.
  - unfold zlen in Hj. simpl in Hj. lia.
  - unfold zth, zlen in *. simpl length in Hj.
    destruct (Z.to_nat i) as [|n] eqn:Ei;
      destruct (Z.to_nat j) as [|m] eqn:Ej; try lia; simpl.
    + rewrite Forall_forall in Hall. apply Hall. apply nth_In. lia.
    + specialize (IH (Z.of_nat n) (Z.of_nat m)).
      rewrite !Nat2Z.id in IH. apply IH; lia.
Qed.

(** C8, as stated, fails: the code sorts with [std::sort] and adds no
    tie-break, and the [std::sort] of libstdc++ does not keep equivalent
    elements in their input order once the range has more than sixteen
    elements.  For seventeen rows with one stored value each, the returned
    order starts with row 8; row 0 comes tenth. *)
Lemma create_row_new2old_ties_libstdcxx :
  @create_row_new2old libstdcxx_std_sort counts_17 true
  = [8; 16; 15; 14; 13; 12; 11; 10; 9; 0; 7; 6; 5; 4; 3; 2; 1] /\
  ~ ties_by_index counts_17
      (@create_row_new2old libstdcxx_std_sort counts_17 true).
Proof.
  assert (E : @create_row_new2old libstdcxx_std_sort counts_17 true
              = [8; 16; 15; 14; 13; 12; 11; 10; 9; 0; 7; 6; 5; 4; 3; 2; 1])
    by (vm_compute; reflexivity).
  split; [exact E |]. rewrite E. intros H.
  assert (Hbad : 8 < 0).
  { apply (H 0 9); first [reflexivity | lia]. }
  lia.
Qed.

(** On sixteen elements or fewer that sort only runs its insertion pass,
    which keeps equivalent elements in their input order: two rows with one
    stored value each stay in the order 0, 1. *)
Remark create_row_new2old_two_rows_libstdcxx :
  @create_row_new2old libstdcxx_std_sort [1; 1] true = [0; 1].
Proof. reflexivity. Qed.

(** The order is a permutation of the indices, whichever way it sorts. *)
Lemma create_row_new2old_permutation (S : StdSort) (counts : list Z)
  (descending : bool) :
  Permutation (zrange 0 (zlen counts)) (create_row_new2old counts descending).
Proof.
  unfold create_row_new2old. destruct descending.
  - apply std_sort_perm, (swo_key_gt (zth 0 counts)).
  - apply std_sort_perm, (swo_key_lt (zth 0 counts)).
Qed.

(** C8, amended: [create_row_new2old] returns a permutation of the indices
    [0, n) ordered by count, descending or ascending as asked; the relative
    order of indices with equal counts is not fixed. *)
Theorem create_row_new2old_sorted (S : StdSort) (counts : list Z)
  (descending : bool) :
  Permutation (zrange 0 (zlen counts)) (create_row_new2old counts descending)
  /\ ordered_by_count counts (create_row_new2old counts descending) descending.
Proof.
  unfold create_row_new2old, ordered_by_count.
  destruct descending.
  - split; [apply std_sort_perm, (swo_key_gt (zth 0 counts)) |].
    intros i j Hi Hij Hj.
    pose proof (StronglySorted_zth _ 0 _
      (std_sort_sorted _ _ (zrange 0 (zlen counts))
         (swo_key_gt (zth 0 counts))) i j Hi Hij Hj) as Hs.
    simpl in Hs. lia.
  - split; [apply std_sort_perm, (swo_key_lt (zth 0 counts)) |].
    intros i j Hi Hij Hj.
    pose proof (StronglySorted_zth _ 0 _
      (std_sort_sorted _ _ (zrange 0 (zlen counts))
         (swo_key_lt (zth 0 counts))) i j Hi Hij Hj) as Hs.
    simpl in Hs. lia.
Qed.

(** * Generic facts *)

Lemma zsum_app a b : zsum (a ++ b) = zsum a + zsum b.
Proof. induction a; simpl; lia. Qed.

Lemma zsum_perm a b : Permutation a b -> zsum a = zsum b.
Proof. induction 1; simpl; lia. Qed.

Lemma zlen_nil {A} : zlen (@nil A) = 0.
Proof. reflexivity. Qed.

Lemma zlen_one {A} (x : A) : zlen [x] = 1.
Proof. reflexivity. Qed.

Lemma zlen_cons {A} (x : A) l : zlen (x :: l) = zlen l + 1.
Proof. unfold zlen. simpl length. lia. Qed.

Lemma entries_at_snoc ind dat off len :
  0 <= len ->
  entries_at ind dat off (len + 1)
  = entries_at ind dat off len
      ++ [(zth 0 ind (off + len), zth 0 dat (off + len))].
Proof.
  intros. unfold entries_at. rewrite zrange_snoc by lia.
  now rewrite map_app.
Qed.

Lemma entries_at_0 ind dat off : entries_at ind dat off 0 = [].
Proof. reflexivity. Qed.

Lemma zlen_entries_at ind dat off len :
  0 <= len -> zlen (entries_at ind dat off len) = len.
Proof. intros. unfold entries_at. rewrite zlen_map. now apply zlen_zrange. Qed.

Lemma zth_entries_at ind dat off len t d :
  0 <= t < len ->
  zth d (entries_at ind dat off len) t
  = (zth 0 ind (off + t), zth 0 dat (off + t)).
Proof.
  intros. unfold entries_at.
  rewrite (zth_map _ 0) by (rewrite zlen_zrange; lia).
  now rewrite zth_zrange by lia.
Qed.

Lemma entries_at_ext ind dat ind' dat' off len :
  (forall p, off <= p < off + len ->
             zth 0 ind p = zth 0 ind' p /\ zth 0 dat p = zth 0 dat' p) ->
  entries_at ind dat off len = entries_at ind' dat' off len.
Proof.
  intros H. unfold entries_at. apply map_ext_in. intros p Hp.
  destruct (Z_le_gt_dec 0 len) as [Hl | Hl].
  - apply in_zrange in Hp; [| exact Hl].
    destruct (H p Hp) as [-> ->]. reflexivity.
  - unfold zrange in Hp. replace (Z.to_nat len) with O in Hp by lia.
    contradiction.
Qed.

Lemma entries_at_eq_list ind dat off len l :
  0 <= len -> zlen l = len ->
  (forall t, 0 <= t < len ->
             (zth 0 ind (off + t), zth 0 dat (off + t)) = zth (0, 0) l t) ->
  entries_at ind dat off len = l.
Proof.
  intros Hl Hlen H. apply (zth_ext (0, 0)).
  - rewrite zlen_entries_at by lia. lia.
  - intros t Ht. rewrite zlen_entries_at in Ht by lia.
    rewrite zth_entries_at by lia. now apply H.
Qed.

Lemma mono_le (f : Z -> Z) a b :
  (forall i, a <= i < b -> f i <= f (i + 1)) ->
  forall i j, a <= i -> i <= j -> j <= b -> f i <= f j.
Proof.
  intros Hm i j Hi Hij Hj.
  replace j with (i + Z.of_nat (Z.to_nat (j - i))) by lia.
  assert (Hb : i + Z.of_nat (Z.to_nat (j - i)) <= b) by lia.
  induction (Z.to_nat (j - i)) as [|n IH].
  - replace (i + Z.of_nat 0) with i by lia. lia.
  - replace (i + Z.of_nat (Datatypes.S n)) with (i + Z.of_nat n + 1) by lia.
    specialize (Hm (i + Z.of_nat n)). lia.
Qed.

Lemma row_disjoint a b N j :
  0 <= j < N -> a <> b -> a * N + j < b * N \/ b * N + N <= a * N + j.
Proof. intros. nia. Qed.

Lemma row_index_inj a b N j j' :
  0 <= j < N -> 0 <= j' < N -> a * N + j = b * N + j' -> a = b /\ j = j'.
Proof.
  intros Hj Hj' E.
  assert (Hab : a = b).
  { destruct (Z.eq_dec a b) as [|Hne]; [assumption |].
    destruct (row_disjoint a b N j Hj Hne); lia. }
  subst. lia.
Qed.

(** ** Dense matrices are determined by their entries *)

Lemma zlen_dense_of M N f : 0 <= M -> 0 <= N -> zlen (dense_of M N f) = M * N.
Proof.
  intros. unfold dense_of. rewrite zlen_map. apply zlen_zrange. nia.
Qed.

Lemma dense_ext M N f (Y : list Z) :
  0 <= M -> 0 <= N -> zlen Y = M * N ->
  (forall i j, 0 <= i < M -> 0 <= j < N -> zth 0 Y (i * N + j) = f i j) ->
  Y = dense_of M N f.
Proof.
  intros HM HN Hlen H. apply (zth_ext 0).
  - now rewrite zlen_dense_of.
  - intros p Hp. unfold dense_of.
    rewrite (zth_map _ 0) by (rewrite zlen_zrange; nia).
    rewrite zth_zrange by lia. simpl.
    assert (HNpos : 0 < N) by nia.
    pose proof (Z.div_mod p N ltac:(lia)) as Hdm.
    pose proof (Z.mod_pos_bound p N HNpos) as Hmod.
    assert (Hdiv : 0 <= p / N < M).
    { split; [apply Z.div_pos; lia | apply Z.div_lt_upper_bound; nia]. }
    rewrite <- (H (p / N) (p mod N)) by lia.
    f_equal. lia.
Qed.

Lemma zth_dense_of M N f i j :
  0 <= i < M -> 0 <= j < N -> zth 0 (dense_of M N f) (i * N + j) = f i j.
Proof.
  intros Hi Hj. unfold dense_of.
  rewrite (zth_map _ 0) by (rewrite zlen_zrange; nia).
  rewrite zth_zrange by nia. simpl.
  assert (Hd : (i * N + j) / N = i)
    by (symmetry; apply Z.div_unique_pos with (r := j); lia).
  assert (Hm : (i * N + j) mod N = j)
    by (symmetry; apply Z.mod_unique_pos with (q := i); lia).
  now rewrite Hd, Hm.
Qed.

(** ** Loops that update one row, and all rows, of a row-major buffer *)

Lemma row_update_returns (body : Z -> list Z -> result (list Z))
  (h : Z -> Z -> Z) (base N L : Z) (arr : list Z) :
  0 <= N -> 0 <= base -> zlen arr = L -> base + N <= L ->
  (forall j a, 0 <= j < N -> zlen a = L ->
     body j a = vset a (base + j) (h j (zth 0 a (base + j)))) ->
  returns (for_range 0 N body arr) (fun a' =>
    zlen a' = L /\
    (forall j, 0 <= j < N -> zth 0 a' (base + j) = h j (zth 0 arr (base + j)))
    /\ (forall p, 0 <= p -> p < base \/ base + N <= p ->
                  zth 0 a' p = zth 0 arr p)).
Proof.
  intros HN Hb HL Hlen Hbody.
  apply (for_range_inv (fun k a' =>
    zlen a' = L /\
    (forall j, 0 <= j < k ->
               zth 0 a' (base + j) = h j (zth 0 arr (base + j))) /\
    (forall p, 0 <= p -> p < base \/ base + k <= p ->
               zth 0 a' p = zth 0 arr p))); [lia | |].
  - split; [exact HL | split; [intros; lia | intros; reflexivity]].
  - intros k a Hk (Hla & Hdone & Hframe).
    rewrite Hbody by lia. rewrite vset_ok by lia.
    apply returns_ok. split; [now rewrite zlen_zupd |]. split.
    + intros j Hj. destruct (Z.eq_dec j k) as [-> | Hne].
      * rewrite zth_zupd_eq by lia. f_equal. apply Hframe; lia.
      * rewrite zth_zupd_neq by lia. apply Hdone. lia.
    + intros p Hp Hout. rewrite zth_zupd_neq by lia. apply Hframe; lia.
Qed.

Lemma rows_update_returns (body : Z -> list Z -> result (list Z))
  (g : Z -> Z) (h : Z -> Z -> Z -> Z) (M N L : Z) (arr : list Z) :
  0 <= M -> 0 <= N -> zlen arr = L ->
  (forall i, 0 <= i < M -> 0 <= g i /\ g i * N + N <= L) ->
  (forall i i', 0 <= i < M -> 0 <= i' < M -> g i = g i' -> i = i') ->
  (forall i a, 0 <= i < M -> zlen a = L ->
     returns (body i a) (fun a' =>
       zlen a' = L /\
       (forall j, 0 <= j < N ->
          zth 0 a' (g i * N + j) = h i j (zth 0 a (g i * N + j))) /\
       (forall p, 0 <= p -> p < g i * N \/ g i * N + N <= p ->
          zth 0 a' p = zth 0 a p))) ->
  returns (for_range 0 M body arr) (fun a' =>
    zlen a' = L /\
    (forall i j, 0 <= i < M -> 0 <= j < N ->
       zth 0 a' (g i * N + j) = h i j (zth 0 arr (g i * N + j))) /\
    (forall p, 0 <= p ->
       (forall i, 0 <= i < M -> p < g i * N \/ g i * N + N <= p) ->
       zth 0 a' p = zth 0 arr p)).
Proof.
  intros HM HN Hlen Hg Hinj Hbody.
  apply (for_range_inv (fun k a' =>
    zlen a' = L /\
    (forall i j, 0 <= i < k -> 0 <= j < N ->
       zth 0 a' (g i * N + j) = h i j (zth 0 arr (g i * N + j))) /\
    (forall p, 0 <= p ->
       (forall i, 0 <= i < k -> p < g i * N \/ g i * N + N <= p) ->
       zth 0 a' p = zth 0 arr p))); [lia | |].
  - split; [exact Hlen | split; [intros; lia | intros; reflexivity]].
  - intros k a Hk (Hla & Hdone & Hframe).
    apply returns_weaken with (1 := Hbody k a Hk Hla).
    intros a' (Hla' & Hrow & Hout).
    split; [exact Hla' |]. split.
    + intros i j Hi Hj. destruct (Z.eq_dec i k) as [-> | Hne].
      * rewrite Hrow by lia. f_equal. apply Hframe.
        { destruct (Hg k Hk). nia. }
        intros i' Hi'. apply row_disjoint; [lia |].
        intros E. apply Hinj in E; lia.
      * rewrite Hout.
        { apply Hdone; lia. }
        { destruct (Hg i ltac:(lia)). nia. }
        apply row_disjoint; [lia |].
        intros E. apply Hinj in E; lia.
    + intros p Hp Hall. rewrite Hout; [| lia | apply Hall; lia].
      apply Hframe; [lia |]. intros i Hi. apply Hall. lia.
Qed.

(** ** Consequences of well-formedness *)

Lemma wf_ptr_le (X : CSR) :
  wf_csr X -> forall i j, 0 <= i -> i <= j -> j <= nrows X ->
  zth 0 (indptr X) i <= zth 0 (indptr X) j.
Proof.
  intros Hwf i j Hi Hij Hj.
  apply (mono_le (zth 0 (indptr X)) 0 (nrows X)); try lia.
  apply (wf_indptr_mono X Hwf).
Qed.

Lemma wf_ptr_bounds (X : CSR) :
  wf_csr X -> forall i, 0 <= i <= nrows X ->
  0 <= zth 0 (indptr X) i <= nnz X.
Proof.
  intros Hwf i Hi. rewrite <- (wf_indptr_first X Hwf) at 1.
  rewrite <- (wf_indptr_last X Hwf).
  split; apply wf_ptr_le; auto; lia.
Qed.

Lemma wf_rowlen_nonneg (X : CSR) :
  wf_csr X -> forall i, 0 <= i < nrows X -> 0 <= rowlen (indptr X) i.
Proof.
  intros Hwf i Hi. unfold rowlen.
  pose proof (wf_indptr_mono X Hwf i Hi). lia.
Qed.

Lemma dot_entries_snoc es e W N j :
  dot_entries (es ++ [e]) W N j
  = dot_entries es W N j + snd e * zth 0 W (fst e * N + j).
Proof.
  unfold dot_entries. rewrite map_app, zsum_app. simpl. lia.
Qed.

(** * The baseline product *)

Section Baseline.
Variables (X : CSR) (W : list Z) (N : Z).
Hypothesis Hwf : wf_csr X.
Hypothesis HN : 0 <= N.
Hypothesis HW : zlen W = ncols X * N.

(** One row of the baseline: every stored nonzero of row [i] adds its
    multiple of a row of [W] to row [i] of [Y]. *)
Lemma spmm_row_returns (i : Z) (Y : list Z) :
  0 <= i < nrows X -> zlen Y = nrows X * N ->
  returns
    (for_range (zth 0 (indptr X) i) (zth 0 (indptr X) (i + 1))
       (fun idx Y =>
          k <- vget (indices X) idx ;;
          x_val <- vget (data X) idx ;;
          for_range 0 N (fun j Y =>
            w <- vget W (k * N + j) ;;
            y <- vget Y (i * N + j) ;;
            vset Y (i * N + j) (y + x_val * w)) Y) Y)
    (fun Y' =>
       zlen Y' = nrows X * N /\
       (forall j, 0 <= j < N ->
          zth 0 Y' (i * N + j)
          = zth 0 Y (i * N + j) + dot_entries (row_entries X i) W N j) /\
       (forall p, 0 <= p -> p < i * N \/ i * N + N <= p ->
          zth 0 Y' p = zth 0 Y p)).
Proof.
  intros Hi HY.
  pose proof (wf_indptr_mono X Hwf i Hi) as Hmono.
  pose proof (wf_ptr_bounds X Hwf i ltac:(lia)) as Hb1.
  pose proof (wf_ptr_bounds X Hwf (i + 1) ltac:(lia)) as Hb2.
  set (rs := zth 0 (indptr X) i) in *.
  set (re := zth 0 (indptr X) (i + 1)) in *.
  apply returns_weaken with (P := fun Y' =>
    zlen Y' = nrows X * N /\
    (forall j, 0 <= j < N ->
       zth 0 Y' (i * N + j)
       = zth 0 Y (i * N + j)
         + dot_entries (entries_at (indices X) (data X) rs (re - rs)) W N j)
    /\ (forall p, 0 <= p -> p < i * N \/ i * N + N <= p ->
          zth 0 Y' p = zth 0 Y p)); [| auto].
  apply (for_range_inv (fun idx Y' =>
    zlen Y' = nrows X * N /\
    (forall j, 0 <= j < N ->
       zth 0 Y' (i * N + j)
       = zth 0 Y (i * N + j)
         + dot_entries (entries_at (indices X) (data X) rs (idx - rs)) W N j)
    /\ (forall p, 0 <= p -> p < i * N \/ i * N + N <= p ->
          zth 0 Y' p = zth 0 Y p))); [lia | |].
  - split; [exact HY |]. split; [| intros; reflexivity].
    intros j Hj. replace (rs - rs) with 0 by lia.
    rewrite entries_at_0. unfold dot_entries. simpl. lia.
  - intros idx Y' Hidx (HY' & Hacc & Hframe).
    pose proof (wf_col_range X Hwf idx ltac:(lia)) as Hcol.
    rewrite (vget_ok 0) by (rewrite (wf_indices_len X Hwf); lia).
    cbn [bind].
    rewrite (vget_ok 0) by (rewrite (wf_data_len X Hwf); lia).
    cbn [bind].
    set (k := zth 0 (indices X) idx) in *.
    set (x := zth 0 (data X) idx).
    eapply returns_weaken.
    + apply (row_update_returns _
               (fun j y => y + x * zth 0 W (k * N + j)) (i * N) N
               (nrows X * N) Y'); [lia | nia | exact HY' | nia |].
      intros j a Hj Ha.
      rewrite (vget_ok 0) by nia. cbn [bind].
      rewrite (vget_ok 0) by nia. cbn [bind]. reflexivity.
    + cbv beta. intros Y'' (HY'' & Hrow & Hout).
      split; [lia |]. split.
      * intros j Hj. rewrite Hrow by lia. rewrite Hacc by lia.
        replace (idx + 1 - rs) with (idx - rs + 1) by lia.
        rewrite entries_at_snoc by lia. rewrite dot_entries_snoc.
        replace (rs + (idx - rs)) with idx by lia. simpl. fold k x. lia.
      * intros p Hp Hpo. rewrite Hout by lia. apply Hframe; lia.
Qed.

(** The baseline returns the product [X * W]. *)
Lemma spmm_baseline_spec :
  spmm_baseline X W (ncols X) N = Ok (spmm_spec X W N).
Proof.
  apply returns_eq. unfold spmm_baseline.
  rewrite Z.eqb_refl. cbn [negb].
  pose proof (wf_nrows X Hwf) as HM.
  rewrite valloc_ok by nia. cbn [bind].
  eapply returns_weaken.
  - apply (rows_update_returns _ (fun i => i)
             (fun i j y => y + dot_entries (row_entries X i) W N j)
             (nrows X) N (nrows X * N)); try lia.
    + rewrite zlen_repeat; nia.
    + intros i Hi. nia.
    + intros i a Hi Ha.
      pose proof (wf_indptr_len X Hwf) as Hlen.
      rewrite (vget_ok 0) by lia. cbn [bind].
      rewrite (vget_ok 0) by lia. cbn [bind].
      now apply spmm_row_returns.
  - cbv beta. intros Y (HY & Hrows & _).
    unfold spmm_spec. apply dense_ext; try lia.
    intros i j Hi Hj. rewrite Hrows by lia. rewrite zth_repeat. lia.
Qed.

End Baseline.

(** * Permutations of [0, n) *)

Lemma map_zth_zrange {A} (d : A) (l : list A) :
  map (zth d l) (zrange 0 (zlen l)) = l.
Proof.
  apply (zth_ext d).
  - rewrite zlen_map. apply zlen_zrange. apply zlen_nonneg.
  - intros i Hi. rewrite zlen_map, zlen_zrange in Hi by apply zlen_nonneg.
    rewrite (zth_map _ 0) by (rewrite zlen_zrange; [lia | apply zlen_nonneg]).
    rewrite zth_zrange by lia. f_equal.
Qed.

Lemma is_perm_len n m : is_perm n m -> zlen m = n.
Proof.
  intros [Hn Hp]. unfold zlen. rewrite <- (Permutation_length Hp).
  now apply zlen_zrange.
Qed.

Lemma is_perm_range n m i :
  is_perm n m -> 0 <= i < n -> 0 <= zth 0 m i < n.
Proof.
  intros Hpm Hi. pose proof (is_perm_len n m Hpm) as Hlen.
  destruct Hpm as [Hn Hp].
  assert (Hin : In (zth 0 m i) (zrange 0 n)).
  { apply (Permutation_in _ (Permutation_sym Hp)). apply zth_In. lia. }
  apply in_zrange in Hin; lia.
Qed.

Lemma is_perm_inj n m i i' :
  is_perm n m -> 0 <= i < n -> 0 <= i' < n ->
  zth 0 m i = zth 0 m i' -> i = i'.
Proof.
  intros Hpm Hi Hi' E. pose proof (is_perm_len n m Hpm) as Hlen.
  destruct Hpm as [Hn Hp].
  assert (Hnd : NoDup m) by (apply (Permutation_NoDup Hp), NoDup_zrange).
  unfold zth, zlen in *.
  rewrite NoDup_nth in Hnd.
  specialize (Hnd (Z.to_nat i) (Z.to_nat i') ltac:(lia) ltac:(lia) E). lia.
Qed.

Lemma is_perm_surj n m k :
  is_perm n m -> 0 <= k < n -> exists i, 0 <= i < n /\ zth 0 m i = k.
Proof.
  intros Hpm Hk. pose proof (is_perm_len n m Hpm) as Hlen.
  destruct Hpm as [Hn Hp].
  assert (Hin : In k m).
  { apply (Permutation_in _ Hp). apply in_zrange; lia. }
  destruct (In_zth 0 m k Hin) as (i & Hi & E). exists i. split; [lia | auto].
Qed.

Lemma zsum_map_perm n m (f : Z -> Z) :
  is_perm n m ->
  zsum (map (fun i => f (zth 0 m i)) (zrange 0 n)) = zsum (map f (zrange 0 n)).
Proof.
  intros Hpm. pose proof (is_perm_len n m Hpm) as Hlen.
  destruct Hpm as [Hn Hp].
  rewrite <- (map_map (zth 0 m) f). rewrite <- Hlen at 1.
  rewrite map_zth_zrange. apply zsum_perm.
  apply Permutation_map, Permutation_sym, Hp.
Qed.

Lemma range_check_false x n : 0 <= x < n -> (x <? 0) || (x >=? n) = false.
Proof. intros. apply orb_false_intro; lia. Qed.

(** * [unpermute_rows] *)

Lemma unpermute_rows_spec (M N : Z) (m Yp : list Z) (f : Z -> Z -> Z) :
  is_perm M m -> 0 <= N -> zlen Yp = M * N ->
  (forall i j, 0 <= i < M -> 0 <= j < N ->
     zth 0 Yp (i * N + j) = f (zth 0 m i) j) ->
  unpermute_rows Yp M N m = Ok (dense_of M N f).
Proof.
  intros Hpm HN HYp Hf. apply returns_eq. unfold unpermute_rows.
  pose proof (is_perm_len M m Hpm) as Hlen.
  assert (HM : 0 <= M) by (destruct Hpm; lia).
  rewrite Hlen, Z.eqb_refl. cbn [negb].
  rewrite HYp, Z.eqb_refl. cbn [negb].
  rewrite valloc_ok by nia. cbn [bind].
  eapply returns_weaken.
  - apply (rows_update_returns _ (zth 0 m)
             (fun i j _ => zth 0 Yp (i * N + j)) M N (M * N)); try lia.
    + rewrite zlen_repeat; nia.
    + intros i Hi. pose proof (is_perm_range M m i Hpm Hi). nia.
    + intros i i' Hi Hi'. now apply (is_perm_inj M m).
    + intros i a Hi Ha.
      pose proof (is_perm_range M m i Hpm Hi) as Hr.
      rewrite (vget_ok 0) by lia. cbn [bind].
      rewrite range_check_false by lia.
      apply (row_update_returns _ (fun j _ => zth 0 Yp (i * N + j))
               (zth 0 m i * N) N (M * N) a); [lia | nia | exact Ha | nia |].
      intros j a' Hj Ha'.
      rewrite (vget_ok 0) by nia. cbn [bind]. reflexivity.
  - cbv beta. intros Y (HY & Hrows & _).
    apply dense_ext; try lia.
    intros k j Hk Hj.
    destruct (is_perm_surj M m k Hpm Hk) as (i & Hi & <-).
    rewrite Hrows by lia. now apply Hf.
Qed.

(** * Sorting a row by column index *)

Lemma swo_by_col : strict_weak_order by_col.
Proof. apply (swo_key_lt fst). Qed.

Lemma StronglySorted_lt_NoDup l : StronglySorted Z.lt l -> NoDup l.
Proof.
  induction 1 as [|x t Hs IH Hall]; constructor; auto.
  intros Hin. rewrite Forall_forall in Hall. specialize (Hall x Hin). lia.
Qed.

Lemma sorted_le_NoDup_lt (l : list (Z * Z)) :
  StronglySorted (fun a b => by_col b a = false) l ->
  NoDup (map fst l) ->
  StronglySorted Z.lt (map fst l).
Proof.
  induction 1 as [|x t Hs IH Hall]; intros Hnd; simpl; constructor.
  - apply IH. now inversion Hnd.
  - inversion Hnd as [|? ? Hnotin _]; subst.
    rewrite Forall_forall in *. intros c Hc.
    apply in_map_iff in Hc. destruct Hc as (e & <- & He).
    specialize (Hall e He). unfold by_col in Hall.
    assert (fst e <> fst x).
    { intros E. apply Hnotin. rewrite <- E. now apply in_map. }
    lia.
Qed.

Lemma sorted_by_col_unique (l l' : list (Z * Z)) :
  StronglySorted Z.lt (map fst l) ->
  StronglySorted Z.lt (map fst l') ->
  Permutation l l' -> l = l'.
Proof.
  revert l'. induction l as [|x t IH]; intros l' Hs Hs' Hp.
  - apply Permutation_nil in Hp. now subst.
  - destruct l' as [|y t'].
    + apply Permutation_sym, Permutation_nil in Hp. discriminate.
    + simpl in Hs, Hs'.
      inversion Hs as [|? ? Hst Hall]; subst.
      inversion Hs' as [|? ? Hst' Hall']; subst.
      rewrite Forall_forall in Hall, Hall'.
      assert (Hxy : x = y).
      { assert (Hx : In x (y :: t'))
          by (apply (Permutation_in _ Hp); now left).
        assert (Hy : In y (x :: t))
          by (apply (Permutation_in _ (Permutation_sym Hp)); now left).
        destruct Hx as [-> | Hx]; [reflexivity |].
        destruct Hy as [-> | Hy]; [reflexivity |].
        specialize (Hall (fst y) (in_map fst _ _ Hy)).
        specialize (Hall' (fst x) (in_map fst _ _ Hx)). lia. }
      subst y. f_equal. apply IH; auto.
      now apply Permutation_cons_inv in Hp.
Qed.

Section SortFacts.
Context {S : StdSort}.

Lemma zlen_std_sort {A} (lt : A -> A -> bool) l :
  strict_weak_order lt -> zlen (std_sort lt l) = zlen l.
Proof.
  intros H. unfold zlen.
  now rewrite <- (Permutation_length (std_sort_perm A lt l H)).
Qed.

(** Sorting a row whose columns already ascend strictly changes nothing,
    whatever the sort does with equivalent elements. *)
Lemma std_sort_sorted_row (l : list (Z * Z)) :
  StronglySorted Z.lt (map fst l) -> std_sort by_col l = l.
Proof.
  intros Hs. symmetry. apply sorted_by_col_unique.
  - exact Hs.
  - apply sorted_le_NoDup_lt.
    + apply std_sort_sorted, swo_by_col.
    + apply (Permutation_NoDup
               (Permutation_map fst (std_sort_perm _ by_col l swo_by_col))).
      now apply StronglySorted_lt_NoDup.
  - apply std_sort_perm, swo_by_col.
Qed.

End SortFacts.

(** * Offsets, rows and positions *)

Lemma telescope (f g : Z -> Z) n :
  0 <= n -> (forall r, 0 <= r < n -> f (r + 1) = f r + g r) ->
  f n = f 0 + zsum (map g (zrange 0 n)).
Proof.
  intros Hn. pattern n. apply natlike_ind; [| | exact Hn].
  - intros _. simpl. lia.
  - intros k Hk IH Hstep. unfold Z.succ.
    rewrite zrange_snoc, map_app, zsum_app by lia. simpl.
    rewrite Hstep by lia. rewrite IH; [lia |].
    intros r Hr. apply Hstep. lia.
Qed.

Lemma find_row (f : Z -> Z) (n : nat) p :
  f 0 <= p < f (Z.of_nat n) ->
  exists r, 0 <= r < Z.of_nat n /\ f r <= p < f (r + 1).
Proof.
  induction n as [|n IH]; intros Hp.
  - simpl in Hp. lia.
  - destruct (Z_lt_ge_dec p (f (Z.of_nat n))) as [Hlt | Hge].
    + destruct (IH ltac:(lia)) as (r & Hr & Hpr). exists r. split; [lia | auto].
    + exists (Z.of_nat n). split; [lia |].
      replace (Z.of_nat n + 1) with (Z.of_nat (Datatypes.S n)) by lia. lia.
Qed.

Lemma entries_at_write ind dat off len c v :
  0 <= len -> 0 <= off -> off + len < zlen ind -> off + len < zlen dat ->
  entries_at (zupd ind (off + len) c) (zupd dat (off + len) v) off (len + 1)
  = entries_at ind dat off len ++ [(c, v)].
Proof.
  intros Hl Ho Hi Hd. rewrite entries_at_snoc by lia.
  rewrite !zth_zupd_eq by lia. f_equal.
  apply entries_at_ext. intros p Hp. rewrite !zth_zupd_neq by lia. auto.
Qed.

Lemma entries_at_frame ind dat d c v off len :
  0 <= d -> 0 <= off -> d < off \/ off + len <= d ->
  entries_at (zupd ind d c) (zupd dat d v) off len = entries_at ind dat off len.
Proof.
  intros Hd Ho Hout. apply entries_at_ext. intros p Hp.
  rewrite !zth_zupd_neq by lia. auto.
Qed.

Lemma in_entries_at ind dat off len e :
  0 <= len -> In e (entries_at ind dat off len) ->
  exists p, off <= p < off + len /\ e = (zth 0 ind p, zth 0 dat p).
Proof.
  intros Hl Hin. unfold entries_at in Hin. apply in_map_iff in Hin.
  destruct Hin as (p & <- & Hp). apply in_zrange in Hp; [| exact Hl].
  exists p. auto.
Qed.

Lemma wf_row_cols (X : CSR) :
  wf_csr X -> forall i, 0 <= i < nrows X ->
  Forall (fun e => 0 <= fst e < ncols X) (row_entries X i).
Proof.
  intros Hwf i Hi. apply Forall_forall. intros e He.
  pose proof (wf_indptr_mono X Hwf i Hi).
  pose proof (wf_ptr_bounds X Hwf i ltac:(lia)).
  pose proof (wf_ptr_bounds X Hwf (i + 1) ltac:(lia)).
  unfold row_entries, rowlen in He.
  apply in_entries_at in He; [| lia]. destruct He as (p & Hp & ->).
  simpl. apply (wf_col_range X Hwf). lia.
Qed.

(** Well-formedness from the shape of the offsets and the rows. *)
Lemma wf_intro (X : CSR) :
  0 <= nrows X -> 0 <= ncols X ->
  zlen (indptr X) = nrows X + 1 ->
  zth 0 (indptr X) 0 = 0 ->
  (forall i, 0 <= i < nrows X -> 0 <= rowlen (indptr X) i) ->
  zth 0 (indptr X) (nrows X) = nnz X ->
  zlen (indices X) = nnz X -> zlen (data X) = nnz X ->
  (forall i, 0 <= i < nrows X ->
     Forall (fun e => 0 <= fst e < ncols X) (row_entries X i)) ->
  (forall i, 0 <= i < nrows X ->
     StronglySorted Z.lt (map fst (row_entries X i))) ->
  wf_csr X.
Proof.
  intros Hn Hc Hpl Hp0 Hlen Hlast Hil Hdl Hcols Hsorted.
  constructor; auto.
  - intros i Hi. specialize (Hlen i Hi). unfold rowlen in Hlen. lia.
  - intros p Hp.
    destruct (find_row (zth 0 (indptr X)) (Z.to_nat (nrows X)) p)
      as (r & Hr & Hpr).
    { rewrite Z2Nat.id by lia. lia. }
    rewrite Z2Nat.id in Hr by lia.
    specialize (Hcols r Hr). rewrite Forall_forall in Hcols.
    specialize (Hcols (zth 0 (indices X) p, zth 0 (data X) p)).
    apply Hcols. unfold row_entries, entries_at.
    apply in_map_iff. exists p. split; [reflexivity |].
    apply in_zrange; unfold rowlen; lia.
Qed.

Lemma wf_nnz_telescope (X : CSR) :
  wf_csr X ->
  zsum (map (rowlen (indptr X)) (zrange 0 (nrows X))) = nnz X.
Proof.
  intros Hwf.
  pose proof (telescope (zth 0 (indptr X)) (rowlen (indptr X)) (nrows X)
                (wf_nrows X Hwf)) as H.
  rewrite (wf_indptr_first X Hwf), (wf_indptr_last X Hwf) in H.
  rewrite H; [lia |]. intros r Hr. unfold rowlen. lia.
Qed.

(** * The CSR-producing operations *)

Section CsrOps.
Context {S : StdSort}.

(** The closing block sorts every row and touches nothing else. *)
Lemma sort_each_row_returns (n : Z) (ptr ind dat : list Z) (L : Z) :
  0 <= n -> zlen ptr = n + 1 -> 0 <= zth 0 ptr 0 ->
  (forall i, 0 <= i < n -> zth 0 ptr i <= zth 0 ptr (i + 1)) ->
  zth 0 ptr n <= L -> zlen ind = L -> zlen dat = L ->
  returns (sort_each_row n ptr (ind, dat)) (fun st =>
    zlen (fst st) = L /\ zlen (snd st) = L /\
    forall i, 0 <= i < n ->
      entries_at (fst st) (snd st) (zth 0 ptr i) (rowlen ptr i)
      = std_sort by_col (entries_at ind dat (zth 0 ptr i) (rowlen ptr i))).
Proof.
  intros Hn Hpl Hp0 Hmono HpL Hil Hdl.
  assert (Hle : forall a b, 0 <= a -> a <= b -> b <= n ->
                            zth 0 ptr a <= zth 0 ptr b).
  { intros a b Ha Hab Hb. apply (mono_le (zth 0 ptr) 0 n); auto. }
  unfold sort_each_row.
  eapply returns_weaken.
  - apply (for_range_inv (fun i st =>
      zlen (fst st) = L /\ zlen (snd st) = L /\
      (forall p, zth 0 ptr i <= p ->
         zth 0 (fst st) p = zth 0 ind p /\ zth 0 (snd st) p = zth 0 dat p) /\
      (forall r, 0 <= r < i ->
         entries_at (fst st) (snd st) (zth 0 ptr r) (rowlen ptr r)
         = std_sort by_col
             (entries_at ind dat (zth 0 ptr r) (rowlen ptr r)))));
      [exact Hn | |].
    + cbn [fst snd]. repeat split; auto. intros; lia.
    + intros i [ind1 dat1] Hi (Hl1 & Hl2 & Hrest & Hdone).
      cbn [fst snd] in *.
      pose proof (Hle 0 i ltac:(lia) ltac:(lia) ltac:(lia)) as Hb0.
      pose proof (Hmono i Hi) as Hb1.
      pose proof (Hle (i + 1) n ltac:(lia) ltac:(lia) ltac:(lia)) as Hb2.
      rewrite (vget_ok 0) by lia. cbn [bind].
      rewrite (vget_ok 0) by lia. cbn [bind].
      unfold rowlen in *.
      set (rs := zth 0 ptr i) in *. set (re := zth 0 ptr (i + 1)) in *.
      replace (re - rs <? 0) with false by (symmetry; apply Z.ltb_ge; lia).
      apply returns_bind. eapply returns_weaken.
      * apply (for_range_inv (fun idx rd =>
          rd = entries_at ind1 dat1 rs (idx - rs))); [lia | |].
        { now replace (rs - rs) with 0 by lia. }
        intros idx rd Hidx ->.
        rewrite (vget_ok 0) by lia. cbn [bind].
        rewrite (vget_ok 0) by lia. cbn [bind].
        apply returns_ok.
        replace (idx + 1 - rs) with (idx - rs + 1) by lia.
        rewrite entries_at_snoc by lia.
        now replace (rs + (idx - rs)) with idx by lia.
      * cbv beta. intros rd ->.
        assert (Hrow : entries_at ind1 dat1 rs (re - rs)
                       = entries_at ind dat rs (re - rs)).
        { apply entries_at_ext. intros p Hp. apply Hrest. lia. }
        rewrite Hrow.
        change (fun a b : Z * Z => fst a <? fst b) with by_col.
        set (sorted := std_sort by_col (entries_at ind dat rs (re - rs))).
        assert (Hsl : zlen sorted = re - rs).
        { unfold sorted. rewrite zlen_std_sort by apply swo_by_col.
          apply zlen_entries_at. lia. }
        rewrite Hsl. eapply returns_weaken.
        { apply (for_range_inv (fun k st2 =>
            zlen (fst st2) = L /\ zlen (snd st2) = L /\
            (forall t, 0 <= t < k ->
               (zth 0 (fst st2) (rs + t), zth 0 (snd st2) (rs + t))
               = zth (0, 0) sorted t) /\
            (forall p, 0 <= p -> p < rs \/ rs + k <= p ->
               zth 0 (fst st2) p = zth 0 ind1 p /\
               zth 0 (snd st2) p = zth 0 dat1 p))); [lia | |].
          - cbn [fst snd]. repeat split; auto. intros; lia.
          - intros k [ind2 dat2] Hk (Hl3 & Hl4 & Hw & Hfr).
            cbn [fst snd] in *.
            rewrite (vget_ok (0, 0)) by lia. cbn [bind].
            rewrite vset_ok by lia. cbn [bind].
            rewrite vset_ok by lia. cbn [bind].
            apply returns_ok. cbn [fst snd].
            rewrite !zlen_zupd. repeat split; auto.
            + intros t Ht. destruct (Z.eq_dec t k) as [-> | Hne].
              * rewrite !zth_zupd_eq by lia. symmetry.
                apply surjective_pairing.
              * rewrite !zth_zupd_neq by lia. apply Hw. lia.
            + rewrite zth_zupd_neq by lia. apply Hfr; lia.
            + rewrite zth_zupd_neq by lia. apply Hfr; lia. }
        cbv beta. intros [ind2 dat2] (Hl3 & Hl4 & Hw & Hfr).
        cbn [fst snd] in *. repeat split; auto.
        { destruct (Hfr p ltac:(lia) ltac:(lia)) as [-> _].
          apply Hrest. lia. }
        { destruct (Hfr p ltac:(lia) ltac:(lia)) as [_ ->].
          apply Hrest. lia. }
        intros r Hr. destruct (Z.eq_dec r i) as [-> | Hne].
        { fold rs re. apply entries_at_eq_list; [lia | exact Hsl |].
          intros t Ht. apply Hw. lia. }
        { rewrite <- Hdone by lia.
          pose proof (Hle 0 r ltac:(lia) ltac:(lia) ltac:(lia)).
          pose proof (Hle (r + 1) i ltac:(lia) ltac:(lia) ltac:(lia)).
          apply entries_at_ext. intros p Hp. apply Hfr; lia. }
  - cbv beta. intros st (H1 & H2 & _ & H3). auto.
Qed.


(** ** [permute_csr_rows] *)

Section PermuteRows.
Variables (X : CSR) (m : list Z).
Hypothesis Hwf : wf_csr X.
Hypothesis Hpm : is_perm (nrows X) m.

(** First pass: the new offsets are the running sums of the lengths of the
    rows in their new order. *)
Lemma permute_rows_pass1 (ptr0 : list Z) :
  zlen ptr0 = nrows X + 1 -> zth 0 ptr0 0 = 0 ->
  returns
    (for_range 0 (nrows X) (fun i_new ptr =>
       i_old <- vget m i_new ;;
       rstart <- vget (indptr X) i_old ;;
       rend <- vget (indptr X) (i_old + 1) ;;
       let row_nnz := rend - rstart in
       p <- vget ptr i_new ;;
       vset ptr (i_new + 1) (p + row_nnz)) ptr0)
    (fun ptr =>
       zlen ptr = nrows X + 1 /\ zth 0 ptr 0 = 0 /\
       forall r, 0 <= r < nrows X ->
         zth 0 ptr (r + 1) = zth 0 ptr r + rowlen (indptr X) (zth 0 m r)).
Proof.
  intros Hl0 Hz0.
  pose proof (is_perm_len _ _ Hpm) as Hml.
  apply (for_range_inv (fun i ptr =>
    zlen ptr = nrows X + 1 /\ zth 0 ptr 0 = 0 /\
    forall r, 0 <= r < i ->
      zth 0 ptr (r + 1) = zth 0 ptr r + rowlen (indptr X) (zth 0 m r)));
    [apply (wf_nrows X Hwf) | |].
  - repeat split; auto. intros; lia.
  - intros i ptr Hi (Hl & Hz & Hdone).
    pose proof (is_perm_range _ _ i Hpm Hi) as Hr.
    pose proof (wf_indptr_len X Hwf) as Hxl.
    rewrite (vget_ok 0) by lia. cbn [bind].
    rewrite (vget_ok 0) by lia. cbn [bind].
    rewrite (vget_ok 0) by lia. cbn [bind]. cbv zeta.
    rewrite (vget_ok 0) by lia. cbn [bind].
    rewrite vset_ok by lia. apply returns_ok.
    rewrite zlen_zupd. repeat split; auto.
    + rewrite zth_zupd_neq by lia. exact Hz.
    + intros r Hr'. destruct (Z.eq_dec r i) as [-> | Hne].
      * rewrite zth_zupd_eq by lia. rewrite zth_zupd_neq by lia.
        unfold rowlen. lia.
      * rewrite !zth_zupd_neq by lia. apply Hdone. lia.
Qed.

(** Second pass: row [r] of the new arrays is row [m r] of [X]. *)
Lemma permute_rows_pass2 (ptr ind0 dat0 : list Z) :
  zlen ptr = nrows X + 1 -> zth 0 ptr 0 = 0 ->
  (forall r, 0 <= r < nrows X ->
     zth 0 ptr (r + 1) = zth 0 ptr r + rowlen (indptr X) (zth 0 m r)) ->
  zth 0 ptr (nrows X) = nnz X ->
  zlen ind0 = nnz X -> zlen dat0 = nnz X ->
  returns
    (for_range 0 (nrows X) (fun i_new st =>
       i_old <- vget m i_new ;;
       rstart <- vget (indptr X) i_old ;;
       rend <- vget (indptr X) (i_old + 1) ;;
       for_range rstart rend (fun idx '(write_ptr, ind, dat) =>
         dest <- vget write_ptr i_new ;;
         write_ptr <- vset write_ptr i_new (dest + 1) ;;
         c <- vget (indices X) idx ;;
         ind <- vset ind dest c ;;
         v <- vget (data X) idx ;;
         dat <- vset dat dest v ;;
         Ok (write_ptr, ind, dat)) st) (ptr, ind0, dat0))
    (fun st =>
       zlen (snd (fst st)) = nnz X /\ zlen (snd st) = nnz X /\
       forall r, 0 <= r < nrows X ->
         entries_at (snd (fst st)) (snd st) (zth 0 ptr r) (rowlen ptr r)
         = row_entries X (zth 0 m r)).
Proof.
  intros Hl Hz Hstep Hlast Hil Hdl.
  pose proof (is_perm_len _ _ Hpm) as Hml.
  pose proof (wf_nrows X Hwf) as Hn.
  assert (Hmono : forall r, 0 <= r < nrows X ->
                            zth 0 ptr r <= zth 0 ptr (r + 1)).
  { intros r Hr. rewrite Hstep by lia.
    pose proof (wf_rowlen_nonneg X Hwf (zth 0 m r)
                  (is_perm_range _ _ r Hpm Hr)). lia. }
  assert (Hle : forall a b, 0 <= a -> a <= b -> b <= nrows X ->
                            zth 0 ptr a <= zth 0 ptr b).
  { intros a b Ha Hab Hb. apply (mono_le (zth 0 ptr) 0 (nrows X)); auto. }
  eapply returns_weaken.
  - apply (for_range_inv (fun i st =>
      zlen (fst (fst st)) = nrows X + 1 /\
      zlen (snd (fst st)) = nnz X /\ zlen (snd st) = nnz X /\
      (forall r, i <= r <= nrows X -> zth 0 (fst (fst st)) r = zth 0 ptr r) /\
      (forall r, 0 <= r < i ->
         entries_at (snd (fst st)) (snd st) (zth 0 ptr r) (rowlen ptr r)
         = row_entries X (zth 0 m r)))); [exact Hn | |].
    + cbn [fst snd]. repeat split; auto. intros; lia.
    + intros i [[wp ind] dat] Hi (Hwl & Hil' & Hdl' & Hwp & Hdone).
      cbn [fst snd] in *.
      pose proof (is_perm_range _ _ i Hpm Hi) as Hr.
      pose proof (wf_indptr_len X Hwf) as Hxl.
      pose proof (wf_indptr_mono X Hwf _ Hr) as Hxm.
      pose proof (wf_ptr_bounds X Hwf (zth 0 m i) ltac:(lia)) as Hxb1.
      pose proof (wf_ptr_bounds X Hwf (zth 0 m i + 1) ltac:(lia)) as Hxb2.
      pose proof (Hle 0 i ltac:(lia) ltac:(lia) ltac:(lia)) as Hp0.
      pose proof (Hle (i + 1) (nrows X) ltac:(lia) ltac:(lia) ltac:(lia))
        as Hp1.
      pose proof (Hstep i Hi) as Hpi. unfold rowlen in Hpi.
      rewrite (vget_ok 0) by lia. cbn [bind].
      rewrite (vget_ok 0) by lia. cbn [bind].
      rewrite (vget_ok 0) by lia. cbn [bind].
      set (rs := zth 0 (indptr X) (zth 0 m i)) in *.
      set (re := zth 0 (indptr X) (zth 0 m i + 1)) in *.
      eapply returns_weaken.
      * apply (for_range_inv (fun idx st =>
          zlen (fst (fst st)) = nrows X + 1 /\
          zlen (snd (fst st)) = nnz X /\ zlen (snd st) = nnz X /\
          zth 0 (fst (fst st)) i = zth 0 ptr i + (idx - rs) /\
          (forall r, i < r <= nrows X ->
             zth 0 (fst (fst st)) r = zth 0 ptr r) /\
          (forall r, 0 <= r < i ->
             entries_at (snd (fst st)) (snd st) (zth 0 ptr r) (rowlen ptr r)
             = row_entries X (zth 0 m r)) /\
          entries_at (snd (fst st)) (snd st) (zth 0 ptr i) (idx - rs)
          = entries_at (indices X) (data X) rs (idx - rs))); [lia | |].
        { cbn [fst snd]. repeat split; auto.
          - rewrite Hwp by lia. lia.
          - intros r Hr'. apply Hwp. lia.
          - now replace (rs - rs) with 0 by lia. }
        intros idx [[wp1 ind1] dat1] Hidx
               (Hwl1 & Hil1 & Hdl1 & Hcur & Hwp1 & Hdone1 & Hrow).
        cbn [fst snd] in *.
        rewrite (vget_ok 0) by lia. cbn [bind].
        rewrite vset_ok by lia. cbn [bind].
        rewrite (vget_ok 0) by (rewrite (wf_indices_len X Hwf); lia).
        cbn [bind]. rewrite Hcur.
        rewrite vset_ok by lia. cbn [bind].
        rewrite (vget_ok 0) by (rewrite (wf_data_len X Hwf); lia).
        cbn [bind].
        rewrite vset_ok by lia. cbn [bind].
        apply returns_ok. cbn [fst snd]. rewrite !zlen_zupd.
        repeat split; auto.
        { rewrite zth_zupd_eq by lia. lia. }
        { intros r Hr'. rewrite zth_zupd_neq by lia. apply Hwp1. lia. }
        { intros r Hr'. rewrite <- Hdone1 by lia.
          pose proof (Hle 0 r ltac:(lia) ltac:(lia) ltac:(lia)).
          pose proof (Hle (r + 1) i ltac:(lia) ltac:(lia) ltac:(lia)).
          apply entries_at_frame; unfold rowlen; lia. }
        { replace (idx + 1 - rs) with (idx - rs + 1) by lia.
          rewrite entries_at_write by lia. rewrite Hrow.
          rewrite entries_at_snoc by lia.
          now replace (rs + (idx - rs)) with idx by lia. }
      * cbv beta. intros [[wp1 ind1] dat1]
                         (Hwl1 & Hil1 & Hdl1 & Hcur & Hwp1 & Hdone1 & Hrow).
        cbn [fst snd] in *. repeat split; auto.
        { intros r Hr'. apply Hwp1. lia. }
        intros r Hr'. destruct (Z.eq_dec r i) as [-> | Hne].
        { unfold row_entries, rowlen. fold rs re. rewrite <- Hrow.
          f_equal. lia. }
        { apply Hdone1. lia. }
  - cbv beta. intros [[wp ind] dat] (_ & Hil' & Hdl' & _ & Hdone).
    cbn [fst snd] in *. auto.
Qed.

Lemma wf_nnz_nonneg (Z0 : CSR) : wf_csr Z0 -> 0 <= nnz Z0.
Proof.
  intros H. pose proof (wf_ptr_bounds Z0 H 0). pose proof (wf_nrows Z0 H). lia.
Qed.

(** [permute_csr_rows] returns a well-formed matrix of the same shape whose
    row [i] is row [m i] of [X], entry for entry. *)
Lemma permute_csr_rows_returns :
  returns (permute_csr_rows X m) (fun Xp =>
    nrows Xp = nrows X /\ ncols Xp = ncols X /\ nnz Xp = nnz X /\
    wf_csr Xp /\
    forall i, 0 <= i < nrows X ->
      row_entries Xp i = row_entries X (zth 0 m i)).
Proof.
  pose proof (is_perm_len _ _ Hpm) as Hml.
  pose proof (wf_nrows X Hwf) as Hn.
  pose proof (wf_nnz_nonneg X Hwf) as Hnnz.
  unfold permute_csr_rows. rewrite Hml, Z.eqb_refl. cbn [negb].
  rewrite !valloc_ok by lia. cbn [bind].
  apply returns_bind. eapply returns_weaken.
  { apply permute_rows_pass1; [rewrite zlen_repeat; lia | apply zth_repeat]. }
  cbv beta. intros ptr (Hl & Hz & Hstep).
  assert (Hlast : zth 0 ptr (nrows X) = nnz X).
  { rewrite (telescope (zth 0 ptr)
               (fun r => rowlen (indptr X) (zth 0 m r)) (nrows X) Hn Hstep).
    rewrite (zsum_map_perm (nrows X) m (rowlen (indptr X)) Hpm).
    rewrite wf_nnz_telescope by exact Hwf. lia. }
  assert (Hlen : forall r, 0 <= r < nrows X -> 0 <= rowlen ptr r).
  { intros r Hr. unfold rowlen at 1. rewrite Hstep by lia.
    pose proof (wf_rowlen_nonneg X Hwf (zth 0 m r)
                  (is_perm_range _ _ r Hpm Hr)). lia. }
  apply returns_bind. eapply returns_weaken.
  { apply (permute_rows_pass2 ptr); auto; rewrite zlen_repeat; lia. }
  cbv beta. intros [[wp ind] dat] (Hil & Hdl & Hrows). cbn [fst snd] in *.
  apply returns_bind. eapply returns_weaken.
  { apply (sort_each_row_returns (nrows X) ptr ind dat (nnz X)); auto; try lia.
    intros i Hi. specialize (Hlen i Hi). unfold rowlen in Hlen. lia. }
  cbv beta. intros [ind' dat'] (Hil' & Hdl' & Hsorted). cbn [fst snd] in *.
  apply returns_ok. cbn [nrows ncols nnz].
  assert (Hrow : forall i, 0 <= i < nrows X ->
            entries_at ind' dat' (zth 0 ptr i) (rowlen ptr i)
            = row_entries X (zth 0 m i)).
  { intros i Hi. rewrite Hsorted, Hrows by lia.
    apply std_sort_sorted_row. apply (wf_row_sorted X Hwf).
    now apply (is_perm_range _ _ i Hpm). }
  do 3 (split; [reflexivity |]). split; [| exact Hrow].
  apply wf_intro; cbn [nrows ncols nnz indptr indices data]; auto.
  - apply (wf_ncols X Hwf).
  - intros i Hi. unfold row_entries. cbn [indptr indices data].
    rewrite Hrow by lia. apply wf_row_cols; [exact Hwf |].
    now apply (is_perm_range _ _ i Hpm).
  - intros i Hi. unfold row_entries. cbn [indptr indices data].
    rewrite Hrow by lia. apply (wf_row_sorted X Hwf).
    now apply (is_perm_range _ _ i Hpm).
Qed.

End PermuteRows.

End CsrOps.

(** * The executable checks are sound *)

Lemma strictly_ascb_sound l :
  strictly_ascb l = true -> StronglySorted Z.lt l.
Proof.
  intros H. apply Sorted_StronglySorted; [exact Z.lt_trans |].
  induction l as [|x t IH]; [constructor |].
  destruct t as [|y t'].
  - constructor; constructor.
  - simpl in H. apply andb_prop in H. destruct H as [Hxy Ht].
    constructor; [now apply IH |]. constructor. lia.
Qed.

Lemma check_csr_sound (X : CSR) : check_csr X = true -> wf_csr X.
Proof.
  unfold check_csr. rewrite !andb_true_iff, !forallb_forall.
  intros (((((((((H1 & H2) & H3) & H4) & H5) & H6) & H7) & H8) & H9) & H10).
  assert (Hn : 0 <= nrows X) by lia.
  assert (Hnnz : 0 <= nnz X).
  { apply Z.eqb_eq in H7. rewrite <- H7. apply zlen_nonneg. }
  constructor; try lia.
  - intros i Hi. specialize (H5 i). rewrite in_zrange in H5 by lia.
    specialize (H5 ltac:(lia)). lia.
  - intros p Hp. specialize (H9 p). rewrite in_zrange in H9 by lia.
    specialize (H9 ltac:(lia)). unfold in_range in H9.
    apply andb_prop in H9. lia.
  - intros i Hi. apply strictly_ascb_sound. apply H10.
    apply in_zrange; lia.
Qed.

Lemma check_ascb_sound l : ascb l = true -> StronglySorted Z.le l.
Proof.
  intros H. apply Sorted_StronglySorted; [exact Z.le_trans |].
  induction l as [|x t IH]; [constructor |].
  destruct t as [|y t'].
  - constructor; constructor.
  - simpl in H. apply andb_prop in H. destruct H as [Hxy Ht].
    constructor; [now apply IH |]. constructor. lia.
Qed.

Lemma check_csr_as_specified_sound (X : CSR) :
  check_csr_as_specified X = true -> wf_csr_as_specified X.
Proof.
  unfold check_csr_as_specified. rewrite !andb_true_iff, !forallb_forall.
  intros (((((((((H1 & H2) & H3) & H4) & H5) & H6) & H7) & H8) & H9) & H10).
  assert (Hn : 0 <= nrows X) by lia.
  assert (Hnnz : 0 <= nnz X).
  { apply Z.eqb_eq in H7. rewrite <- H7. apply zlen_nonneg. }
  constructor; try lia.
  - intros i Hi. specialize (H5 i). rewrite in_zrange in H5 by lia.
    specialize (H5 ltac:(lia)). lia.
  - intros p Hp. specialize (H9 p). rewrite in_zrange in H9 by lia.
    specialize (H9 ltac:(lia)). unfold in_range in H9.
    apply andb_prop in H9. lia.
  - intros i Hi. apply check_ascb_sound. apply H10.
    apply in_zrange; lia.
Qed.

(** Strictly ascending columns are ascending columns. *)
Lemma wf_csr_is_as_specified (X : CSR) : wf_csr X -> wf_csr_as_specified X.
Proof.
  intros [H1 H2 H3 H4 H5 H6 H7 H8 H9 H10].
  constructor; try assumption.
  intros i Hi. specialize (H10 i Hi).
  induction H10 as [|x t Hs IH Hall]; constructor; [exact IH |].
  apply Forall_forall. intros y Hy. rewrite Forall_forall in Hall.
  apply Z.lt_le_incl. now apply Hall.
Qed.

Lemma check_perm_sound n m : check_perm n m = true -> is_perm n m.
Proof.
  unfold check_perm. intros H.
  apply andb_prop in H. destruct H as [H H3].
  apply andb_prop in H. destruct H as [H1 H2].
  split; [lia |].
  apply NoDup_Permutation_bis.
  - apply NoDup_zrange.
  - apply Z.eqb_eq in H2. unfold zlen in H2.
    pose proof (zlen_zrange 0 n ltac:(lia)) as Hz. unfold zlen in Hz. lia.
  - intros k Hk. rewrite forallb_forall in H3. specialize (H3 k Hk).
    apply existsb_exists in H3. destruct H3 as (k' & Hin & E).
    apply Z.eqb_eq in E. now subst.
Qed.

(** * Permuting rows commutes with the product *)

Lemma zth_spmm_spec (X : CSR) (W : list Z) (N i j : Z) :
  0 <= i < nrows X -> 0 <= j < N ->
  zth 0 (spmm_spec X W N) (i * N + j)
  = dot_entries (row_entries X i) W N j.
Proof. intros. unfold spmm_spec. now rewrite zth_dense_of. Qed.

Lemma zlen_spmm_spec (X : CSR) (W : list Z) (N : Z) :
  0 <= nrows X -> 0 <= N -> zlen (spmm_spec X W N) = nrows X * N.
Proof. intros. unfold spmm_spec. now apply zlen_dense_of. Qed.


Lemma X_example_wf : wf_csr X_example.
Proof. apply check_csr_sound. reflexivity. Qed.


(** * A CSR matrix is determined by its rows *)

Lemma zlen_row_entries (X : CSR) i :
  wf_csr X -> 0 <= i < nrows X ->
  zlen (row_entries X i) = rowlen (indptr X) i.
Proof.
  intros Hwf Hi. unfold row_entries. apply zlen_entries_at.
  now apply wf_rowlen_nonneg.
Qed.

Lemma wf_ptr_sum (X : CSR) k :
  wf_csr X -> 0 <= k <= nrows X ->
  zth 0 (indptr X) k = zsum (map (rowlen (indptr X)) (zrange 0 k)).
Proof.
  intros Hwf Hk.
  rewrite (telescope (zth 0 (indptr X)) (rowlen (indptr X)) k); try lia.
  - rewrite (wf_indptr_first X Hwf). lia.
  - intros r Hr. unfold rowlen. lia.
Qed.

Lemma wf_position_row (X : CSR) p :
  wf_csr X -> 0 <= p < nnz X ->
  exists r, 0 <= r < nrows X /\
            zth 0 (indptr X) r <= p < zth 0 (indptr X) (r + 1).
Proof.
  intros Hwf Hp. pose proof (wf_nrows X Hwf) as Hn.
  destruct (find_row (zth 0 (indptr X)) (Z.to_nat (nrows X)) p)
    as (r & Hr & Hpr).
  - rewrite Z2Nat.id by lia.
    rewrite (wf_indptr_first X Hwf), (wf_indptr_last X Hwf). lia.
  - rewrite Z2Nat.id in Hr by lia. exists r. auto.
Qed.

Lemma csr_ext (X X' : CSR) :
  wf_csr X -> wf_csr X' ->
  nrows X = nrows X' -> ncols X = ncols X' ->
  (forall i, 0 <= i < nrows X -> row_entries X i = row_entries X' i) ->
  X = X'.
Proof.
  intros Hwf Hwf' Hr Hc Hrows.
  pose proof (wf_nrows X Hwf) as Hn.
  assert (Hlen : forall i, 0 <= i < nrows X ->
                           rowlen (indptr X) i = rowlen (indptr X') i).
  { intros i Hi. rewrite <- !zlen_row_entries by (auto; lia).
    now rewrite Hrows. }
  assert (Hptr : forall k, 0 <= k <= nrows X ->
                           zth 0 (indptr X) k = zth 0 (indptr X') k).
  { intros k Hk. rewrite !wf_ptr_sum by (auto; lia). f_equal.
    apply map_ext_in. intros i Hi. apply in_zrange in Hi; [| lia].
    apply Hlen. lia. }
  assert (Hnnz : nnz X = nnz X').
  { rewrite <- (wf_indptr_last X Hwf), <- (wf_indptr_last X' Hwf').
    rewrite <- Hr. apply Hptr. lia. }
  assert (Hcell : forall p, 0 <= p < nnz X ->
            (zth 0 (indices X) p, zth 0 (data X) p)
            = (zth 0 (indices X') p, zth 0 (data X') p)).
  { intros p Hp.
    destruct (wf_position_row X p Hwf Hp) as (r & Hr' & Hpr).
    pose proof (Hrows r Hr') as E. unfold row_entries in E.
    rewrite <- Hlen, <- Hptr in E by lia.
    assert (E' := f_equal (fun l => zth (0, 0) l (p - zth 0 (indptr X) r)) E).
    cbv beta in E'. unfold rowlen in E'.
    rewrite !zth_entries_at in E' by lia.
    now replace (zth 0 (indptr X) r + (p - zth 0 (indptr X) r)) with p
      in E' by lia. }
  assert (E1 : indptr X = indptr X').
  { apply (zth_ext 0).
    - rewrite (wf_indptr_len X Hwf), (wf_indptr_len X' Hwf'). lia.
    - intros k Hk. rewrite (wf_indptr_len X Hwf) in Hk. apply Hptr. lia. }
  assert (E2 : indices X = indices X').
  { apply (zth_ext 0).
    - rewrite (wf_indices_len X Hwf), (wf_indices_len X' Hwf'). lia.
    - intros p Hp. rewrite (wf_indices_len X Hwf) in Hp.
      specialize (Hcell p Hp). congruence. }
  assert (E3 : data X = data X').
  { apply (zth_ext 0).
    - rewrite (wf_data_len X Hwf), (wf_data_len X' Hwf'). lia.
    - intros p Hp. rewrite (wf_data_len X Hwf) in Hp.
      specialize (Hcell p Hp). congruence. }
  destruct X, X'. simpl in *. congruence.
Qed.

(** * [unpermute_csr_rows] *)

Section UnpermuteRows.
Context {S : StdSort}.
Variables (Xp : CSR) (m : list Z).
Hypothesis Hwf : wf_csr Xp.
Hypothesis Hpm : is_perm (nrows Xp) m.

(** First pass: the length of new row [i] is counted at old row [m i]. *)
Lemma unpermute_rows_count (ptr0 : list Z) :
  zlen ptr0 = nrows Xp + 1 -> (forall k, zth 0 ptr0 k = 0) ->
  returns
    (for_range 0 (nrows Xp) (fun i_new ptr =>
       i_old <- vget m i_new ;;
       if (i_old <? 0) || (i_old >=? nrows Xp)
       then Throw "unpermute_csr_rows: invalid row_new2old entry" else
       rstart <- vget (indptr Xp) i_new ;;
       rend <- vget (indptr Xp) (i_new + 1) ;;
       let row_nnz := rend - rstart in
       p <- vget ptr (i_old + 1) ;;
       vset ptr (i_old + 1) (p + row_nnz)) ptr0)
    (fun ptr =>
       zlen ptr = nrows Xp + 1 /\ zth 0 ptr 0 = 0 /\
       forall i, 0 <= i < nrows Xp ->
         zth 0 ptr (zth 0 m i + 1) = rowlen (indptr Xp) i).
Proof.
  intros Hl0 Hz0.
  pose proof (is_perm_len _ _ Hpm) as Hml.
  eapply returns_weaken.
  - apply (for_range_inv (fun k ptr =>
      zlen ptr = nrows Xp + 1 /\ zth 0 ptr 0 = 0 /\
      forall i, 0 <= i < nrows Xp ->
        zth 0 ptr (zth 0 m i + 1)
        = if i <? k then rowlen (indptr Xp) i else 0));
      [apply (wf_nrows Xp Hwf) | |].
    + repeat split; auto. intros i Hi.
      destruct (i <? 0) eqn:E; [lia | apply Hz0].
    + intros k ptr Hk (Hl & Hz & Hcnt).
      pose proof (is_perm_range _ _ k Hpm Hk) as Hr.
      pose proof (wf_indptr_len Xp Hwf) as Hxl.
      rewrite (vget_ok 0) by lia. cbn [bind].
      rewrite range_check_false by lia.
      rewrite (vget_ok 0) by lia. cbn [bind].
      rewrite (vget_ok 0) by lia. cbn [bind]. cbv zeta.
      rewrite (vget_ok 0) by lia. cbn [bind].
      rewrite vset_ok by lia. apply returns_ok.
      rewrite zlen_zupd. repeat split; auto.
      * rewrite zth_zupd_neq by lia. exact Hz.
      * intros i Hi. destruct (Z.eq_dec i k) as [-> | Hne].
        { rewrite zth_zupd_eq by lia. rewrite Hcnt by lia.
          destruct (k <? k) eqn:E1; [lia |].
          destruct (k <? k + 1) eqn:E2; [| lia]. unfold rowlen. lia. }
        { pose proof (is_perm_range _ _ i Hpm Hi) as Hri.
          assert (zth 0 m i <> zth 0 m k).
          { intros E. apply (is_perm_inj _ _ i k Hpm) in E; lia. }
          rewrite zth_zupd_neq by lia. rewrite Hcnt by lia.
          destruct (i <? k) eqn:E1; destruct (i <? k + 1) eqn:E2;
            try lia; reflexivity. }
  - cbv beta. intros ptr (Hl & Hz & Hcnt). repeat split; auto.
    intros i Hi. rewrite Hcnt by lia.
    destruct (i <? nrows Xp) eqn:E; [reflexivity | lia].
Qed.

(** The counts are turned into offsets. *)
Lemma unpermute_rows_cumulate (cnt : list Z) :
  zlen cnt = nrows Xp + 1 -> zth 0 cnt 0 = 0 ->
  returns
    (for_range 0 (nrows Xp) (fun i ptr =>
       a <- vget ptr (i + 1) ;;
       b <- vget ptr i ;;
       vset ptr (i + 1) (a + b)) cnt)
    (fun ptr =>
       zlen ptr = nrows Xp + 1 /\ zth 0 ptr 0 = 0 /\
       forall r, 0 <= r < nrows Xp ->
         zth 0 ptr (r + 1) = zth 0 ptr r + zth 0 cnt (r + 1)).
Proof.
  intros Hl0 Hz0.
  eapply returns_weaken.
  - apply (for_range_inv (fun k ptr =>
      zlen ptr = nrows Xp + 1 /\ zth 0 ptr 0 = 0 /\
      (forall r, 0 <= r < k ->
         zth 0 ptr (r + 1) = zth 0 ptr r + zth 0 cnt (r + 1)) /\
      (forall r, k < r <= nrows Xp -> zth 0 ptr r = zth 0 cnt r)));
      [apply (wf_nrows Xp Hwf) | |].
    + repeat split; auto. intros; lia.
    + intros k ptr Hk (Hl & Hz & Hdone & Hrest).
      rewrite (vget_ok 0) by lia. cbn [bind].
      rewrite (vget_ok 0) by lia. cbn [bind].
      rewrite vset_ok by lia. apply returns_ok.
      rewrite zlen_zupd. repeat split; auto.
      * rewrite zth_zupd_neq by lia. exact Hz.
      * intros r Hr. destruct (Z.eq_dec r k) as [-> | Hne].
        { rewrite zth_zupd_eq by lia. rewrite zth_zupd_neq by lia.
          rewrite (Hrest (k + 1)) by lia. lia. }
        { rewrite !zth_zupd_neq by lia. apply Hdone. lia. }
      * intros r Hr. rewrite zth_zupd_neq by lia. apply Hrest. lia.
  - cbv beta. intros ptr (Hl & Hz & Hdone & _). auto.
Qed.

(** Second pass: new row [i] is copied to the slot of old row [m i]. *)
Lemma unpermute_rows_scatter (ptr ind0 dat0 : list Z) :
  zlen ptr = nrows Xp + 1 ->
  (forall a b, 0 <= a -> a <= b -> b <= nrows Xp ->
               zth 0 ptr a <= zth 0 ptr b) ->
  0 <= zth 0 ptr 0 -> zth 0 ptr (nrows Xp) = nnz Xp ->
  (forall i, 0 <= i < nrows Xp ->
     rowlen ptr (zth 0 m i) = rowlen (indptr Xp) i) ->
  zlen ind0 = nnz Xp -> zlen dat0 = nnz Xp ->
  returns
    (for_range 0 (nrows Xp) (fun i_new st =>
       i_old <- vget m i_new ;;
       rstart <- vget (indptr Xp) i_new ;;
       rend <- vget (indptr Xp) (i_new + 1) ;;
       for_range rstart rend (fun idx '(write_ptr, ind, dat) =>
         dest <- vget write_ptr i_old ;;
         write_ptr <- vset write_ptr i_old (dest + 1) ;;
         c <- vget (indices Xp) idx ;;
         ind <- vset ind dest c ;;
         v <- vget (data Xp) idx ;;
         dat <- vset dat dest v ;;
         Ok (write_ptr, ind, dat)) st) (ptr, ind0, dat0))
    (fun st =>
       zlen (snd (fst st)) = nnz Xp /\ zlen (snd st) = nnz Xp /\
       forall i, 0 <= i < nrows Xp ->
         entries_at (snd (fst st)) (snd st)
           (zth 0 ptr (zth 0 m i)) (rowlen ptr (zth 0 m i))
         = row_entries Xp i).
Proof.
  intros Hl Hle Hp0 Hlast Hlen Hil Hdl.
  pose proof (is_perm_len _ _ Hpm) as Hml.
  pose proof (wf_nrows Xp Hwf) as Hn.
  eapply returns_weaken.
  - apply (for_range_inv (fun i st =>
      zlen (fst (fst st)) = nrows Xp + 1 /\
      zlen (snd (fst st)) = nnz Xp /\ zlen (snd st) = nnz Xp /\
      (forall i', i <= i' < nrows Xp ->
         zth 0 (fst (fst st)) (zth 0 m i') = zth 0 ptr (zth 0 m i')) /\
      (forall i', 0 <= i' < i ->
         entries_at (snd (fst st)) (snd st)
           (zth 0 ptr (zth 0 m i')) (rowlen ptr (zth 0 m i'))
         = row_entries Xp i'))); [exact Hn | |].
    + cbn [fst snd]. repeat split; auto. intros; lia.
    + intros i [[wp ind] dat] Hi (Hwl & Hil' & Hdl' & Hwp & Hdone).
      cbn [fst snd] in *.
      pose proof (is_perm_range _ _ i Hpm Hi) as Hr.
      pose proof (wf_indptr_len Xp Hwf) as Hxl.
      pose proof (wf_indptr_mono Xp Hwf i Hi) as Hxm.
      pose proof (wf_ptr_bounds Xp Hwf i ltac:(lia)) as Hxb1.
      pose proof (wf_ptr_bounds Xp Hwf (i + 1) ltac:(lia)) as Hxb2.
      pose proof (Hle 0 (zth 0 m i) ltac:(lia) ltac:(lia) ltac:(lia)) as Hq0.
      pose proof (Hle (zth 0 m i + 1) (nrows Xp)
                    ltac:(lia) ltac:(lia) ltac:(lia)) as Hq1.
      pose proof (Hlen i Hi) as Hli. unfold rowlen in Hli.
      rewrite (vget_ok 0) by lia. cbn [bind].
      rewrite (vget_ok 0) by lia. cbn [bind].
      rewrite (vget_ok 0) by lia. cbn [bind].
      set (k := zth 0 m i) in *.
      set (rs := zth 0 (indptr Xp) i) in *.
      set (re := zth 0 (indptr Xp) (i + 1)) in *.
      eapply returns_weaken.
      * apply (for_range_inv (fun idx st =>
          zlen (fst (fst st)) = nrows Xp + 1 /\
          zlen (snd (fst st)) = nnz Xp /\ zlen (snd st) = nnz Xp /\
          zth 0 (fst (fst st)) k = zth 0 ptr k + (idx - rs) /\
          (forall i', i < i' < nrows Xp ->
             zth 0 (fst (fst st)) (zth 0 m i') = zth 0 ptr (zth 0 m i')) /\
          (forall i', 0 <= i' < i ->
             entries_at (snd (fst st)) (snd st)
               (zth 0 ptr (zth 0 m i')) (rowlen ptr (zth 0 m i'))
             = row_entries Xp i') /\
          entries_at (snd (fst st)) (snd st) (zth 0 ptr k) (idx - rs)
          = entries_at (indices Xp) (data Xp) rs (idx - rs))); [lia | |].
        { cbn [fst snd]. repeat split; auto.
          - unfold k. rewrite Hwp by lia. lia.
          - intros i' Hi'. apply Hwp. lia.
          - now replace (rs - rs) with 0 by lia. }
        intros idx [[wp1 ind1] dat1] Hidx
               (Hwl1 & Hil1 & Hdl1 & Hcur & Hwp1 & Hdone1 & Hrow).
        cbn [fst snd] in *.
        rewrite (vget_ok 0) by lia. cbn [bind].
        rewrite vset_ok by lia. cbn [bind].
        rewrite (vget_ok 0) by (rewrite (wf_indices_len Xp Hwf); lia).
        cbn [bind]. rewrite Hcur.
        rewrite vset_ok by lia. cbn [bind].
        rewrite (vget_ok 0) by (rewrite (wf_data_len Xp Hwf); lia).
        cbn [bind].
        rewrite vset_ok by lia. cbn [bind].
        apply returns_ok. cbn [fst snd]. rewrite !zlen_zupd.
        repeat split; auto.
        { rewrite zth_zupd_eq by lia. lia. }
        { intros i' Hi'.
          pose proof (is_perm_range _ _ i' Hpm ltac:(lia)) as Hri'.
          assert (zth 0 m i' <> k).
          { intros E. apply (is_perm_inj _ _ i' i Hpm) in E; lia. }
          rewrite zth_zupd_neq by lia. apply Hwp1. lia. }
        { intros i' Hi'. rewrite <- Hdone1 by lia.
          pose proof (is_perm_range _ _ i' Hpm ltac:(lia)) as Hri'.
          assert (Hne : zth 0 m i' <> k).
          { intros E. apply (is_perm_inj _ _ i' i Hpm) in E; lia. }
          pose proof (Hle 0 (zth 0 m i') ltac:(lia) ltac:(lia) ltac:(lia)).
          apply entries_at_frame; unfold rowlen; try lia.
          destruct (Z_lt_ge_dec (zth 0 m i') k) as [Hlt | Hge].
          - pose proof (Hle (zth 0 m i' + 1) k
                          ltac:(lia) ltac:(lia) ltac:(lia)). lia.
          - pose proof (Hle (k + 1) (zth 0 m i')
                          ltac:(lia) ltac:(lia) ltac:(lia)). lia. }
        { replace (idx + 1 - rs) with (idx - rs + 1) by lia.
          rewrite entries_at_write by lia. rewrite Hrow.
          rewrite entries_at_snoc by lia.
          now replace (rs + (idx - rs)) with idx by lia. }
      * cbv beta. intros [[wp1 ind1] dat1]
                         (Hwl1 & Hil1 & Hdl1 & Hcur & Hwp1 & Hdone1 & Hrow).
        cbn [fst snd] in *. repeat split; auto.
        { intros i' Hi'. apply Hwp1. lia. }
        intros i' Hi'. destruct (Z.eq_dec i' i) as [-> | Hne].
        { fold k. unfold row_entries, rowlen. fold rs re. rewrite <- Hrow.
          f_equal. lia. }
        { apply Hdone1. lia. }
  - cbv beta. intros [[wp ind] dat] (_ & Hil' & Hdl' & _ & Hdone).
    cbn [fst snd] in *. auto.
Qed.

(** [unpermute_csr_rows] returns a well-formed matrix of the same shape
    whose row [m i] is row [i] of its argument, entry for entry. *)
Lemma unpermute_csr_rows_returns :
  returns (unpermute_csr_rows Xp m) (fun X' =>
    nrows X' = nrows Xp /\ ncols X' = ncols Xp /\ nnz X' = nnz Xp /\
    wf_csr X' /\
    forall i, 0 <= i < nrows Xp ->
      row_entries X' (zth 0 m i) = row_entries Xp i).
Proof.
  pose proof (is_perm_len _ _ Hpm) as Hml.
  pose proof (wf_nrows Xp Hwf) as Hn.
  pose proof (wf_nnz_nonneg Xp Hwf) as Hnnz.
  unfold unpermute_csr_rows. rewrite Hml, Z.eqb_refl. cbn [negb]. cbv zeta.
  rewrite !valloc_ok by lia. cbn [bind].
  apply returns_bind. eapply returns_weaken.
  { apply unpermute_rows_count;
      [rewrite zlen_repeat; lia | intros; apply zth_repeat]. }
  cbv beta. intros cnt (Hl & Hz & Hcnt).
  apply returns_bind. eapply returns_weaken.
  { apply unpermute_rows_cumulate; auto. }
  cbv beta. intros ptr (Hl' & Hz' & Hstep).
  assert (Hlen : forall i, 0 <= i < nrows Xp ->
                   rowlen ptr (zth 0 m i) = rowlen (indptr Xp) i).
  { intros i Hi. unfold rowlen at 1.
    rewrite Hstep by (now apply (is_perm_range _ _ i Hpm)).
    rewrite Hcnt by lia. lia. }
  assert (Hmono : forall r, 0 <= r < nrows Xp ->
                    zth 0 ptr r <= zth 0 ptr (r + 1)).
  { intros r Hr. destruct (is_perm_surj _ _ r Hpm Hr) as (i & Hi & <-).
    pose proof (Hlen i Hi) as E. unfold rowlen at 1 in E.
    pose proof (wf_rowlen_nonneg Xp Hwf i Hi). lia. }
  assert (Hle : forall a b, 0 <= a -> a <= b -> b <= nrows Xp ->
                            zth 0 ptr a <= zth 0 ptr b).
  { intros a b Ha Hab Hb. apply (mono_le (zth 0 ptr) 0 (nrows Xp)); auto. }
  assert (Hlast : zth 0 ptr (nrows Xp) = nnz Xp).
  { rewrite (telescope (zth 0 ptr) (rowlen ptr) (nrows Xp) Hn)
      by (intros r Hr; unfold rowlen; lia).
    rewrite <- (zsum_map_perm (nrows Xp) m (rowlen ptr) Hpm).
    rewrite Hz'. rewrite <- (wf_nnz_telescope Xp Hwf). simpl. f_equal.
    apply map_ext_in. intros i Hi. apply in_zrange in Hi; [| lia].
    apply Hlen. lia. }
  apply returns_bind. eapply returns_weaken.
  { apply (unpermute_rows_scatter ptr); auto; try lia;
      rewrite zlen_repeat; lia. }
  cbv beta. intros [[wp ind] dat] (Hil & Hdl & Hrows). cbn [fst snd] in *.
  apply returns_bind. eapply returns_weaken.
  { apply (sort_each_row_returns (nrows Xp) ptr ind dat (nnz Xp));
      auto; lia. }
  cbv beta. intros [ind' dat'] (Hil' & Hdl' & Hsorted). cbn [fst snd] in *.
  apply returns_ok. cbn [nrows ncols nnz].
  assert (Hrow : forall i, 0 <= i < nrows Xp ->
            entries_at ind' dat' (zth 0 ptr (zth 0 m i))
              (rowlen ptr (zth 0 m i))
            = row_entries Xp i).
  { intros i Hi. rewrite Hsorted by (now apply (is_perm_range _ _ i Hpm)).
    rewrite Hrows by lia.
    apply std_sort_sorted_row. now apply (wf_row_sorted Xp Hwf). }
  do 3 (split; [reflexivity |]). split; [| exact Hrow].
  apply wf_intro; cbn [nrows ncols nnz indptr indices data]; auto.
  - apply (wf_ncols Xp Hwf).
  - intros r Hr. specialize (Hmono r Hr). unfold rowlen. lia.
  - intros r Hr. destruct (is_perm_surj _ _ r Hpm Hr) as (i & Hi & <-).
    unfold row_entries. cbn [indptr indices data].
    rewrite Hrow by lia. now apply wf_row_cols.
  - intros r Hr. destruct (is_perm_surj _ _ r Hpm Hr) as (i & Hi & <-).
    unfold row_entries. cbn [indptr indices data].
    rewrite Hrow by lia. now apply (wf_row_sorted Xp Hwf).
Qed.

End UnpermuteRows.

(** C4, amended: when no row stores a column index twice, permuting the rows
    and undoing the permutation gives back the very same matrix: same
    dimensions, offsets, column indices and values. *)
Theorem permute_unpermute_roundtrip (S : StdSort) (X : CSR)
  (row_new2old : list Z) :
  wf_csr X -> is_perm (nrows X) row_new2old ->
  (Xp <- permute_csr_rows X row_new2old ;;
   unpermute_csr_rows Xp row_new2old) = Ok X.
Proof.
  intros Hwf Hpm.
  destruct (permute_csr_rows_returns X row_new2old Hwf Hpm)
    as (Xp & -> & Hr & Hc & Hz & Hwfp & Hrows).
  cbn [bind]. rewrite <- Hr in Hpm.
  destruct (unpermute_csr_rows_returns Xp row_new2old Hwfp Hpm)
    as (X' & -> & Hr' & Hc' & Hz' & Hwf' & Hrows').
  f_equal. apply csr_ext; auto; try congruence.
  intros k Hk. rewrite Hr', Hr in Hk. rewrite Hr in Hpm.
  destruct (is_perm_surj _ _ k Hpm Hk) as (i & Hi & <-).
  rewrite Hrows' by lia. now apply Hrows.
Qed.

Lemma permute_unpermute_roundtrip_witness :
  (Xp <- @permute_csr_rows stable_std_sort X_example [2; 0; 3; 1] ;;
   @unpermute_csr_rows stable_std_sort Xp [2; 0; 3; 1]) = Ok X_example.
Proof.
  apply (permute_unpermute_roundtrip stable_std_sort X_example [2; 0; 3; 1]).
  - apply check_csr_sound. reflexivity.
  - apply check_perm_sound. reflexivity.
Defined.

(** C4, as stated, fails.  The row of [X_row17] is sorted ascending by
    column index and stores three values, 1, 2 and 3, at column 0.  Both
    operations sort every row again with [std::sort], comparing column
    indices only, and on seventeen entries the [std::sort] of libstdc++
    reorders the three equivalent entries: the values come back as 2, 3, 1
    from [permute_csr_rows] and as 3, 1, 2 from [unpermute_csr_rows]. *)
Lemma permute_unpermute_reorders_repeated_column :
  wf_csr_as_specified X_row17 /\ is_perm (nrows X_row17) [0] /\
  @permute_csr_rows libstdcxx_std_sort X_row17 [0]
  = Ok {| nrows := 1; ncols := 15; nnz := 17; indptr := [0; 17];
          indices := indices X_row17;
          data := [2; 3; 1; 4; 5; 6; 7; 8; 9; 10; 11; 12; 13; 14; 15; 16;
                   17] |} /\
  (Xp <- @permute_csr_rows libstdcxx_std_sort X_row17 [0] ;;
   @unpermute_csr_rows libstdcxx_std_sort Xp [0])
  = Ok {| nrows := 1; ncols := 15; nnz := 17; indptr := [0; 17];
          indices := indices X_row17;
          data := [3; 1; 2; 4; 5; 6; 7; 8; 9; 10; 11; 12; 13; 14; 15; 16;
                   17] |}.
Proof.
  split; [apply check_csr_as_specified_sound; reflexivity |].
  split; [apply check_perm_sound; reflexivity |].
  split; vm_compute; reflexivity.
Qed.

(** * [permute_csr_cols] *)

Lemma NoDup_map_inj_on {A B} (f : A -> B) (l : list A) :
  NoDup l ->
  (forall a b, In a l -> In b l -> f a = f b -> a = b) ->
  NoDup (map f l).
Proof.
  induction 1 as [|x t Hx Hnd IH]; intros Hinj; simpl; constructor.
  - intros Hin. apply in_map_iff in Hin. destruct Hin as (y & E & Hy).
    apply Hinj in E; [subst; contradiction | now right | now left].
  - apply IH. intros a b Ha Hb. apply Hinj; now right.
Qed.

Section PermuteCols.
Context {S : StdSort}.
Variables (X : CSR) (m : list Z).
Hypothesis Hwf : wf_csr X.
Hypothesis Hpm : is_perm (ncols X) m.

(** The inverse map [col_old2new]. *)
Lemma permute_cols_old2new (o2n0 : list Z) :
  zlen o2n0 = ncols X ->
  returns
    (for_range 0 (ncols X) (fun new_col o2n =>
       old_col <- vget m new_col ;;
       if (old_col <? 0) || (old_col >=? ncols X)
       then Throw "permute_csr_cols: invalid col_new2old entry" else
       vset o2n old_col new_col) o2n0)
    (fun o2n =>
       zlen o2n = ncols X /\
       forall c, 0 <= c < ncols X -> zth 0 o2n (zth 0 m c) = c).
Proof.
  intros Hl0. pose proof (is_perm_len _ _ Hpm) as Hml.
  apply (for_range_inv (fun k o2n =>
    zlen o2n = ncols X /\
    forall c, 0 <= c < k -> zth 0 o2n (zth 0 m c) = c));
    [apply (wf_ncols X Hwf) | |].
  - split; [exact Hl0 | intros; lia].
  - intros k o2n Hk (Hl & Hdone).
    pose proof (is_perm_range _ _ k Hpm Hk) as Hr.
    rewrite (vget_ok 0) by lia. cbn [bind].
    rewrite range_check_false by lia.
    rewrite vset_ok by lia. apply returns_ok.
    rewrite zlen_zupd. split; [exact Hl |].
    intros c Hc. destruct (Z.eq_dec c k) as [-> | Hne].
    + now rewrite zth_zupd_eq by lia.
    + pose proof (is_perm_range _ _ c Hpm ltac:(lia)) as Hrc.
      assert (zth 0 m c <> zth 0 m k).
      { intros E. apply (is_perm_inj _ _ c k Hpm) in E; lia. }
      rewrite zth_zupd_neq by lia. apply Hdone. lia.
Qed.

(** Every stored column index is sent through [col_old2new]. *)
Lemma permute_cols_remap (o2n ind0 : list Z) :
  zlen o2n = ncols X -> zlen ind0 = nnz X ->
  returns
    (for_range 0 (nnz X) (fun i ind =>
       old_col <- vget (indices X) i ;;
       if (old_col <? 0) || (old_col >=? ncols X)
       then Throw "permute_csr_cols: invalid column index in X" else
       c <- vget o2n old_col ;;
       vset ind i c) ind0)
    (fun ind =>
       zlen ind = nnz X /\
       forall p, 0 <= p < nnz X ->
         zth 0 ind p = zth 0 o2n (zth 0 (indices X) p)).
Proof.
  intros Hol Hl0.
  apply (for_range_inv (fun k ind =>
    zlen ind = nnz X /\
    forall p, 0 <= p < k -> zth 0 ind p = zth 0 o2n (zth 0 (indices X) p)));
    [apply (wf_nnz_nonneg X Hwf) | |].
  - split; [exact Hl0 | intros; lia].
  - intros k ind Hk (Hl & Hdone).
    pose proof (wf_col_range X Hwf k Hk) as Hc.
    rewrite (vget_ok 0) by (rewrite (wf_indices_len X Hwf); lia).
    cbn [bind]. rewrite range_check_false by lia.
    rewrite (vget_ok 0) by lia. cbn [bind].
    rewrite vset_ok by lia. apply returns_ok.
    rewrite zlen_zupd. split; [exact Hl |].
    intros p Hp. destruct (Z.eq_dec p k) as [-> | Hne].
    + now rewrite zth_zupd_eq by lia.
    + rewrite zth_zupd_neq by lia. apply Hdone. lia.
Qed.

(** [permute_csr_cols] returns a well-formed matrix of the same shape. *)
Lemma permute_csr_cols_returns :
  returns (permute_csr_cols X m) (fun Xp =>
    nrows Xp = nrows X /\ ncols Xp = ncols X /\ nnz Xp = nnz X /\
    wf_csr Xp).
Proof.
  pose proof (is_perm_len _ _ Hpm) as Hml.
  pose proof (wf_nrows X Hwf) as Hn.
  pose proof (wf_ncols X Hwf) as Hc.
  pose proof (wf_nnz_nonneg X Hwf) as Hnnz.
  unfold permute_csr_cols. rewrite Hml, Z.eqb_refl. cbn [negb].
  rewrite valloc_ok by lia. cbn [bind].
  apply returns_bind. eapply returns_weaken.
  { apply permute_cols_old2new. rewrite zlen_repeat; lia. }
  cbv beta. intros o2n (Hol & Hinv).
  rewrite valloc_ok by lia. cbn [bind].
  apply returns_bind. eapply returns_weaken.
  { apply (permute_cols_remap o2n); [exact Hol | rewrite zlen_repeat; lia]. }
  cbv beta. intros ind (Hil & Hind).
  apply returns_bind. eapply returns_weaken.
  { apply (sort_each_row_returns (nrows X) (indptr X) ind (data X) (nnz X));
      auto.
    - apply (wf_indptr_len X Hwf).
    - rewrite (wf_indptr_first X Hwf). lia.
    - apply (wf_indptr_mono X Hwf).
    - rewrite (wf_indptr_last X Hwf). lia.
    - apply (wf_data_len X Hwf). }
  cbv beta. intros [ind' dat'] (Hil' & Hdl' & Hsorted). cbn [fst snd] in *.
  apply returns_ok. cbn [nrows ncols nnz].
  do 3 (split; [reflexivity |]).
  assert (Hremap : forall i, 0 <= i < nrows X ->
            entries_at ind (data X) (zth 0 (indptr X) i) (rowlen (indptr X) i)
            = map (fun e => (zth 0 o2n (fst e), snd e)) (row_entries X i)).
  { intros i Hi. unfold row_entries, entries_at. rewrite map_map.
    apply map_ext_in. intros p Hp. cbn [fst snd].
    pose proof (wf_rowlen_nonneg X Hwf i Hi).
    apply in_zrange in Hp; [| lia].
    pose proof (wf_ptr_bounds X Hwf i ltac:(lia)).
    pose proof (wf_ptr_bounds X Hwf (i + 1) ltac:(lia)).
    unfold rowlen in Hp. rewrite Hind by lia. reflexivity. }
  assert (Ho2n : forall c, 0 <= c < ncols X ->
            0 <= zth 0 o2n c < ncols X /\ zth 0 m (zth 0 o2n c) = c).
  { intros c Hc'. destruct (is_perm_surj _ _ c Hpm Hc') as (k & Hk & <-).
    rewrite Hinv by lia. split; [lia | reflexivity]. }
  apply wf_intro; cbn [nrows ncols nnz indptr indices data]; auto.
  - apply (wf_indptr_len X Hwf).
  - apply (wf_indptr_first X Hwf).
  - apply (wf_rowlen_nonneg X Hwf).
  - apply (wf_indptr_last X Hwf).
  - intros i Hi. unfold row_entries. cbn [indptr indices data].
    rewrite Hsorted, Hremap by lia.
    pose proof (wf_row_cols X Hwf i Hi) as Hcols.
    rewrite Forall_forall in *. intros e He.
    apply (Permutation_in _
             (Permutation_sym (std_sort_perm _ by_col _ swo_by_col))) in He.
    apply in_map_iff in He. destruct He as (e0 & <- & He0).
    cbn [fst]. apply Ho2n. now apply Hcols.
  - intros i Hi. unfold row_entries. cbn [indptr indices data].
    rewrite Hsorted, Hremap by lia.
    apply sorted_le_NoDup_lt; [apply std_sort_sorted, swo_by_col |].
    eapply Permutation_NoDup.
    { apply Permutation_map. apply std_sort_perm, swo_by_col. }
    rewrite map_map. cbn [fst]. rewrite <- (map_map fst (zth 0 o2n)).
    pose proof (wf_row_cols X Hwf i Hi) as Hcols.
    rewrite Forall_forall in Hcols.
    apply NoDup_map_inj_on.
    + apply StronglySorted_lt_NoDup. now apply (wf_row_sorted X Hwf).
    + intros a b Ha Hb E.
      apply in_map_iff in Ha. destruct Ha as (ea & <- & Hea).
      apply in_map_iff in Hb. destruct Hb as (eb & <- & Heb).
      destruct (Ho2n (fst ea) (Hcols ea Hea)) as [_ <-].
      destruct (Ho2n (fst eb) (Hcols eb Heb)) as [_ <-].
      now rewrite E.
Qed.

End PermuteCols.

(** * [extract_tile_csr] *)

Lemma tile_row_app t a b : tile_row t (a ++ b) = tile_row t a ++ tile_row t b.
Proof. unfold tile_row. now rewrite filter_app, map_app. Qed.

Lemma tile_row_snoc t es e :
  tile_row t (es ++ [e])
  = tile_row t es
      ++ (if in_cols t e then [(fst e - col_start t, snd e)] else []).
Proof.
  rewrite tile_row_app. f_equal. unfold tile_row. simpl.
  now destruct (in_cols t e).
Qed.

Lemma entries_at_app ind dat off a b :
  0 <= a -> 0 <= b ->
  entries_at ind dat off (a + b)
  = entries_at ind dat off a ++ entries_at ind dat (off + a) b.
Proof.
  intros Ha Hb. unfold entries_at, zrange.
  replace (Z.to_nat (a + b)) with (Z.to_nat a + Z.to_nat b)%nat by lia.
  rewrite zseq_app, map_app. do 3 f_equal. lia.
Qed.

Lemma tile_row_cols t es :
  Forall (fun e => 0 <= fst e < col_end t - col_start t) (tile_row t es).
Proof.
  apply Forall_forall. intros e He. unfold tile_row in He.
  apply in_map_iff in He. destruct He as (e0 & <- & He0).
  apply filter_In in He0. destruct He0 as [_ Hc]. unfold in_cols in Hc.
  apply andb_prop in Hc. cbn [fst]. lia.
Qed.

Lemma tile_row_sorted t es :
  StronglySorted Z.lt (map fst es) ->
  StronglySorted Z.lt (map fst (tile_row t es)).
Proof.
  induction es as [|e es IH]; intros Hs; [constructor |].
  simpl in Hs. inversion Hs as [|? ? Hst Hall]; subst.
  unfold tile_row. simpl. destruct (in_cols t e); [| now apply IH].
  simpl. constructor; [now apply IH |].
  rewrite Forall_forall in *. intros c Hc.
  apply in_map_iff in Hc. destruct Hc as (e1 & <- & He1).
  apply in_map_iff in He1. destruct He1 as (e0 & <- & He0).
  apply filter_In in He0. destruct He0 as [He0 _]. cbn [fst].
  specialize (Hall (fst e0) (in_map fst _ _ He0)). lia.
Qed.

Section ExtractTile.
Variables (X : CSR) (tile : Tile).
Hypothesis Hwf : wf_csr X.
Hypothesis Hin : tile_in_bounds X tile.

Let n := row_end tile - row_start tile.

(** Entries of row [i] of [X] seen so far by an inner loop at [idx]. *)
Let seen (i idx : Z) : list (Z * Z) :=
  entries_at (indices X) (data X) (zth 0 (indptr X) i)
             (idx - zth 0 (indptr X) i).

Lemma seen_step i idx :
  zth 0 (indptr X) i <= idx ->
  seen i (idx + 1)
  = seen i idx ++ [(zth 0 (indices X) idx, zth 0 (data X) idx)].
Proof.
  intros H. unfold seen.
  replace (idx + 1 - zth 0 (indptr X) i)
    with (idx - zth 0 (indptr X) i + 1) by lia.
  rewrite entries_at_snoc by lia.
  now replace (zth 0 (indptr X) i + (idx - zth 0 (indptr X) i)) with idx
    by lia.
Qed.

Lemma seen_all i : seen i (zth 0 (indptr X) (i + 1)) = row_entries X i.
Proof. reflexivity. Qed.

Lemma seen_le i idx :
  0 <= i < nrows X ->
  zth 0 (indptr X) i <= idx <= zth 0 (indptr X) (i + 1) ->
  zlen (tile_row tile (seen i idx))
  <= zlen (tile_row tile (row_entries X i)).
Proof.
  intros Hi Hidx. rewrite <- seen_all. unfold seen.
  replace (zth 0 (indptr X) (i + 1) - zth 0 (indptr X) i)
    with ((idx - zth 0 (indptr X) i) + (zth 0 (indptr X) (i + 1) - idx))
    by lia.
  rewrite entries_at_app by lia. rewrite tile_row_app, zlen_app.
  pose proof (zlen_nonneg
    (tile_row tile (entries_at (indices X) (data X)
       (zth 0 (indptr X) i + (idx - zth 0 (indptr X) i))
       (zth 0 (indptr X) (i + 1) - idx)))). lia.
Qed.

(** First pass: offsets of the tile from the per-row counts. *)
Lemma extract_tile_count (ptr0 : list Z) :
  zlen ptr0 = n + 1 -> zth 0 ptr0 0 = 0 ->
  returns
    (for_range (row_start tile) (row_end tile) (fun i '(ptr, tnnz) =>
       let tile_row := i - row_start tile in
       rstart <- vget (indptr X) i ;;
       rend <- vget (indptr X) (i + 1) ;;
       row_nnz <- for_range rstart rend (fun idx row_nnz =>
         col <- vget (indices X) idx ;;
         if (col >=? col_start tile) && (col <? col_end tile)
         then Ok (row_nnz + 1) else Ok row_nnz) 0 ;;
       p <- vget ptr tile_row ;;
       ptr <- vset ptr (tile_row + 1) (p + row_nnz) ;;
       Ok (ptr, tnnz + row_nnz)) (ptr0, 0))
    (fun st =>
       zlen (fst st) = n + 1 /\ zth 0 (fst st) 0 = 0 /\
       (forall r, 0 <= r < n ->
          zth 0 (fst st) (r + 1)
          = zth 0 (fst st) r
            + zlen (tile_row tile (row_entries X (row_start tile + r)))) /\
       snd st = zth 0 (fst st) n).
Proof.
  intros Hl0 Hz0. destruct Hin as (Hr1 & Hr2 & Hc1 & Hc2).
  eapply returns_weaken.
  - apply (for_range_inv (fun i st =>
      zlen (fst st) = n + 1 /\ zth 0 (fst st) 0 = 0 /\
      (forall r, 0 <= r < i - row_start tile ->
         zth 0 (fst st) (r + 1)
         = zth 0 (fst st) r
           + zlen (tile_row tile (row_entries X (row_start tile + r)))) /\
      snd st = zth 0 (fst st) (i - row_start tile))); [lia | |].
    + cbn [fst snd]. repeat split; auto; [intros; lia |].
      replace (row_start tile - row_start tile) with 0 by lia. now rewrite Hz0.
    + intros i [ptr tnnz] Hi (Hl & Hz & Hdone & Htn). cbn [fst snd] in *.
      pose proof (wf_indptr_len X Hwf) as Hxl.
      pose proof (wf_indptr_mono X Hwf i ltac:(lia)) as Hxm.
      pose proof (wf_ptr_bounds X Hwf i ltac:(lia)) as Hxb1.
      pose proof (wf_ptr_bounds X Hwf (i + 1) ltac:(lia)) as Hxb2.
      cbv zeta.
      rewrite (vget_ok 0) by lia. cbn [bind].
      rewrite (vget_ok 0) by lia. cbn [bind].
      apply returns_bind. eapply returns_weaken.
      * apply (for_range_inv (fun idx row_nnz =>
          row_nnz = zlen (tile_row tile (seen i idx)))); [lia | |].
        { unfold seen. now replace (zth 0 (indptr X) i - zth 0 (indptr X) i)
            with 0 by lia. }
        intros idx row_nnz Hidx ->.
        rewrite (vget_ok 0) by (rewrite (wf_indices_len X Hwf); lia).
        cbn [bind]. rewrite seen_step by lia.
        rewrite tile_row_snoc. unfold in_cols at 1. cbn [fst].
        destruct ((zth 0 (indices X) idx >=? col_start tile)
                  && (zth 0 (indices X) idx <? col_end tile));
          apply returns_ok.
        { rewrite zlen_app. reflexivity. }
        { now rewrite app_nil_r. }
      * cbv beta. intros row_nnz ->. rewrite seen_all.
        unfold n in *.
        rewrite (vget_ok 0) by lia. cbn [bind].
        rewrite vset_ok by lia. cbn [bind].
        apply returns_ok. cbn [fst snd]. rewrite zlen_zupd.
        repeat split; auto.
        { rewrite zth_zupd_neq by lia. exact Hz. }
        { intros r Hr. destruct (Z.eq_dec r (i - row_start tile)) as [-> | Hne].
          - rewrite zth_zupd_eq by lia. rewrite zth_zupd_neq by lia.
            now replace (row_start tile + (i - row_start tile)) with i by lia.
          - rewrite !zth_zupd_neq by lia. apply Hdone. lia. }
        { replace (i + 1 - row_start tile) with (i - row_start tile + 1)
            by lia.
          rewrite zth_zupd_eq by lia. lia. }
  - cbv beta. intros [ptr tnnz] (Hl & Hz & Hdone & Htn). cbn [fst snd] in *.
    unfold n. auto.
Qed.

(** Second pass: the entries of each row that fall in the tile's columns are
    copied, in order, with their column rebased. *)
Lemma extract_tile_copy (ptr ind0 dat0 : list Z) (tnnz : Z) :
  zlen ptr = n + 1 -> zth 0 ptr 0 = 0 ->
  (forall r, 0 <= r < n ->
     zth 0 ptr (r + 1)
     = zth 0 ptr r
       + zlen (tile_row tile (row_entries X (row_start tile + r)))) ->
  tnnz = zth 0 ptr n ->
  zlen ind0 = tnnz -> zlen dat0 = tnnz ->
  returns
    (for_range (row_start tile) (row_end tile) (fun i st =>
       let tile_row := i - row_start tile in
       rstart <- vget (indptr X) i ;;
       rend <- vget (indptr X) (i + 1) ;;
       for_range rstart rend (fun idx '(write_ptr, ind, dat) =>
         col <- vget (indices X) idx ;;
         if (col >=? col_start tile) && (col <? col_end tile)
         then
           dest <- vget write_ptr tile_row ;;
           write_ptr <- vset write_ptr tile_row (dest + 1) ;;
           ind <- vset ind dest (col - col_start tile) ;;
           v <- vget (data X) idx ;;
           dat <- vset dat dest v ;;
           Ok (write_ptr, ind, dat)
         else Ok (write_ptr, ind, dat)) st) (ptr, ind0, dat0))
    (fun st =>
       zlen (snd (fst st)) = tnnz /\ zlen (snd st) = tnnz /\
       forall r, 0 <= r < n ->
         entries_at (snd (fst st)) (snd st) (zth 0 ptr r) (rowlen ptr r)
         = tile_row tile (row_entries X (row_start tile + r))).
Proof.
  intros Hl Hz Hstep Htn Hil Hdl. destruct Hin as (Hr1 & Hr2 & Hc1 & Hc2).
  assert (Hn : 0 <= n) by (unfold n; lia).
  assert (Hmono : forall r, 0 <= r < n -> zth 0 ptr r <= zth 0 ptr (r + 1)).
  { intros r Hr. rewrite Hstep by lia.
    pose proof (zlen_nonneg
      (tile_row tile (row_entries X (row_start tile + r)))). lia. }
  assert (Hle : forall a b, 0 <= a -> a <= b -> b <= n ->
                            zth 0 ptr a <= zth 0 ptr b).
  { intros a b Ha Hab Hb. apply (mono_le (zth 0 ptr) 0 n); auto. }
  eapply returns_weaken.
  - apply (for_range_inv (fun i st =>
      zlen (fst (fst st)) = n + 1 /\
      zlen (snd (fst st)) = tnnz /\ zlen (snd st) = tnnz /\
      (forall r, i - row_start tile <= r <= n ->
         zth 0 (fst (fst st)) r = zth 0 ptr r) /\
      (forall r, 0 <= r < i - row_start tile ->
         entries_at (snd (fst st)) (snd st) (zth 0 ptr r) (rowlen ptr r)
         = tile_row tile (row_entries X (row_start tile + r)))));
      [lia | |].
    + cbn [fst snd]. repeat split; auto. intros; lia.
    + intros i [[wp ind] dat] Hi (Hwl & Hil' & Hdl' & Hwp & Hdone).
      cbn [fst snd] in *.
      pose proof (wf_indptr_len X Hwf) as Hxl.
      pose proof (wf_indptr_mono X Hwf i ltac:(lia)) as Hxm.
      pose proof (wf_ptr_bounds X Hwf i ltac:(lia)) as Hxb1.
      pose proof (wf_ptr_bounds X Hwf (i + 1) ltac:(lia)) as Hxb2.
      set (tr := i - row_start tile) in *.
      assert (Htr : 0 <= tr < n) by (unfold tr, n; lia).
      pose proof (Hle 0 tr ltac:(lia) ltac:(lia) ltac:(lia)) as Hp0.
      pose proof (Hle (tr + 1) n ltac:(lia) ltac:(lia) ltac:(lia)) as Hp1.
      pose proof (Hstep tr Htr) as Hpi.
      replace (row_start tile + tr) with i in Hpi by (unfold tr; lia).
      cbv zeta. fold tr.
      rewrite (vget_ok 0) by lia. cbn [bind].
      rewrite (vget_ok 0) by lia. cbn [bind].
      eapply returns_weaken.
      * apply (for_range_inv (fun idx st =>
          zlen (fst (fst st)) = n + 1 /\
          zlen (snd (fst st)) = tnnz /\ zlen (snd st) = tnnz /\
          zth 0 (fst (fst st)) tr
          = zth 0 ptr tr + zlen (tile_row tile (seen i idx)) /\
          (forall r, tr < r <= n -> zth 0 (fst (fst st)) r = zth 0 ptr r) /\
          (forall r, 0 <= r < tr ->
             entries_at (snd (fst st)) (snd st) (zth 0 ptr r) (rowlen ptr r)
             = tile_row tile (row_entries X (row_start tile + r))) /\
          entries_at (snd (fst st)) (snd st) (zth 0 ptr tr)
            (zlen (tile_row tile (seen i idx)))
          = tile_row tile (seen i idx))); [lia | |].
        { assert (E : seen i (zth 0 (indptr X) i) = []).
          { unfold seen.
            now replace (zth 0 (indptr X) i - zth 0 (indptr X) i) with 0
              by lia. }
          cbn [fst snd]. rewrite E. repeat split; auto.
          - rewrite (Hwp tr) by lia. unfold tile_row, zlen. simpl. lia.
          - intros r Hr. apply Hwp. lia. }
        intros idx [[wp1 ind1] dat1] Hidx
               (Hwl1 & Hil1 & Hdl1 & Hcur & Hwp1 & Hdone1 & Hrow).
        cbn [fst snd] in *.
        pose proof (seen_le i (idx + 1) ltac:(lia) ltac:(lia)) as Hsl.
        rewrite seen_step in * by lia. rewrite tile_row_snoc in *.
        rewrite (vget_ok 0) by (rewrite (wf_indices_len X Hwf); lia).
        cbn [bind]. unfold in_cols in *. cbn [fst snd] in *.
        destruct ((zth 0 (indices X) idx >=? col_start tile)
                  && (zth 0 (indices X) idx <? col_end tile)) eqn:Ecol.
        { rewrite zlen_app, zlen_one in *.
          pose proof (zlen_nonneg (tile_row tile (seen i idx))) as Hnn.
          rewrite (vget_ok 0) by lia. cbn [bind].
          rewrite vset_ok by lia. cbn [bind]. rewrite Hcur.
          rewrite vset_ok by lia. cbn [bind].
          rewrite (vget_ok 0) by (rewrite (wf_data_len X Hwf); lia).
          cbn [bind].
          rewrite vset_ok by lia. cbn [bind].
          apply returns_ok. cbn [fst snd]. rewrite !zlen_zupd.
          repeat split; auto.
          - rewrite zth_zupd_eq by lia. lia.
          - intros r Hr. rewrite zth_zupd_neq by lia. apply Hwp1. lia.
          - intros r Hr. rewrite <- Hdone1 by lia.
            pose proof (Hle 0 r ltac:(lia) ltac:(lia) ltac:(lia)).
            pose proof (Hle (r + 1) tr ltac:(lia) ltac:(lia) ltac:(lia)).
            apply entries_at_frame; unfold rowlen; lia.
          - rewrite entries_at_write by lia. now rewrite Hrow. }
        { rewrite app_nil_r in *. apply returns_ok. cbn [fst snd].
          repeat split; auto. }
      * cbv beta. intros [[wp1 ind1] dat1]
                         (Hwl1 & Hil1 & Hdl1 & Hcur & Hwp1 & Hdone1 & Hrow).
        cbn [fst snd] in *. rewrite seen_all in *.
        replace (i + 1 - row_start tile) with (tr + 1) by (unfold tr; lia).
        repeat split; auto.
        { intros r Hr. apply Hwp1. lia. }
        intros r Hr. destruct (Z.eq_dec r tr) as [-> | Hne].
        { replace (row_start tile + tr) with i by (unfold tr; lia).
          etransitivity; [| exact Hrow]. f_equal. unfold rowlen. lia. }
        { apply Hdone1. lia. }
  - cbv beta. intros [[wp ind] dat] (_ & Hil' & Hdl' & _ & Hdone).
    cbn [fst snd] in *.
    replace (row_end tile - row_start tile) with n in Hdone by reflexivity.
    auto.
Qed.

(** [extract_tile_csr] returns a well-formed matrix of the tile's shape whose
    row [r] holds the entries of row [row_start + r] of [X] that fall in the
    tile's columns, with columns rebased to start at zero. *)
Lemma extract_tile_csr_returns :
  returns (extract_tile_csr X tile) (fun Xt =>
    nrows Xt = row_end tile - row_start tile /\
    ncols Xt = col_end tile - col_start tile /\
    wf_csr Xt /\
    forall r, 0 <= r < row_end tile - row_start tile ->
      row_entries Xt r = tile_row tile (row_entries X (row_start tile + r))).
Proof.
  pose proof Hin as (Hr1 & Hr2 & Hc1 & Hc2).
  assert (Hn : 0 <= n) by (unfold n; lia).
  unfold extract_tile_csr. cbv zeta. fold n.
  rewrite valloc_ok by lia. cbn [bind].
  apply returns_bind. eapply returns_weaken.
  { apply extract_tile_count; [rewrite zlen_repeat; lia | apply zth_repeat]. }
  cbv beta. intros [ptr tnnz] (Hl & Hz & Hstep & Htn). cbn [fst snd] in *.
  assert (Hmono : forall r, 0 <= r < n -> zth 0 ptr r <= zth 0 ptr (r + 1)).
  { intros r Hr. rewrite Hstep by lia.
    pose proof (zlen_nonneg
      (tile_row tile (row_entries X (row_start tile + r)))). lia. }
  assert (Hnn : 0 <= tnnz).
  { pose proof (mono_le (zth 0 ptr) 0 n Hmono 0 n
                  ltac:(lia) ltac:(lia) ltac:(lia)). lia. }
  rewrite !valloc_ok by lia. cbn [bind].
  apply returns_bind. eapply returns_weaken.
  { apply (extract_tile_copy ptr _ _ tnnz); auto; rewrite zlen_repeat; lia. }
  cbv beta. intros [[wp ind] dat] (Hil & Hdl & Hrows). cbn [fst snd] in *.
  apply returns_ok. cbn [nrows ncols].
  do 2 (split; [reflexivity |]). split; [| exact Hrows].
  apply wf_intro; cbn [nrows ncols nnz indptr indices data]; auto; try lia.
  - intros r Hr. specialize (Hmono r Hr). unfold rowlen. lia.
  - intros r Hr. unfold row_entries. cbn [indptr indices data].
    rewrite Hrows by exact Hr. apply tile_row_cols.
  - intros r Hr. unfold row_entries. cbn [indptr indices data].
    rewrite Hrows by exact Hr. apply tile_row_sorted.
    apply (wf_row_sorted X Hwf). lia.
Qed.

End ExtractTile.

(** C10: on a well-formed matrix, with valid permutation maps and a tile
    inside the matrix, [permute_csr_rows], [permute_csr_cols],
    [unpermute_csr_rows] and [extract_tile_csr] each return a matrix, and that
    matrix is well-formed for its own dimensions. *)
Theorem csr_operations_preserve_wf (S : StdSort) (X : CSR)
  (row_new2old col_new2old : list Z) (tile : Tile) :
  wf_csr X ->
  is_perm (nrows X) row_new2old -> is_perm (ncols X) col_new2old ->
  tile_in_bounds X tile ->
  returns (permute_csr_rows X row_new2old) (fun Xp =>
    nrows Xp = nrows X /\ ncols Xp = ncols X /\ wf_csr Xp) /\
  returns (permute_csr_cols X col_new2old) (fun Xp =>
    nrows Xp = nrows X /\ ncols Xp = ncols X /\ wf_csr Xp) /\
  returns (unpermute_csr_rows X row_new2old) (fun Xu =>
    nrows Xu = nrows X /\ ncols Xu = ncols X /\ wf_csr Xu) /\
  returns (extract_tile_csr X tile) (fun Xt =>
    nrows Xt = row_end tile - row_start tile /\
    ncols Xt = col_end tile - col_start tile /\ wf_csr Xt).
Proof.
  intros Hwf Hr Hc Ht. repeat split.
  - eapply returns_weaken; [apply permute_csr_rows_returns; auto |].
    cbv beta. tauto.
  - eapply returns_weaken; [apply permute_csr_cols_returns; auto |].
    cbv beta. tauto.
  - eapply returns_weaken; [apply unpermute_csr_rows_returns; auto |].
    cbv beta. tauto.
  - eapply returns_weaken; [apply extract_tile_csr_returns; auto |].
    cbv beta. tauto.
Qed.

Lemma csr_operations_preserve_wf_witness :
  returns (@permute_csr_rows stable_std_sort X_example [2; 0; 3; 1])
    (fun Xp => nrows Xp = 4 /\ ncols Xp = 4 /\ wf_csr Xp) /\
  returns (@permute_csr_cols stable_std_sort X_example [1; 3; 0; 2])
    (fun Xp => nrows Xp = 4 /\ ncols Xp = 4 /\ wf_csr Xp) /\
  returns (@unpermute_csr_rows stable_std_sort X_example [2; 0; 3; 1])
    (fun Xu => nrows Xu = 4 /\ ncols Xu = 4 /\ wf_csr Xu) /\
  returns (extract_tile_csr X_example (mk_tile 0 2 2 4))
    (fun Xt => nrows Xt = 2 - 0 /\ ncols Xt = 4 - 2 /\ wf_csr Xt).
Proof.
  apply (csr_operations_preserve_wf stable_std_sort X_example
           [2; 0; 3; 1] [1; 3; 0; 2] (mk_tile 0 2 2 4)).
  - apply check_csr_sound. reflexivity.
  - apply check_perm_sound. reflexivity.
  - apply check_perm_sound. reflexivity.
  - unfold tile_in_bounds. simpl. lia.
Defined.

(** * The tile grid *)

Lemma ceil_div_nonneg n t : 0 <= n -> 0 < t -> 0 <= ceil_div n t.
Proof.
  intros Hn Ht. unfold ceil_div.
  assert ((- n) / t <= 0) by (apply Z.div_le_upper_bound; lia). lia.
Qed.

Lemma div_lt_ceil_div x n t :
  0 <= x < n -> 0 < t -> 0 <= x / t < ceil_div n t.
Proof.
  intros Hx Ht. unfold ceil_div. split; [apply Z.div_pos; lia |].
  pose proof (Z.mul_div_le x t Ht) as Hq.
  assert ((- n) / t < - (x / t)) by (apply Z.div_lt_upper_bound; nia).
  lia.
Qed.

Lemma block_of_index x t b n :
  0 < t -> 0 <= x < n ->
  (b * t <= x < Z.min (b * t + t) n) <-> b = x / t.
Proof.
  intros Ht Hx. split.
  - intros H. apply Z.div_unique with (r := x - b * t); lia.
  - intros ->. pose proof (Z.mul_div_le x t Ht).
    pose proof (Z.mul_succ_div_gt x t Ht). lia.
Qed.

Lemma for_range_append {A} (f : Z -> list A) a b
  (body : Z -> list A -> result (list A)) (l0 : list A) :
  a <= b ->
  (forall i l, a <= i < b -> body i l = Ok (l ++ f i)) ->
  for_range a b body l0 = Ok (l0 ++ flat_map f (zrange a (b - a))).
Proof.
  intros Hab Hbody. apply returns_eq.
  eapply returns_weaken.
  - apply (for_range_inv (fun i l =>
      l = l0 ++ flat_map f (zrange a (i - a)))); [exact Hab | |].
    + replace (a - a) with 0 by lia. simpl. now rewrite app_nil_r.
    + intros i l Hi ->. rewrite Hbody by lia. apply returns_ok.
      replace (i + 1 - a) with (i - a + 1) by lia.
      rewrite zrange_snoc by lia. rewrite flat_map_app. simpl.
      rewrite app_nil_r, <- app_assoc. do 3 f_equal. lia.
  - cbv beta. auto.
Qed.

Lemma flat_map_single {A B} (g : A -> B) l :
  flat_map (fun x => [g x]) l = map g l.
Proof. induction l; simpl; congruence. Qed.

Lemma filter_none {A} (P : A -> bool) l :
  (forall x, In x l -> P x = false) -> filter P l = [].
Proof.
  induction l as [|x t IH]; intros H; [reflexivity |].
  simpl. rewrite (H x (or_introl eq_refl)). apply IH.
  intros y Hy. apply H. now right.
Qed.

Lemma count_unique {A} (P : A -> bool) (q : A) l :
  NoDup l -> In q l -> (forall x, In x l -> P x = true <-> x = q) ->
  length (filter P l) = 1%nat.
Proof.
  induction 1 as [|x t Hx Hnd IH]; intros Hq HP; [contradiction |].
  simpl. destruct Hq as [-> | Hq].
  - rewrite (proj2 (HP q (or_introl eq_refl)) eq_refl). simpl. f_equal.
    rewrite filter_none; [reflexivity |].
    intros y Hy. destruct (P y) eqn:E; [| reflexivity].
    apply (HP y (or_intror Hy)) in E. subst. contradiction.
  - destruct (P x) eqn:E.
    + apply (HP x (or_introl eq_refl)) in E. subst. contradiction.
    + apply IH; auto. intros y Hy. apply HP. now right.
Qed.

Lemma count_flat_map_unique {A B} (Q : B -> bool) (F : A -> list B) q l :
  NoDup l -> In q l ->
  (forall x, In x l -> x <> q -> filter Q (F x) = []) ->
  length (filter Q (F q)) = 1%nat ->
  length (filter Q (flat_map F l)) = 1%nat.
Proof.
  induction 1 as [|x t Hx Hnd IH]; intros Hq Hother Hone; [contradiction |].
  simpl. rewrite filter_app, length_app. destruct Hq as [-> | Hq].
  - rewrite Hone.
    assert (E : filter Q (flat_map F t) = []).
    { clear IH Hone. induction t as [|y t IHt]; [reflexivity |].
      simpl. rewrite filter_app.
      rewrite (Hother y); [| right; now left |].
      - simpl. apply IHt.
        + intros Hin. apply Hx. now right.
        + now inversion Hnd.
        + intros z [-> | Hz] Hne; apply Hother; auto.
          * now left.
          * right. now right.
      - intros ->. apply Hx. now left. }
    rewrite E. reflexivity.
  - rewrite (Hother x (or_introl eq_refl)).
    + simpl. apply IH; auto. intros y Hy. apply Hother. now right.
    + intros ->. contradiction.
Qed.

Lemma filter_map_swap {A B} (g : A -> B) (P : B -> bool) l :
  filter P (map g l) = map g (filter (fun x => P (g x)) l).
Proof.
  induction l as [|x t IH]; [reflexivity |].
  simpl. destruct (P (g x)); simpl; congruence.
Qed.

(** Every position of the matrix lies in exactly one tile of the grid. *)
Lemma grid_contains_once (X : CSR) (cfg : TilingConfig) (r c : Z) :
  0 < tile_rows cfg -> 0 < tile_cols cfg ->
  0 <= r < nrows X -> 0 <= c < ncols X ->
  length (filter (tile_contains r c) (grid X cfg)) = 1%nat.
Proof.
  intros HTR HTC Hr Hc. unfold grid.
  pose proof (div_lt_ceil_div r (nrows X) (tile_rows cfg) Hr HTR) as Hrb.
  pose proof (div_lt_ceil_div c (ncols X) (tile_cols cfg) Hc HTC) as Hcb.
  apply count_flat_map_unique with (q := r / tile_rows cfg).
  - apply NoDup_zrange.
  - apply in_zrange; lia.
  - intros rb Hin Hne. rewrite filter_map_swap.
    rewrite filter_none; [reflexivity |].
    intros cb _. unfold tile_contains, grid_tile, mk_tile. simpl.
    destruct (rb * tile_rows cfg <=? r) eqn:E1; [| reflexivity].
    destruct (r <? Z.min (rb * tile_rows cfg + tile_rows cfg) (nrows X))
      eqn:E2; [| reflexivity].
    exfalso. apply Hne.
    apply (block_of_index r (tile_rows cfg) rb (nrows X)); lia.
  - rewrite filter_map_swap, length_map.
    apply count_unique with (q := c / tile_cols cfg).
    + apply NoDup_zrange.
    + apply in_zrange; lia.
    + intros cb _. unfold tile_contains, grid_tile, mk_tile. simpl.
      pose proof (proj2 (block_of_index r (tile_rows cfg)
                           (r / tile_rows cfg) (nrows X) HTR Hr) eq_refl).
      rewrite <- (block_of_index c (tile_cols cfg) cb (ncols X) HTC Hc).
      rewrite !andb_true_iff. lia.
Qed.

(** * [make_2d_tiles] *)

Lemma count_by_bounds r c l :
  length (filter (tile_contains r c) l)
  = length (filter (bounds_contain r c) (map bounds l)).
Proof. now rewrite filter_map_swap, length_map. Qed.

Lemma map_bounds_upd l k d :
  map bounds (upd l k (incr_nnz (nth k l d))) = map bounds l.
Proof.
  revert k. induction l as [|h t IH]; intros [|k]; simpl; auto.
  f_equal. apply IH.
Qed.

Lemma sum_nnz_upd l k d :
  (k < length l)%nat ->
  sum_nnz (upd l k (incr_nnz (nth k l d))) = sum_nnz l + 1.
Proof.
  unfold sum_nnz. revert k.
  induction l as [|h t IH]; intros [|k] Hk; simpl in *; try lia.
  rewrite IH by lia. lia.
Qed.

Lemma length_grid_rows {A} (g : Z -> Z -> A) (cols rows : list Z) :
  length (flat_map (fun rb => map (g rb) cols) rows)
  = (length rows * length cols)%nat.
Proof.
  induction rows as [|rb t IH]; simpl; [reflexivity |].
  rewrite length_app, length_map, IH. lia.
Qed.

Lemma zlen_grid (X : CSR) (cfg : TilingConfig) :
  0 <= nrows X -> 0 <= ncols X -> 0 < tile_rows cfg -> 0 < tile_cols cfg ->
  zlen (grid X cfg)
  = ceil_div (nrows X) (tile_rows cfg) * ceil_div (ncols X) (tile_cols cfg).
Proof.
  intros Hn Hc HTR HTC. unfold zlen, grid.
  rewrite length_grid_rows.
  pose proof (zlen_zrange 0 _ (ceil_div_nonneg _ _ Hn HTR)) as H1.
  pose proof (zlen_zrange 0 _ (ceil_div_nonneg _ _ Hc HTC)) as H2.
  unfold zlen in H1, H2. lia.
Qed.

Lemma sum_nnz_app a b : sum_nnz (a ++ b) = sum_nnz a + sum_nnz b.
Proof. unfold sum_nnz. rewrite map_app. apply zsum_app. Qed.

Lemma sum_nnz_grid_row (X : CSR) (cfg : TilingConfig) rb cols :
  sum_nnz (map (grid_tile X cfg rb) cols) = 0.
Proof.
  unfold sum_nnz. induction cols as [|cb u IH]; [reflexivity |].
  simpl. rewrite IH. reflexivity.
Qed.

Lemma sum_nnz_grid (X : CSR) (cfg : TilingConfig) : sum_nnz (grid X cfg) = 0.
Proof.
  unfold grid.
  induction (zrange 0 (ceil_div (nrows X) (tile_rows cfg))) as [|rb t IH];
    [reflexivity |].
  simpl. now rewrite sum_nnz_app, IH, sum_nnz_grid_row.
Qed.

Section MakeTiles.
Variables (X : CSR) (cfg : TilingConfig).
Hypothesis Hwf : wf_csr X.
Hypothesis HTR : 0 < tile_rows cfg.
Hypothesis HTC : 0 < tile_cols cfg.

(** The two initialisation loops push the grid. *)
Lemma make_2d_tiles_init :
  for_range 0 (ceil_div (nrows X) (tile_rows cfg)) (fun rb tiles =>
    for_range 0 (ceil_div (ncols X) (tile_cols cfg)) (fun cb tiles =>
      Ok (tiles ++ [mk_tile
                      (rb * tile_rows cfg)
                      (Z.min (rb * tile_rows cfg + tile_rows cfg) (nrows X))
                      (cb * tile_cols cfg)
                      (Z.min (cb * tile_cols cfg + tile_cols cfg) (ncols X))]))
      tiles) []
  = Ok (grid X cfg).
Proof.
  pose proof (ceil_div_nonneg _ _ (wf_nrows X Hwf) HTR) as Hnr.
  pose proof (ceil_div_nonneg _ _ (wf_ncols X Hwf) HTC) as Hnc.
  rewrite (for_range_append
             (fun rb => map (grid_tile X cfg rb)
                            (zrange 0 (ceil_div (ncols X) (tile_cols cfg)))));
    [| exact Hnr |].
  - simpl. unfold grid. now rewrite Z.sub_0_r.
  - intros rb l Hrb.
    rewrite (for_range_append (fun cb => [grid_tile X cfg rb cb]));
      [| exact Hnc | reflexivity].
    now rewrite flat_map_single, Z.sub_0_r.
Qed.

(** The scan counts every stored nonzero once and moves no bound. *)
Lemma make_2d_tiles_count (tiles0 : list Tile) :
  map bounds tiles0 = map bounds (grid X cfg) ->
  returns
    (for_range 0 (nrows X) (fun i tiles =>
       row_start_idx <- vget (indptr X) i ;;
       row_end_idx <- vget (indptr X) (i + 1) ;;
       for_range row_start_idx row_end_idx (fun idx tiles =>
         j <- vget (indices X) idx ;;
         let rb := Z.quot i (tile_rows cfg) in
         let cb := Z.quot j (tile_cols cfg) in
         if (rb >=? 0) && (rb <? ceil_div (nrows X) (tile_rows cfg))
            && (cb >=? 0) && (cb <? ceil_div (ncols X) (tile_cols cfg))
         then
           let tile_idx := rb * ceil_div (ncols X) (tile_cols cfg) + cb in
           t <- vget tiles tile_idx ;;
           vset tiles tile_idx (incr_nnz t)
         else Ok tiles) tiles) tiles0)
    (fun tiles =>
       map bounds tiles = map bounds (grid X cfg) /\
       sum_nnz tiles = sum_nnz tiles0 + nnz X).
Proof.
  intros Hb0.
  pose proof (wf_nrows X Hwf) as Hn. pose proof (wf_ncols X Hwf) as Hc.
  assert (Hlen : forall tiles, map bounds tiles = map bounds (grid X cfg) ->
            zlen tiles = ceil_div (nrows X) (tile_rows cfg)
                         * ceil_div (ncols X) (tile_cols cfg)).
  { intros tiles E. rewrite <- zlen_grid by assumption.
    rewrite <- (zlen_map bounds tiles), E. apply zlen_map. }
  eapply returns_weaken.
  - apply (for_range_inv (fun i tiles =>
      map bounds tiles = map bounds (grid X cfg) /\
      sum_nnz tiles = sum_nnz tiles0 + zth 0 (indptr X) i)); [exact Hn | |].
    + split; [exact Hb0 |]. rewrite (wf_indptr_first X Hwf). lia.
    + intros i tiles Hi (Hb & Hsum).
      pose proof (wf_indptr_len X Hwf) as Hxl.
      pose proof (wf_indptr_mono X Hwf i Hi) as Hxm.
      pose proof (wf_ptr_bounds X Hwf i ltac:(lia)) as Hxb1.
      pose proof (wf_ptr_bounds X Hwf (i + 1) ltac:(lia)) as Hxb2.
      rewrite (vget_ok 0) by lia. cbn [bind].
      rewrite (vget_ok 0) by lia. cbn [bind].
      apply (for_range_inv (fun idx tiles =>
        map bounds tiles = map bounds (grid X cfg) /\
        sum_nnz tiles = sum_nnz tiles0 + idx)); [lia | auto |].
      intros idx tiles1 Hidx (Hb1 & Hsum1).
      pose proof (wf_col_range X Hwf idx ltac:(lia)) as Hcol.
      rewrite (vget_ok 0) by (rewrite (wf_indices_len X Hwf); lia).
      cbn [bind]. cbv zeta.
      rewrite !Z.quot_div_nonneg by lia.
      pose proof (div_lt_ceil_div i (nrows X) (tile_rows cfg) Hi HTR) as Hrb.
      pose proof (div_lt_ceil_div _ (ncols X) (tile_cols cfg) Hcol HTC)
        as Hcb.
      set (rb := i / tile_rows cfg) in *.
      set (cb := zth 0 (indices X) idx / tile_cols cfg) in *.
      set (nct := ceil_div (ncols X) (tile_cols cfg)) in *.
      set (nrt := ceil_div (nrows X) (tile_rows cfg)) in *.
      assert (Hcond : (rb >=? 0) && (rb <? nrt) && (cb >=? 0) && (cb <? nct)
                      = true).
      { rewrite !andb_true_iff. lia. }
      rewrite Hcond.
      pose proof (Hlen tiles1 Hb1) as Hl1. fold nrt nct in Hl1.
      assert (Hk : 0 <= rb * nct + cb < zlen tiles1) by nia.
      rewrite (vget_ok (mk_tile 0 0 0 0)) by exact Hk. cbn [bind].
      rewrite vset_ok by exact Hk. apply returns_ok.
      unfold zupd, zth. split.
      * rewrite map_bounds_upd. exact Hb1.
      * rewrite sum_nnz_upd by (unfold zlen in Hk; lia). lia.
  - cbv beta. intros tiles (Hb & Hsum).
    rewrite (wf_indptr_last X Hwf) in Hsum. auto.
Qed.

(** [make_2d_tiles] returns the grid with its counts filled in, and the
    counts add up to the number of stored nonzeros. *)
Lemma make_2d_tiles_returns :
  returns (make_2d_tiles X cfg) (fun tiles =>
    map bounds tiles = map bounds (grid X cfg) /\ sum_nnz tiles = nnz X).
Proof.
  pose proof (ceil_div_nonneg _ _ (wf_nrows X Hwf) HTR) as Hnr.
  pose proof (ceil_div_nonneg _ _ (wf_ncols X Hwf) HTC) as Hnc.
  unfold make_2d_tiles. cbv zeta.
  replace ((tile_rows cfg =? 0) || (tile_cols cfg =? 0)) with false
    by (symmetry; apply orb_false_intro; lia).
  replace (ceil_div (nrows X) (tile_rows cfg)
           * ceil_div (ncols X) (tile_cols cfg) <? 0) with false
    by (symmetry; apply Z.ltb_ge; nia).
  rewrite make_2d_tiles_init. cbn [bind].
  eapply returns_weaken; [apply make_2d_tiles_count; reflexivity |].
  cbv beta. intros tiles (Hb & Hsum). rewrite sum_nnz_grid in Hsum.
  split; [exact Hb | lia].
Qed.

End MakeTiles.

(** C2: the counts of the tiles add up to [nnz], and every stored nonzero
    lies inside the bounds of exactly one tile. *)
Theorem make_2d_tiles_partition (X : CSR) (cfg : TilingConfig) :
  wf_csr X -> 0 < tile_rows cfg -> 0 < tile_cols cfg ->
  returns (make_2d_tiles X cfg) (fun tiles =>
    sum_nnz tiles = nnz X /\
    forall r e, 0 <= r < nrows X -> In e (row_entries X r) ->
      length (filter (tile_contains r (fst e)) tiles) = 1%nat).
Proof.
  intros Hwf HTR HTC.
  eapply returns_weaken; [apply make_2d_tiles_returns; assumption |].
  cbv beta. intros tiles (Hb & Hsum). split; [exact Hsum |].
  intros r e Hr He.
  rewrite count_by_bounds, Hb, <- count_by_bounds.
  apply grid_contains_once; auto.
  pose proof (wf_row_cols X Hwf r Hr) as Hcols.
  rewrite Forall_forall in Hcols. now apply Hcols.
Qed.

Lemma make_2d_tiles_partition_witness :
  returns (make_2d_tiles X_example cfg_2x2) (fun tiles =>
    sum_nnz tiles = nnz X_example /\
    forall r e, 0 <= r < nrows X_example -> In e (row_entries X_example r) ->
      length (filter (tile_contains r (fst e)) tiles) = 1%nat).
Proof.
  apply (make_2d_tiles_partition X_example cfg_2x2).
  - apply check_csr_sound. reflexivity.
  - reflexivity.
  - reflexivity.
Defined.

(** * The dense kernels of [tile_spmm.cpp] *)

Lemma permute_dense_rows_returns (Xd m : list Z) (M K : Z) :
  is_perm M m -> 0 <= K -> zlen Xd = M * K ->
  returns (permute_dense_rows Xd M K m) (fun Xp =>
    zlen Xp = M * K /\
    forall i k, 0 <= i < M -> 0 <= k < K ->
      zth 0 Xp (i * K + k) = zth 0 Xd (zth 0 m i * K + k)).
Proof.
  intros Hpm HK HX. pose proof (is_perm_len _ _ Hpm) as Hml.
  assert (HM : 0 <= M) by (destruct Hpm; lia).
  unfold permute_dense_rows. rewrite valloc_ok by nia. cbn [bind].
  eapply returns_weaken.
  - apply (rows_update_returns _ (fun i => i)
             (fun i k _ => zth 0 Xd (zth 0 m i * K + k)) M K (M * K));
      try lia.
    + rewrite zlen_repeat; nia.
    + intros i Hi. nia.
    + intros i a Hi Ha.
      pose proof (is_perm_range _ _ i Hpm Hi) as Hr.
      rewrite (vget_ok 0) by lia. cbn [bind].
      apply (row_update_returns _ (fun k _ => zth 0 Xd (zth 0 m i * K + k))
               (i * K) K (M * K) a); [lia | nia | exact Ha | nia |].
      intros k a' Hk Ha'.
      rewrite (vget_ok 0) by nia. cbn [bind]. reflexivity.
  - cbv beta. intros Xp (HXp & Hrows & _). auto.
Qed.

Lemma permute_dense_cols_returns (Xd m : list Z) (M K : Z) :
  is_perm K m -> 0 <= M -> zlen Xd = M * K ->
  returns (permute_dense_cols Xd M K m) (fun Xp =>
    zlen Xp = M * K /\
    forall i k, 0 <= i < M -> 0 <= k < K ->
      zth 0 Xp (i * K + k) = zth 0 Xd (i * K + zth 0 m k)).
Proof.
  intros Hpm HM HX. pose proof (is_perm_len _ _ Hpm) as Hml.
  assert (HK : 0 <= K) by (destruct Hpm; lia).
  unfold permute_dense_cols. rewrite valloc_ok by nia. cbn [bind].
  eapply returns_weaken.
  - apply (rows_update_returns _ (fun i => i)
             (fun i k _ => zth 0 Xd (i * K + zth 0 m k)) M K (M * K));
      try lia.
    + rewrite zlen_repeat; nia.
    + intros i Hi. nia.
    + intros i a Hi Ha.
      apply (row_update_returns _ (fun k _ => zth 0 Xd (i * K + zth 0 m k))
               (i * K) K (M * K) a); [lia | nia | exact Ha | nia |].
      intros k a' Hk Ha'.
      pose proof (is_perm_range _ _ k Hpm Hk) as Hr.
      rewrite (vget_ok 0) by lia. cbn [bind].
      rewrite (vget_ok 0) by nia. cbn [bind]. reflexivity.
  - cbv beta. intros Xp (HXp & Hrows & _). auto.
Qed.

Lemma permute_weight_rows_returns (W m : list Z) (K N : Z) :
  is_perm K m -> 0 <= N -> zlen W = K * N ->
  returns (permute_weight_rows W K N m) (fun Wp =>
    zlen Wp = K * N /\
    forall k j, 0 <= k < K -> 0 <= j < N ->
      zth 0 Wp (k * N + j) = zth 0 W (zth 0 m k * N + j)).
Proof.
  intros Hpm HN HW. pose proof (is_perm_len _ _ Hpm) as Hml.
  assert (HK : 0 <= K) by (destruct Hpm; lia).
  unfold permute_weight_rows.
  rewrite Hml, Z.eqb_refl. cbn [negb]. rewrite HW, Z.eqb_refl. cbn [negb].
  rewrite valloc_ok by nia. cbn [bind].
  eapply returns_weaken.
  - apply (rows_update_returns _ (fun i => i)
             (fun k j _ => zth 0 W (zth 0 m k * N + j)) K N (K * N));
      try lia.
    + rewrite zlen_repeat; nia.
    + intros i Hi. nia.
    + intros i a Hi Ha.
      pose proof (is_perm_range _ _ i Hpm Hi) as Hr.
      rewrite (vget_ok 0) by lia. cbn [bind].
      rewrite range_check_false by lia.
      apply (row_update_returns _ (fun j _ => zth 0 W (zth 0 m i * N + j))
               (i * N) N (K * N) a); [lia | nia | exact Ha | nia |].
      intros j a' Hj Ha'.
      rewrite (vget_ok 0) by nia. cbn [bind]. reflexivity.
  - cbv beta. intros Wp (HWp & Hrows & _). auto.
Qed.

Lemma dense_dot_loop (Xd W : list Z) (M K N i j : Z) :
  0 <= K -> zlen Xd = M * K -> zlen W = K * N ->
  0 <= i < M -> 0 <= j < N ->
  for_range 0 K (fun k sum =>
    x <- vget Xd (i * K + k) ;;
    w <- vget W (k * N + j) ;;
    Ok (sum + x * w)) 0
  = Ok (dense_dot Xd W K N i j).
Proof.
  intros HK HX HW Hi Hj. apply returns_eq. unfold dense_dot.
  eapply returns_weaken.
  - apply (for_range_inv (fun k sum =>
      sum = zsum (map (fun k => zth 0 Xd (i * K + k) * zth 0 W (k * N + j))
                      (zrange 0 k)))); [exact HK | reflexivity |].
    intros k sum Hk ->.
    rewrite (vget_ok 0) by nia. cbn [bind].
    rewrite (vget_ok 0) by nia. cbn [bind].
    apply returns_ok. rewrite zrange_snoc by lia.
    rewrite map_app, zsum_app. simpl. lia.
  - cbv beta. auto.
Qed.

Lemma dense_spmm_cpu_tile_returns (Xd W : list Z) (M K N : Z) :
  0 <= M -> 0 <= K -> 0 <= N -> zlen Xd = M * K -> zlen W = K * N ->
  returns (dense_spmm_cpu_tile Xd W M K N) (fun Y =>
    zlen Y = M * N /\
    forall i j, 0 <= i < M -> 0 <= j < N ->
      zth 0 Y (i * N + j) = dense_dot Xd W K N i j).
Proof.
  intros HM HK HN HX HW.
  unfold dense_spmm_cpu_tile. rewrite valloc_ok by nia. cbn [bind].
  eapply returns_weaken.
  - apply (rows_update_returns _ (fun i => i)
             (fun i j _ => dense_dot Xd W K N i j) M N (M * N)); try lia.
    + rewrite zlen_repeat; nia.
    + intros i Hi. nia.
    + intros i a Hi Ha.
      apply (row_update_returns _ (fun j _ => dense_dot Xd W K N i j)
               (i * N) N (M * N) a); [lia | nia | exact Ha | nia |].
      intros j a' Hj Ha'.
      rewrite (dense_dot_loop Xd W M K N i j) by assumption.
      cbn [bind]. reflexivity.
  - cbv beta. intros Y (HY & Hrows & _). auto.
Qed.

(** ** Materialising a tile *)

Lemma cell_from_snoc y es e c :
  cell_from y (es ++ [e]) c
  = if fst e =? c then snd e else cell_from y es c.
Proof. unfold cell_from. now rewrite fold_left_app. Qed.

Lemma cell_from_notin y es c :
  ~ In c (map fst es) -> cell_from y es c = y.
Proof.
  revert y. induction es as [|e es IH]; intros y Hn; [reflexivity |].
  simpl in *. unfold cell_from in *. simpl.
  destruct (fst e =? c) eqn:E; [exfalso; apply Hn; left; lia |].
  apply IH. tauto.
Qed.

Lemma cell_from_cons y e es c :
  cell_from y (e :: es) c
  = cell_from (if fst e =? c then snd e else y) es c.
Proof. reflexivity. Qed.

Lemma zsum_update_one (f g : Z -> Z) (c d : Z) l :
  NoDup l -> In c l ->
  (forall k, In k l -> k <> c -> g k = f k) -> g c = f c + d ->
  zsum (map g l) = zsum (map f l) + d.
Proof.
  induction 1 as [|x t Hx Hnd IH]; intros Hc Hother Hat; [contradiction |].
  simpl. destruct Hc as [-> | Hc].
  - rewrite Hat. rewrite (map_ext_in g f t); [lia |].
    intros k Hk. apply Hother; [now right |]. intros ->. contradiction.
  - rewrite (Hother x (or_introl eq_refl)) by (intros ->; contradiction).
    rewrite IH; auto; [lia |]. intros k Hk. apply Hother. now right.
Qed.

(** A dense row built from entries with distinct columns multiplies like the
    sparse row. *)
Lemma cell_dot (es : list (Z * Z)) (w : Z -> Z) (K : Z) :
  0 <= K -> NoDup (map fst es) -> Forall (fun e => 0 <= fst e < K) es ->
  zsum (map (fun k => cell_from 0 es k * w k) (zrange 0 K))
  = zsum (map (fun e => snd e * w (fst e)) es).
Proof.
  intros HK. induction es as [|e es IH]; intros Hnd Hr.
  - simpl. induction (zrange 0 K); simpl; lia.
  - inversion Hnd as [|? ? Hnotin Hnd']; subst.
    inversion Hr as [|? ? He Hr']; subst.
    change (zsum (map (fun e0 => snd e0 * w (fst e0)) (e :: es)))
      with (snd e * w (fst e) + zsum (map (fun e0 => snd e0 * w (fst e0)) es)).
    rewrite <- IH by assumption.
    rewrite (zsum_update_one
               (fun k => cell_from 0 es k * w k)
               (fun k => cell_from 0 (e :: es) k * w k)
               (fst e) (snd e * w (fst e)) (zrange 0 K)); [lia | | | |].
    + apply NoDup_zrange.
    + apply in_zrange; lia.
    + intros k _ Hne. rewrite cell_from_cons.
      destruct (fst e =? k) eqn:E; [lia | reflexivity].
    + rewrite cell_from_cons, Z.eqb_refl.
      rewrite !cell_from_notin by assumption. lia.
Qed.

Lemma materialize_csr_to_dense_returns (X : CSR) :
  wf_csr X ->
  returns (materialize_csr_to_dense X) (fun Xd =>
    zlen Xd = nrows X * ncols X /\
    forall i c, 0 <= i < nrows X -> 0 <= c < ncols X ->
      zth 0 Xd (i * ncols X + c) = cell_from 0 (row_entries X i) c).
Proof.
  intros Hwf.
  pose proof (wf_nrows X Hwf) as HM. pose proof (wf_ncols X Hwf) as HK.
  unfold materialize_csr_to_dense. cbv zeta.
  rewrite valloc_ok by nia. cbn [bind].
  eapply returns_weaken.
  - apply (rows_update_returns _ (fun i => i)
             (fun i c y => cell_from y (row_entries X i) c)
             (nrows X) (ncols X) (nrows X * ncols X)); try lia.
    + rewrite zlen_repeat; nia.
    + intros i Hi. nia.
    + intros i a Hi Ha.
      pose proof (wf_indptr_len X Hwf) as Hxl.
      pose proof (wf_indptr_mono X Hwf i Hi) as Hxm.
      pose proof (wf_ptr_bounds X Hwf i ltac:(lia)) as Hxb1.
      pose proof (wf_ptr_bounds X Hwf (i + 1) ltac:(lia)) as Hxb2.
      rewrite (vget_ok 0) by lia. cbn [bind].
      rewrite (vget_ok 0) by lia. cbn [bind].
      unfold row_entries, rowlen.
      set (rs := zth 0 (indptr X) i) in *.
      set (re := zth 0 (indptr X) (i + 1)) in *.
      apply (for_range_inv (fun idx a' =>
        zlen a' = nrows X * ncols X /\
        (forall c, 0 <= c < ncols X ->
           zth 0 a' (i * ncols X + c)
           = cell_from (zth 0 a (i * ncols X + c))
               (entries_at (indices X) (data X) rs (idx - rs)) c) /\
        (forall p, 0 <= p -> p < i * ncols X \/ i * ncols X + ncols X <= p ->
           zth 0 a' p = zth 0 a p))); [lia | |].
      * split; [exact Ha |]. split; [| intros; reflexivity].
        intros c Hc. now replace (rs - rs) with 0 by lia.
      * intros idx a' Hidx (Ha' & Hcells & Hframe).
        pose proof (wf_col_range X Hwf idx ltac:(lia)) as Hcol.
        rewrite (vget_ok 0) by (rewrite (wf_indices_len X Hwf); lia).
        cbn [bind].
        rewrite (vget_ok 0) by (rewrite (wf_data_len X Hwf); lia).
        cbn [bind].
        rewrite vset_ok by nia. apply returns_ok.
        rewrite zlen_zupd. split; [exact Ha' |]. split.
        { intros c Hc.
          replace (idx + 1 - rs) with (idx - rs + 1) by lia.
          rewrite entries_at_snoc by lia. rewrite cell_from_snoc.
          replace (rs + (idx - rs)) with idx by lia. cbn [fst snd].
          destruct (zth 0 (indices X) idx =? c) eqn:E.
          - apply Z.eqb_eq in E. rewrite E.
            rewrite zth_zupd_eq by nia. reflexivity.
          - rewrite zth_zupd_neq by nia. now apply Hcells. }
        { intros p Hp Hout. rewrite zth_zupd_neq by nia. now apply Hframe. }
  - cbv beta. intros Xd (HXd & Hrows & _). split; [exact HXd |].
    intros i c Hi Hc. rewrite Hrows by lia. now rewrite zth_repeat.
Qed.

Lemma compute_nnz_per_row_returns (X : CSR) :
  wf_csr X ->
  returns (compute_nnz_per_row X) (fun v =>
    zlen v = nrows X /\
    forall i, 0 <= i < nrows X -> zth 0 v i = rowlen (indptr X) i).
Proof.
  intros Hwf. pose proof (wf_nrows X Hwf) as HM.
  pose proof (wf_indptr_len X Hwf) as Hxl.
  unfold compute_nnz_per_row. rewrite valloc_ok by lia. cbn [bind].
  eapply returns_weaken.
  - apply (row_update_returns _ (fun i _ => rowlen (indptr X) i)
             0 (nrows X) (nrows X)); try lia.
    + rewrite zlen_repeat; lia.
    + intros i a Hi Ha.
      rewrite (vget_ok 0) by lia. cbn [bind].
      rewrite (vget_ok 0) by lia. cbn [bind]. reflexivity.
  - cbv beta. intros v (Hv & Hcells & _). split; [exact Hv |].
    intros i Hi. apply (Hcells i Hi).
Qed.

(** The column occupancy scan of [dense_perm_spmm_tile]; only the length of
    its result matters for what follows. *)
Lemma nnz_per_col_scan_returns (Xp : list Z) (M K : Z) (cnt0 : list Z) :
  0 <= M -> 0 <= K -> zlen Xp = M * K -> zlen cnt0 = K ->
  returns
    (for_range 0 M (fun i cnt =>
       for_range 0 K (fun k cnt =>
         x <- vget Xp (i * K + k) ;;
         if negb (x =? 0)
         then c <- vget cnt k ;; vset cnt k (c + 1)
         else Ok cnt) cnt) cnt0)
    (fun cnt => zlen cnt = K).
Proof.
  intros HM HK HX Hc.
  apply (for_range_inv (fun _ cnt => zlen cnt = K)); [exact HM | exact Hc |].
  intros i cnt Hi Hl.
  apply (for_range_inv (fun _ cnt => zlen cnt = K)); [exact HK | exact Hl |].
  intros k cnt1 Hk Hl1.
  rewrite (vget_ok 0) by nia. cbn [bind].
  destruct (negb (zth 0 Xp (i * K + k) =? 0)).
  - rewrite (vget_ok 0) by lia. cbn [bind].
    rewrite vset_ok by lia. apply returns_ok. now rewrite zlen_zupd.
  - now apply returns_ok.
Qed.

Section DenseTile.
Context {S : StdSort}.

Lemma create_row_new2old_perm (counts : list Z) (descending : bool) :
  is_perm (zlen counts) (create_row_new2old counts descending).
Proof.
  split; [apply zlen_nonneg |].
  apply (create_row_new2old_permutation S counts descending).
Qed.

Lemma create_col_new2old_perm (counts : list Z) (descending : bool) :
  is_perm (zlen counts) (create_col_new2old counts descending).
Proof. apply create_row_new2old_perm. Qed.

(** The dense pipeline returns the product of the tile with the slice. *)
Lemma dense_perm_spmm_tile_spec (X : CSR) (W : list Z) (N : Z) :
  wf_csr X -> 0 <= N -> zlen W = ncols X * N ->
  dense_perm_spmm_tile X W (ncols X) N = Ok (spmm_spec X W N).
Proof.
  intros Hwf HN HW. apply returns_eq.
  pose proof (wf_nrows X Hwf) as HM. pose proof (wf_ncols X Hwf) as HK.
  unfold dense_perm_spmm_tile. cbv zeta.
  apply returns_bind. eapply returns_weaken.
  { now apply materialize_csr_to_dense_returns. }
  cbv beta. intros Xd (HXd & Hcells).
  apply returns_bind. eapply returns_weaken.
  { now apply compute_nnz_per_row_returns. }
  cbv beta. intros counts (Hcl & _).
  pose proof (create_row_new2old_perm counts true) as Hmr.
  rewrite Hcl in Hmr.
  set (mr := create_row_new2old counts true) in *.
  apply returns_bind. eapply returns_weaken.
  { apply permute_dense_rows_returns; eauto. }
  cbv beta. intros Xrp (HXrp & Hrp).
  rewrite valloc_ok by lia. cbn [bind].
  apply returns_bind. eapply returns_weaken.
  { apply (nnz_per_col_scan_returns Xrp (nrows X) (ncols X)); auto.
    rewrite zlen_repeat; lia. }
  cbv beta. intros cnt Hcnt.
  pose proof (create_col_new2old_perm cnt true) as Hmc.
  rewrite Hcnt in Hmc.
  set (mc := create_col_new2old cnt true) in *.
  rewrite (is_perm_len _ _ Hmc), Z.eqb_refl. cbn [negb].
  apply returns_bind. eapply returns_weaken.
  { apply permute_dense_cols_returns; eauto. }
  cbv beta. intros Xrcp (HXrcp & Hrcp).
  apply returns_bind. eapply returns_weaken.
  { apply permute_weight_rows_returns; eauto. }
  cbv beta. intros Wp (HWp & Hwp).
  rewrite valloc_ok by nia. cbn [bind].
  apply returns_bind. eapply returns_weaken.
  { apply (dense_spmm_cpu_tile_returns Xrcp Wp (nrows X) (ncols X) N); auto. }
  cbv beta. intros Yp (HYp & Hyp).
  rewrite (unpermute_rows_spec (nrows X) N mr Yp
             (fun i j => dot_entries (row_entries X i) W N j)); auto.
  { now apply returns_ok. }
  intros i j Hi Hj. rewrite Hyp by lia. unfold dense_dot.
  pose proof (is_perm_range _ _ i Hmr Hi) as Hri.
  rewrite (map_ext_in _
    (fun k => (fun k' => zth 0 Xrp (i * ncols X + k') * zth 0 W (k' * N + j))
                (zth 0 mc k))).
  2:{ intros k Hk. apply in_zrange in Hk; [| lia]. cbv beta.
      rewrite Hrcp, Hwp by lia. reflexivity. }
  rewrite (zsum_map_perm (ncols X) mc
             (fun k' => zth 0 Xrp (i * ncols X + k') * zth 0 W (k' * N + j))
             Hmc).
  rewrite (map_ext_in _
    (fun k => cell_from 0 (row_entries X (zth 0 mr i)) k
              * zth 0 W (k * N + j))).
  2:{ intros k Hk. apply in_zrange in Hk; [| lia].
      rewrite Hrp, Hcells by lia. reflexivity. }
  rewrite (cell_dot (row_entries X (zth 0 mr i))
             (fun k => zth 0 W (k * N + j)) (ncols X) HK).
  - reflexivity.
  - apply StronglySorted_lt_NoDup. now apply (wf_row_sorted X Hwf).
  - now apply wf_row_cols.
Qed.

End DenseTile.

(** C3, amended: on a well-formed tile that stores no position twice and a
    slice of matching size, the dense pipeline with its tile-local
    permutations returns what the sparse pipeline returns: the product of
    the tile with the slice. *)
Theorem dense_tile_equals_sparse_tile (S : StdSort) (X_tile : CSR)
  (W_tile : list Z) (W_tile_rows W_cols : Z) :
  wf_csr X_tile -> W_tile_rows = ncols X_tile -> 0 <= W_cols ->
  zlen W_tile = W_tile_rows * W_cols ->
  dense_perm_spmm_tile X_tile W_tile W_tile_rows W_cols
  = sparse_spmm_tile X_tile W_tile W_tile_rows W_cols
  /\ sparse_spmm_tile X_tile W_tile W_tile_rows W_cols
     = Ok (spmm_spec X_tile W_tile W_cols).
Proof.
  intros Hwf -> HN HW. unfold sparse_spmm_tile.
  rewrite dense_perm_spmm_tile_spec by assumption.
  rewrite spmm_baseline_spec by assumption. split; reflexivity.
Qed.

Lemma dense_tile_equals_sparse_tile_witness :
  @dense_perm_spmm_tile stable_std_sort X_example W_example 4 2
  = sparse_spmm_tile X_example W_example 4 2
  /\ sparse_spmm_tile X_example W_example 4 2
     = Ok (spmm_spec X_example W_example 2).
Proof.
  apply (dense_tile_equals_sparse_tile stable_std_sort X_example W_example
           4 2).
  - apply check_csr_sound. reflexivity.
  - reflexivity.
  - lia.
  - reflexivity.
Defined.

(** ** A tile that stores a position twice *)

Section RepeatedColumn.
Context {S : StdSort}.

Lemma std_sort_one {A} (lt : A -> A -> bool) (x : A) :
  strict_weak_order lt -> std_sort lt [x] = [x].
Proof.
  intros H. apply Permutation_length_1_inv, (std_sort_perm _ lt [x] H).
Qed.

Lemma create_row_new2old_one (c : Z) (descending : bool) :
  create_row_new2old [c] descending = [0].
Proof.
  unfold create_row_new2old. cbv zeta.
  change (zrange 0 (zlen [c])) with [0].
  destruct descending; apply std_sort_one;
    [apply (swo_key_gt (zth 0 [c])) | apply (swo_key_lt (zth 0 [c]))].
Qed.

Lemma create_col_new2old_one (c : Z) (descending : bool) :
  create_col_new2old [c] descending = [0].
Proof. apply create_row_new2old_one. Qed.

(** The dense pipeline on the 1x1 matrix that stores 1 and 2 at (0,0): the
    dense buffer receives 1, then 2 in its place. *)
Lemma dense_perm_spmm_tile_duplicate :
  dense_perm_spmm_tile X_duplicate [1] 1 1 = Ok [2].
Proof.
  unfold dense_perm_spmm_tile. cbv zeta.
  change (materialize_csr_to_dense X_duplicate) with (@Ok (list Z) [2]).
  cbn [bind].
  change (compute_nnz_per_row X_duplicate) with (@Ok (list Z) [2]).
  cbn [bind].
  rewrite create_row_new2old_one.
  change (nrows X_duplicate) with 1. change (ncols X_duplicate) with 1.
  change (permute_dense_rows [2] 1 1 [0]) with (@Ok (list Z) [2]).
  cbn [bind].
  change (valloc 1 0) with (@Ok (list Z) [0]). cbn [bind].
  match goal with
  | |- bind ?e _ = _ => change e with (@Ok (list Z) [1])
  end.
  cbn [bind]. rewrite create_col_new2old_one.
  reflexivity.
Qed.

End RepeatedColumn.

(** C3, as stated, fails.  The 1x1 matrix that stores 1 and 2 at (0,0) has
    its column indices in ascending order and is its own tile.  The dense
    pipeline scatters the stored values into the dense buffer by assignment,
    so the 2 replaces the 1 and the product with [1] is [2]; the sparse
    pipeline adds both and returns [3].  The sort plays no part. *)
Lemma dense_tile_differs_on_repeated_column :
  wf_csr_as_specified X_duplicate /\
  extract_tile_csr X_duplicate (mk_tile 0 1 0 1) = Ok X_duplicate /\
  (forall S : StdSort,
      @dense_perm_spmm_tile S X_duplicate [1] 1 1 = Ok [2]) /\
  sparse_spmm_tile X_duplicate [1] 1 1 = Ok [3].
Proof.
  split; [apply check_csr_as_specified_sound; reflexivity |].
  split; [reflexivity |].
  split; [intros S; apply dense_perm_spmm_tile_duplicate | reflexivity].
Qed.

(** * The driver *)

Lemma extract_tile_W_returns (X : CSR) (W : list Z) (N : Z) (tile : Tile) :
  tile_in_bounds X tile -> 0 <= N -> zlen W = ncols X * N ->
  returns (extract_tile_W W (ncols X) N tile) (fun Wt =>
    zlen Wt = (col_end tile - col_start tile) * N /\
    forall i j, 0 <= i < col_end tile - col_start tile -> 0 <= j < N ->
      zth 0 Wt (i * N + j) = zth 0 W ((col_start tile + i) * N + j)).
Proof.
  intros (Hr1 & Hr2 & Hc1 & Hc2) HN HW.
  unfold extract_tile_W. cbv zeta.
  rewrite valloc_ok by nia. cbn [bind].
  eapply returns_weaken.
  - apply (rows_update_returns _ (fun i => i)
             (fun i j _ => zth 0 W ((col_start tile + i) * N + j))
             (col_end tile - col_start tile) N
             ((col_end tile - col_start tile) * N)); try lia.
    + rewrite zlen_repeat; nia.
    + intros i Hi. nia.
    + intros i a Hi Ha.
      replace ((col_start tile + i >=? 0) && (col_start tile + i <? ncols X))
        with true by (symmetry; apply andb_true_intro; split; lia).
      apply (row_update_returns _
               (fun j _ => zth 0 W ((col_start tile + i) * N + j))
               (i * N) N ((col_end tile - col_start tile) * N) a);
        [lia | nia | exact Ha | nia |].
      intros j a' Hj Ha'.
      rewrite (vget_ok 0) by nia. cbn [bind]. reflexivity.
  - cbv beta. intros Wt (HWt & Hrows & _). auto.
Qed.

(** The product of an extracted tile row with the slice is the part of the
    full row product that falls in the tile's columns. *)
Lemma dot_tile_row (W Wt : list Z) (N j : Z) (t : Tile) (es : list (Z * Z)) :
  0 <= j < N ->
  (forall i, 0 <= i < col_end t - col_start t ->
     zth 0 Wt (i * N + j) = zth 0 W ((col_start t + i) * N + j)) ->
  dot_entries (tile_row t es) Wt N j
  = dot_entries (filter (in_cols t) es) W N j.
Proof.
  intros Hj HWt. unfold dot_entries, tile_row. rewrite map_map. f_equal.
  apply map_ext_in. intros e He. cbn [fst snd].
  apply filter_In in He. destruct He as [_ Hc]. unfold in_cols in Hc.
  apply andb_prop in Hc. rewrite HWt by lia. do 3 f_equal. lia.
Qed.

Section Driver.
Context {S : StdSort}.
Variables (X : CSR) (W : list Z) (N : Z).
Hypothesis Hwf : wf_csr X.
Hypothesis HN : 0 <= N.
Hypothesis HW : zlen W = ncols X * N.

(** The driver adds up the contributions of the tiles it is given. *)
Lemma process_tiles_sum (tiles : list Tile) :
  Forall (tile_in_bounds X) tiles ->
  returns (process_tiles_with_predictor X W (ncols X) N tiles) (fun out =>
    zlen (Y_final out) = nrows X * N /\
    forall r j, 0 <= r < nrows X -> 0 <= j < N ->
      zth 0 (Y_final out) (r * N + j)
      = zsum (map (fun t => contrib X W N t r j) tiles)).
Proof.
  intros Hall. pose proof (wf_nrows X Hwf) as HM.
  unfold process_tiles_with_predictor. cbv zeta.
  rewrite valloc_ok by nia. cbn [bind].
  apply (for_each_inv (fun done st =>
    zlen (Y_final st) = nrows X * N /\
    forall r j, 0 <= r < nrows X -> 0 <= j < N ->
      zth 0 (Y_final st) (r * N + j)
      = zsum (map (fun t => contrib X W N t r j) done)) _ tiles []).
  - cbn [Y_final]. split; [rewrite zlen_repeat; nia |].
    intros r j _ _. now rewrite zth_repeat.
  - intros done tile st (rest & Hsplit) (HY & Hsum).
    assert (Hb : tile_in_bounds X tile).
    { rewrite Forall_forall in Hall. apply Hall. simpl in Hsplit.
      rewrite Hsplit. apply in_or_app. right. now left. }
    destruct (extract_tile_csr_returns X tile Hwf Hb)
      as (Xt & -> & Hnr & Hnc & Hwft & Hrows).
    cbn [bind].
    destruct (extract_tile_W_returns X W N tile Hb HN HW)
      as (Wt & -> & HWt & Hwt).
    cbn [bind]. rewrite <- Hnc in *.
    rewrite (dense_perm_spmm_tile_spec Xt Wt N Hwft HN HWt).
    unfold sparse_spmm_tile.
    rewrite (spmm_baseline_spec Xt Wt N Hwft HN HWt).
    pose proof Hb as (Hr1 & Hr2 & Hc1 & Hc2).
    assert (Hacc : returns
      (for_range 0 (row_end tile - row_start tile) (fun i Y =>
         for_range 0 N (fun j Y =>
           t <- vget (spmm_spec Xt Wt N) (i * N + j) ;;
           y <- vget Y ((row_start tile + i) * N + j) ;;
           vset Y ((row_start tile + i) * N + j) (y + t)) Y) (Y_final st))
      (fun Y =>
         zlen Y = nrows X * N /\
         forall r j, 0 <= r < nrows X -> 0 <= j < N ->
           zth 0 Y (r * N + j)
           = zth 0 (Y_final st) (r * N + j) + contrib X W N tile r j)).
    { eapply returns_weaken.
      - apply (rows_update_returns _ (fun i => row_start tile + i)
                 (fun i j y => y + zth 0 (spmm_spec Xt Wt N) (i * N + j))
                 (row_end tile - row_start tile) N (nrows X * N)); try lia.
        + intros i Hi. nia.
        + intros i a Hi Ha.
          apply (row_update_returns _
                   (fun j y => y + zth 0 (spmm_spec Xt Wt N) (i * N + j))
                   ((row_start tile + i) * N) N (nrows X * N) a);
            [lia | nia | exact Ha | nia |].
          intros j a' Hj Ha'.
          rewrite (vget_ok 0)
            by (rewrite zlen_spmm_spec by lia; rewrite Hnr; nia).
          cbn [bind].
          rewrite (vget_ok 0) by nia. cbn [bind]. reflexivity.
      - cbv beta. intros Y (HY' & Hrows' & Hframe).
        split; [exact HY' |]. intros r j Hr Hj. unfold contrib.
        destruct ((row_start tile <=? r) && (r <? row_end tile)) eqn:E.
        + apply andb_prop in E.
          replace r with (row_start tile + (r - row_start tile)) at 1 by lia.
          rewrite Hrows' by lia.
          replace (row_start tile + (r - row_start tile)) with r by lia.
          f_equal. rewrite zth_spmm_spec by lia.
          rewrite Hrows by lia.
          replace (row_start tile + (r - row_start tile)) with r by lia.
          apply dot_tile_row; [exact Hj |].
          intros i Hi. apply Hwt; lia.
        + rewrite Hframe; [lia | nia |].
          intros i Hi. apply row_disjoint; [lia |].
          apply andb_false_iff in E. lia. }
    destruct (Qle_bool DENSE_TILE_THRESHOLD (density tile)); cbn [bind].
    + apply returns_bind. eapply returns_weaken; [exact Hacc |].
      cbv beta. intros Y (HY' & Hcells). apply returns_ok. cbn [Y_final].
      split; [exact HY' |]. intros r j Hr Hj.
      rewrite Hcells, Hsum by assumption.
      rewrite map_app, zsum_app. simpl. lia.
    + apply returns_bind. eapply returns_weaken; [exact Hacc |].
      cbv beta. intros Y (HY' & Hcells). apply returns_ok. cbn [Y_final].
      split; [exact HY' |]. intros r j Hr Hj.
      rewrite Hcells, Hsum by assumption.
      rewrite map_app, zsum_app. simpl. lia.
Qed.

End Driver.

(** * The contributions of a grid add up to the product *)

Lemma lt_ceil_div b n t : 0 < t -> 0 <= b < ceil_div n t -> b * t < n.
Proof.
  intros Ht [Hb0 Hb]. unfold ceil_div in Hb.
  pose proof (Z.mul_succ_div_gt (- n) t Ht). nia.
Qed.

Lemma cons_eq_inv {A} (a b : A) (l l' : list A) :
  a :: l = b :: l' -> a = b /\ l = l'.
Proof. intros E. split; congruence. Qed.

Lemma same_bounds_map {A} (f : Tile -> A) (l l' : list Tile) :
  (forall t t', bounds t = bounds t' -> f t = f t') ->
  map bounds l = map bounds l' -> map f l = map f l'.
Proof.
  intros Hf. revert l'. induction l as [|t l IH]; intros [|t' l'] E;
    simpl in *; try discriminate; [reflexivity |].
  apply cons_eq_inv in E. destruct E as [E1 E2].
  f_equal; [now apply Hf | now apply IH].
Qed.

Lemma same_bounds_Forall (P : Tile -> Prop) (l l' : list Tile) :
  (forall t t', bounds t = bounds t' -> P t' -> P t) ->
  map bounds l = map bounds l' -> Forall P l' -> Forall P l.
Proof.
  intros HP. revert l'. induction l as [|t l IH]; intros [|t' l'] E Hall;
    simpl in *; try discriminate; constructor;
    apply cons_eq_inv in E; destruct E as [E1 E2]; inversion Hall; subst.
  - now apply (HP t t').
  - now apply (IH l').
Qed.

Lemma bounds_inv t t' :
  bounds t = bounds t' ->
  row_start t = row_start t' /\ row_end t = row_end t' /\
  col_start t = col_start t' /\ col_end t = col_end t'.
Proof. unfold bounds. intros E. injection E. auto. Qed.

Lemma contrib_same_bounds X W N t t' r j :
  bounds t = bounds t' -> contrib X W N t r j = contrib X W N t' r j.
Proof.
  intros E. apply bounds_inv in E. destruct E as (E1 & E2 & E3 & E4).
  unfold contrib. rewrite E1, E2.
  destruct ((row_start t' <=? r) && (r <? row_end t')); [| reflexivity].
  f_equal. apply filter_ext. intros e. unfold in_cols. now rewrite E3, E4.
Qed.

Lemma grid_in_bounds (X : CSR) (cfg : TilingConfig) :
  0 < tile_rows cfg -> 0 < tile_cols cfg ->
  Forall (tile_in_bounds X) (grid X cfg).
Proof.
  intros HTR HTC. apply Forall_forall. intros t Ht. unfold grid in Ht.
  apply in_flat_map in Ht. destruct Ht as (rb & Hrb & Ht).
  apply in_map_iff in Ht. destruct Ht as (cb & <- & Hcb).
  unfold zrange in Hrb, Hcb. apply in_zseq in Hrb, Hcb.
  assert (Hrb' : 0 <= rb < ceil_div (nrows X) (tile_rows cfg)) by lia.
  assert (Hcb' : 0 <= cb < ceil_div (ncols X) (tile_cols cfg)) by lia.
  pose proof (lt_ceil_div rb _ _ HTR Hrb').
  pose proof (lt_ceil_div cb _ _ HTC Hcb').
  unfold tile_in_bounds, grid_tile, mk_tile. simpl. nia.
Qed.

Lemma zsum_flat_map_unique {A B} (C : B -> Z) (F : A -> list B) q l :
  NoDup l -> In q l ->
  (forall x, In x l -> x <> q -> zsum (map C (F x)) = 0) ->
  zsum (map C (flat_map F l)) = zsum (map C (F q)).
Proof.
  induction 1 as [|x t Hx Hnd IH]; intros Hq Hother; [contradiction |].
  simpl. rewrite map_app, zsum_app. destruct Hq as [-> | Hq].
  - assert (E : zsum (map C (flat_map F t)) = 0).
    { clear IH. induction t as [|y t IHt]; [reflexivity |].
      simpl. rewrite map_app, zsum_app.
      rewrite (Hother y); [| right; now left |].
      - rewrite IHt; [reflexivity | | |].
        + intros Hin. apply Hx. now right.
        + now inversion Hnd.
        + intros z [-> | Hz] Hne; apply Hother; auto.
          * now left.
          * right. now right.
      - intros ->. apply Hx. now left. }
    lia.
  - rewrite (Hother x (or_introl eq_refl)) by (intros ->; contradiction).
    rewrite IH; auto. intros y Hy. apply Hother. now right.
Qed.

Lemma zsum_map_const0 {A} (l : list A) : zsum (map (fun _ => 0) l) = 0.
Proof. induction l; simpl; lia. Qed.

Lemma zsum_map_add {A} (f g : A -> Z) l :
  zsum (map (fun x => f x + g x) l) = zsum (map f l) + zsum (map g l).
Proof. induction l; simpl; lia. Qed.

(** The column blocks split a row product into disjoint parts. *)
Lemma column_blocks_split (X : CSR) (cfg : TilingConfig) (W : list Z)
  (N j rb : Z) (es : list (Z * Z)) :
  0 < tile_cols cfg ->
  Forall (fun e => 0 <= fst e < ncols X) es ->
  zsum (map (fun cb =>
               dot_entries (filter (in_cols (grid_tile X cfg rb cb)) es) W N j)
            (zrange 0 (ceil_div (ncols X) (tile_cols cfg))))
  = dot_entries es W N j.
Proof.
  intros HTC. induction 1 as [|e es He Hes IH].
  - simpl. unfold dot_entries. simpl. apply zsum_map_const0.
  - rewrite (map_ext _
      (fun cb =>
         (if in_cols (grid_tile X cfg rb cb) e
          then snd e * zth 0 W (fst e * N + j) else 0)
         + dot_entries (filter (in_cols (grid_tile X cfg rb cb)) es) W N j)).
    2:{ intros cb. simpl.
        destruct (in_cols (grid_tile X cfg rb cb) e); reflexivity. }
    rewrite zsum_map_add, IH.
    unfold dot_entries at 2. simpl. fold (dot_entries es W N j). f_equal.
    pose proof (div_lt_ceil_div (fst e) (ncols X) (tile_cols cfg) He HTC)
      as Hcb.
    rewrite (zsum_update_one (fun _ => 0) _ (fst e / tile_cols cfg)
               (snd e * zth 0 W (fst e * N + j))).
    + rewrite zsum_map_const0. lia.
    + apply NoDup_zrange.
    + apply in_zrange; lia.
    + intros cb _ Hne. unfold in_cols, grid_tile, mk_tile. simpl.
      destruct ((fst e >=? cb * tile_cols cfg)
                && (fst e <? Z.min (cb * tile_cols cfg + tile_cols cfg)
                                   (ncols X))) eqn:E; [| reflexivity].
      apply andb_prop in E. exfalso. apply Hne.
      apply (block_of_index (fst e) (tile_cols cfg) cb (ncols X)); lia.
    + unfold in_cols, grid_tile, mk_tile. simpl.
      pose proof (proj2 (block_of_index (fst e) (tile_cols cfg)
                           (fst e / tile_cols cfg) (ncols X) HTC He) eq_refl).
      replace ((fst e >=? fst e / tile_cols cfg * tile_cols cfg)
               && (fst e <? Z.min (fst e / tile_cols cfg * tile_cols cfg
                                   + tile_cols cfg) (ncols X)))
        with true by (symmetry; apply andb_true_intro; split; lia).
      lia.
Qed.

(** Over the whole grid the contributions to an entry add up to the entry of
    the product. *)
Lemma grid_contrib_sum (X : CSR) (cfg : TilingConfig) (W : list Z)
  (N r j : Z) :
  wf_csr X -> 0 < tile_rows cfg -> 0 < tile_cols cfg ->
  0 <= r < nrows X ->
  zsum (map (fun t => contrib X W N t r j) (grid X cfg))
  = dot_entries (row_entries X r) W N j.
Proof.
  intros Hwf HTR HTC Hr. unfold grid.
  pose proof (div_lt_ceil_div r (nrows X) (tile_rows cfg) Hr HTR) as Hrb.
  rewrite (zsum_flat_map_unique _ _ (r / tile_rows cfg)).
  - rewrite map_map.
    rewrite (map_ext _
      (fun cb => dot_entries
                   (filter (in_cols (grid_tile X cfg (r / tile_rows cfg) cb))
                           (row_entries X r)) W N j)).
    + apply column_blocks_split; [exact HTC | now apply wf_row_cols].
    + intros cb. unfold contrib.
      pose proof (proj2 (block_of_index r (tile_rows cfg)
                           (r / tile_rows cfg) (nrows X) HTR Hr) eq_refl).
      unfold grid_tile at 1 2. unfold mk_tile. simpl.
      replace ((r / tile_rows cfg * tile_rows cfg <=? r)
               && (r <? Z.min (r / tile_rows cfg * tile_rows cfg
                               + tile_rows cfg) (nrows X)))
        with true by (symmetry; apply andb_true_intro; split; lia).
      reflexivity.
  - apply NoDup_zrange.
  - apply in_zrange; lia.
  - intros rb _ Hne. rewrite map_map.
    rewrite (map_ext _ (fun _ => 0)); [apply zsum_map_const0 |].
    intros cb. unfold contrib, grid_tile, mk_tile. simpl.
    destruct ((rb * tile_rows cfg <=? r)
              && (r <? Z.min (rb * tile_rows cfg + tile_rows cfg) (nrows X)))
      eqn:E; [| reflexivity].
    apply andb_prop in E. exfalso. apply Hne.
    apply (block_of_index r (tile_rows cfg) rb (nrows X)); lia.
Qed.

Lemma predict_tile_density_bounds (tiles : list Tile) (threshold : Q) :
  map bounds (fst (predict_tile_density tiles threshold)) = map bounds tiles.
Proof.
  unfold predict_tile_density.
  assert (G : forall done d s,
    map bounds (fst (fold_left (fun '(done, (dense_count, sparse_count)) tile =>
      let tile := set_is_dense tile (Qle_bool threshold (density tile)) in
      if is_dense tile
      then (done ++ [tile], (dense_count + 1, sparse_count))
      else (done ++ [tile], (dense_count, sparse_count + 1)))
      tiles (done, (d, s))))
    = map bounds done ++ map bounds tiles).
  { induction tiles as [|t tiles IH]; intros done d s.
    - simpl. now rewrite app_nil_r.
    - cbn [fold_left]. cbv zeta.
      destruct (is_dense (set_is_dense t
                  (Qle_bool threshold (density t))));
        rewrite IH, map_app; simpl; now rewrite <- app_assoc. }
  apply (G [] 0 0).
Qed.

(** * Tiling equivalence *)

Lemma tile_in_bounds_same (X : CSR) t t' :
  bounds t = bounds t' -> tile_in_bounds X t' -> tile_in_bounds X t.
Proof.
  intros E. apply bounds_inv in E. destruct E as (E1 & E2 & E3 & E4).
  unfold tile_in_bounds. now rewrite E1, E2, E3, E4.
Qed.

(** On any list of tiles with the bounds of the grid, whatever their counts
    and flags, the driver returns the product. *)
Lemma process_tiles_spec (S : StdSort) (X : CSR) (W : list Z) (N : Z)
  (cfg : TilingConfig) (tiles : list Tile) :
  wf_csr X -> 0 <= N -> zlen W = ncols X * N ->
  0 < tile_rows cfg -> 0 < tile_cols cfg ->
  map bounds tiles = map bounds (grid X cfg) ->
  returns (process_tiles_with_predictor X W (ncols X) N tiles)
          (fun out => Y_final out = spmm_spec X W N).
Proof.
  intros Hwf HN HW HTR HTC Hb.
  eapply returns_weaken.
  - apply process_tiles_sum; auto.
    apply (same_bounds_Forall _ tiles (grid X cfg)); auto.
    + apply tile_in_bounds_same.
    + now apply grid_in_bounds.
  - cbv beta. intros out (HY & Hcells).
    unfold spmm_spec. apply dense_ext; auto; [apply (wf_nrows X Hwf) |].
    intros r j Hr Hj. rewrite Hcells by assumption.
    rewrite (same_bounds_map (fun t => contrib X W N t r j)
               tiles (grid X cfg)); auto.
    + now apply grid_contrib_sum.
    + intros t t'. apply contrib_same_bounds.
Qed.

(** C1, amended: on a matrix that stores no position twice, tile the matrix
    with [make_2d_tiles], classify the tiles or not, and run the driver: the
    result is the vector the baseline returns, the product of [X] and
    [W]. *)
Theorem tiling_equivalence (S : StdSort) (X : CSR) (W : list Z)
  (W_rows W_cols : Z) (cfg : TilingConfig) (threshold : Q) :
  wf_csr X -> W_rows = ncols X -> 0 <= W_cols ->
  zlen W = W_rows * W_cols ->
  0 < tile_rows cfg -> 0 < tile_cols cfg ->
  (tiles <- make_2d_tiles X cfg ;;
   out <- process_tiles_with_predictor X W W_rows W_cols tiles ;;
   Ok (Y_final out))
  = spmm_baseline X W W_rows W_cols
  /\ (tiles <- make_2d_tiles X cfg ;;
      out <- process_tiles_with_predictor X W W_rows W_cols
               (fst (predict_tile_density tiles threshold)) ;;
      Ok (Y_final out))
     = spmm_baseline X W W_rows W_cols
  /\ spmm_baseline X W W_rows W_cols = Ok (spmm_spec X W W_cols).
Proof.
  intros Hwf -> HN HW HTR HTC.
  rewrite (spmm_baseline_spec X W W_cols Hwf HN HW).
  destruct (make_2d_tiles_returns X cfg Hwf HTR HTC)
    as (tiles & -> & Hb & _).
  cbn [bind].
  destruct (process_tiles_spec S X W W_cols cfg tiles Hwf HN HW HTR HTC Hb)
    as (out & Hrun & Hout).
  assert (Hb' : map bounds (fst (predict_tile_density tiles threshold))
                = map bounds (grid X cfg))
    by (now rewrite predict_tile_density_bounds).
  destruct (process_tiles_spec S X W W_cols cfg _ Hwf HN HW HTR HTC Hb')
    as (out' & Hrun' & Hout').
  rewrite Hrun, Hrun'. cbn [bind]. rewrite Hout, Hout'.
  repeat split; reflexivity.
Qed.

Lemma tiling_equivalence_witness :
  (tiles <- make_2d_tiles X_example cfg_2x2 ;;
   out <- @process_tiles_with_predictor stable_std_sort
            X_example W_example 4 2 tiles ;;
   Ok (Y_final out))
  = spmm_baseline X_example W_example 4 2
  /\ (tiles <- make_2d_tiles X_example cfg_2x2 ;;
      out <- @process_tiles_with_predictor stable_std_sort
               X_example W_example 4 2
               (fst (predict_tile_density tiles PIM_DENSE_TILE_THRESHOLD)) ;;
      Ok (Y_final out))
     = spmm_baseline X_example W_example 4 2
  /\ spmm_baseline X_example W_example 4 2
     = Ok (spmm_spec X_example W_example 2).
Proof.
  apply (tiling_equivalence stable_std_sort X_example W_example 4 2 cfg_2x2
           PIM_DENSE_TILE_THRESHOLD).
  - apply check_csr_sound. reflexivity.
  - reflexivity.
  - lia.
  - reflexivity.
  - reflexivity.
  - reflexivity.
Defined.

(** ** A matrix that stores a position twice *)

Section RepeatedColumnDriver.
Context {S : StdSort}.

(** The driver on the same matrix: its only tile has density 2, goes down
    the dense pipeline, and contributes 2. *)
Lemma process_tiles_duplicate :
  (tiles <- make_2d_tiles X_duplicate cfg_2x2 ;;
   out <- process_tiles_with_predictor X_duplicate [1] 1 1 tiles ;;
   Ok (Y_final out)) = Ok [2].
Proof.
  replace (make_2d_tiles X_duplicate cfg_2x2)
    with (Ok [incr_nnz (incr_nnz (mk_tile 0 1 0 1))])
    by (vm_compute; reflexivity).
  cbn [bind]. unfold process_tiles_with_predictor. cbv zeta.
  change (valloc (nrows X_duplicate * 1) 0) with (@Ok (list Z) [0]).
  cbn [bind for_each].
  change (extract_tile_csr X_duplicate (incr_nnz (incr_nnz (mk_tile 0 1 0 1))))
    with (Ok X_duplicate).
  cbn [bind].
  change (extract_tile_W [1] 1 1 (incr_nnz (incr_nnz (mk_tile 0 1 0 1))))
    with (@Ok (list Z) [1]).
  cbn [bind].
  change (Qle_bool DENSE_TILE_THRESHOLD
            (density (incr_nnz (incr_nnz (mk_tile 0 1 0 1))))) with true.
  cbv iota.
  change (col_end (incr_nnz (incr_nnz (mk_tile 0 1 0 1)))
          - col_start (incr_nnz (incr_nnz (mk_tile 0 1 0 1)))) with 1.
  rewrite dense_perm_spmm_tile_duplicate.
  reflexivity.
Qed.

End RepeatedColumnDriver.

(** C1, as stated, fails on the same matrix: tiled at 2x2 it has one tile,
    of density 2, which the driver sends down the dense pipeline; the driver
    returns [2] and the baseline [3]. *)
Lemma tiling_differs_on_repeated_column :
  wf_csr_as_specified X_duplicate /\
  (forall S : StdSort,
      (tiles <- make_2d_tiles X_duplicate cfg_2x2 ;;
       out <- @process_tiles_with_predictor S X_duplicate [1] 1 1 tiles ;;
       Ok (Y_final out)) = Ok [2]) /\
  spmm_baseline X_duplicate [1] 1 1 = Ok [3].
Proof.
  split; [apply check_csr_as_specified_sound; reflexivity |].
  split; [intros S; apply process_tiles_duplicate | reflexivity].
Qed.

(** * More on the two defects *)

Lemma for_nat_split {S} (body : Z -> S -> result S) n1 n2 : forall a s,
  for_nat (n1 + n2) a body s
  = bind (for_nat n1 a body s) (for_nat n2 (a + Z.of_nat n1) body).
Proof.
  induction n1 as [|n1 IH]; intros a s.
  - simpl. now replace (a + 0) with a by lia.
  - cbn [for_nat Nat.add]. destruct (body a s) as [s' | msg |]; cbn [bind];
      try reflexivity.
    rewrite IH. do 2 f_equal. lia.
Qed.

(** A loop whose iteration [k] hits undefined behaviour, after iterations
    that all return, hits undefined behaviour. *)
Lemma for_range_undef {S} (I : Z -> S -> Prop) a b k body (s : S) :
  a <= k < b -> I a s ->
  (forall i s, a <= i < k -> I i s -> returns (body i s) (I (i + 1))) ->
  (forall s, I k s -> body k s = Undef) ->
  for_range a b body s = Undef.
Proof.
  intros Hk Ha Hstep Hbad. unfold for_range.
  replace (Z.to_nat (b - a))
    with (Z.to_nat (k - a) + Datatypes.S (Z.to_nat (b - k - 1)))%nat by lia.
  rewrite for_nat_split.
  destruct (for_range_inv I a k body s ltac:(lia) Ha Hstep)
    as (s' & Hrun & Hs').
  unfold for_range in Hrun. rewrite Hrun. cbn [bind].
  replace (a + Z.of_nat (Z.to_nat (k - a))) with k by lia.
  cbn [for_nat]. now rewrite (Hbad s' Hs').
Qed.

Lemma first_bad_index (P : Z -> Prop) (n : nat) :
  (forall i, {P i} + {~ P i}) ->
  (exists i, 0 <= i < Z.of_nat n /\ ~ P i) ->
  exists k, 0 <= k < Z.of_nat n /\ ~ P k /\ forall i, 0 <= i < k -> P i.
Proof.
  intros Hdec. induction n as [|n IH]; intros (i & Hi & Hbad); [lia |].
  destruct (Z.eq_dec i (Z.of_nat n)) as [-> | Hne].
  - assert (Hall : (forall j, 0 <= j < Z.of_nat n -> P j)
                   \/ exists j, 0 <= j < Z.of_nat n /\ ~ P j).
    { clear IH Hi Hbad. induction n as [|m IHm]; [left; intros; lia |].
      destruct IHm as [Hall | (j & Hj & Hnj)].
      - destruct (Hdec (Z.of_nat m)) as [Hp | Hn].
        + left. intros j Hj.
          destruct (Z.eq_dec j (Z.of_nat m)) as [-> | Hne]; [exact Hp |].
          apply Hall. lia.
        + right. exists (Z.of_nat m). split; [lia | exact Hn].
      - right. exists j. split; [lia | exact Hnj]. }
    destruct Hall as [Hall | Hex].
    + exists (Z.of_nat n). repeat split; auto; lia.
    + destruct (IH Hex) as (k & Hk & Hnk & Hlt). exists k.
      repeat split; auto; lia.
  - assert (Hi' : 0 <= i < Z.of_nat n) by lia.
    destruct (IH (ex_intro _ i (conj Hi' Hbad))) as (k & Hk & Hnk & Hlt).
    exists k. repeat split; auto; lia.
Qed.

Section UncheckedEntries.
Context {S : StdSort}.

(** On a well-formed matrix, every map of the right length with an entry
    outside [0, nrows) drives [permute_csr_rows] into an out-of-bounds read of
    [X.indptr]; it neither throws nor returns. *)
Lemma permute_csr_rows_entry_out_of_range (X : CSR) (m : list Z) :
  wf_csr X -> zlen m = nrows X ->
  (exists i, 0 <= i < nrows X /\ ~ (0 <= zth 0 m i < nrows X)) ->
  permute_csr_rows X m = Undef.
Proof.
  intros Hwf Hml Hex.
  pose proof (wf_nrows X Hwf) as Hn.
  pose proof (wf_nnz_nonneg X Hwf) as Hnnz.
  pose proof (wf_indptr_len X Hwf) as Hxl.
  destruct (first_bad_index (fun i => 0 <= zth 0 m i < nrows X)
              (Z.to_nat (nrows X))) as (k & Hk & Hbad & Hgood).
  { intros i. destruct (Z_le_dec 0 (zth 0 m i));
      destruct (Z_lt_dec (zth 0 m i) (nrows X)); (left; lia) || (right; lia). }
  { rewrite Z2Nat.id by lia. exact Hex. }
  rewrite Z2Nat.id in Hk by lia.
  unfold permute_csr_rows. rewrite Hml, Z.eqb_refl. cbn [negb].
  rewrite !valloc_ok by lia. cbn [bind].
  rewrite (for_range_undef (fun _ ptr => zlen ptr = nrows X + 1)
             0 (nrows X) k); [reflexivity | lia | | |].
  - rewrite zlen_repeat; lia.
  - intros i ptr Hi Hl. specialize (Hgood i Hi).
    rewrite (vget_ok 0) by lia. cbn [bind].
    rewrite (vget_ok 0) by lia. cbn [bind].
    rewrite (vget_ok 0) by lia. cbn [bind]. cbv zeta.
    rewrite (vget_ok 0) by lia. cbn [bind].
    rewrite vset_ok by lia. apply returns_ok. now rewrite zlen_zupd.
  - intros ptr Hl.
    rewrite (vget_ok 0) by lia. cbn [bind].
    destruct (Z.eq_dec (zth 0 m k) (nrows X)) as [E | Hne].
    + rewrite (vget_ok 0) by lia. cbn [bind].
      now rewrite vget_undef by lia.
    + now rewrite vget_undef by lia.
Qed.

(** The driver never reads the classification flag: resetting every flag
    leaves its outcome, counters included, unchanged. *)
Lemma process_tiles_flags_unread (X : CSR) (W : list Z) (W_rows W_cols : Z)
  (tiles : list Tile) (flag : bool) :
  process_tiles_with_predictor X W W_rows W_cols
    (map (fun t => set_is_dense t flag) tiles)
  = process_tiles_with_predictor X W W_rows W_cols tiles.
Proof.
  unfold process_tiles_with_predictor. cbv zeta.
  destruct (valloc (nrows X * W_cols) 0) as [Y0 | msg |]; cbn [bind];
    try reflexivity.
  generalize {| Y_final := Y0; total_nnz := 0; cpu_dense_tiles := 0 |}.
  induction tiles as [|t tiles IH]; intros st; [reflexivity |].
  cbn [map for_each].
  match goal with
  | |- bind ?a _ = bind ?b _ => change a with b; destruct b as [st' | msg |]
  end; cbn [bind]; try reflexivity.
  apply IH.
Qed.

End UncheckedEntries.

(** * Why the columns of a row must be distinct *)

(** The dense pipeline scatters stored values into the dense buffer by
    assignment, so a second value stored at the same position replaces the
    first; the sparse pipeline adds both.  Well-formedness ([wf_csr]) rules
    such rows out. *)
Remark dense_tile_needs_distinct_columns :
  @dense_perm_spmm_tile stable_std_sort X_duplicate [1] 1 1 = Ok [2] /\
  sparse_spmm_tile X_duplicate [1] 1 1 = Ok [3] /\
  check_csr X_duplicate = false.
Proof. repeat split; reflexivity. Qed.

(** * Further properties of the code *)

(** * Maps with an entry out of range *)

Lemma for_range_throw {S} (I : Z -> S -> Prop) a b k msg body (s : S) :
  a <= k < b -> I a s ->
  (forall i s, a <= i < k -> I i s -> returns (body i s) (I (i + 1))) ->
  (forall s, I k s -> body k s = Throw msg) ->
  for_range a b body s = Throw msg.
Proof.
  intros Hk Ha Hstep Hbad. unfold for_range.
  replace (Z.to_nat (b - a))
    with (Z.to_nat (k - a) + Datatypes.S (Z.to_nat (b - k - 1)))%nat by lia.
  rewrite for_nat_split.
  destruct (for_range_inv I a k body s ltac:(lia) Ha Hstep)
    as (s' & Hrun & Hs').
  unfold for_range in Hrun. rewrite Hrun. cbn [bind].
  replace (a + Z.of_nat (Z.to_nat (k - a))) with k by lia.
  cbn [for_nat]. now rewrite (Hbad s' Hs').
Qed.

Lemma first_bad_entry (m : list Z) (n : Z) :
  0 <= n ->
  (exists i, 0 <= i < n /\ ~ (0 <= zth 0 m i < n)) ->
  exists k, 0 <= k < n /\ ~ (0 <= zth 0 m k < n) /\
            forall i, 0 <= i < k -> 0 <= zth 0 m i < n.
Proof.
  intros Hn Hex.
  destruct (first_bad_index (fun i => 0 <= zth 0 m i < n) (Z.to_nat n))
    as (k & Hk & Hbad & Hgood).
  { intros i. destruct (Z_le_dec 0 (zth 0 m i));
      destruct (Z_lt_dec (zth 0 m i) n); (left; lia) || (right; lia). }
  { rewrite Z2Nat.id by lia. exact Hex. }
  rewrite Z2Nat.id in Hk by lia. exists k. auto.
Qed.

Lemma range_check_true x n : ~ (0 <= x < n) -> (x <? 0) || (x >=? n) = true.
Proof. intros. apply orb_true_iff. lia. Qed.

(** X1: [permute_weight_rows] and [unpermute_rows] test every entry of the map
    before they use it: a map of the right length with an entry outside
    [0, rows) makes both throw; neither reads or writes out of bounds. *)
Theorem dense_row_maps_checked (V m : list Z) (rows cols : Z) :
  0 <= cols -> zlen m = rows -> zlen V = rows * cols ->
  (exists i, 0 <= i < rows /\ ~ (0 <= zth 0 m i < rows)) ->
  permute_weight_rows V rows cols m
  = Throw "permute_weight_rows: invalid row_new2old entry" /\
  unpermute_rows V rows cols m
  = Throw "unpermute_rows: invalid row_new2old entry".
Proof.
  intros HN Hml HV Hex.
  assert (HM : 0 <= rows) by (rewrite <- Hml; apply zlen_nonneg).
  destruct (first_bad_entry m rows HM Hex) as (k & Hk & Hbad & Hgood).
  split.
  - unfold permute_weight_rows.
    rewrite Hml, Z.eqb_refl. cbn [negb]. rewrite HV, Z.eqb_refl. cbn [negb].
    rewrite valloc_ok by nia. cbn [bind].
    apply (for_range_throw (fun _ Wp => zlen Wp = rows * cols) 0 rows k);
      [lia | rewrite zlen_repeat; nia | |].
    + intros i Wp Hi Hl. specialize (Hgood i Hi).
      rewrite (vget_ok 0) by lia. cbn [bind].
      rewrite range_check_false by lia.
      eapply returns_weaken.
      * apply (row_update_returns _
                 (fun j _ => zth 0 V (zth 0 m i * cols + j))
                 (i * cols) cols (rows * cols) Wp);
          [lia | nia | exact Hl | nia |].
        intros j a Hj Ha. rewrite (vget_ok 0) by nia. reflexivity.
      * cbv beta. tauto.
    + intros Wp Hl. rewrite (vget_ok 0) by lia. cbn [bind].
      now rewrite range_check_true.
  - unfold unpermute_rows.
    rewrite Hml, Z.eqb_refl. cbn [negb]. rewrite HV, Z.eqb_refl. cbn [negb].
    rewrite valloc_ok by nia. cbn [bind].
    apply (for_range_throw (fun _ Y => zlen Y = rows * cols) 0 rows k);
      [lia | rewrite zlen_repeat; nia | |].
    + intros i Y Hi Hl. specialize (Hgood i Hi).
      rewrite (vget_ok 0) by lia. cbn [bind].
      rewrite range_check_false by lia.
      eapply returns_weaken.
      * apply (row_update_returns _
                 (fun j _ => zth 0 V (i * cols + j))
                 (zth 0 m i * cols) cols (rows * cols) Y);
          [lia | nia | exact Hl | nia |].
        intros j a Hj Ha. rewrite (vget_ok 0) by nia. reflexivity.
      * cbv beta. tauto.
    + intros Y Hl. rewrite (vget_ok 0) by lia. cbn [bind].
      now rewrite range_check_true.
Qed.

Lemma dense_row_maps_checked_witness :
  permute_weight_rows W_example 4 2 [0; 5; 1; 2]
  = Throw "permute_weight_rows: invalid row_new2old entry" /\
  unpermute_rows W_example 4 2 [0; 5; 1; 2]
  = Throw "unpermute_rows: invalid row_new2old entry".
Proof.
  apply (dense_row_maps_checked W_example [0; 5; 1; 2] 4 2).
  - lia.
  - reflexivity.
  - reflexivity.
  - exists 1. split; [lia |]. vm_compute. intros [_ H]. discriminate H.
Defined.

Section CheckedEntries.
Context {S : StdSort}.

(** The loop that builds [col_old2new], in [permute_csr_cols] and in
    [unpermute_csr_cols], stops at the first entry out of range. *)
Lemma old2new_throws (n : Z) (m : list Z) (msg : string) :
  zlen m = n ->
  (exists i, 0 <= i < n /\ ~ (0 <= zth 0 m i < n)) ->
  bind (valloc n 0) (fun o2n0 =>
    for_range 0 n (fun new_col o2n =>
      old_col <- vget m new_col ;;
      if (old_col <? 0) || (old_col >=? n)
      then Throw msg else vset o2n old_col new_col) o2n0)
  = Throw msg.
Proof.
  intros Hml Hex.
  assert (Hn : 0 <= n) by (rewrite <- Hml; apply zlen_nonneg).
  destruct (first_bad_entry m n Hn Hex) as (k & Hk & Hbad & Hgood).
  rewrite valloc_ok by lia. cbn [bind].
  apply (for_range_throw (fun _ o2n => zlen o2n = n) 0 n k);
    [lia | rewrite zlen_repeat; lia | |].
  - intros i o2n Hi Hl. specialize (Hgood i Hi).
    rewrite (vget_ok 0) by lia. cbn [bind].
    rewrite range_check_false by lia.
    rewrite vset_ok by lia. apply returns_ok. now rewrite zlen_zupd.
  - intros o2n Hl. rewrite (vget_ok 0) by lia. cbn [bind].
    now rewrite range_check_true.
Qed.

(** X2: [unpermute_csr_rows] tests the entries of its map: on a map of the right
    length with an entry outside [0, nrows) it throws, where
    [permute_csr_rows] reads out of bounds. *)
Theorem unpermute_csr_rows_entry_checked (X : CSR) (m : list Z) :
  wf_csr X -> zlen m = nrows X ->
  (exists i, 0 <= i < nrows X /\ ~ (0 <= zth 0 m i < nrows X)) ->
  unpermute_csr_rows X m
  = Throw "unpermute_csr_rows: invalid row_new2old entry".
Proof.
  intros Hwf Hrl Hrex.
  pose proof (wf_nrows X Hwf) as Hn.
  pose proof (wf_nnz_nonneg X Hwf) as Hnnz.
  pose proof (wf_indptr_len X Hwf) as Hxl.
  destruct (first_bad_entry m (nrows X) Hn Hrex) as (k & Hk & Hbad & Hgood).
  unfold unpermute_csr_rows. rewrite Hrl, Z.eqb_refl. cbn [negb]. cbv zeta.
  rewrite !valloc_ok by lia. cbn [bind].
  rewrite (for_range_throw (fun _ ptr => zlen ptr = nrows X + 1)
             0 (nrows X) k
             "unpermute_csr_rows: invalid row_new2old entry");
    [reflexivity | lia | rewrite zlen_repeat; lia | |].
  - intros i ptr Hi Hl. specialize (Hgood i Hi).
    rewrite (vget_ok 0) by lia. cbn [bind].
    rewrite range_check_false by lia.
    rewrite (vget_ok 0) by lia. cbn [bind].
    rewrite (vget_ok 0) by lia. cbn [bind].
    rewrite (vget_ok 0) by lia. cbn [bind].
    rewrite vset_ok by lia. apply returns_ok. now rewrite zlen_zupd.
  - intros ptr Hl. rewrite (vget_ok 0) by lia. cbn [bind].
    now rewrite range_check_true.
Qed.

(** X3: [permute_csr_cols] and [unpermute_csr_cols] test the entries of their
    map before anything else is touched: whatever the matrix holds, a map of
    the right length with an entry outside [0, ncols) makes them throw. *)
Theorem csr_col_maps_checked (X : CSR) (m : list Z) :
  zlen m = ncols X ->
  (exists c, 0 <= c < ncols X /\ ~ (0 <= zth 0 m c < ncols X)) ->
  permute_csr_cols X m
  = Throw "permute_csr_cols: invalid col_new2old entry" /\
  unpermute_csr_cols X m
  = Throw "unpermute_csr_cols: invalid col_new2old entry".
Proof.
  intros Hcl Hcex.
  assert (Hn : 0 <= ncols X) by (rewrite <- Hcl; apply zlen_nonneg).
  split.
  - unfold permute_csr_cols. rewrite Hcl, Z.eqb_refl. cbn [negb].
    pose proof (old2new_throws (ncols X) m
                  "permute_csr_cols: invalid col_new2old entry" Hcl Hcex)
      as Hthrow.
    rewrite valloc_ok in * by lia. cbn [bind] in *. now rewrite Hthrow.
  - unfold unpermute_csr_cols. rewrite Hcl, Z.eqb_refl. cbn [negb].
    pose proof (old2new_throws (ncols X) m
                  "unpermute_csr_cols: invalid col_new2old entry" Hcl Hcex)
      as Hthrow.
    rewrite valloc_ok in * by lia. cbn [bind] in *. now rewrite Hthrow.
Qed.

End CheckedEntries.

Lemma unpermute_csr_rows_entry_checked_witness :
  @unpermute_csr_rows stable_std_sort X_example [0; 5; 1; 2]
  = Throw "unpermute_csr_rows: invalid row_new2old entry".
Proof.
  apply (@unpermute_csr_rows_entry_checked stable_std_sort X_example
           [0; 5; 1; 2]).
  - apply check_csr_sound. reflexivity.
  - reflexivity.
  - exists 1. split; [cbn; lia |]. vm_compute. intros [_ H]. discriminate H.
Defined.

Lemma csr_col_maps_checked_witness :
  @permute_csr_cols stable_std_sort X_example [0; 1; -1; 2]
  = Throw "permute_csr_cols: invalid col_new2old entry" /\
  @unpermute_csr_cols stable_std_sort X_example [0; 1; -1; 2]
  = Throw "unpermute_csr_cols: invalid col_new2old entry".
Proof.
  apply (@csr_col_maps_checked stable_std_sort X_example [0; 1; -1; 2]).
  - reflexivity.
  - exists 2. split; [cbn; lia |]. vm_compute. intros [H _]. apply H.
    reflexivity.
Defined.

(** * Counting the nonzeros of rows and columns *)

(** X4: [compute_nnz_per_row] returns, for every row, the number of entries the
    row stores; the counts add up to [nnz]. *)
Theorem compute_nnz_per_row_lengths (X : CSR) :
  wf_csr X ->
  returns (compute_nnz_per_row X) (fun v =>
    zlen v = nrows X /\
    (forall i, 0 <= i < nrows X -> zth 0 v i = zlen (row_entries X i)) /\
    zsum v = nnz X).
Proof.
  intros Hwf. eapply returns_weaken.
  - apply compute_nnz_per_row_returns, Hwf.
  - cbv beta. intros v (Hl & Hv). split; [exact Hl |]. split.
    + intros i Hi. rewrite zlen_row_entries by assumption. now apply Hv.
    + rewrite <- (wf_nnz_telescope X Hwf). f_equal.
      apply (zth_ext 0).
      * rewrite zlen_map, zlen_zrange by apply (wf_nrows X Hwf). exact Hl.
      * intros i Hi. rewrite Hl in Hi.
        rewrite (zth_map _ 0) by (rewrite zlen_zrange; lia).
        rewrite zth_zrange by lia. now apply Hv.
Qed.

Lemma compute_nnz_per_row_lengths_witness :
  returns (compute_nnz_per_row X_example) (fun v =>
    zlen v = nrows X_example /\
    (forall i, 0 <= i < nrows X_example ->
               zth 0 v i = zlen (row_entries X_example i)) /\
    zsum v = nnz X_example).
Proof.
  apply (compute_nnz_per_row_lengths X_example).
  apply check_csr_sound. reflexivity.
Defined.

Lemma col_count_cons x l c :
  col_count (x :: l) c = (if c =? x then 1 else 0) + col_count l c.
Proof.
  unfold col_count. simpl. destruct (c =? x); [rewrite zlen_cons |]; lia.
Qed.

Lemma col_count_snoc l x c :
  col_count (l ++ [x]) c = col_count l c + (if c =? x then 1 else 0).
Proof.
  unfold col_count. rewrite filter_app, zlen_app. simpl.
  destruct (c =? x); reflexivity.
Qed.

Lemma zsum_col_count (K : Z) (l : list Z) :
  0 <= K -> Forall (fun c => 0 <= c < K) l ->
  zsum (map (col_count l) (zrange 0 K)) = zlen l.
Proof.
  intros HK. induction 1 as [|x l Hx Hall IH].
  - apply zsum_map_const0.
  - rewrite (map_ext _ _ (col_count_cons x l)), zsum_map_add, IH, zlen_cons.
    rewrite (zsum_update_one (fun _ => 0) (fun c => if c =? x then 1 else 0)
               x 1).
    + rewrite zsum_map_const0. lia.
    + apply NoDup_zrange.
    + apply in_zrange; lia.
    + intros k _ Hne. destruct (k =? x) eqn:E; lia.
    + now rewrite Z.eqb_refl.
Qed.

Lemma compute_nnz_per_col_returns (X : CSR) :
  0 <= ncols X -> nnz X = zlen (indices X) ->
  returns (compute_nnz_per_col X) (fun v =>
    zlen v = ncols X /\
    (forall c, 0 <= c < ncols X -> zth 0 v c = col_count (indices X) c) /\
    (Forall (fun c => 0 <= c < ncols X) (indices X) -> zsum v = nnz X)).
Proof.
  intros HK Hnnz. unfold compute_nnz_per_col.
  rewrite valloc_ok by lia. cbn [bind].
  eapply returns_weaken.
  - apply (for_range_inv (fun i v =>
      zlen v = ncols X /\
      forall c, 0 <= c < ncols X ->
        zth 0 v c = col_count (map (zth 0 (indices X)) (zrange 0 i)) c));
      [rewrite Hnnz; apply zlen_nonneg | |].
    + split; [rewrite zlen_repeat; lia |].
      intros c Hc. now rewrite zth_repeat.
    + intros i v Hi (Hl & Hv).
      rewrite (vget_ok 0) by lia. cbn [bind].
      rewrite zrange_snoc, map_app by lia. cbn [map]. rewrite Z.add_0_l.
      set (col := zth 0 (indices X) i).
      destruct ((col >=? 0) && (col <? ncols X)) eqn:E.
      * apply andb_prop in E.
        rewrite (vget_ok 0) by lia. cbn [bind].
        rewrite vset_ok by lia. apply returns_ok.
        rewrite zlen_zupd. split; [exact Hl |].
        intros c Hc. rewrite col_count_snoc.
        destruct (Z.eq_dec c col) as [-> | Hne].
        -- rewrite zth_zupd_eq by lia. rewrite Z.eqb_refl.
           now rewrite Hv by lia.
        -- rewrite zth_zupd_neq by lia.
           replace (c =? col) with false by (symmetry; apply Z.eqb_neq; lia).
           rewrite Hv by lia. lia.
      * apply returns_ok. split; [exact Hl |].
        intros c Hc. rewrite col_count_snoc.
        replace (c =? col) with false.
        -- rewrite Hv by lia. lia.
        -- symmetry. apply Z.eqb_neq. intros ->.
           apply andb_false_iff in E. lia.
  - cbv beta. intros v (Hl & Hv).
    rewrite Hnnz, map_zth_zrange in Hv.
    split; [exact Hl |]. split; [exact Hv |].
    intros Hin. rewrite Hnnz, <- (zsum_col_count (ncols X)) by assumption.
    f_equal. apply (zth_ext 0).
    + rewrite zlen_map, zlen_zrange by lia. exact Hl.
    + intros c Hc. rewrite Hl in Hc.
      rewrite (zth_map _ 0) by (rewrite zlen_zrange; lia).
      rewrite zth_zrange by lia. now apply Hv.
Qed.

(** X5: [compute_nnz_per_col] returns, for every column, the number of stored
    entries that carry its index.  Column indices outside [0, ncols) are
    skipped, so the scan returns on any index array of [nnz] entries; when all
    indices are in range the counts add up to [nnz]. *)
Theorem compute_nnz_per_col_counts (X : CSR) :
  0 <= ncols X -> nnz X = zlen (indices X) ->
  returns (compute_nnz_per_col X) (fun v =>
    zlen v = ncols X /\
    (forall c, 0 <= c < ncols X -> zth 0 v c = col_count (indices X) c) /\
    (Forall (fun c => 0 <= c < ncols X) (indices X) -> zsum v = nnz X)).
Proof. apply compute_nnz_per_col_returns. Qed.

Lemma compute_nnz_per_col_counts_witness :
  returns (compute_nnz_per_col X_example) (fun v =>
    zlen v = ncols X_example /\
    (forall c, 0 <= c < ncols X_example ->
               zth 0 v c = col_count (indices X_example) c) /\
    (Forall (fun c => 0 <= c < ncols X_example) (indices X_example) ->
     zsum v = nnz X_example)).
Proof.
  apply (compute_nnz_per_col_counts X_example).
  - cbn. lia.
  - reflexivity.
Defined.

(** * What the row permutations do *)

Section RowMaps.
Context {S : StdSort}.

(** X6: [permute_csr_rows] puts old row [m i] at new row [i], and
    [unpermute_csr_rows] puts new row [i] back at old row [m i], entry for
    entry; both keep the shape and the number of stored entries. *)
Theorem csr_rows_moved (X : CSR) (m : list Z) :
  wf_csr X -> is_perm (nrows X) m ->
  returns (permute_csr_rows X m) (fun Xp =>
    nrows Xp = nrows X /\ ncols Xp = ncols X /\ nnz Xp = nnz X /\
    forall i, 0 <= i < nrows X ->
      row_entries Xp i = row_entries X (zth 0 m i)) /\
  returns (unpermute_csr_rows X m) (fun Xu =>
    nrows Xu = nrows X /\ ncols Xu = ncols X /\ nnz Xu = nnz X /\
    forall i, 0 <= i < nrows X ->
      row_entries Xu (zth 0 m i) = row_entries X i).
Proof.
  intros Hwf Hpm. split.
  - eapply returns_weaken; [apply permute_csr_rows_returns; eassumption |].
    cbv beta. tauto.
  - eapply returns_weaken; [apply unpermute_csr_rows_returns; eassumption |].
    cbv beta. tauto.
Qed.

Lemma create_row_new2old_ordered (counts : list Z) (descending : bool) :
  ordered_by_count counts (create_row_new2old counts descending) descending.
Proof.
  unfold create_row_new2old, ordered_by_count.
  destruct descending; intros i j Hi Hij Hj.
  - pose proof (StronglySorted_zth _ 0 _
      (std_sort_sorted _ _ (zrange 0 (zlen counts))
         (swo_key_gt (zth 0 counts))) i j Hi Hij Hj) as Hs.
    simpl in Hs. lia.
  - pose proof (StronglySorted_zth _ 0 _
      (std_sort_sorted _ _ (zrange 0 (zlen counts))
         (swo_key_lt (zth 0 counts))) i j Hi Hij Hj) as Hs.
    simpl in Hs. lia.
Qed.

(** X7: the workflow of the tests: count the nonzeros of every row, order the
    rows by count, permute.  The rows of the result are ordered by length,
    longest first when [descending] is set and shortest first otherwise. *)
Theorem permute_by_row_count_orders_rows (X : CSR) (descending : bool) :
  wf_csr X ->
  returns (nnz_per_row <- compute_nnz_per_row X ;;
           permute_csr_rows X (create_row_new2old nnz_per_row descending))
    (fun Xp =>
       wf_csr Xp /\
       forall i j, 0 <= i -> i < j -> j < nrows X ->
         if descending
         then zlen (row_entries Xp i) >= zlen (row_entries Xp j)
         else zlen (row_entries Xp i) <= zlen (row_entries Xp j)).
Proof.
  intros Hwf. apply returns_bind. eapply returns_weaken.
  - apply compute_nnz_per_row_returns, Hwf.
  - cbv beta. intros cnt (Hl & Hcnt).
    set (m := create_row_new2old cnt descending).
    assert (Hpm : is_perm (nrows X) m).
    { rewrite <- Hl. apply create_row_new2old_perm. }
    pose proof (create_row_new2old_ordered cnt descending) as Hord.
    fold m in Hord. unfold ordered_by_count in Hord.
    rewrite (is_perm_len _ _ Hpm) in Hord.
    eapply returns_weaken.
    + apply permute_csr_rows_returns; eassumption.
    + cbv beta. intros Xp (Hr & Hc & Hz & Hwfp & Hrows).
      split; [exact Hwfp |]. intros i j Hi Hij Hj.
      specialize (Hord i j Hi Hij Hj).
      pose proof (is_perm_range _ _ i Hpm ltac:(lia)) as Hri.
      pose proof (is_perm_range _ _ j Hpm ltac:(lia)) as Hrj.
      rewrite !Hrows by lia.
      rewrite !zlen_row_entries by assumption.
      rewrite <- !Hcnt by assumption.
      exact Hord.
Qed.

End RowMaps.

Lemma csr_rows_moved_witness :
  returns (@permute_csr_rows stable_std_sort X_example [2; 0; 3; 1])
    (fun Xp =>
       nrows Xp = nrows X_example /\ ncols Xp = ncols X_example /\
       nnz Xp = nnz X_example /\
       forall i, 0 <= i < nrows X_example ->
         row_entries Xp i = row_entries X_example (zth 0 [2; 0; 3; 1] i)) /\
  returns (@unpermute_csr_rows stable_std_sort X_example [2; 0; 3; 1])
    (fun Xu =>
       nrows Xu = nrows X_example /\ ncols Xu = ncols X_example /\
       nnz Xu = nnz X_example /\
       forall i, 0 <= i < nrows X_example ->
         row_entries Xu (zth 0 [2; 0; 3; 1] i) = row_entries X_example i).
Proof.
  apply (@csr_rows_moved stable_std_sort X_example [2; 0; 3; 1]).
  - apply check_csr_sound. reflexivity.
  - apply check_perm_sound. reflexivity.
Defined.

Lemma permute_by_row_count_orders_rows_witness :
  returns (nnz_per_row <- compute_nnz_per_row X_example ;;
           @permute_csr_rows stable_std_sort X_example
             (@create_row_new2old stable_std_sort nnz_per_row true))
    (fun Xp =>
       wf_csr Xp /\
       forall i j, 0 <= i -> i < j -> j < nrows X_example ->
         zlen (row_entries Xp i) >= zlen (row_entries Xp j)).
Proof.
  apply (@permute_by_row_count_orders_rows stable_std_sort X_example true).
  apply check_csr_sound. reflexivity.
Defined.

(** * Rows of a dense matrix *)

Lemma unpermute_rows_returns (Yp m : list Z) (M N : Z) :
  is_perm M m -> 0 <= N -> zlen Yp = M * N ->
  returns (unpermute_rows Yp M N m) (fun Y =>
    zlen Y = M * N /\
    forall i j, 0 <= i < M -> 0 <= j < N ->
      zth 0 Y (zth 0 m i * N + j) = zth 0 Yp (i * N + j)).
Proof.
  intros Hpm HN HYp. unfold unpermute_rows.
  pose proof (is_perm_len M m Hpm) as Hlen.
  assert (HM : 0 <= M) by (destruct Hpm; lia).
  rewrite Hlen, Z.eqb_refl. cbn [negb].
  rewrite HYp, Z.eqb_refl. cbn [negb].
  rewrite valloc_ok by nia. cbn [bind].
  eapply returns_weaken.
  - apply (rows_update_returns _ (zth 0 m)
             (fun i j _ => zth 0 Yp (i * N + j)) M N (M * N)); try lia.
    + rewrite zlen_repeat; nia.
    + intros i Hi. pose proof (is_perm_range M m i Hpm Hi). nia.
    + intros i i' Hi Hi'. now apply (is_perm_inj M m).
    + intros i a Hi Ha.
      pose proof (is_perm_range M m i Hpm Hi) as Hr.
      rewrite (vget_ok 0) by lia. cbn [bind].
      rewrite range_check_false by lia.
      apply (row_update_returns _ (fun j _ => zth 0 Yp (i * N + j))
               (zth 0 m i * N) N (M * N) a); [lia | nia | exact Ha | nia |].
      intros j a' Hj Ha'.
      rewrite (vget_ok 0) by nia. cbn [bind]. reflexivity.
  - cbv beta. intros Y (HY & Hrows & _). auto.
Qed.

(** X8: [permute_weight_rows] puts old row [m i] at new row [i], and
    [unpermute_rows] puts new row [i] back at old row [m i]. *)
Theorem dense_rows_moved (V m : list Z) (rows cols : Z) :
  is_perm rows m -> 0 <= cols -> zlen V = rows * cols ->
  returns (permute_weight_rows V rows cols m) (fun Vp =>
    zlen Vp = rows * cols /\
    forall i j, 0 <= i < rows -> 0 <= j < cols ->
      zth 0 Vp (i * cols + j) = zth 0 V (zth 0 m i * cols + j)) /\
  returns (unpermute_rows V rows cols m) (fun Vu =>
    zlen Vu = rows * cols /\
    forall i j, 0 <= i < rows -> 0 <= j < cols ->
      zth 0 Vu (zth 0 m i * cols + j) = zth 0 V (i * cols + j)).
Proof.
  intros Hpm HN HV. split.
  - now apply permute_weight_rows_returns.
  - now apply unpermute_rows_returns.
Qed.

Lemma dense_rows_moved_witness :
  returns (permute_weight_rows W_example 4 2 [2; 0; 3; 1]) (fun Vp =>
    zlen Vp = 4 * 2 /\
    forall i j, 0 <= i < 4 -> 0 <= j < 2 ->
      zth 0 Vp (i * 2 + j) = zth 0 W_example (zth 0 [2; 0; 3; 1] i * 2 + j))
  /\
  returns (unpermute_rows W_example 4 2 [2; 0; 3; 1]) (fun Vu =>
    zlen Vu = 4 * 2 /\
    forall i j, 0 <= i < 4 -> 0 <= j < 2 ->
      zth 0 Vu (zth 0 [2; 0; 3; 1] i * 2 + j) = zth 0 W_example (i * 2 + j)).
Proof.
  apply (dense_rows_moved W_example [2; 0; 3; 1] 4 2).
  - apply check_perm_sound. reflexivity.
  - lia.
  - reflexivity.
Defined.

Lemma dense_cells_ext (M N : Z) (A B : list Z) :
  0 <= M -> 0 <= N -> zlen A = M * N -> zlen B = M * N ->
  (forall i j, 0 <= i < M -> 0 <= j < N ->
     zth 0 A (i * N + j) = zth 0 B (i * N + j)) ->
  A = B.
Proof.
  intros HM HN HA HB H.
  rewrite (dense_ext M N (fun i j => zth 0 B (i * N + j)) A) by auto.
  symmetry. apply dense_ext; auto.
Qed.

(** X9: [permute_weight_rows] and [unpermute_rows] undo each other, in both
    orders, on every dense matrix and every bijection. *)
Theorem weight_rows_roundtrip (V m : list Z) (rows cols : Z) :
  is_perm rows m -> 0 <= cols -> zlen V = rows * cols ->
  (Vp <- permute_weight_rows V rows cols m ;; unpermute_rows Vp rows cols m)
  = Ok V /\
  (Vu <- unpermute_rows V rows cols m ;; permute_weight_rows Vu rows cols m)
  = Ok V.
Proof.
  intros Hpm HN HV.
  assert (HM : 0 <= rows) by (destruct Hpm; lia).
  split.
  - destruct (permute_weight_rows_returns V m rows cols Hpm HN HV)
      as (Vp & -> & Hl & Hcells).
    cbn [bind]. apply returns_eq.
    eapply returns_weaken;
      [apply (unpermute_rows_returns Vp m rows cols); assumption |].
    cbv beta. intros Y (HY & Hrows).
    apply (dense_cells_ext rows cols); auto.
    intros k j Hk Hj.
    destruct (is_perm_surj rows m k Hpm Hk) as (i & Hi & <-).
    rewrite Hrows by lia. now apply Hcells.
  - destruct (unpermute_rows_returns V m rows cols Hpm HN HV)
      as (Vu & -> & Hl & Hcells).
    cbn [bind]. apply returns_eq.
    eapply returns_weaken;
      [apply (permute_weight_rows_returns Vu m rows cols); assumption |].
    cbv beta. intros Y (HY & Hrows).
    apply (dense_cells_ext rows cols); auto.
    intros i j Hi Hj. rewrite Hrows by lia. now apply Hcells.
Qed.

Lemma weight_rows_roundtrip_witness :
  (Vp <- permute_weight_rows W_example 4 2 [2; 0; 3; 1] ;;
   unpermute_rows Vp 4 2 [2; 0; 3; 1]) = Ok W_example /\
  (Vu <- unpermute_rows W_example 4 2 [2; 0; 3; 1] ;;
   permute_weight_rows Vu 4 2 [2; 0; 3; 1]) = Ok W_example.
Proof.
  apply (weight_rows_roundtrip W_example [2; 0; 3; 1] 4 2).
  - apply check_perm_sound. reflexivity.
  - lia.
  - reflexivity.
Defined.

(** * Column permutations *)

Section ColMaps.
Context {S : StdSort}.

(** Renaming the columns of every row by an injection of [0, ncols) and
    sorting the rows again gives a well-formed matrix. *)
Lemma remap_rows_wf (X : CSR) (f : Z -> Z) (ind' dat' : list Z) :
  wf_csr X ->
  (forall c, 0 <= c < ncols X -> 0 <= f c < ncols X) ->
  (forall a b, 0 <= a < ncols X -> 0 <= b < ncols X -> f a = f b -> a = b) ->
  zlen ind' = nnz X -> zlen dat' = nnz X ->
  (forall i, 0 <= i < nrows X ->
     entries_at ind' dat' (zth 0 (indptr X) i) (rowlen (indptr X) i)
     = std_sort by_col (map (fun e => (f (fst e), snd e)) (row_entries X i))) ->
  wf_csr {| nrows := nrows X; ncols := ncols X; nnz := nnz X;
            indptr := indptr X; indices := ind'; data := dat' |}.
Proof.
  intros Hwf Hrange Hinj Hil Hdl Hrows.
  apply wf_intro; cbn [nrows ncols nnz indptr indices data]; auto.
  - apply (wf_nrows X Hwf).
  - apply (wf_ncols X Hwf).
  - apply (wf_indptr_len X Hwf).
  - apply (wf_indptr_first X Hwf).
  - apply (wf_rowlen_nonneg X Hwf).
  - apply (wf_indptr_last X Hwf).
  - intros i Hi. unfold row_entries at 1. cbn [indptr indices data].
    rewrite Hrows by lia.
    pose proof (wf_row_cols X Hwf i Hi) as Hcols.
    rewrite Forall_forall in *. intros e He.
    apply (Permutation_in _
             (Permutation_sym (std_sort_perm _ by_col _ swo_by_col))) in He.
    apply in_map_iff in He. destruct He as (e0 & <- & He0).
    cbn [fst]. apply Hrange. now apply Hcols.
  - intros i Hi. unfold row_entries at 1. cbn [indptr indices data].
    rewrite Hrows by lia.
    apply sorted_le_NoDup_lt; [apply std_sort_sorted, swo_by_col |].
    eapply Permutation_NoDup.
    { apply Permutation_map. apply std_sort_perm, swo_by_col. }
    rewrite map_map. cbn [fst]. rewrite <- (map_map fst f).
    pose proof (wf_row_cols X Hwf i Hi) as Hcols.
    rewrite Forall_forall in Hcols.
    apply NoDup_map_inj_on.
    + apply StronglySorted_lt_NoDup. now apply (wf_row_sorted X Hwf).
    + intros a b Ha Hb E.
      apply in_map_iff in Ha. destruct Ha as (ea & <- & Hea).
      apply in_map_iff in Hb. destruct Hb as (eb & <- & Heb).
      apply Hinj; auto.
Qed.

Lemma remapped_row (X : CSR) (f : Z -> Z) (ind : list Z) (i : Z) :
  wf_csr X -> 0 <= i < nrows X ->
  (forall p, 0 <= p < nnz X -> zth 0 ind p = f (zth 0 (indices X) p)) ->
  entries_at ind (data X) (zth 0 (indptr X) i) (rowlen (indptr X) i)
  = map (fun e => (f (fst e), snd e)) (row_entries X i).
Proof.
  intros Hwf Hi Hind. unfold row_entries, entries_at. rewrite map_map.
  apply map_ext_in. intros p Hp. cbn [fst snd].
  pose proof (wf_rowlen_nonneg X Hwf i Hi).
  apply in_zrange in Hp; [| lia].
  pose proof (wf_ptr_bounds X Hwf i ltac:(lia)).
  pose proof (wf_ptr_bounds X Hwf (i + 1) ltac:(lia)).
  unfold rowlen in Hp. rewrite Hind by lia. reflexivity.
Qed.

Lemma sort_rows_of (X : CSR) (ind : list Z) :
  wf_csr X -> zlen ind = nnz X ->
  returns (sort_each_row (nrows X) (indptr X) (ind, data X)) (fun st =>
    zlen (fst st) = nnz X /\ zlen (snd st) = nnz X /\
    forall i, 0 <= i < nrows X ->
      entries_at (fst st) (snd st) (zth 0 (indptr X) i) (rowlen (indptr X) i)
      = std_sort by_col
          (entries_at ind (data X) (zth 0 (indptr X) i)
             (rowlen (indptr X) i))).
Proof.
  intros Hwf Hil.
  apply (sort_each_row_returns (nrows X) (indptr X) ind (data X) (nnz X));
    auto.
  - apply (wf_nrows X Hwf).
  - apply (wf_indptr_len X Hwf).
  - rewrite (wf_indptr_first X Hwf). lia.
  - apply (wf_indptr_mono X Hwf).
  - rewrite (wf_indptr_last X Hwf). lia.
  - apply (wf_data_len X Hwf).
Qed.

Section OneMap.
Variables (X : CSR) (m : list Z).
Hypothesis Hwf : wf_csr X.
Hypothesis Hpm : is_perm (ncols X) m.

(** [permute_csr_cols] renames the columns: sending the columns of row [i]
    of the result through [col_new2old] gives row [i] of [X], up to the order
    of the entries. *)
Lemma permute_csr_cols_rows_returns :
  returns (permute_csr_cols X m) (fun Xp =>
    nrows Xp = nrows X /\ ncols Xp = ncols X /\ nnz Xp = nnz X /\
    wf_csr Xp /\
    forall i, 0 <= i < nrows X ->
      Permutation
        (map (fun e => (zth 0 m (fst e), snd e)) (row_entries Xp i))
        (row_entries X i)).
Proof.
  pose proof (is_perm_len _ _ Hpm) as Hml.
  pose proof (wf_nrows X Hwf) as Hn.
  pose proof (wf_ncols X Hwf) as Hc.
  pose proof (wf_nnz_nonneg X Hwf) as Hnnz.
  unfold permute_csr_cols. rewrite Hml, Z.eqb_refl. cbn [negb].
  rewrite valloc_ok by lia. cbn [bind].
  apply returns_bind. eapply returns_weaken.
  { apply (permute_cols_old2new X m Hwf Hpm). rewrite zlen_repeat; lia. }
  cbv beta. intros o2n (Hol & Hinv).
  rewrite valloc_ok by lia. cbn [bind].
  apply returns_bind. eapply returns_weaken.
  { apply (permute_cols_remap X Hwf o2n);
      [exact Hol | rewrite zlen_repeat; lia]. }
  cbv beta. intros ind (Hil & Hind).
  apply returns_bind. eapply returns_weaken.
  { apply sort_rows_of; assumption. }
  cbv beta. intros [ind' dat'] (Hil' & Hdl' & Hsorted). cbn [fst snd] in *.
  apply returns_ok. cbn [nrows ncols nnz].
  do 3 (split; [reflexivity |]).
  assert (Ho2n : forall c, 0 <= c < ncols X ->
            0 <= zth 0 o2n c < ncols X /\ zth 0 m (zth 0 o2n c) = c).
  { intros c Hc'. destruct (is_perm_surj _ _ c Hpm Hc') as (k & Hk & <-).
    rewrite Hinv by lia. split; [lia | reflexivity]. }
  assert (Hrows : forall i, 0 <= i < nrows X ->
            entries_at ind' dat' (zth 0 (indptr X) i) (rowlen (indptr X) i)
            = std_sort by_col
                (map (fun e => (zth 0 o2n (fst e), snd e)) (row_entries X i))).
  { intros i Hi. rewrite Hsorted by lia. f_equal.
    now apply remapped_row. }
  split.
  - apply (remap_rows_wf X (zth 0 o2n)); auto.
    + intros c Hc'. apply Ho2n, Hc'.
    + intros a b Ha Hb E.
      destruct (Ho2n a Ha) as [_ <-]. destruct (Ho2n b Hb) as [_ <-].
      now rewrite E.
  - intros i Hi. unfold row_entries at 1. cbn [indptr indices data].
    rewrite Hrows by lia.
    eapply Permutation_trans.
    { apply Permutation_map, Permutation_sym, std_sort_perm, swo_by_col. }
    rewrite map_map. cbn [fst snd].
    rewrite <- (map_id (row_entries X i)) at 2.
    apply Permutation_refl'. apply map_ext_in. intros [c v] He. cbn [fst snd].
    pose proof (wf_row_cols X Hwf i Hi) as Hcols.
    rewrite Forall_forall in Hcols. specialize (Hcols _ He). cbn [fst] in Hcols.
    destruct (Ho2n c Hcols) as [_ ->]. reflexivity.
Qed.

(** [unpermute_csr_cols] sends every column index through [col_new2old]:
    row [i] of the result holds the entries of row [i] of its argument with
    their columns renamed, sorted by column again. *)
Lemma unpermute_csr_cols_returns :
  returns (unpermute_csr_cols X m) (fun Xu =>
    nrows Xu = nrows X /\ ncols Xu = ncols X /\ nnz Xu = nnz X /\
    wf_csr Xu /\
    forall i, 0 <= i < nrows X ->
      Permutation
        (row_entries Xu i)
        (map (fun e => (zth 0 m (fst e), snd e)) (row_entries X i))).
Proof.
  pose proof (is_perm_len _ _ Hpm) as Hml.
  pose proof (wf_nrows X Hwf) as Hn.
  pose proof (wf_ncols X Hwf) as Hc.
  pose proof (wf_nnz_nonneg X Hwf) as Hnnz.
  unfold unpermute_csr_cols. rewrite Hml, Z.eqb_refl. cbn [negb].
  rewrite valloc_ok by lia. cbn [bind].
  apply returns_bind. eapply returns_weaken.
  { apply (for_range_inv (fun (_ : Z) (o2n : list Z) => zlen o2n = ncols X));
      [lia | rewrite zlen_repeat; lia |].
    intros k o2n Hk Hl.
    pose proof (is_perm_range _ _ k Hpm Hk) as Hr.
    rewrite (vget_ok 0) by lia. cbn [bind].
    rewrite range_check_false by lia.
    rewrite vset_ok by lia. apply returns_ok. now rewrite zlen_zupd. }
  cbv beta. intros o2n _.
  rewrite valloc_ok by lia. cbn [bind].
  apply returns_bind. eapply returns_weaken.
  { apply (for_range_inv (fun k ind =>
      zlen ind = nnz X /\
      forall p, 0 <= p < k ->
        zth 0 ind p = zth 0 m (zth 0 (indices X) p)));
      [lia | split; [rewrite zlen_repeat; lia | intros; lia] |].
    intros k ind Hk (Hl & Hdone).
    pose proof (wf_col_range X Hwf k Hk) as Hcol.
    rewrite (vget_ok 0) by (rewrite (wf_indices_len X Hwf); lia).
    cbn [bind]. rewrite range_check_false by lia.
    rewrite (vget_ok 0) by lia. cbn [bind].
    rewrite vset_ok by lia. apply returns_ok.
    rewrite zlen_zupd. split; [exact Hl |].
    intros p Hp. destruct (Z.eq_dec p k) as [-> | Hne].
    - now rewrite zth_zupd_eq by lia.
    - rewrite zth_zupd_neq by lia. apply Hdone. lia. }
  cbv beta. intros ind (Hil & Hind).
  apply returns_bind. eapply returns_weaken.
  { apply sort_rows_of; assumption. }
  cbv beta. intros [ind' dat'] (Hil' & Hdl' & Hsorted). cbn [fst snd] in *.
  apply returns_ok. cbn [nrows ncols nnz].
  do 3 (split; [reflexivity |]).
  assert (Hrows : forall i, 0 <= i < nrows X ->
            entries_at ind' dat' (zth 0 (indptr X) i) (rowlen (indptr X) i)
            = std_sort by_col
                (map (fun e => (zth 0 m (fst e), snd e)) (row_entries X i))).
  { intros i Hi. rewrite Hsorted by lia. f_equal.
    now apply remapped_row. }
  split.
  - apply (remap_rows_wf X (zth 0 m)); auto.
    + intros c Hc'. now apply (is_perm_range _ _ c Hpm).
    + intros a b Ha Hb E. now apply (is_perm_inj _ _ a b Hpm).
  - intros i Hi. unfold row_entries at 1. cbn [indptr indices data].
    rewrite Hrows by lia.
    apply Permutation_sym, std_sort_perm, swo_by_col.
Qed.

End OneMap.

Lemma cols_roundtrip_returns (X : CSR) (m : list Z) :
  wf_csr X -> is_perm (ncols X) m ->
  returns (permute_csr_cols X m) (fun Xp =>
    nrows Xp = nrows X /\ ncols Xp = ncols X /\ wf_csr Xp /\
    unpermute_csr_cols Xp m = Ok X).
Proof.
  intros Hwf Hpm. eapply returns_weaken.
  { apply permute_csr_cols_rows_returns; eassumption. }
  cbv beta. intros Xp (Hr & Hc & Hz & Hwfp & Hrows).
  do 3 (split; [assumption |]).
  rewrite <- Hc in Hpm.
  destruct (unpermute_csr_cols_returns Xp m Hwfp Hpm)
    as (X' & -> & Hr' & Hc' & Hz' & Hwf' & Hrows').
  f_equal. apply csr_ext; auto; try congruence.
  intros i Hi. rewrite Hr' in Hi.
  apply sorted_by_col_unique.
  - apply (wf_row_sorted X' Hwf'). lia.
  - apply (wf_row_sorted X Hwf). lia.
  - eapply Permutation_trans; [apply Hrows'; lia | apply Hrows; lia].
Qed.

Lemma cols_product_returns (X : CSR) (W : list Z) (N : Z) (m : list Z) :
  wf_csr X -> 0 <= N -> zlen W = ncols X * N -> is_perm (ncols X) m ->
  returns (permute_csr_cols X m) (fun Xp =>
    nrows Xp = nrows X /\
    returns (permute_weight_rows W (ncols X) N m) (fun Wp =>
      spmm_baseline Xp Wp (ncols X) N = Ok (spmm_spec X W N))).
Proof.
  intros Hwf HN HW Hpm. eapply returns_weaken.
  { apply permute_csr_cols_rows_returns; eassumption. }
  cbv beta. intros Xp (Hr & Hc & Hz & Hwfp & Hrows).
  split; [exact Hr |]. eapply returns_weaken.
  { apply permute_weight_rows_returns; eassumption. }
  cbv beta. intros Wp (Hwl & Hcells).
  rewrite <- Hc.
  rewrite (spmm_baseline_spec Xp Wp N Hwfp HN)
    by (rewrite Hc; exact Hwl).
  f_equal. unfold spmm_spec. rewrite Hr.
  pose proof (wf_nrows X Hwf) as Hn.
  apply dense_ext; [lia | lia | apply zlen_dense_of; lia |].
  intros i j Hi Hj. rewrite zth_dense_of by lia.
  unfold dot_entries.
  rewrite <- (zsum_perm _ _
    (Permutation_map (fun e => snd e * zth 0 W (fst e * N + j))
       (Hrows i Hi))).
  rewrite map_map. cbn [fst snd]. f_equal.
  apply map_ext_in. intros e He.
  pose proof (wf_row_cols Xp Hwfp i ltac:(lia)) as Hcols.
  rewrite Forall_forall in Hcols. specialize (Hcols e He).
  rewrite Hcells by lia. reflexivity.
Qed.

(** X10: permuting the columns of [X] and the rows of [W] by the same map leaves
    the product unchanged. *)
Theorem permute_cols_multiply (X : CSR) (W : list Z) (W_rows W_cols : Z)
  (col_new2old : list Z) :
  wf_csr X -> W_rows = ncols X -> 0 <= W_cols ->
  zlen W = W_rows * W_cols -> is_perm (ncols X) col_new2old ->
  (Xp <- permute_csr_cols X col_new2old ;;
   Wp <- permute_weight_rows W W_rows W_cols col_new2old ;;
   spmm_baseline Xp Wp W_rows W_cols)
  = spmm_baseline X W W_rows W_cols.
Proof.
  intros Hwf -> HN HW Hpm.
  rewrite (spmm_baseline_spec X W W_cols Hwf HN HW).
  destruct (cols_product_returns X W W_cols col_new2old Hwf HN HW Hpm)
    as (Xp & -> & _ & Wp & -> & Hprod).
  exact Hprod.
Qed.

Lemma rows_roundtrip_returns (X : CSR) (m : list Z) :
  wf_csr X -> is_perm (nrows X) m ->
  returns (permute_csr_rows X m) (fun Xp =>
    nrows Xp = nrows X /\ ncols Xp = ncols X /\ wf_csr Xp /\
    (forall i, 0 <= i < nrows X ->
       row_entries Xp i = row_entries X (zth 0 m i)) /\
    unpermute_csr_rows Xp m = Ok X).
Proof.
  intros Hwf Hpm. eapply returns_weaken.
  { apply permute_csr_rows_returns; eassumption. }
  cbv beta. intros Xp (Hr & Hc & Hz & Hwfp & Hrows).
  do 4 (split; [assumption |]).
  rewrite <- Hr in Hpm.
  destruct (unpermute_csr_rows_returns Xp m Hwfp Hpm)
    as (X' & -> & Hr' & Hc' & Hz' & Hwf' & Hrows').
  f_equal. apply csr_ext; auto; try congruence.
  intros k Hk. rewrite Hr', Hr in Hk. rewrite Hr in Hpm.
  destruct (is_perm_surj _ _ k Hpm Hk) as (i & Hi & <-).
  rewrite Hrows' by lia. now apply Hrows.
Qed.

(** X11: the round trip of the tests: permute rows, permute columns, undo the
    columns, undo the rows.  The matrix that comes back is the one that went
    in, field for field. *)
Theorem permute_rows_cols_roundtrip (X : CSR)
  (row_new2old col_new2old : list Z) :
  wf_csr X -> is_perm (nrows X) row_new2old -> is_perm (ncols X) col_new2old ->
  (X_row_permuted <- permute_csr_rows X row_new2old ;;
   X_row_col_permuted <- permute_csr_cols X_row_permuted col_new2old ;;
   X_row_only <- unpermute_csr_cols X_row_col_permuted col_new2old ;;
   unpermute_csr_rows X_row_only row_new2old) = Ok X.
Proof.
  intros Hwf Hrm Hcm.
  destruct (rows_roundtrip_returns X row_new2old Hwf Hrm)
    as (Xr & -> & Hr & Hc & Hwfr & _ & Hback).
  cbn [bind]. rewrite <- Hc in Hcm.
  destruct (cols_roundtrip_returns Xr col_new2old Hwfr Hcm)
    as (Xrc & -> & _ & _ & _ & Hcback).
  cbn [bind]. rewrite Hcback. cbn [bind]. exact Hback.
Qed.

(** X12: the permuted product of the tests: order the rows by count and permute
    them, order the columns of the result by count and permute them, permute
    the rows of [W] by the column map, multiply, and put the rows of the
    product back.  The outcome is the product of the baseline on the inputs
    as they were. *)
Theorem permuted_2d_product (X : CSR) (W : list Z) (W_rows W_cols : Z)
  (rows_descending cols_descending : bool) :
  wf_csr X -> W_rows = ncols X -> 0 <= W_cols -> zlen W = W_rows * W_cols ->
  (nnz_per_row <- compute_nnz_per_row X ;;
   let row_new2old := create_row_new2old nnz_per_row rows_descending in
   X_row_permuted <- permute_csr_rows X row_new2old ;;
   nnz_per_col <- compute_nnz_per_col X_row_permuted ;;
   let col_new2old := create_col_new2old nnz_per_col cols_descending in
   X_row_col_permuted <- permute_csr_cols X_row_permuted col_new2old ;;
   W_row_permuted <- permute_weight_rows W W_rows W_cols col_new2old ;;
   Y_permuted <- spmm_baseline X_row_col_permuted W_row_permuted
                   W_rows W_cols ;;
   unpermute_rows Y_permuted (nrows X_row_col_permuted) W_cols row_new2old)
  = spmm_baseline X W W_rows W_cols.
Proof.
  intros Hwf -> HN HW.
  pose proof (wf_nrows X Hwf) as Hn.
  rewrite (spmm_baseline_spec X W W_cols Hwf HN HW).
  destruct (compute_nnz_per_row_returns X Hwf) as (cnt & -> & Hcl & _).
  cbn [bind]. cbv zeta.
  set (rm := create_row_new2old cnt rows_descending).
  assert (Hrm : is_perm (nrows X) rm).
  { rewrite <- Hcl. apply create_row_new2old_perm. }
  destruct (permute_csr_rows_returns X rm Hwf Hrm)
    as (Xr & -> & Hr & Hc & Hz & Hwfr & Hrows).
  cbn [bind].
  destruct (compute_nnz_per_col_returns Xr) as (cnt2 & -> & Hcl2 & _).
  { apply (wf_ncols Xr Hwfr). }
  { symmetry. apply (wf_indices_len Xr Hwfr). }
  cbn [bind].
  set (cm := create_col_new2old cnt2 cols_descending).
  assert (Hcm : is_perm (ncols Xr) cm).
  { rewrite <- Hcl2. apply create_col_new2old_perm. }
  rewrite <- Hc in HW |- *.
  destruct (cols_product_returns Xr W W_cols cm Hwfr HN HW Hcm)
    as (Xrc & -> & Hrr & Wp & -> & Hprod).
  cbn [bind]. rewrite Hprod. cbn [bind]. rewrite Hrr, Hr.
  apply unpermute_rows_spec; auto.
  - rewrite zlen_spmm_spec; [now rewrite Hr | lia | lia].
  - intros i j Hi Hj. rewrite zth_spmm_spec by lia.
    now rewrite Hrows.
Qed.

End ColMaps.

Lemma permute_cols_multiply_witness :
  (Xp <- @permute_csr_cols stable_std_sort X_example [1; 3; 0; 2] ;;
   Wp <- permute_weight_rows W_example 4 2 [1; 3; 0; 2] ;;
   spmm_baseline Xp Wp 4 2)
  = spmm_baseline X_example W_example 4 2.
Proof.
  apply (@permute_cols_multiply stable_std_sort X_example W_example 4 2
           [1; 3; 0; 2]).
  - apply check_csr_sound. reflexivity.
  - reflexivity.
  - lia.
  - reflexivity.
  - apply check_perm_sound. reflexivity.
Defined.

Lemma permute_rows_cols_roundtrip_witness :
  (X_row_permuted <- @permute_csr_rows stable_std_sort X_example
                       [2; 0; 3; 1] ;;
   X_row_col_permuted <- @permute_csr_cols stable_std_sort X_row_permuted
                           [1; 3; 0; 2] ;;
   X_row_only <- @unpermute_csr_cols stable_std_sort X_row_col_permuted
                   [1; 3; 0; 2] ;;
   @unpermute_csr_rows stable_std_sort X_row_only [2; 0; 3; 1])
  = Ok X_example.
Proof.
  apply (@permute_rows_cols_roundtrip stable_std_sort X_example
           [2; 0; 3; 1] [1; 3; 0; 2]).
  - apply check_csr_sound. reflexivity.
  - apply check_perm_sound. reflexivity.
  - apply check_perm_sound. reflexivity.
Defined.

Lemma permuted_2d_product_witness :
  (nnz_per_row <- compute_nnz_per_row X_example ;;
   let row_new2old := @create_row_new2old stable_std_sort nnz_per_row true in
   X_row_permuted <- @permute_csr_rows stable_std_sort X_example
                       row_new2old ;;
   nnz_per_col <- compute_nnz_per_col X_row_permuted ;;
   let col_new2old := @create_col_new2old stable_std_sort nnz_per_col true in
   X_row_col_permuted <- @permute_csr_cols stable_std_sort X_row_permuted
                           col_new2old ;;
   W_row_permuted <- permute_weight_rows W_example 4 2 col_new2old ;;
   Y_permuted <- spmm_baseline X_row_col_permuted W_row_permuted 4 2 ;;
   unpermute_rows Y_permuted (nrows X_row_col_permuted) 2 row_new2old)
  = spmm_baseline X_example W_example 4 2.
Proof.
  apply (@permuted_2d_product stable_std_sort X_example W_example 4 2
           true true).
  - apply check_csr_sound. reflexivity.
  - reflexivity.
  - lia.
  - reflexivity.
Defined.

(** * The counts of [make_2d_tiles], tile by tile *)

Lemma zth_grid_rows {A} (d : A) (g : Z -> Z -> A) (nc : Z) (n : nat) :
  forall a rb cb, 0 <= rb < Z.of_nat n -> 0 <= cb < nc ->
  zth d (flat_map (fun r => map (g r) (zrange 0 nc)) (zseq a n))
      (rb * nc + cb)
  = g (a + rb) cb.
Proof.
  induction n as [|n IH]; intros a rb cb Hrb Hcb; [lia |].
  cbn [zseq flat_map].
  assert (Hl : zlen (map (g a) (zrange 0 nc)) = nc)
    by (rewrite zlen_map; apply zlen_zrange; lia).
  destruct (Z.eq_dec rb 0) as [-> | Hne].
  - rewrite zth_app_l by (rewrite Hl; lia).
    rewrite (zth_map _ 0) by (rewrite zlen_zrange; lia).
    rewrite zth_zrange by lia. f_equal; lia.
  - rewrite zth_app_r by (rewrite Hl; nia). rewrite Hl.
    replace (rb * nc + cb - nc) with ((rb - 1) * nc + cb) by lia.
    rewrite IH by lia. f_equal. lia.
Qed.

Lemma zth_grid (X : CSR) (cfg : TilingConfig) (d : Tile) (rb cb : Z) :
  0 <= rb < ceil_div (nrows X) (tile_rows cfg) ->
  0 <= cb < ceil_div (ncols X) (tile_cols cfg) ->
  zth d (grid X cfg) (rb * ceil_div (ncols X) (tile_cols cfg) + cb)
  = grid_tile X cfg rb cb.
Proof.
  intros Hrb Hcb. unfold grid, zrange at 2.
  rewrite zth_grid_rows by lia. f_equal.
Qed.

Lemma grid_tile_contains (X : CSR) (cfg : TilingConfig) (r c rb cb : Z) :
  0 < tile_rows cfg -> 0 < tile_cols cfg ->
  0 <= r < nrows X -> 0 <= c < ncols X ->
  tile_contains r c (grid_tile X cfg rb cb) = true
  <-> rb = r / tile_rows cfg /\ cb = c / tile_cols cfg.
Proof.
  intros HTR HTC Hr Hc. unfold tile_contains, grid_tile, mk_tile. simpl.
  rewrite <- (block_of_index r (tile_rows cfg) rb (nrows X) HTR Hr).
  rewrite <- (block_of_index c (tile_cols cfg) cb (ncols X) HTC Hc).
  rewrite !andb_true_iff. lia.
Qed.

Lemma tile_count_same_bounds (X : CSR) (t t' : Tile) :
  bounds t = bounds t' -> tile_count X t = tile_count X t'.
Proof.
  intros E. apply bounds_inv in E. destruct E as (E1 & E2 & E3 & E4).
  unfold tile_count. f_equal. apply map_ext. intros r. f_equal.
  apply filter_ext. intros e. unfold tile_contains.
  now rewrite E1, E2, E3, E4.
Qed.

Section TileCounts.
Variables (X : CSR) (cfg : TilingConfig).
Hypothesis Hwf : wf_csr X.
Hypothesis HTR : 0 < tile_rows cfg.
Hypothesis HTC : 0 < tile_cols cfg.

(** The scan adds to the tile at index [rb * num_col_tiles + cb] the number
    of stored nonzeros inside block [(rb, cb)]; it moves no bound and sets no
    flag. *)
Lemma make_2d_tiles_scan (d : Tile) (tiles0 : list Tile) :
  zlen tiles0 = ceil_div (nrows X) (tile_rows cfg)
                * ceil_div (ncols X) (tile_cols cfg) ->
  returns
    (for_range 0 (nrows X) (fun i tiles =>
       row_start_idx <- vget (indptr X) i ;;
       row_end_idx <- vget (indptr X) (i + 1) ;;
       for_range row_start_idx row_end_idx (fun idx tiles =>
         j <- vget (indices X) idx ;;
         let rb := Z.quot i (tile_rows cfg) in
         let cb := Z.quot j (tile_cols cfg) in
         if (rb >=? 0) && (rb <? ceil_div (nrows X) (tile_rows cfg))
            && (cb >=? 0) && (cb <? ceil_div (ncols X) (tile_cols cfg))
         then
           let tile_idx := rb * ceil_div (ncols X) (tile_cols cfg) + cb in
           t <- vget tiles tile_idx ;;
           vset tiles tile_idx (incr_nnz t)
         else Ok tiles) tiles) tiles0)
    (fun tiles =>
       zlen tiles = zlen tiles0 /\
       forall rb cb,
         0 <= rb < ceil_div (nrows X) (tile_rows cfg) ->
         0 <= cb < ceil_div (ncols X) (tile_cols cfg) ->
         let k := rb * ceil_div (ncols X) (tile_cols cfg) + cb in
         bounds (zth d tiles k) = bounds (zth d tiles0 k) /\
         is_dense (zth d tiles k) = is_dense (zth d tiles0 k) /\
         tile_nnz (zth d tiles k)
         = tile_nnz (zth d tiles0 k) + tile_count X (grid_tile X cfg rb cb)).
Proof.
  intros Hl0.
  pose proof (wf_nrows X Hwf) as Hn. pose proof (wf_ncols X Hwf) as Hc.
  set (nrt := ceil_div (nrows X) (tile_rows cfg)) in *.
  set (nct := ceil_div (ncols X) (tile_cols cfg)) in *.
  set (hit := fun (rb cb r : Z) (e : Z * Z) =>
                tile_contains r (fst e) (grid_tile X cfg rb cb)).
  set (upto := fun (rb cb i : Z) =>
                 zsum (map (fun r => zlen (filter (hit rb cb r)
                                             (row_entries X r)))
                           (zrange 0 i))).
  apply (for_range_inv (fun i tiles =>
    zlen tiles = zlen tiles0 /\
    forall rb cb, 0 <= rb < nrt -> 0 <= cb < nct ->
      let k := rb * nct + cb in
      bounds (zth d tiles k) = bounds (zth d tiles0 k) /\
      is_dense (zth d tiles k) = is_dense (zth d tiles0 k) /\
      tile_nnz (zth d tiles k) = tile_nnz (zth d tiles0 k) + upto rb cb i));
    [exact Hn | |].
  - split; [reflexivity |]. intros rb cb _ _. cbv zeta.
    do 2 (split; [reflexivity |]). unfold upto. simpl. lia.
  - intros i tiles Hi (Hl & Hinv).
    pose proof (wf_indptr_len X Hwf) as Hxl.
    pose proof (wf_indptr_mono X Hwf i Hi) as Hxm.
    pose proof (wf_ptr_bounds X Hwf i ltac:(lia)) as Hxb1.
    pose proof (wf_ptr_bounds X Hwf (i + 1) ltac:(lia)) as Hxb2.
    rewrite (vget_ok 0) by lia. cbn [bind].
    rewrite (vget_ok 0) by lia. cbn [bind].
    set (rs := zth 0 (indptr X) i) in *.
    set (re := zth 0 (indptr X) (i + 1)) in *.
    eapply returns_weaken.
    + apply (for_range_inv (fun idx tiles1 =>
        zlen tiles1 = zlen tiles0 /\
        forall rb cb, 0 <= rb < nrt -> 0 <= cb < nct ->
          let k := rb * nct + cb in
          bounds (zth d tiles1 k) = bounds (zth d tiles0 k) /\
          is_dense (zth d tiles1 k) = is_dense (zth d tiles0 k) /\
          tile_nnz (zth d tiles1 k)
          = tile_nnz (zth d tiles0 k) + upto rb cb i
            + zlen (filter (hit rb cb i)
                      (entries_at (indices X) (data X) rs (idx - rs)))));
        [lia | |].
      * split; [exact Hl |]. intros rb cb Hrb Hcb. cbv zeta.
        destruct (Hinv rb cb Hrb Hcb) as (H1 & H2 & H3).
        do 2 (split; [assumption |]).
        replace (rs - rs) with 0 by lia. rewrite entries_at_0. simpl.
        unfold zlen. simpl. lia.
      * intros idx tiles1 Hidx (Hl1 & Hinv1).
        pose proof (wf_col_range X Hwf idx ltac:(lia)) as Hcol.
        rewrite (vget_ok 0) by (rewrite (wf_indices_len X Hwf); lia).
        cbn [bind]. cbv zeta.
        rewrite !Z.quot_div_nonneg by lia.
        pose proof (div_lt_ceil_div i (nrows X) (tile_rows cfg) Hi HTR)
          as Hrb0.
        pose proof (div_lt_ceil_div _ (ncols X) (tile_cols cfg) Hcol HTC)
          as Hcb0.
        set (j := zth 0 (indices X) idx) in *.
        set (rb0 := i / tile_rows cfg) in *.
        set (cb0 := j / tile_cols cfg) in *.
        fold nrt nct in Hrb0, Hcb0 |- *.
        assert (Hcond : (rb0 >=? 0) && (rb0 <? nrt) && (cb0 >=? 0)
                        && (cb0 <? nct) = true).
        { rewrite !andb_true_iff. lia. }
        rewrite Hcond.
        assert (Hk : 0 <= rb0 * nct + cb0 < zlen tiles1) by nia.
        rewrite (vget_ok d) by exact Hk. cbn [bind].
        rewrite vset_ok by exact Hk. apply returns_ok.
        rewrite zlen_zupd. split; [exact Hl1 |].
        intros rb cb Hrb Hcb. cbv zeta.
        destruct (Hinv1 rb cb Hrb Hcb) as (H1 & H2 & H3).
        replace (idx + 1 - rs) with (idx - rs + 1) by lia.
        rewrite entries_at_snoc by lia.
        replace (rs + (idx - rs)) with idx by lia.
        rewrite filter_app, zlen_app. cbn [filter]. fold j.
        unfold hit at 2. cbn [fst].
        pose proof (grid_tile_contains X cfg i j rb cb HTR HTC Hi Hcol)
          as Hhit.
        fold rb0 cb0 in Hhit.
        destruct (Z.eq_dec (rb * nct + cb) (rb0 * nct + cb0)) as [E | Hne].
        -- apply row_index_inj in E; [| lia | lia]. destruct E as [-> ->].
           rewrite (proj2 Hhit (conj eq_refl eq_refl)).
           rewrite zth_zupd_eq by lia.
           unfold incr_nnz, bounds. cbn [row_start row_end col_start col_end
                                          tile_nnz is_dense].
           split; [exact H1 |]. split; [exact H2 |].
           rewrite H3. unfold zlen at 3. simpl. lia.
        -- rewrite zth_zupd_neq by nia.
           split; [exact H1 |]. split; [exact H2 |].
           destruct (tile_contains i j (grid_tile X cfg rb cb)) eqn:Et.
           ++ destruct (proj1 Hhit eq_refl) as [-> ->]. contradiction.
           ++ rewrite H3. unfold zlen at 3. simpl. lia.
    + cbv beta. intros tiles1 (Hl1 & Hinv1).
      split; [exact Hl1 |]. intros rb cb Hrb Hcb. cbv zeta.
      destruct (Hinv1 rb cb Hrb Hcb) as (H1 & H2 & H3).
      do 2 (split; [assumption |]).
      rewrite H3. unfold upto. rewrite zrange_snoc, map_app, zsum_app by lia.
      simpl. rewrite Z.add_0_r. unfold row_entries, rowlen. fold rs re. lia.
Qed.

(** [make_2d_tiles] stores the tile of block [(rb, cb)] at index
    [rb * num_col_tiles + cb]; the tile has the bounds of the block, its flag
    is clear and its [nnz] is the number of stored nonzeros inside it. *)
Lemma make_2d_tiles_counts (d : Tile) :
  returns (make_2d_tiles X cfg) (fun tiles =>
    zlen tiles = ceil_div (nrows X) (tile_rows cfg)
                 * ceil_div (ncols X) (tile_cols cfg) /\
    forall rb cb,
      0 <= rb < ceil_div (nrows X) (tile_rows cfg) ->
      0 <= cb < ceil_div (ncols X) (tile_cols cfg) ->
      let t := zth d tiles (rb * ceil_div (ncols X) (tile_cols cfg) + cb) in
      bounds t = bounds (grid_tile X cfg rb cb) /\
      is_dense t = false /\
      tile_nnz t = tile_count X t).
Proof.
  pose proof (ceil_div_nonneg _ _ (wf_nrows X Hwf) HTR) as Hnr.
  pose proof (ceil_div_nonneg _ _ (wf_ncols X Hwf) HTC) as Hnc.
  pose proof (zlen_grid X cfg (wf_nrows X Hwf) (wf_ncols X Hwf) HTR HTC)
    as Hgl.
  unfold make_2d_tiles. cbv zeta.
  replace ((tile_rows cfg =? 0) || (tile_cols cfg =? 0)) with false
    by (symmetry; apply orb_false_intro; lia).
  replace (ceil_div (nrows X) (tile_rows cfg)
           * ceil_div (ncols X) (tile_cols cfg) <? 0) with false
    by (symmetry; apply Z.ltb_ge; nia).
  rewrite (make_2d_tiles_init X cfg Hwf HTR HTC). cbn [bind].
  eapply returns_weaken; [apply (make_2d_tiles_scan d); exact Hgl |].
  cbv beta. intros tiles (Hl & Hinv).
  split; [lia |]. intros rb cb Hrb Hcb. cbv zeta.
  destruct (Hinv rb cb Hrb Hcb) as (H1 & H2 & H3).
  rewrite zth_grid in H1, H2, H3 by assumption.
  split; [exact H1 |]. split; [exact H2 |].
  rewrite H3. cbn [grid_tile mk_tile tile_nnz].
  rewrite (tile_count_same_bounds X _ _ H1). reflexivity.
Qed.

End TileCounts.

Lemma make_2d_tiles_forall (X : CSR) (cfg : TilingConfig) :
  wf_csr X -> 0 < tile_rows cfg -> 0 < tile_cols cfg ->
  returns (make_2d_tiles X cfg) (fun tiles =>
    map bounds tiles = map bounds (grid X cfg) /\
    sum_nnz tiles = nnz X /\
    Forall (fun t => tile_in_bounds X t /\ tile_nnz t = tile_count X t /\
                     is_dense t = false) tiles).
Proof.
  intros Hwf HTR HTC.
  destruct (make_2d_tiles_returns X cfg Hwf HTR HTC)
    as (tiles & Hrun & Hb & Hsum).
  destruct (make_2d_tiles_counts X cfg Hwf HTR HTC (mk_tile 0 0 0 0))
    as (tiles' & Hrun' & Hl & Hinv).
  rewrite Hrun in Hrun'. injection Hrun' as <-.
  exists tiles. split; [exact Hrun |].
  split; [exact Hb |]. split; [exact Hsum |].
  apply Forall_forall. intros t Ht.
  destruct (In_zth (mk_tile 0 0 0 0) tiles t Ht) as (k & Hk & <-).
  set (nrt := ceil_div (nrows X) (tile_rows cfg)) in *.
  set (nct := ceil_div (ncols X) (tile_cols cfg)) in *.
  pose proof (ceil_div_nonneg _ _ (wf_ncols X Hwf) HTC) as Hnc.
  fold nct in Hnc.
  assert (Hpos : 0 < nct).
  { destruct (Z.eq_dec nct 0) as [E | Hne]; [| lia].
    rewrite E, Z.mul_0_r in Hl. lia. }
  pose proof (Z.div_mod k nct ltac:(lia)) as Hdm.
  pose proof (Z.mod_pos_bound k nct Hpos) as Hmod.
  assert (Hdiv : 0 <= k / nct < nrt).
  { split; [apply Z.div_pos; lia | apply Z.div_lt_upper_bound; nia]. }
  specialize (Hinv (k / nct) (k mod nct) Hdiv Hmod). cbv zeta in Hinv.
  replace (k / nct * nct + k mod nct) with k in Hinv by lia.
  destruct Hinv as (H1 & H2 & H3).
  split; [| split; assumption].
  apply (tile_in_bounds_same X _ _ H1).
  pose proof (grid_in_bounds X cfg HTR HTC) as Hg.
  rewrite Forall_forall in Hg. apply Hg.
  rewrite <- (zth_grid X cfg (mk_tile 0 0 0 0)) by assumption.
  apply zth_In.
  rewrite (zlen_grid X cfg (wf_nrows X Hwf) (wf_ncols X Hwf) HTR HTC).
  fold nrt nct. nia.
Qed.

(** X13: [make_2d_tiles] returns [num_row_tiles * num_col_tiles] tiles. The tile
    of block [(rb, cb)] sits at index [rb * num_col_tiles + cb], spans rows [rb
    * tile_rows, min ((rb + 1) * tile_rows, nrows)) and the like columns, is not
    empty, has its flag clear, and its [nnz] field is the number of stored
    nonzeros inside its bounds. *)
Theorem make_2d_tiles_layout (X : CSR) (cfg : TilingConfig) (d : Tile) :
  wf_csr X -> 0 < tile_rows cfg -> 0 < tile_cols cfg ->
  returns (make_2d_tiles X cfg) (fun tiles =>
    zlen tiles = ceil_div (nrows X) (tile_rows cfg)
                 * ceil_div (ncols X) (tile_cols cfg) /\
    forall rb cb,
      0 <= rb < ceil_div (nrows X) (tile_rows cfg) ->
      0 <= cb < ceil_div (ncols X) (tile_cols cfg) ->
      let t := zth d tiles (rb * ceil_div (ncols X) (tile_cols cfg) + cb) in
      row_start t = rb * tile_rows cfg /\
      row_end t = Z.min (rb * tile_rows cfg + tile_rows cfg) (nrows X) /\
      col_start t = cb * tile_cols cfg /\
      col_end t = Z.min (cb * tile_cols cfg + tile_cols cfg) (ncols X) /\
      row_start t < row_end t /\ col_start t < col_end t /\
      is_dense t = false /\
      tile_nnz t = tile_count X t).
Proof.
  intros Hwf HTR HTC. eapply returns_weaken.
  - apply (make_2d_tiles_counts X cfg Hwf HTR HTC d).
  - cbv beta. intros tiles (Hl & Hinv). split; [exact Hl |].
    intros rb cb Hrb Hcb. cbv zeta.
    destruct (Hinv rb cb Hrb Hcb) as (H1 & H2 & H3).
    apply bounds_inv in H1. destruct H1 as (E1 & E2 & E3 & E4).
    cbn [grid_tile mk_tile row_start row_end col_start col_end] in *.
    pose proof (lt_ceil_div rb (nrows X) (tile_rows cfg) HTR Hrb).
    pose proof (lt_ceil_div cb (ncols X) (tile_cols cfg) HTC Hcb).
    repeat split; try assumption; lia.
Qed.

Lemma make_2d_tiles_layout_witness :
  returns (make_2d_tiles X_example cfg_2x2) (fun tiles =>
    zlen tiles = ceil_div (nrows X_example) (tile_rows cfg_2x2)
                 * ceil_div (ncols X_example) (tile_cols cfg_2x2) /\
    forall rb cb,
      0 <= rb < ceil_div (nrows X_example) (tile_rows cfg_2x2) ->
      0 <= cb < ceil_div (ncols X_example) (tile_cols cfg_2x2) ->
      let t := zth (mk_tile 0 0 0 0) tiles
                 (rb * ceil_div (ncols X_example) (tile_cols cfg_2x2) + cb) in
      row_start t = rb * tile_rows cfg_2x2 /\
      row_end t = Z.min (rb * tile_rows cfg_2x2 + tile_rows cfg_2x2)
                        (nrows X_example) /\
      col_start t = cb * tile_cols cfg_2x2 /\
      col_end t = Z.min (cb * tile_cols cfg_2x2 + tile_cols cfg_2x2)
                        (ncols X_example) /\
      row_start t < row_end t /\ col_start t < col_end t /\
      is_dense t = false /\
      tile_nnz t = tile_count X_example t).
Proof.
  apply (make_2d_tiles_layout X_example cfg_2x2 (mk_tile 0 0 0 0)).
  - apply check_csr_sound. reflexivity.
  - reflexivity.
  - reflexivity.
Defined.

(** * Classification *)

Lemma predict_tile_density_fold (threshold : Q) (tiles : list Tile) :
  forall done d s,
  fold_left (fun '(done, (dense_count, sparse_count)) tile =>
    let tile := set_is_dense tile (Qle_bool threshold (density tile)) in
    if is_dense tile
    then (done ++ [tile], (dense_count + 1, sparse_count))
    else (done ++ [tile], (dense_count, sparse_count + 1)))
    tiles (done, (d, s))
  = (done ++ map (classify threshold) tiles,
     (d + zlen (filter (fun t => Qle_bool threshold (density t)) tiles),
      s + zlen (filter (fun t => negb (Qle_bool threshold (density t)))
                  tiles))).
Proof.
  induction tiles as [|t tiles IH]; intros done d s.
  - simpl. rewrite app_nil_r. unfold zlen. simpl. now rewrite !Z.add_0_r.
  - cbn [fold_left map filter]. cbv zeta. cbn [set_is_dense is_dense].
    destruct (Qle_bool threshold (density t)) eqn:E; cbn [negb];
      rewrite IH, <- app_assoc; cbn [app]; unfold classify at 2; rewrite E;
      rewrite ?zlen_cons; do 2 f_equal; lia.
Qed.

(** X14: [predict_tile_density] touches nothing but the flag: every tile keeps
    its bounds and its count and its flag becomes [density >= threshold].
    The two numbers it returns count the tiles on each side, and add up to
    the number of tiles. *)
Theorem predict_tile_density_classifies (tiles : list Tile) (threshold : Q) :
  predict_tile_density tiles threshold
  = (map (classify threshold) tiles,
     (zlen (filter (fun t => Qle_bool threshold (density t)) tiles),
      zlen (filter (fun t => negb (Qle_bool threshold (density t))) tiles)))
  /\ zlen (filter (fun t => Qle_bool threshold (density t)) tiles)
     + zlen (filter (fun t => negb (Qle_bool threshold (density t))) tiles)
     = zlen tiles.
Proof.
  split.
  - unfold predict_tile_density. now rewrite predict_tile_density_fold.
  - induction tiles as [|t tiles IH]; [reflexivity |].
    cbn [filter]. destruct (Qle_bool threshold (density t)); cbn [negb];
      rewrite !zlen_cons; lia.
Qed.

(** * Densities *)

Lemma density_range (t : Tile) :
  row_start t <= row_end t -> col_start t <= col_end t ->
  0 <= tile_nnz t
    <= (row_end t - row_start t) * (col_end t - col_start t) ->
  (0 <= density t <= 1)%Q.
Proof.
  intros Hr Hc Hn. unfold density. cbv zeta.
  destruct ((row_end t - row_start t =? 0) || (col_end t - col_start t =? 0))
    eqn:E.
  - split; [apply Qle_refl | discriminate].
  - apply orb_false_elim in E. destruct E as [E1 E2].
    apply Z.eqb_neq in E1, E2.
    set (rows := row_end t - row_start t) in *.
    set (cols := col_end t - col_start t) in *.
    assert (Hpos : (0 < inject_Z rows * inject_Z cols)%Q).
    { rewrite <- inject_Z_mult. change 0%Q with (inject_Z 0).
      rewrite <- Zlt_Qlt. nia. }
    split.
    + apply Qle_shift_div_l; [exact Hpos |].
      rewrite Qmult_0_l. change 0%Q with (inject_Z 0).
      rewrite <- Zle_Qle. lia.
    + apply Qle_shift_div_r; [exact Hpos |].
      rewrite Qmult_1_l, <- inject_Z_mult, <- Zle_Qle. lia.
Qed.

Lemma zsum_le {A} (f g : A -> Z) (l : list A) :
  (forall x, In x l -> f x <= g x) -> zsum (map f l) <= zsum (map g l).
Proof.
  induction l as [|x t IH]; intros H; simpl; [lia |].
  pose proof (H x (or_introl eq_refl)).
  assert (zsum (map f t) <= zsum (map g t))
    by (apply IH; intros y Hy; apply H; now right).
  lia.
Qed.

Lemma zsum_indicator (a b w n : Z) :
  0 <= a -> 0 <= n ->
  zsum (map (fun r => if (a <=? r) && (r <? b) then w else 0) (zrange 0 n))
  = w * Z.max 0 (Z.min b n - a).
Proof.
  intros Ha Hn. pattern n. apply natlike_ind; [| | exact Hn].
  - simpl. replace (Z.max 0 (Z.min b 0 - a)) with 0 by lia. lia.
  - intros k Hk IH. unfold Z.succ.
    rewrite zrange_snoc, map_app, zsum_app, IH by lia. simpl.
    destruct ((a <=? k) && (k <? b)) eqn:E.
    + apply andb_prop in E.
      replace (Z.max 0 (Z.min b (k + 1) - a))
        with (Z.max 0 (Z.min b k - a) + 1) by lia.
      lia.
    + apply andb_false_iff in E.
      replace (Z.max 0 (Z.min b (k + 1) - a))
        with (Z.max 0 (Z.min b k - a)) by lia.
      lia.
Qed.

Lemma NoDup_map_filter {A B} (f : A -> B) (P : A -> bool) (l : list A) :
  NoDup (map f l) -> NoDup (map f (filter P l)).
Proof.
  induction l as [|x t IH]; intros H; [constructor |].
  simpl in H. inversion H as [|? ? Hx Ht]; subst. simpl.
  destruct (P x); [| now apply IH].
  simpl. constructor; [| now apply IH].
  intros Hin. apply Hx. apply in_map_iff in Hin.
  destruct Hin as (y & E & Hy). apply filter_In in Hy.
  apply in_map_iff. exists y. tauto.
Qed.

Lemma NoDup_range_length (l : list Z) (a b : Z) :
  a <= b -> NoDup l -> (forall x, In x l -> a <= x < b) -> zlen l <= b - a.
Proof.
  intros Hab Hnd Hin.
  assert (H : (length l <= length (zrange a (b - a)))%nat).
  { apply NoDup_incl_length; [exact Hnd |].
    intros x Hx. apply in_zrange; [lia |]. specialize (Hin x Hx). lia. }
  pose proof (zlen_zrange a (b - a) ltac:(lia)) as Hz.
  unfold zlen in *. lia.
Qed.

(** A tile inside a well-formed matrix holds at most one stored nonzero per
    position. *)
Lemma tile_count_range (X : CSR) (t : Tile) :
  wf_csr X -> tile_in_bounds X t ->
  0 <= tile_count X t
    <= (row_end t - row_start t) * (col_end t - col_start t).
Proof.
  intros Hwf (Hr1 & Hr2 & Hc1 & Hc2). unfold tile_count. split.
  - apply Z.le_trans with (zsum (map (fun _ => 0) (zrange 0 (nrows X)))).
    + rewrite zsum_map_const0. lia.
    + apply zsum_le. intros r _. apply zlen_nonneg.
  - pose proof (wf_nrows X Hwf) as Hn.
    assert (Em : Z.max 0 (Z.min (row_end t) (nrows X) - row_start t)
                 = row_end t - row_start t) by lia.
    rewrite (Z.mul_comm (row_end t - row_start t)), <- Em.
    rewrite <- zsum_indicator by lia.
    apply zsum_le. intros r Hr. apply in_zrange in Hr; [| lia].
    destruct ((row_start t <=? r) && (r <? row_end t)) eqn:E.
    + rewrite <- (zlen_map fst).
      apply NoDup_range_length; [lia | |].
      * apply NoDup_map_filter, StronglySorted_lt_NoDup.
        apply (wf_row_sorted X Hwf). lia.
      * intros c Hc. apply in_map_iff in Hc. destruct Hc as (e & <- & He).
        apply filter_In in He. destruct He as [_ He].
        unfold tile_contains in He. rewrite !andb_true_iff in He. lia.
    + rewrite filter_none; [unfold zlen; simpl; lia |].
      intros e _. unfold tile_contains. rewrite E. reflexivity.
Qed.

(** X15: every tile that [make_2d_tiles] returns lies inside the matrix, counts
    at most one nonzero per position, and so has a density between 0 and
    1. *)
Theorem make_2d_tiles_density_range (X : CSR) (cfg : TilingConfig) :
  wf_csr X -> 0 < tile_rows cfg -> 0 < tile_cols cfg ->
  returns (make_2d_tiles X cfg) (fun tiles =>
    Forall (fun t =>
      tile_in_bounds X t /\
      0 <= tile_nnz t
        <= (row_end t - row_start t) * (col_end t - col_start t) /\
      (0 <= tile_density t <= 1)%Q) tiles).
Proof.
  intros Hwf HTR HTC. eapply returns_weaken.
  - apply make_2d_tiles_forall; assumption.
  - cbv beta. intros tiles (_ & _ & Hall).
    eapply Forall_impl; [| exact Hall]. cbv beta.
    intros t (Hin & Hnnz & _).
    pose proof (tile_count_range X t Hwf Hin) as Hrange.
    rewrite <- Hnnz in Hrange.
    split; [exact Hin |]. split; [exact Hrange |].
    destruct Hin as (Hr1 & Hr2 & Hc1 & Hc2).
    apply density_range; lia.
Qed.

Lemma make_2d_tiles_density_range_witness :
  returns (make_2d_tiles X_example cfg_2x2) (fun tiles =>
    Forall (fun t =>
      tile_in_bounds X_example t /\
      0 <= tile_nnz t
        <= (row_end t - row_start t) * (col_end t - col_start t) /\
      (0 <= tile_density t <= 1)%Q) tiles).
Proof.
  apply (make_2d_tiles_density_range X_example cfg_2x2).
  - apply check_csr_sound. reflexivity.
  - reflexivity.
  - reflexivity.
Defined.

(** * What the tile kernels compute *)

Lemma zrange_app a n m :
  0 <= n -> 0 <= m -> zrange a (n + m) = zrange a n ++ zrange (a + n) m.
Proof.
  intros Hn Hm. unfold zrange.
  rewrite Z2Nat.inj_add, zseq_app by lia. now rewrite Z2Nat.id by lia.
Qed.

Lemma zseq_shift a b n : map (Z.add a) (zseq b n) = zseq (a + b) n.
Proof.
  revert b. induction n as [|n IH]; intros b; [reflexivity |].
  simpl. rewrite IH. do 2 f_equal. lia.
Qed.

Lemma zrange_shift a n : map (Z.add a) (zrange 0 n) = zrange a n.
Proof. unfold zrange. rewrite zseq_shift. f_equal. lia. Qed.

Lemma zsum_map_zero {A} (f : A -> Z) (l : list A) :
  (forall x, In x l -> f x = 0) -> zsum (map f l) = 0.
Proof.
  intros H. rewrite (map_ext_in f (fun _ => 0) l H). apply zsum_map_const0.
Qed.

(** The nonzeros of a tile, counted over the rows of the tile. *)
Lemma tile_count_rows (X : CSR) (t : Tile) :
  tile_in_bounds X t ->
  tile_count X t
  = zsum (map (fun r => zlen (filter (in_cols t)
                                (row_entries X (row_start t + r))))
              (zrange 0 (row_end t - row_start t))).
Proof.
  intros (Hr1 & Hr2 & Hc1 & Hc2). unfold tile_count.
  replace (nrows X)
    with (row_start t + ((row_end t - row_start t) + (nrows X - row_end t)))
    at 1 by lia.
  rewrite !zrange_app, !map_app, !zsum_app by lia.
  rewrite Z.add_0_l.
  replace (row_start t + (row_end t - row_start t)) with (row_end t) by lia.
  rewrite zsum_map_zero, (zsum_map_zero _ (zrange (row_end t) _)).
  - rewrite <- (zrange_shift (row_start t)), map_map. simpl.
    rewrite Z.add_0_r. f_equal. apply map_ext_in. intros r Hr.
    apply in_zrange in Hr; [| lia].
    f_equal. apply filter_ext. intros e.
    unfold tile_contains, in_cols.
    replace (row_start t <=? row_start t + r) with true
      by (symmetry; apply Z.leb_le; lia).
    replace (row_start t + r <? row_end t) with true
      by (symmetry; apply Z.ltb_lt; lia).
    now rewrite Z.geb_leb.
  - intros r Hr. apply in_zrange in Hr; [| lia].
    rewrite filter_none; [reflexivity |].
    intros e _. unfold tile_contains.
    replace (r <? row_end t) with false by (symmetry; apply Z.ltb_ge; lia).
    now rewrite andb_false_r.
  - intros r Hr. apply in_zrange in Hr; [| lia].
    rewrite filter_none; [reflexivity |].
    intros e _. unfold tile_contains.
    replace (row_start t <=? r) with false
      by (symmetry; apply Z.leb_gt; lia).
    reflexivity.
Qed.

Lemma extract_tile_csr_full (X : CSR) (tile : Tile) :
  wf_csr X -> tile_in_bounds X tile ->
  returns (extract_tile_csr X tile) (fun Xt =>
    nrows Xt = row_end tile - row_start tile /\
    ncols Xt = col_end tile - col_start tile /\
    wf_csr Xt /\
    (forall r, 0 <= r < row_end tile - row_start tile ->
       row_entries Xt r = tile_row tile (row_entries X (row_start tile + r)))
    /\ nnz Xt = tile_count X tile).
Proof.
  intros Hwf Hin. eapply returns_weaken.
  - apply extract_tile_csr_returns; eassumption.
  - cbv beta. intros Xt (Hnr & Hnc & Hwft & Hrows).
    do 4 (split; [assumption |]).
    rewrite <- (wf_nnz_telescope Xt Hwft), (tile_count_rows X tile Hin).
    rewrite Hnr. f_equal. apply map_ext_in. intros r Hr.
    destruct Hin as (Hr1 & Hr2 & _).
    apply in_zrange in Hr; [| lia].
    rewrite <- zlen_row_entries by (auto; lia).
    rewrite Hrows by lia. unfold tile_row. apply zlen_map.
Qed.

(** X16: [extract_tile_csr] cuts the tile out of [X]: row [r] of the result
    holds the entries of row [row_start + r] of [X] whose columns lie in
    [col_start, col_end), in the same order, with [col_start] subtracted from
    the column; [nnz] is the number of stored nonzeros inside the tile. *)
Theorem extract_tile_csr_entries (X : CSR) (tile : Tile) :
  wf_csr X -> tile_in_bounds X tile ->
  returns (extract_tile_csr X tile) (fun Xt =>
    nrows Xt = row_end tile - row_start tile /\
    ncols Xt = col_end tile - col_start tile /\
    (forall r, 0 <= r < row_end tile - row_start tile ->
       row_entries Xt r
       = map (fun e => (fst e - col_start tile, snd e))
           (filter (in_cols tile) (row_entries X (row_start tile + r))))
    /\ nnz Xt = tile_count X tile).
Proof.
  intros Hwf Hin. eapply returns_weaken.
  - apply extract_tile_csr_full; eassumption.
  - cbv beta. intros Xt (Hnr & Hnc & _ & Hrows & Hnnz). auto.
Qed.

Lemma extract_tile_csr_entries_witness :
  returns (extract_tile_csr X_example (mk_tile 0 2 2 4)) (fun Xt =>
    nrows Xt = 2 - 0 /\ ncols Xt = 4 - 2 /\
    (forall r, 0 <= r < 2 - 0 ->
       row_entries Xt r
       = map (fun e => (fst e - 2, snd e))
           (filter (in_cols (mk_tile 0 2 2 4))
                   (row_entries X_example (0 + r))))
    /\ nnz Xt = tile_count X_example (mk_tile 0 2 2 4)).
Proof.
  apply (extract_tile_csr_entries X_example (mk_tile 0 2 2 4)).
  - apply check_csr_sound. reflexivity.
  - unfold tile_in_bounds. simpl. lia.
Defined.

(** X17: the tiler and the extractor agree: for every tile that [make_2d_tiles]
    returns, the matrix that [extract_tile_csr] cuts out stores exactly
    [tile.nnz] entries. *)
Theorem make_2d_tiles_nnz_is_extracted (X : CSR) (cfg : TilingConfig) :
  wf_csr X -> 0 < tile_rows cfg -> 0 < tile_cols cfg ->
  returns (make_2d_tiles X cfg) (fun tiles =>
    Forall (fun t =>
      returns (extract_tile_csr X t) (fun Xt => nnz Xt = tile_nnz t)) tiles).
Proof.
  intros Hwf HTR HTC. eapply returns_weaken.
  - apply make_2d_tiles_forall; assumption.
  - cbv beta. intros tiles (_ & _ & Hall).
    eapply Forall_impl; [| exact Hall]. cbv beta.
    intros t (Hin & Hnnz & _).
    eapply returns_weaken.
    + apply extract_tile_csr_full; eassumption.
    + cbv beta. intros Xt (_ & _ & _ & _ & Hx). congruence.
Qed.

Lemma make_2d_tiles_nnz_is_extracted_witness :
  returns (make_2d_tiles X_example cfg_2x2) (fun tiles =>
    Forall (fun t =>
      returns (extract_tile_csr X_example t)
              (fun Xt => nnz Xt = tile_nnz t)) tiles).
Proof.
  apply (make_2d_tiles_nnz_is_extracted X_example cfg_2x2).
  - apply check_csr_sound. reflexivity.
  - reflexivity.
  - reflexivity.
Defined.

Lemma cell_from_in (y : Z) (es : list (Z * Z)) (c v : Z) :
  NoDup (map fst es) -> In (c, v) es -> cell_from y es c = v.
Proof.
  revert y. induction es as [|e es IH]; intros y Hnd Hin; [contradiction |].
  rewrite cell_from_cons. simpl in Hnd.
  inversion Hnd as [|? ? Hx Hrest]; subst.
  destruct Hin as [-> | Hin].
  - cbn [fst snd]. rewrite Z.eqb_refl. now apply cell_from_notin.
  - now apply IH.
Qed.

(** X18: [materialize_csr_to_dense] writes every stored value at its position
    and leaves zero everywhere else. *)
Theorem materialize_csr_to_dense_cells (X_tile : CSR) :
  wf_csr X_tile ->
  returns (materialize_csr_to_dense X_tile) (fun X_dense =>
    zlen X_dense = nrows X_tile * ncols X_tile /\
    forall i c, 0 <= i < nrows X_tile -> 0 <= c < ncols X_tile ->
      (forall v, In (c, v) (row_entries X_tile i) ->
                 zth 0 X_dense (i * ncols X_tile + c) = v) /\
      (~ In c (map fst (row_entries X_tile i)) ->
       zth 0 X_dense (i * ncols X_tile + c) = 0)).
Proof.
  intros Hwf. eapply returns_weaken.
  - apply materialize_csr_to_dense_returns, Hwf.
  - cbv beta. intros Xd (Hl & Hcells). split; [exact Hl |].
    intros i c Hi Hc. rewrite Hcells by assumption. split.
    + intros v Hin. apply cell_from_in; [| exact Hin].
      apply StronglySorted_lt_NoDup. now apply (wf_row_sorted X_tile Hwf).
    + apply cell_from_notin.
Qed.

Lemma materialize_csr_to_dense_cells_witness :
  returns (materialize_csr_to_dense X_example) (fun X_dense =>
    zlen X_dense = nrows X_example * ncols X_example /\
    forall i c, 0 <= i < nrows X_example -> 0 <= c < ncols X_example ->
      (forall v, In (c, v) (row_entries X_example i) ->
                 zth 0 X_dense (i * ncols X_example + c) = v) /\
      (~ In c (map fst (row_entries X_example i)) ->
       zth 0 X_dense (i * ncols X_example + c) = 0)).
Proof.
  apply (materialize_csr_to_dense_cells X_example).
  apply check_csr_sound. reflexivity.
Defined.

(** X19: [dense_spmm_cpu_tile] returns the dense product: entry [(i, j)] is the
    sum over [k] of [X_dense[i, k] * W_dense[k, j]]. *)
Theorem dense_spmm_cpu_tile_product (X_dense W_dense : list Z) (M K N : Z) :
  0 <= M -> 0 <= K -> 0 <= N ->
  zlen X_dense = M * K -> zlen W_dense = K * N ->
  returns (dense_spmm_cpu_tile X_dense W_dense M K N) (fun Y =>
    zlen Y = M * N /\
    forall i j, 0 <= i < M -> 0 <= j < N ->
      zth 0 Y (i * N + j)
      = zsum (map (fun k => zth 0 X_dense (i * K + k)
                            * zth 0 W_dense (k * N + j))
                  (zrange 0 K))).
Proof. apply dense_spmm_cpu_tile_returns. Qed.

Lemma dense_spmm_cpu_tile_product_witness :
  returns (dense_spmm_cpu_tile [1; 2; 3; 4] W_example 1 4 2) (fun Y =>
    zlen Y = 1 * 2 /\
    forall i j, 0 <= i < 1 -> 0 <= j < 2 ->
      zth 0 Y (i * 2 + j)
      = zsum (map (fun k => zth 0 [1; 2; 3; 4] (i * 4 + k)
                            * zth 0 W_example (k * 2 + j))
                  (zrange 0 4))).
Proof.
  apply (dense_spmm_cpu_tile_product [1; 2; 3; 4] W_example 1 4 2);
    first [lia | reflexivity].
Defined.

(** X20: [permute_dense_rows] and [permute_dense_cols] move the rows, and the
    columns, of a dense matrix as the map says: new row [i] is old row
    [m i], new column [k] is old column [m k]. *)
Theorem permute_dense_moves (X_dense rm cm : list Z) (M K : Z) :
  is_perm M rm -> is_perm K cm -> zlen X_dense = M * K ->
  returns (permute_dense_rows X_dense M K rm) (fun Xp =>
    zlen Xp = M * K /\
    forall i k, 0 <= i < M -> 0 <= k < K ->
      zth 0 Xp (i * K + k) = zth 0 X_dense (zth 0 rm i * K + k)) /\
  returns (permute_dense_cols X_dense M K cm) (fun Xp =>
    zlen Xp = M * K /\
    forall i k, 0 <= i < M -> 0 <= k < K ->
      zth 0 Xp (i * K + k) = zth 0 X_dense (i * K + zth 0 cm k)).
Proof.
  intros Hrm Hcm HX. split.
  - apply permute_dense_rows_returns; auto. destruct Hcm; lia.
  - apply permute_dense_cols_returns; auto. destruct Hrm; lia.
Qed.

Lemma permute_dense_moves_witness :
  returns (permute_dense_rows W_example 4 2 [2; 0; 3; 1]) (fun Xp =>
    zlen Xp = 4 * 2 /\
    forall i k, 0 <= i < 4 -> 0 <= k < 2 ->
      zth 0 Xp (i * 2 + k) = zth 0 W_example (zth 0 [2; 0; 3; 1] i * 2 + k))
  /\
  returns (permute_dense_cols W_example 4 2 [1; 0]) (fun Xp =>
    zlen Xp = 4 * 2 /\
    forall i k, 0 <= i < 4 -> 0 <= k < 2 ->
      zth 0 Xp (i * 2 + k) = zth 0 W_example (i * 2 + zth 0 [1; 0] k)).
Proof.
  apply (permute_dense_moves W_example [2; 0; 3; 1] [1; 0] 4 2).
  - apply check_perm_sound. reflexivity.
  - apply check_perm_sound. reflexivity.
  - reflexivity.
Defined.

(** * The dense pipeline checks the size of its slice *)

Section DenseMismatch.
Context {S : StdSort}.

(** X21: when the slice does not have one row per column of the tile, the dense
    pipeline throws after it has built the column permutation, and the
    sparse pipeline throws at once, with the message of [spmm_baseline] that
    names both sizes; neither reads out of bounds. *)
Theorem tile_pipelines_size_mismatch (X_tile : CSR) (W_tile : list Z)
  (W_tile_rows W_cols : Z) :
  wf_csr X_tile -> W_tile_rows <> ncols X_tile ->
  dense_perm_spmm_tile X_tile W_tile W_tile_rows W_cols
  = Throw "dense_perm_spmm_tile: column permutation size mismatch" /\
  sparse_spmm_tile X_tile W_tile W_tile_rows W_cols
  = Throw ("Matrix dimension mismatch: X.ncols=" ++ to_string (ncols X_tile)
           ++ " != W.nrows=" ++ to_string W_tile_rows).
Proof.
  intros Hwf Hne. split.
  - pose proof (wf_nrows X_tile Hwf) as HM.
    pose proof (wf_ncols X_tile Hwf) as HK.
    unfold dense_perm_spmm_tile. cbv zeta.
    destruct (materialize_csr_to_dense_returns X_tile Hwf)
      as (Xd & -> & HXd & _).
    cbn [bind].
    destruct (compute_nnz_per_row_returns X_tile Hwf) as (cnt & -> & Hcl & _).
    cbn [bind].
    pose proof (create_row_new2old_perm cnt true) as Hmr.
    rewrite Hcl in Hmr.
    destruct (permute_dense_rows_returns Xd _ (nrows X_tile) (ncols X_tile)
                Hmr HK HXd) as (Xrp & -> & HXrp & _).
    cbn [bind]. rewrite valloc_ok by lia. cbn [bind].
    destruct (nnz_per_col_scan_returns Xrp (nrows X_tile) (ncols X_tile)
                (repeat 0 (Z.to_nat (ncols X_tile))) HM HK HXrp)
      as (cnt2 & -> & Hcl2).
    { rewrite zlen_repeat; lia. }
    cbn [bind].
    pose proof (create_col_new2old_perm cnt2 true) as Hmc.
    rewrite (is_perm_len _ _ Hmc), Hcl2.
    replace (ncols X_tile =? W_tile_rows) with false
      by (symmetry; apply Z.eqb_neq; lia).
    reflexivity.
  - unfold sparse_spmm_tile, spmm_baseline.
    replace (ncols X_tile =? W_tile_rows) with false
      by (symmetry; apply Z.eqb_neq; lia).
    reflexivity.
Qed.

End DenseMismatch.

Lemma tile_pipelines_size_mismatch_witness :
  @dense_perm_spmm_tile stable_std_sort X_example W_example 3 2
  = Throw "dense_perm_spmm_tile: column permutation size mismatch" /\
  sparse_spmm_tile X_example W_example 3 2
  = Throw "Matrix dimension mismatch: X.ncols=4 != W.nrows=3".
Proof.
  apply (@tile_pipelines_size_mismatch stable_std_sort X_example W_example
           3 2).
  - apply check_csr_sound. reflexivity.
  - cbn. lia.
Defined.

(** * The counters of the driver *)

Section DriverCounters.
Context {S : StdSort}.
Variables (X : CSR) (W : list Z) (N : Z).
Hypothesis Hwf : wf_csr X.
Hypothesis HN : 0 <= N.
Hypothesis HW : zlen W = ncols X * N.

(** One tile of the driver: the product of the tile is added to its rows of
    [Y_final], [total_nnz] grows by the nonzeros of the tile, and
    [cpu_dense_tiles] by one if the density reaches the fixed threshold. *)
Lemma process_one_tile (tile : Tile) (st : DriverOut) :
  tile_in_bounds X tile -> zlen (Y_final st) = nrows X * N ->
  returns
    (X_tile <- extract_tile_csr X tile ;;
     W_tile <- extract_tile_W W (ncols X) N tile ;;
     let W_tile_rows := col_end tile - col_start tile in
     '(Y_tile, dense) <-
       (if Qle_bool DENSE_TILE_THRESHOLD (density tile)
        then Y_tile <- dense_perm_spmm_tile X_tile W_tile W_tile_rows N ;;
             Ok (Y_tile, cpu_dense_tiles st + 1)
        else Y_tile <- sparse_spmm_tile X_tile W_tile W_tile_rows N ;;
             Ok (Y_tile, cpu_dense_tiles st)) ;;
     let total := total_nnz st + nnz X_tile in
     let n_tile_rows := row_end tile - row_start tile in
     Y <- for_range 0 n_tile_rows (fun i Y =>
       let global_row := row_start tile + i in
       for_range 0 N (fun j Y =>
         t <- vget Y_tile (i * N + j) ;;
         y <- vget Y (global_row * N + j) ;;
         vset Y (global_row * N + j) (y + t)) Y) (Y_final st) ;;
     Ok {| Y_final := Y; total_nnz := total; cpu_dense_tiles := dense |})
    (fun st' =>
       zlen (Y_final st') = nrows X * N /\
       (forall r j, 0 <= r < nrows X -> 0 <= j < N ->
          zth 0 (Y_final st') (r * N + j)
          = zth 0 (Y_final st) (r * N + j) + contrib X W N tile r j) /\
       total_nnz st' = total_nnz st + tile_count X tile /\
       cpu_dense_tiles st'
       = cpu_dense_tiles st
         + (if Qle_bool DENSE_TILE_THRESHOLD (density tile) then 1 else 0)).
Proof.
  intros Hb HY. pose proof (wf_nrows X Hwf) as HM.
  destruct (extract_tile_csr_full X tile Hwf Hb)
    as (Xt & -> & Hnr & Hnc & Hwft & Hrows & Hnnz).
  cbn [bind].
  destruct (extract_tile_W_returns X W N tile Hb HN HW)
    as (Wt & -> & HWt & Hwt).
  cbn [bind]. cbv zeta. rewrite <- Hnc in *.
  rewrite (dense_perm_spmm_tile_spec Xt Wt N Hwft HN HWt).
  unfold sparse_spmm_tile.
  rewrite (spmm_baseline_spec Xt Wt N Hwft HN HWt).
  pose proof Hb as (Hr1 & Hr2 & Hc1 & Hc2).
  assert (Hacc : returns
    (for_range 0 (row_end tile - row_start tile) (fun i Y =>
       for_range 0 N (fun j Y =>
         t <- vget (spmm_spec Xt Wt N) (i * N + j) ;;
         y <- vget Y ((row_start tile + i) * N + j) ;;
         vset Y ((row_start tile + i) * N + j) (y + t)) Y) (Y_final st))
    (fun Y =>
       zlen Y = nrows X * N /\
       forall r j, 0 <= r < nrows X -> 0 <= j < N ->
         zth 0 Y (r * N + j)
         = zth 0 (Y_final st) (r * N + j) + contrib X W N tile r j)).
  { eapply returns_weaken.
    - apply (rows_update_returns _ (fun i => row_start tile + i)
               (fun i j y => y + zth 0 (spmm_spec Xt Wt N) (i * N + j))
               (row_end tile - row_start tile) N (nrows X * N)); try lia.
      + intros i Hi. nia.
      + intros i a Hi Ha.
        apply (row_update_returns _
                 (fun j y => y + zth 0 (spmm_spec Xt Wt N) (i * N + j))
                 ((row_start tile + i) * N) N (nrows X * N) a);
          [lia | nia | exact Ha | nia |].
        intros j a' Hj Ha'.
        rewrite (vget_ok 0)
          by (rewrite zlen_spmm_spec by lia; rewrite Hnr; nia).
        cbn [bind].
        rewrite (vget_ok 0) by nia. cbn [bind]. reflexivity.
    - cbv beta. intros Y (HY' & Hrows' & Hframe).
      split; [exact HY' |]. intros r j Hr Hj. unfold contrib.
      destruct ((row_start tile <=? r) && (r <? row_end tile)) eqn:E.
      + apply andb_prop in E.
        replace r with (row_start tile + (r - row_start tile)) at 1 by lia.
        rewrite Hrows' by lia.
        replace (row_start tile + (r - row_start tile)) with r by lia.
        f_equal. rewrite zth_spmm_spec by lia.
        rewrite Hrows by lia.
        replace (row_start tile + (r - row_start tile)) with r by lia.
        apply dot_tile_row; [exact Hj |].
        intros i Hi. apply Hwt; lia.
      + rewrite Hframe; [lia | nia |].
        intros i Hi. apply row_disjoint; [lia |].
        apply andb_false_iff in E. lia. }
  destruct (Qle_bool DENSE_TILE_THRESHOLD (density tile)); cbn [bind].
  - apply returns_bind. eapply returns_weaken; [exact Hacc |].
    cbv beta. intros Y (HY' & Hcells). apply returns_ok.
    cbn [Y_final total_nnz cpu_dense_tiles].
    split; [exact HY' |]. split; [exact Hcells |]. split; lia.
  - apply returns_bind. eapply returns_weaken; [exact Hacc |].
    cbv beta. intros Y (HY' & Hcells). apply returns_ok.
    cbn [Y_final total_nnz cpu_dense_tiles].
    split; [exact HY' |]. split; [exact Hcells |]. split; lia.
Qed.

Lemma process_tiles_counters (tiles : list Tile) :
  Forall (tile_in_bounds X) tiles ->
  returns (process_tiles_with_predictor X W (ncols X) N tiles) (fun out =>
    total_nnz out = zsum (map (tile_count X) tiles) /\
    cpu_dense_tiles out
    = zlen (filter (fun t => Qle_bool DENSE_TILE_THRESHOLD (density t))
              tiles)).
Proof.
  intros Hall. pose proof (wf_nrows X Hwf) as HM.
  unfold process_tiles_with_predictor. cbv zeta.
  rewrite valloc_ok by nia. cbn [bind].
  eapply returns_weaken.
  - apply (for_each_inv (fun done st =>
      zlen (Y_final st) = nrows X * N /\
      total_nnz st = zsum (map (tile_count X) done) /\
      cpu_dense_tiles st
      = zlen (filter (fun t => Qle_bool DENSE_TILE_THRESHOLD (density t))
                done)) _ tiles []).
    + cbn [Y_final total_nnz cpu_dense_tiles].
      split; [rewrite zlen_repeat; nia |]. split; reflexivity.
    + intros done tile st (rest & Hsplit) (HY & Htot & Hden).
      assert (Hb : tile_in_bounds X tile).
      { rewrite Forall_forall in Hall. apply Hall. simpl in Hsplit.
        rewrite Hsplit. apply in_or_app. right. now left. }
      eapply returns_weaken; [apply (process_one_tile tile st Hb HY) |].
      cbv beta. intros st' (HY' & _ & Htot' & Hden').
      split; [exact HY' |]. split.
      * rewrite Htot', Htot, map_app, zsum_app. simpl. lia.
      * rewrite Hden', Hden, filter_app, zlen_app. cbn [filter].
        destruct (Qle_bool DENSE_TILE_THRESHOLD (density tile));
          reflexivity.
  - cbv beta. intros out (_ & Htot & Hden). auto.
Qed.

End DriverCounters.

Lemma sum_nnz_counts (X : CSR) (tiles : list Tile) :
  Forall (fun t => tile_nnz t = tile_count X t) tiles ->
  zsum (map (tile_count X) tiles) = sum_nnz tiles.
Proof.
  unfold sum_nnz. induction 1 as [|t tiles Ht Hall IH]; [reflexivity |].
  simpl. fold (zsum (map tile_nnz tiles)).
  change (fold_right Z.add 0 (map tile_nnz tiles))
    with (zsum (map tile_nnz tiles)) in *.
  rewrite IH, Ht. reflexivity.
Qed.

(** X22: when the driver runs on the tiles of [make_2d_tiles], the nonzeros it
    accounts for add up to [X.nnz], and the number of tiles it sends down the
    dense pipeline is the number [predict_tile_density] reports as dense at
    the default threshold. *)
Theorem driver_counters (S : StdSort) (X : CSR) (W : list Z)
  (W_rows W_cols : Z) (cfg : TilingConfig) :
  wf_csr X -> W_rows = ncols X -> 0 <= W_cols ->
  zlen W = W_rows * W_cols ->
  0 < tile_rows cfg -> 0 < tile_cols cfg ->
  returns (make_2d_tiles X cfg) (fun tiles =>
    returns (process_tiles_with_predictor X W W_rows W_cols tiles)
      (fun out =>
         total_nnz out = nnz X /\
         cpu_dense_tiles out
         = fst (snd (predict_tile_density tiles DENSE_TILE_THRESHOLD)))).
Proof.
  intros Hwf -> HN HW HTR HTC. eapply returns_weaken.
  - apply make_2d_tiles_forall; assumption.
  - cbv beta. intros tiles (Hb & Hsum & Hall).
    eapply returns_weaken.
    + apply process_tiles_counters; auto.
      eapply Forall_impl; [| exact Hall]. cbv beta. tauto.
    + cbv beta. intros out (Htot & Hden). split.
      * rewrite Htot, <- Hsum. apply sum_nnz_counts.
        eapply Forall_impl; [| exact Hall]. cbv beta. tauto.
      * rewrite Hden. unfold predict_tile_density.
        now rewrite predict_tile_density_fold.
Qed.

Lemma driver_counters_witness :
  returns (make_2d_tiles X_example cfg_2x2) (fun tiles =>
    returns (@process_tiles_with_predictor stable_std_sort
               X_example W_example 4 2 tiles)
      (fun out =>
         total_nnz out = nnz X_example /\
         cpu_dense_tiles out
         = fst (snd (predict_tile_density tiles DENSE_TILE_THRESHOLD)))).
Proof.
  apply (driver_counters stable_std_sort X_example W_example 4 2 cfg_2x2).
  - apply check_csr_sound. reflexivity.
  - reflexivity.
  - lia.
  - reflexivity.
  - reflexivity.
  - reflexivity.
Defined.

(** * The in-place tile kernel and the tiled product of [spmm.cpp] *)

Section TiledProduct.
Variables (X : CSR) (W : list Z) (N : Z).
Hypothesis Hwf : wf_csr X.
Hypothesis HN : 0 <= N.
Hypothesis HW : zlen W = ncols X * N.

(** One row of a tile: the stored nonzeros of row [i] whose columns lie in
    the tile add their multiples of rows of [W] to row [i] of [Y]. *)
Lemma tile_row_returns (tile : Tile) (i : Z) (Y : list Z) :
  0 <= i < nrows X -> zlen Y = nrows X * N ->
  returns
    (for_range (zth 0 (indptr X) i) (zth 0 (indptr X) (i + 1))
       (fun idx Y =>
          k <- vget (indices X) idx ;;
          if (k >=? col_start tile) && (k <? col_end tile)
          then
            x_val <- vget (data X) idx ;;
            for_range 0 N (fun j Y =>
              w <- vget W (k * N + j) ;;
              y <- vget Y (i * N + j) ;;
              vset Y (i * N + j) (y + x_val * w)) Y
          else Ok Y) Y)
    (fun Y' =>
       zlen Y' = nrows X * N /\
       (forall j, 0 <= j < N ->
          zth 0 Y' (i * N + j)
          = zth 0 Y (i * N + j)
            + dot_entries (filter (in_cols tile) (row_entries X i)) W N j) /\
       (forall p, 0 <= p -> p < i * N \/ i * N + N <= p ->
          zth 0 Y' p = zth 0 Y p)).
Proof.
  intros Hi HY.
  pose proof (wf_indptr_mono X Hwf i Hi) as Hmono.
  pose proof (wf_ptr_bounds X Hwf i ltac:(lia)) as Hb1.
  pose proof (wf_ptr_bounds X Hwf (i + 1) ltac:(lia)) as Hb2.
  unfold row_entries, rowlen.
  set (rs := zth 0 (indptr X) i) in *.
  set (re := zth 0 (indptr X) (i + 1)) in *.
  apply (for_range_inv (fun idx Y' =>
    zlen Y' = nrows X * N /\
    (forall j, 0 <= j < N ->
       zth 0 Y' (i * N + j)
       = zth 0 Y (i * N + j)
         + dot_entries (filter (in_cols tile)
                          (entries_at (indices X) (data X) rs (idx - rs)))
             W N j)
    /\ (forall p, 0 <= p -> p < i * N \/ i * N + N <= p ->
          zth 0 Y' p = zth 0 Y p))); [lia | |].
  - split; [exact HY |]. split; [| intros; reflexivity].
    intros j Hj. replace (rs - rs) with 0 by lia.
    rewrite entries_at_0. unfold dot_entries. simpl. lia.
  - intros idx Y' Hidx (HY' & Hacc & Hframe).
    pose proof (wf_col_range X Hwf idx ltac:(lia)) as Hcol.
    rewrite (vget_ok 0) by (rewrite (wf_indices_len X Hwf); lia).
    cbn [bind].
    set (k := zth 0 (indices X) idx) in *.
    set (x := zth 0 (data X) idx).
    assert (Hsnoc : forall j,
      dot_entries (filter (in_cols tile)
                     (entries_at (indices X) (data X) rs (idx + 1 - rs)))
        W N j
      = dot_entries (filter (in_cols tile)
                       (entries_at (indices X) (data X) rs (idx - rs)))
          W N j
        + (if (k >=? col_start tile) && (k <? col_end tile)
           then x * zth 0 W (k * N + j) else 0)).
    { intros j. replace (idx + 1 - rs) with (idx - rs + 1) by lia.
      rewrite entries_at_snoc by lia.
      replace (rs + (idx - rs)) with idx by lia. fold k x.
      rewrite filter_app. cbn [filter]. unfold in_cols at 2. cbn [fst].
      destruct ((k >=? col_start tile) && (k <? col_end tile)).
      - rewrite dot_entries_snoc. reflexivity.
      - rewrite app_nil_r. lia. }
    destruct ((k >=? col_start tile) && (k <? col_end tile)) eqn:E.
    + rewrite (vget_ok 0) by (rewrite (wf_data_len X Hwf); lia).
      cbn [bind]. fold x.
      eapply returns_weaken.
      * apply (row_update_returns _
                 (fun j y => y + x * zth 0 W (k * N + j)) (i * N) N
                 (nrows X * N) Y'); [lia | nia | exact HY' | nia |].
        intros j a Hj Ha.
        rewrite (vget_ok 0) by nia. cbn [bind].
        rewrite (vget_ok 0) by nia. cbn [bind]. reflexivity.
      * cbv beta. intros Y'' (HY'' & Hrow & Hout).
        split; [lia |]. split.
        -- intros j Hj. rewrite Hrow, Hacc, Hsnoc by lia. lia.
        -- intros p Hp Hpo. rewrite Hout by lia. apply Hframe; lia.
    + apply returns_ok. split; [exact HY' |]. split; [| exact Hframe].
      intros j Hj. rewrite Hacc, Hsnoc by lia. lia.
Qed.

Lemma dense_spmm_tile_returns (tile : Tile) (Y : list Z) :
  tile_in_bounds X tile -> zlen Y = nrows X * N ->
  returns (dense_spmm_tile X W N tile Y N) (fun Y' =>
    zlen Y' = nrows X * N /\
    forall r j, 0 <= r < nrows X -> 0 <= j < N ->
      zth 0 Y' (r * N + j) = zth 0 Y (r * N + j) + contrib X W N tile r j).
Proof.
  intros (Hr1 & Hr2 & Hc1 & Hc2) HY.
  pose proof (wf_indptr_len X Hwf) as Hlen.
  unfold dense_spmm_tile. eapply returns_weaken.
  - apply (for_range_inv (fun i Y' =>
      zlen Y' = nrows X * N /\
      forall r j, 0 <= r < nrows X -> 0 <= j < N ->
        zth 0 Y' (r * N + j)
        = zth 0 Y (r * N + j)
          + (if (row_start tile <=? r) && (r <? i)
             then dot_entries (filter (in_cols tile) (row_entries X r)) W N j
             else 0))); [lia | |].
    + split; [exact HY |]. intros r j Hr Hj.
      replace ((row_start tile <=? r) && (r <? row_start tile)) with false
        by (symmetry; apply andb_false_iff; lia).
      lia.
    + intros i Y' Hi (HY' & Hcells).
      rewrite (vget_ok 0) by lia. cbn [bind].
      rewrite (vget_ok 0) by lia. cbn [bind].
      eapply returns_weaken.
      * apply (tile_row_returns tile i Y'); [lia | exact HY'].
      * cbv beta. intros Y'' (HY'' & Hrow & Hframe).
        split; [exact HY'' |]. intros r j Hr Hj.
        destruct (Z.eq_dec r i) as [-> | Hne].
        -- rewrite Hrow, Hcells by lia.
           replace ((row_start tile <=? i) && (i <? i)) with false
             by (symmetry; apply andb_false_iff; lia).
           replace ((row_start tile <=? i) && (i <? i + 1)) with true
             by (symmetry; apply andb_true_intro; split; lia).
           lia.
        -- rewrite Hframe, Hcells; [| lia | lia | nia |].
           ++ replace (r <? i + 1) with (r <? i); [reflexivity |].
              destruct (r <? i) eqn:E1; symmetry; lia.
           ++ apply row_disjoint; lia.
  - cbv beta. intros Y' (HY' & Hcells). split; [exact HY' |].
    intros r j Hr Hj. rewrite Hcells by assumption. reflexivity.
Qed.

Lemma spmm_tiled_returns (cfg : TilingConfig) :
  0 < tile_rows cfg -> 0 < tile_cols cfg ->
  spmm_tiled X W (ncols X) N cfg
  = Ok (spmm_spec X W N,
        ceil_div (nrows X) (tile_rows cfg)
        * ceil_div (ncols X) (tile_cols cfg)).
Proof.
  intros HTR HTC. pose proof (wf_nrows X Hwf) as HM.
  unfold spmm_tiled. rewrite Z.eqb_refl. cbn [negb]. cbv zeta.
  rewrite valloc_ok by nia. cbn [bind].
  destruct (make_2d_tiles_returns X cfg Hwf HTR HTC)
    as (tiles & -> & Hb & _).
  cbn [bind].
  assert (Hl : zlen tiles = ceil_div (nrows X) (tile_rows cfg)
                            * ceil_div (ncols X) (tile_cols cfg)).
  { rewrite <- (zlen_grid X cfg) by (auto; apply (wf_ncols X Hwf)).
    rewrite <- (zlen_map bounds tiles), Hb. apply zlen_map. }
  pose proof (predict_tile_density_bounds tiles DENSE_TILE_THRESHOLD) as Hpb.
  destruct (predict_tile_density tiles DENSE_TILE_THRESHOLD)
    as [tiles' counts].
  cbn [fst] in Hpb. rewrite Hb in Hpb.
  assert (Hall : Forall (tile_in_bounds X) tiles').
  { apply (same_bounds_Forall _ tiles' (grid X cfg)); auto.
    - apply tile_in_bounds_same.
    - now apply grid_in_bounds. }
  assert (Hloop : returns
    (for_each tiles' (fun tile Y =>
       if is_dense tile
       then dense_spmm_tile X W N tile Y N
       else dense_spmm_tile X W N tile Y N) (repeat 0 (Z.to_nat (nrows X * N))))
    (fun Y => Y = spmm_spec X W N)).
  { eapply returns_weaken.
    - apply (for_each_inv (fun done Y =>
        zlen Y = nrows X * N /\
        forall r j, 0 <= r < nrows X -> 0 <= j < N ->
          zth 0 Y (r * N + j)
          = zsum (map (fun t => contrib X W N t r j) done)) _ tiles' []).
      + split; [rewrite zlen_repeat; nia |].
        intros r j _ _. now rewrite zth_repeat.
      + intros done tile Y (rest & Hsplit) (HY & Hsum).
        assert (Hbt : tile_in_bounds X tile).
        { rewrite Forall_forall in Hall. apply Hall. simpl in Hsplit.
          rewrite Hsplit. apply in_or_app. right. now left. }
        assert (Hone : returns (dense_spmm_tile X W N tile Y N) (fun Y' =>
          zlen Y' = nrows X * N /\
          forall r j, 0 <= r < nrows X -> 0 <= j < N ->
            zth 0 Y' (r * N + j)
            = zsum (map (fun t => contrib X W N t r j) (done ++ [tile])))).
        { eapply returns_weaken;
            [apply dense_spmm_tile_returns; assumption |].
          cbv beta. intros Y' (HY' & Hcells). split; [exact HY' |].
          intros r j Hr Hj. rewrite Hcells, Hsum by assumption.
          rewrite map_app, zsum_app. simpl. lia. }
        destruct (is_dense tile); exact Hone.
    - cbv beta. intros Y (HY & Hcells). cbn [app] in Hcells.
      unfold spmm_spec. apply dense_ext; auto.
      intros r j Hr Hj. rewrite Hcells by assumption.
      rewrite (same_bounds_map (fun t => contrib X W N t r j)
                 tiles' (grid X cfg)); auto.
      + now apply grid_contrib_sum.
      + intros t t'. apply contrib_same_bounds. }
  destruct Hloop as (Y & Hrun & ->).
  match goal with
  | |- bind ?e _ = _ =>
      change e with
        (for_each tiles' (fun tile Y =>
           if is_dense tile
           then dense_spmm_tile X W N tile Y N
           else dense_spmm_tile X W N tile Y N)
           (repeat 0 (Z.to_nat (nrows X * N))))
  end.
  rewrite Hrun. cbn [bind]. now rewrite Hl.
Qed.

End TiledProduct.

(** X23: [dense_spmm_tile] adds to [Y], in place, the product of the part of [X]
    inside the tile with [W]: row [r] of the tile gains the dot products of
    its entries in [col_start, col_end) with the columns of [W]; rows outside
    the tile are left as they were. *)
Theorem dense_spmm_tile_adds_tile (X : CSR) (W : list Z) (W_cols : Z)
  (tile : Tile) (Y : list Z) :
  wf_csr X -> 0 <= W_cols -> zlen W = ncols X * W_cols ->
  tile_in_bounds X tile -> zlen Y = nrows X * W_cols ->
  returns (dense_spmm_tile X W W_cols tile Y W_cols) (fun Y' =>
    zlen Y' = nrows X * W_cols /\
    forall r j, 0 <= r < nrows X -> 0 <= j < W_cols ->
      zth 0 Y' (r * W_cols + j)
      = zth 0 Y (r * W_cols + j)
        + (if (row_start tile <=? r) && (r <? row_end tile)
           then dot_entries (filter (in_cols tile) (row_entries X r))
                  W W_cols j
           else 0)).
Proof.
  intros Hwf HN HW Hin HY.
  apply (dense_spmm_tile_returns X W W_cols Hwf HN HW tile Y Hin HY).
Qed.

Lemma dense_spmm_tile_adds_tile_witness :
  returns (dense_spmm_tile X_example W_example 2 (mk_tile 0 2 2 4)
             [0; 0; 0; 0; 0; 0; 0; 0] 2) (fun Y' =>
    zlen Y' = nrows X_example * 2 /\
    forall r j, 0 <= r < nrows X_example -> 0 <= j < 2 ->
      zth 0 Y' (r * 2 + j)
      = zth 0 [0; 0; 0; 0; 0; 0; 0; 0] (r * 2 + j)
        + (if (row_start (mk_tile 0 2 2 4) <=? r)
              && (r <? row_end (mk_tile 0 2 2 4))
           then dot_entries (filter (in_cols (mk_tile 0 2 2 4))
                               (row_entries X_example r)) W_example 2 j
           else 0)).
Proof.
  apply (dense_spmm_tile_adds_tile X_example W_example 2 (mk_tile 0 2 2 4)
           [0; 0; 0; 0; 0; 0; 0; 0]).
  - apply check_csr_sound. reflexivity.
  - lia.
  - reflexivity.
  - unfold tile_in_bounds. simpl. lia.
  - reflexivity.
Defined.

(** X24: [spmm_tiled] returns what the baseline returns, the product [X * W],
    together with the number of tiles of the grid.  The classification of the
    tiles does not matter: both branches run the same loops. *)
Theorem spmm_tiled_equals_baseline (X : CSR) (W : list Z)
  (W_rows W_cols : Z) (cfg : TilingConfig) :
  wf_csr X -> W_rows = ncols X -> 0 <= W_cols ->
  zlen W = W_rows * W_cols ->
  0 < tile_rows cfg -> 0 < tile_cols cfg ->
  spmm_tiled X W W_rows W_cols cfg
  = (Y <- spmm_baseline X W W_rows W_cols ;;
     Ok (Y, ceil_div (nrows X) (tile_rows cfg)
            * ceil_div (ncols X) (tile_cols cfg)))
  /\ spmm_baseline X W W_rows W_cols = Ok (spmm_spec X W W_cols).
Proof.
  intros Hwf -> HN HW HTR HTC.
  rewrite (spmm_baseline_spec X W W_cols Hwf HN HW). cbn [bind].
  split; [| reflexivity].
  now apply spmm_tiled_returns.
Qed.

Lemma spmm_tiled_equals_baseline_witness :
  spmm_tiled X_example W_example 4 2 cfg_2x2
  = (Y <- spmm_baseline X_example W_example 4 2 ;;
     Ok (Y, ceil_div (nrows X_example) (tile_rows cfg_2x2)
            * ceil_div (ncols X_example) (tile_cols cfg_2x2)))
  /\ spmm_baseline X_example W_example 4 2
     = Ok (spmm_spec X_example W_example 2).
Proof.
  apply (spmm_tiled_equals_baseline X_example W_example 4 2 cfg_2x2).
  - apply check_csr_sound. reflexivity.
  - reflexivity.
  - lia.
  - reflexivity.
  - reflexivity.
  - reflexivity.
Defined.

(** * More compositions *)

Lemma map_inj_on {A B} (f : A -> B) (a b : list A) :
  (forall x y, In x a -> In y b -> f x = f y -> x = y) ->
  map f a = map f b -> a = b.
Proof.
  revert b. induction a as [|x a IH]; intros [|y b] Hinj E;
    try discriminate; [reflexivity |].
  simpl in E. injection E as E1 E2. f_equal.
  - apply Hinj; auto; now left.
  - apply IH; [| exact E2]. intros u v Hu Hv. apply Hinj; now right.
Qed.

Section Inverses.
Context {S : StdSort}.

(** X25: the two row operations are inverse to each other in the other
    order as well: [unpermute_csr_rows] followed by [permute_csr_rows] with
    the same map gives back the matrix, field for field. *)
Theorem unpermute_permute_rows_roundtrip (X : CSR) (row_new2old : list Z) :
  wf_csr X -> is_perm (nrows X) row_new2old ->
  (Xu <- unpermute_csr_rows X row_new2old ;;
   permute_csr_rows Xu row_new2old) = Ok X.
Proof.
  intros Hwf Hpm.
  destruct (unpermute_csr_rows_returns X row_new2old Hwf Hpm)
    as (Xu & -> & Hr & Hc & Hz & Hwfu & Hrows).
  cbn [bind]. rewrite <- Hr in Hpm.
  destruct (permute_csr_rows_returns Xu row_new2old Hwfu Hpm)
    as (X' & -> & Hr' & Hc' & Hz' & Hwf' & Hrows').
  f_equal. apply csr_ext; auto; try congruence.
  intros i Hi. rewrite Hr', Hr in Hi.
  rewrite Hrows' by lia. apply Hrows. lia.
Qed.

Lemma cols_roundtrip_back (X : CSR) (col_new2old : list Z) :
  wf_csr X -> is_perm (ncols X) col_new2old ->
  (Xu <- unpermute_csr_cols X col_new2old ;;
   permute_csr_cols Xu col_new2old) = Ok X.
Proof.
  intros Hwf Hpm.
  destruct (unpermute_csr_cols_returns X col_new2old Hwf Hpm)
    as (Xu & -> & Hr & Hc & Hz & Hwfu & Hrows).
  cbn [bind]. pose proof Hpm as Hpm'. rewrite <- Hc in Hpm'.
  destruct (permute_csr_cols_rows_returns Xu col_new2old Hwfu Hpm')
    as (X' & -> & Hr' & Hc' & Hz' & Hwf' & Hrows').
  f_equal. apply csr_ext; auto; try congruence.
  intros i Hi. rewrite Hr', Hr in Hi.
  assert (Hp : Permutation
                 (map (fun e => (zth 0 col_new2old (fst e), snd e))
                      (row_entries X' i))
                 (map (fun e => (zth 0 col_new2old (fst e), snd e))
                      (row_entries X i))).
  { eapply Permutation_trans; [apply Hrows'; lia | apply Hrows; lia]. }
  apply Permutation_map_inv in Hp. destruct Hp as (l3 & E & Hp3).
  pose proof (wf_row_cols X' Hwf' i ltac:(lia)) as Hc1.
  pose proof (wf_row_cols X Hwf i ltac:(lia)) as Hc2.
  rewrite Forall_forall in Hc1, Hc2.
  assert (El : row_entries X' i = l3).
  { apply (map_inj_on (fun e => (zth 0 col_new2old (fst e), snd e)));
      [| exact E].
    intros [c v] [c' v'] Hx Hy Exy. cbn [fst snd] in Exy.
    injection Exy as E1 E2. f_equal; [| exact E2].
    apply (is_perm_inj _ _ c c' Hpm); auto.
    - specialize (Hc1 _ Hx). cbn [fst] in Hc1. lia.
    - apply (Permutation_in _ (Permutation_sym Hp3)) in Hy.
      specialize (Hc2 _ Hy). cbn [fst] in Hc2. lia. }
  apply sorted_by_col_unique.
  - apply (wf_row_sorted X' Hwf'). lia.
  - apply (wf_row_sorted X Hwf). lia.
  - rewrite El. now apply Permutation_sym.
Qed.

(** X26: the two column operations undo each other, in both orders: the
    matrix that comes back is the one that went in, field for field. *)
Theorem permute_unpermute_cols_roundtrip (X : CSR) (col_new2old : list Z) :
  wf_csr X -> is_perm (ncols X) col_new2old ->
  (Xp <- permute_csr_cols X col_new2old ;;
   unpermute_csr_cols Xp col_new2old) = Ok X /\
  (Xu <- unpermute_csr_cols X col_new2old ;;
   permute_csr_cols Xu col_new2old) = Ok X.
Proof.
  intros Hwf Hpm. split.
  - destruct (cols_roundtrip_returns X col_new2old Hwf Hpm)
      as (Xp & -> & _ & _ & _ & Hback).
    exact Hback.
  - now apply cols_roundtrip_back.
Qed.

(** X27: [permute_csr_cols] and [unpermute_csr_cols] rename the columns and keep
    everything else: row [i] keeps its values; in the result of
    [permute_csr_cols] the entry stored under new column [c] is the entry of
    [X] under column [m c], and [unpermute_csr_cols] stores under [m c] what
    its argument stores under [c]. *)
Theorem csr_cols_renamed (X : CSR) (m : list Z) :
  wf_csr X -> is_perm (ncols X) m ->
  returns (permute_csr_cols X m) (fun Xp =>
    nrows Xp = nrows X /\ ncols Xp = ncols X /\ nnz Xp = nnz X /\
    forall i, 0 <= i < nrows X ->
      Permutation
        (map (fun e => (zth 0 m (fst e), snd e)) (row_entries Xp i))
        (row_entries X i)) /\
  returns (unpermute_csr_cols X m) (fun Xu =>
    nrows Xu = nrows X /\ ncols Xu = ncols X /\ nnz Xu = nnz X /\
    forall i, 0 <= i < nrows X ->
      Permutation
        (row_entries Xu i)
        (map (fun e => (zth 0 m (fst e), snd e)) (row_entries X i))).
Proof.
  intros Hwf Hpm. split.
  - eapply returns_weaken;
      [apply permute_csr_cols_rows_returns; eassumption |].
    cbv beta. tauto.
  - eapply returns_weaken; [apply unpermute_csr_cols_returns; eassumption |].
    cbv beta. tauto.
Qed.

(** X28: the permuted tiled product of the tests: order the rows by count,
    permute them, run [spmm_tiled] on the permuted matrix and put the rows
    of the product back.  The outcome is the product of the baseline on the
    matrix as it was. *)
Theorem permuted_tiled_product (X : CSR) (W : list Z) (W_rows W_cols : Z)
  (cfg : TilingConfig) (descending : bool) :
  wf_csr X -> W_rows = ncols X -> 0 <= W_cols -> zlen W = W_rows * W_cols ->
  0 < tile_rows cfg -> 0 < tile_cols cfg ->
  (nnz_per_row <- compute_nnz_per_row X ;;
   let row_new2old := create_row_new2old nnz_per_row descending in
   X_perm <- permute_csr_rows X row_new2old ;;
   result <- spmm_tiled X_perm W (ncols X_perm) W_cols cfg ;;
   unpermute_rows (fst result) (nrows X) W_cols row_new2old)
  = spmm_baseline X W W_rows W_cols.
Proof.
  intros Hwf -> HN HW HTR HTC.
  pose proof (wf_nrows X Hwf) as Hn.
  rewrite (spmm_baseline_spec X W W_cols Hwf HN HW).
  destruct (compute_nnz_per_row_returns X Hwf) as (cnt & -> & Hcl & _).
  cbn [bind]. cbv zeta.
  set (rm := create_row_new2old cnt descending).
  assert (Hrm : is_perm (nrows X) rm).
  { rewrite <- Hcl. apply create_row_new2old_perm. }
  destruct (permute_csr_rows_returns X rm Hwf Hrm)
    as (Xr & -> & Hr & Hc & Hz & Hwfr & Hrows).
  cbn [bind].
  rewrite (spmm_tiled_returns Xr W W_cols Hwfr HN) by (auto; congruence).
  cbn [bind fst].
  apply unpermute_rows_spec; auto.
  - rewrite zlen_spmm_spec; [now rewrite Hr | lia | lia].
  - intros i j Hi Hj. rewrite zth_spmm_spec by lia.
    now rewrite Hrows.
Qed.

End Inverses.

Lemma unpermute_permute_rows_roundtrip_witness :
  (Xu <- @unpermute_csr_rows stable_std_sort X_example [2; 0; 3; 1] ;;
   @permute_csr_rows stable_std_sort Xu [2; 0; 3; 1]) = Ok X_example.
Proof.
  apply (@unpermute_permute_rows_roundtrip stable_std_sort X_example
           [2; 0; 3; 1]).
  - apply check_csr_sound. reflexivity.
  - apply check_perm_sound. reflexivity.
Defined.

Lemma permute_unpermute_cols_roundtrip_witness :
  (Xp <- @permute_csr_cols stable_std_sort X_example [1; 3; 0; 2] ;;
   @unpermute_csr_cols stable_std_sort Xp [1; 3; 0; 2]) = Ok X_example /\
  (Xu <- @unpermute_csr_cols stable_std_sort X_example [1; 3; 0; 2] ;;
   @permute_csr_cols stable_std_sort Xu [1; 3; 0; 2]) = Ok X_example.
Proof.
  apply (@permute_unpermute_cols_roundtrip stable_std_sort X_example
           [1; 3; 0; 2]).
  - apply check_csr_sound. reflexivity.
  - apply check_perm_sound. reflexivity.
Defined.

Lemma csr_cols_renamed_witness :
  returns (@permute_csr_cols stable_std_sort X_example [1; 3; 0; 2])
    (fun Xp =>
       nrows Xp = nrows X_example /\ ncols Xp = ncols X_example /\
       nnz Xp = nnz X_example /\
       forall i, 0 <= i < nrows X_example ->
         Permutation
           (map (fun e => (zth 0 [1; 3; 0; 2] (fst e), snd e))
                (row_entries Xp i))
           (row_entries X_example i)) /\
  returns (@unpermute_csr_cols stable_std_sort X_example [1; 3; 0; 2])
    (fun Xu =>
       nrows Xu = nrows X_example /\ ncols Xu = ncols X_example /\
       nnz Xu = nnz X_example /\
       forall i, 0 <= i < nrows X_example ->
         Permutation
           (row_entries Xu i)
           (map (fun e => (zth 0 [1; 3; 0; 2] (fst e), snd e))
                (row_entries X_example i))).
Proof.
  apply (@csr_cols_renamed stable_std_sort X_example [1; 3; 0; 2]).
  - apply check_csr_sound. reflexivity.
  - apply check_perm_sound. reflexivity.
Defined.

Lemma permuted_tiled_product_witness :
  (nnz_per_row <- compute_nnz_per_row X_example ;;
   let row_new2old := @create_row_new2old stable_std_sort nnz_per_row true in
   X_perm <- @permute_csr_rows stable_std_sort X_example row_new2old ;;
   result <- spmm_tiled X_perm W_example (ncols X_perm) 2 cfg_2x2 ;;
   unpermute_rows (fst result) (nrows X_example) 2 row_new2old)
  = spmm_baseline X_example W_example 4 2.
Proof.
  apply (@permuted_tiled_product stable_std_sort X_example W_example 4 2
           cfg_2x2 true).
  - apply check_csr_sound. reflexivity.
  - reflexivity.
  - lia.
  - reflexivity.
  - reflexivity.
  - reflexivity.
Defined.

(** * The guard of [extract_tile_W] *)

(** X29: [extract_tile_W] copies the rows of [W] that the tile's columns name
    and leaves zero the rows that [W] does not have: it reads nothing outside
    [W], whatever the bounds of the tile. *)
Theorem extract_tile_W_guarded (W : list Z) (W_rows W_cols : Z)
  (tile : Tile) :
  0 <= W_cols -> zlen W = W_rows * W_cols ->
  col_start tile <= col_end tile ->
  returns (extract_tile_W W W_rows W_cols tile) (fun W_tile =>
    zlen W_tile = (col_end tile - col_start tile) * W_cols /\
    forall i j, 0 <= i < col_end tile - col_start tile -> 0 <= j < W_cols ->
      zth 0 W_tile (i * W_cols + j)
      = if (0 <=? col_start tile + i) && (col_start tile + i <? W_rows)
        then zth 0 W ((col_start tile + i) * W_cols + j)
        else 0).
Proof.
  intros HN HW Hc.
  unfold extract_tile_W. cbv zeta.
  rewrite valloc_ok by nia. cbn [bind].
  eapply returns_weaken.
  - apply (rows_update_returns _ (fun i => i)
             (fun i j y =>
                if (0 <=? col_start tile + i) && (col_start tile + i <? W_rows)
                then zth 0 W ((col_start tile + i) * W_cols + j)
                else y)
             (col_end tile - col_start tile) W_cols
             ((col_end tile - col_start tile) * W_cols)); try lia.
    + rewrite zlen_repeat; nia.
    + intros i Hi. nia.
    + intros i a Hi Ha. rewrite Z.geb_leb.
      destruct ((0 <=? col_start tile + i) && (col_start tile + i <? W_rows))
        eqn:E.
      * apply andb_prop in E.
        apply (row_update_returns _
                 (fun j _ => zth 0 W ((col_start tile + i) * W_cols + j))
                 (i * W_cols) W_cols
                 ((col_end tile - col_start tile) * W_cols) a);
          [lia | nia | exact Ha | nia |].
        intros j a' Hj Ha'.
        rewrite (vget_ok 0) by nia. cbn [bind]. reflexivity.
      * apply returns_ok. split; [exact Ha |]. split; reflexivity.
  - cbv beta. intros Wt (HWt & Hrows & _). split; [exact HWt |].
    intros i j Hi Hj. rewrite Hrows by lia.
    destruct ((0 <=? col_start tile + i) && (col_start tile + i <? W_rows));
      [reflexivity | apply zth_repeat].
Qed.

Lemma extract_tile_W_guarded_witness :
  returns (extract_tile_W W_example 4 2 (mk_tile 0 2 3 6)) (fun W_tile =>
    zlen W_tile = (6 - 3) * 2 /\
    forall i j, 0 <= i < 6 - 3 -> 0 <= j < 2 ->
      zth 0 W_tile (i * 2 + j)
      = if (0 <=? 3 + i) && (3 + i <? 4)
        then zth 0 W_example ((3 + i) * 2 + j)
        else 0).
Proof.
  apply (extract_tile_W_guarded W_example 4 2 (mk_tile 0 2 3 6)).
  - lia.
  - reflexivity.
  - cbn. lia.
Defined.

(** * [permute_csr_rows] with an entry out of range *)

(** X30: [permute_csr_rows] is the one operation that does not test the
    entries of its map.  On a well-formed matrix, every map of the right
    length with an entry outside [0, nrows) makes it read [X.indptr] at an
    index outside the vector before any check of that entry: undefined
    behaviour, the outcome [Undef] of the model.  What a build does after
    that read is not determined. *)
Theorem permute_csr_rows_reads_out_of_bounds (S : StdSort) (X : CSR)
  (row_new2old : list Z) :
  wf_csr X -> zlen row_new2old = nrows X ->
  (exists i, 0 <= i < nrows X /\ ~ (0 <= zth 0 row_new2old i < nrows X)) ->
  permute_csr_rows X row_new2old = Undef.
Proof. apply permute_csr_rows_entry_out_of_range. Qed.

Lemma permute_csr_rows_reads_out_of_bounds_witness :
  @permute_csr_rows stable_std_sort X_example [0; 5; 1; 2] = Undef.
Proof.
  apply (permute_csr_rows_reads_out_of_bounds stable_std_sort X_example
           [0; 5; 1; 2]).
  - apply check_csr_sound. reflexivity.
  - reflexivity.
  - exists 1. split; [cbn; lia |]. vm_compute. intros [_ H]. discriminate H.
Defined.
